(** * PAL3patch: the byte vector (bytevector.c) and the UTF-8/UTF-16
      converters (wstr.c), embedded in Rocq.

    The byte vector is stateful C code over three pointers and the C
    allocator.  It is modelled in a state-and-error monad over a memory
    of [struct bvec] objects and allocated blocks; pointers are a block
    and an offset.  The build modelled is the release build
    ([BVEC_DEBUG] undefined): [bvec_dbgassert] expands to nothing. *)

From Stdlib Require Import ZArith Lia List String.
From stdpp Require Import base tactics option list gmap.
From Equations Require Import Equations.

Local Open Scope Z_scope.

Module ByteVector.

(** ** Machine integers and pointers *)

(** [size_t] has 32 bits on the target (the self-test of bytevector.c
    assumes a 4-byte pointer); unsigned arithmetic wraps around. *)
Definition SIZE_BITS : Z := 32.
Definition SIZE_MOD : Z := 2 ^ SIZE_BITS.
Definition size_t (x : Z) : Z := x mod SIZE_MOD.
Arguments SIZE_MOD : simpl never.
Arguments size_t : simpl never.

(** An allocated block is named by a [positive]; a pointer is [NULL] or
    an offset into a block. *)
Inductive ptr : Type :=
| NULL
| Ptr (b : positive) (ofs : Z).

#[global] Instance ptr_eq_dec : EqDecision ptr.
Proof. solve_decision. Defined.

(** Modelled from the spec: the macro [PTRADD] of common.h (pointer plus
    a byte count).  [NULL + 0] is [NULL]; any other arithmetic on [NULL]
    has no meaning. *)
Definition PTRADD (p : ptr) (n : Z) : option ptr :=
  match p with
  | NULL => if decide (n = 0) then Some NULL else None
  | Ptr b o => Some (Ptr b (o + n))
  end.

(** Modelled from the spec: the macro [PTRSUB] of common.h (the distance
    in bytes between two pointers, [end - begin]), as a [size_t].  It has
    a meaning for two pointers into one block, and for two [NULL]s. *)
Definition PTRSUB (p q : ptr) : option Z :=
  match p, q with
  | NULL, NULL => Some 0
  | Ptr b o, Ptr b' o' => if decide (b = b') then Some (size_t (o - o')) else None
  | _, _ => None
  end.

(** [struct bvec] (declared in common.h): three pointers. *)
Record bvec : Type := Bvec { begin : ptr; end_ : ptr; capacity : ptr }.

(** ** Memory *)

(** A call of the allocator, recorded in the order the calls are made. *)
Inductive call : Type :=
| Realloc (p : ptr) (n : Z)
| Free (p : ptr).

(** The memory: the [struct bvec] objects that were written, by address;
    the live blocks with their bytes; the name of the next block; the
    allocator calls so far. *)
Record mem : Type := Mem {
  vecs : gmap positive bvec;
  blocks : gmap positive (list Z);
  next_block : positive;
  calls : list call
}.

(** The outcome of running a piece of code. *)
Inductive res (A : Type) : Type :=
| Ret (a : A) (m : mem)      (* it returns *)
| Fatal (msg : string)       (* [fail]: the process quits with a message *)
| Undef                      (* behaviour that C leaves undefined *)
| OutOfTurns.                (* a loop of the model ran out of its bound *)
Arguments Ret {A} a m.
Arguments Fatal {A} msg.
Arguments Undef {A}.
Arguments OutOfTurns {A}.

Definition M (A : Type) : Type := mem → res A.

#[global] Instance M_ret : MRet M := λ A a m, Ret a m.
#[global] Instance M_bind : MBind M := λ A B f c m,
  match c m with
  | Ret a m' => f a m'
  | Fatal msg => Fatal msg
  | Undef => Undef
  | OutOfTurns => OutOfTurns
  end.

Definition undef {A} : M A := λ _, Undef.
Definition fatal {A} (msg : string) : M A := λ _, Fatal msg.
Definition out_of_turns {A} : M A := λ _, OutOfTurns.

(** An operation that has no meaning on some inputs is undefined there. *)
Definition defined {A} (o : option A) : M A :=
  match o with Some a => mret a | None => undef end.

(** [bvec_assert]: the error handler, "must quit".  [fail] (declared in
    common.h) prints and quits; the outcome keeps the message of the
    assertion. *)
Definition bvec_assert (expr : bool) (message : string) : M unit :=
  if expr then mret tt else fatal message.

(** Reading and writing a [struct bvec] through a pointer to it.  A
    struct that was never written cannot be read. *)
Definition load_vec (v : positive) : M bvec :=
  λ m, match vecs m !! v with Some bv => Ret bv m | None => Undef end.

Definition store_vec (v : positive) (bv : bvec) : M unit :=
  λ m, Ret tt (Mem (<[v := bv]> (vecs m)) (blocks m) (next_block m) (calls m)).

(** ** The C library *)

Section Code.

(** What the C standard leaves to the allocator: whether [realloc]
    finds memory, given the live blocks, the old pointer and the byte
    count (for a count of zero: whether it returns a pointer to a block
    of no bytes rather than [NULL]), and what the bytes that were never
    written hold. *)
Variable alloc_ok : gmap positive (list Z) → ptr → Z → bool.
Variable junk : Z.

(** The constants of common.h that bytevector.c starts its capacities
    from. *)
Variable BVEC_DEFAULT_CAPACITY : Z.
Variable BVEC_DEFAULT_PRINTF_BUFSIZE : Z.

(** The block a pointer handed to [free] or [realloc] names: nothing
    for [NULL], a live block for a pointer to its start. *)
Definition owned_block (m : mem) (p : ptr) : option (list Z) :=
  match p with
  | NULL => Some []
  | Ptr b o => if decide (o = 0) then blocks m !! b else None
  end.

Definition release (p : ptr) (bs : gmap positive (list Z)) : gmap positive (list Z) :=
  match p with
  | NULL => bs
  | Ptr b _ => delete b bs
  end.

Definition free (p : ptr) : M unit := λ m,
  match owned_block m p with
  | None => Undef
  | Some _ => Ret tt (Mem (vecs m) (release p (blocks m)) (next_block m) (calls m ++ [Free p]))
  end.

(** [realloc(p, n)].  On success the old block is released and a new
    block holds the first [n] bytes of the old one, then junk.  When no
    block is returned the result is [NULL]: for [n = 0] the old block
    has been released, otherwise it stays. *)
Definition realloc (p : ptr) (n : Z) : M ptr := λ m,
  match owned_block m p with
  | None => Undef
  | Some old =>
    let log := calls m ++ [Realloc p n] in
    if alloc_ok (blocks m) p n then
      let b := next_block m in
      Ret (Ptr b 0)
          (Mem (vecs m) (<[b := resize (Z.to_nat n) junk old]> (release p (blocks m)))
               (Pos.succ b) log)
    else if decide (n = 0) then
      Ret NULL (Mem (vecs m) (release p (blocks m)) (next_block m) log)
    else
      Ret NULL (Mem (vecs m) (blocks m) (next_block m) log)
  end.

(** Reading [n] bytes at a pointer: inside one live block. *)
Definition load_bytes (m : mem) (p : ptr) (n : Z) : option (list Z) :=
  match p with
  | NULL => None
  | Ptr b o =>
    match blocks m !! b with
    | Some l =>
      if decide (0 ≤ o ∧ 0 ≤ n ∧ o + n ≤ Z.of_nat (length l))
      then Some (take (Z.to_nat n) (drop (Z.to_nat o) l))
      else None
    | None => None
    end
  end.

(** Writing bytes at a pointer: inside one live block. *)
Definition store_bytes (p : ptr) (bytes : list Z) : M unit := λ m,
  match p with
  | NULL => Undef
  | Ptr b o =>
    match blocks m !! b with
    | Some l =>
      if decide (0 ≤ o ∧ o + Z.of_nat (length bytes) ≤ Z.of_nat (length l))
      then Ret tt (Mem (vecs m)
                       (<[b := take (Z.to_nat o) l ++ bytes
                                 ++ drop (Z.to_nat o + length bytes) l]> (blocks m))
                       (next_block m) (calls m))
      else Undef
    | None => Undef
    end
  end.

(** Two byte ranges of [n] bytes overlap. *)
Definition overlap (p q : ptr) (n : Z) : bool :=
  match p, q with
  | Ptr b o, Ptr b' o' => bool_decide (b = b' ∧ o < o' + n ∧ o' < o + n)
  | _, _ => false
  end.

(** [memcpy(dest, src, n)]: the ranges must be readable, writable, and
    must not overlap. *)
Definition memcpy (dest src : ptr) (n : Z) : M unit := λ m,
  match load_bytes m src n with
  | Some bytes => if overlap dest src n then Undef else store_bytes dest bytes m
  | None => Undef
  end.

(** ** bytevector.c: basic interface *)

Definition bvec_ctor (v : positive) : M unit :=
  store_vec v (Bvec NULL NULL NULL).

Definition bvec_dtor (v : positive) : M unit :=
  bv ← load_vec v;
  free (begin bv).

Definition bvec_clear (v : positive) : M unit :=
  bv ← load_vec v;
  store_vec v (Bvec (begin bv) (begin bv) (capacity bv)).

Definition bvec_fclear (v : positive) : M unit :=
  bvec_dtor v;;
  bvec_ctor v.

Definition bvec_bdata (v : positive) : M ptr :=
  bv ← load_vec v; mret (begin bv).

Definition bvec_bbegin (v : positive) : M ptr :=
  bv ← load_vec v; mret (begin bv).

Definition bvec_bend (v : positive) : M ptr :=
  bv ← load_vec v; mret (end_ bv).

Definition bvec_bsize (v : positive) : M Z :=
  bv ← load_vec v; defined (PTRSUB (end_ bv) (begin bv)).

Definition bvec_empty (v : positive) : M bool :=
  n ← bvec_bsize v; mret (bool_decide (n = 0)).

Definition bvec_bcapacity (v : positive) : M Z :=
  bv ← load_vec v; defined (PTRSUB (capacity bv) (begin bv)).

Definition bvec_brealloc (v : positive) (capacity : Z) : M unit :=
  size ← bvec_bsize v;
  bv ← load_vec v;
  buffer ← realloc (begin bv) capacity;
  bvec_assert (bool_decide (buffer ≠ NULL) || bool_decide (capacity = 0)) "out of memory";;
  e ← defined (PTRADD buffer size);
  c ← defined (PTRADD buffer capacity);
  store_vec v (Bvec buffer e c).

(** The loop of [bvec_shrink]:
    [while (capacity && capacity / 2 >= size) capacity /= 2;] *)
Fixpoint shrink_loop (fuel : nat) (capacity size : Z) : option Z :=
  if bool_decide (capacity ≠ 0) && bool_decide (size ≤ capacity / 2) then
    match fuel with
    | O => None
    | S fuel' => shrink_loop fuel' (capacity / 2) size
    end
  else Some capacity.

(** A [size_t] that is halved, or doubled without wrapping, changes at
    most [SIZE_BITS] times; the loops on capacities get one more turn
    than that. *)
Definition LOOP_BOUND : nat := 33.

Definition bvec_shrink (v : positive) : M unit :=
  size ← bvec_bsize v;
  capacity ← bvec_bcapacity v;
  match shrink_loop LOOP_BOUND capacity size with
  | Some capacity' => bvec_brealloc v capacity'
  | None => out_of_turns
  end.

(** The loop of [bvec_breserve]: double until the capacity suffices;
    a doubling that wraps is fatal. *)
Fixpoint reserve_loop (fuel : nat) (new_capacity size : Z) : M Z :=
  if bool_decide (new_capacity < size) then
    match fuel with
    | O => out_of_turns
    | S fuel' =>
      bvec_assert (bool_decide (new_capacity < size_t (new_capacity * 2))) "integer overflow";;
      reserve_loop fuel' (size_t (new_capacity * 2)) size
    end
  else mret new_capacity.

Definition bvec_breserve (v : positive) (size : Z) : M unit :=
  old_capacity ← bvec_bcapacity v;
  new_capacity ← reserve_loop LOOP_BOUND
    (if bool_decide (old_capacity ≠ 0) then old_capacity else BVEC_DEFAULT_CAPACITY) size;
  if bool_decide (old_capacity < new_capacity) then bvec_brealloc v new_capacity
  else mret tt.

Definition bvec_bresize (v : positive) (size : Z) : M unit :=
  old_size ← bvec_bsize v;
  (if bool_decide (old_size < size) then bvec_breserve v size else mret tt);;
  bv ← load_vec v;
  e ← defined (PTRADD (begin bv) size);
  store_vec v (Bvec (begin bv) e (capacity bv)).

Definition bvec_bpush (v : positive) (data : ptr) (size : Z) : M unit :=
  if bool_decide (size ≠ 0) then
    old_size ← bvec_bsize v;
    let new_size := size_t (old_size + size) in
    bvec_assert (bool_decide (old_size < new_size)) "interger overflow";;
    bvec_bresize v new_size;;
    bv ← load_vec v;
    dest ← defined (PTRADD (begin bv) old_size);
    memcpy dest data size
  else mret tt.

Definition bvec_vpush (dst src : positive) : M unit :=
  data ← bvec_bdata src;
  size ← bvec_bsize src;
  bvec_bpush dst data size.

Definition bvec_bpop (v : positive) (size : Z) : M unit :=
  if bool_decide (size ≠ 0) then
    old_size ← bvec_bsize v;
    let new_size := size_t (old_size - size) in
    bvec_assert (bool_decide (new_size < old_size)) "interger underflow";;
    bvec_bresize v new_size
  else mret tt.

Definition bvec_bctor (v : positive) (data : ptr) (size : Z) : M unit :=
  bvec_ctor v;;
  bvec_bpush v data size.

Definition bvec_vctor (v src : positive) : M unit :=
  bvec_ctor v;;
  bvec_vpush v src.

Definition bvec_copy (dst src : positive) : M unit :=
  if bool_decide (dst ≠ src) then
    bvec_dtor dst;;
    bvec_vctor dst src
  else mret tt.

Definition bvec_move (dst src : positive) : M unit :=
  if bool_decide (dst ≠ src) then
    bvec_dtor dst;;
    s ← load_vec src;
    store_vec dst s;;
    bvec_ctor src
  else mret tt.

Definition bvec_swap (a b : positive) : M unit :=
  t ← load_vec a;
  vb ← load_vec b;
  store_vec a vb;;
  store_vec b t.

(** ** The typed view *)

(** The element sizes the string functions use.  [wchar_t] has two
    bytes on the target: the self-test of bytevector.c pushes one and
    counts two bytes. *)
Definition SIZEOF_CHAR : Z := 1.
Definition SIZEOF_WCHAR_T : Z := 2.

(** An element of [sz] bytes, least significant byte first (the
    self-test assumes little endian). *)
Fixpoint le_encode (sz : nat) (x : Z) : list Z :=
  match sz with
  | O => []
  | S sz' => x mod 256 :: le_encode sz' (x / 256)
  end.

Fixpoint le_decode (bytes : list Z) : Z :=
  match bytes with
  | [] => 0
  | b :: bytes' => b + 256 * le_decode bytes'
  end.

(** [p[i]] for a pointer to elements of [sz] bytes: read and write. *)
Definition load_elem (p : ptr) (i sz : Z) : M Z := λ m,
  match PTRADD p (i * sz) with
  | Some q =>
    match load_bytes m q sz with
    | Some bytes => Ret (le_decode bytes) m
    | None => Undef
    end
  | None => Undef
  end.

Definition store_elem (p : ptr) (i sz : Z) (x : Z) : M unit :=
  q ← defined (PTRADD p (i * sz));
  store_bytes q (le_encode (Z.to_nat sz) x).

(** Modelled from the spec: the macros of the typed view (declared in
    common.h), section 4.2: the element count is byte-size / sizeof(T),
    resize-in-elements resizes to count × sizeof(T), push-array appends
    count × sizeof(T) bytes, pop-back truncates by sizeof(T), back is
    the element at index count - 1; the products are [size_t]
    arithmetic. *)
Definition bvec_tdata (v : positive) : M ptr := bvec_bdata v.

Definition bvec_tsize (v : positive) (sz : Z) : M Z :=
  n ← bvec_bsize v; mret (n / sz).

Definition bvec_tresize (v : positive) (n sz : Z) : M unit :=
  bvec_bresize v (size_t (n * sz)).

Definition bvec_tpush (v : positive) (data : ptr) (n sz : Z) : M unit :=
  bvec_bpush v data (size_t (n * sz)).

Definition bvec_tpopback (v : positive) (sz : Z) : M unit :=
  bvec_bpop v sz.

Definition bvec_tat (v : positive) (n sz : Z) : M Z :=
  data ← bvec_tdata v; load_elem data n sz.

Definition bvec_tback (v : positive) (sz : Z) : M Z :=
  n ← bvec_tsize v sz; bvec_tat v (size_t (n - 1)) sz.

(** ** bytevector.c: values *)

(** A local variable whose address is taken: a block of its own for
    the time of the call. *)
Definition with_local {A} (bytes : list Z) (k : ptr → M A) : M A := λ m,
  let b := next_block m in
  match k (Ptr b 0) (Mem (vecs m) (<[b := bytes]> (blocks m)) (Pos.succ b) (calls m)) with
  | Ret a m' => Ret a (Mem (vecs m') (delete b (blocks m')) (next_block m') (calls m'))
  | Fatal msg => Fatal msg
  | Undef => Undef
  | OutOfTurns => OutOfTurns
  end.

Definition bvec_push_char (v : positive) (val : Z) : M unit :=
  with_local (le_encode (Z.to_nat SIZEOF_CHAR) val) (λ p, bvec_bpush v p SIZEOF_CHAR).

Definition bvec_push_wchar (v : positive) (val : Z) : M unit :=
  with_local (le_encode (Z.to_nat SIZEOF_WCHAR_T) val) (λ p, bvec_bpush v p SIZEOF_WCHAR_T).

(** ** bytevector.c: strings *)

(** The elements of [sz] bytes that a byte sequence holds. *)
Fixpoint elements_of (n : nat) (sz : nat) (l : list Z) : list Z :=
  match n with
  | O => []
  | S n' => le_decode (take sz l) :: elements_of n' sz (drop sz l)
  end.

(** The index of the first zero of a list. *)
Fixpoint first_zero (l : list Z) : option Z :=
  match l with
  | [] => None
  | x :: l' => if decide (x = 0) then Some 0 else Z.succ <$> first_zero l'
  end.

(** [strlen] and [wcslen]: the elements before the terminator; a string
    that runs to the end of its block without one has no length. *)
Definition string_length (p : ptr) (sz : Z) : M Z := λ m,
  match p with
  | NULL => Undef
  | Ptr b o =>
    match blocks m !! b with
    | Some l =>
      if decide (0 ≤ o ≤ Z.of_nat (length l)) then
        let bytes := drop (Z.to_nat o) l in
        match first_zero (elements_of (length bytes / Z.to_nat sz) (Z.to_nat sz) bytes) with
        | Some n => Ret n m
        | None => Undef
        end
      else Undef
    | None => Undef
    end
  end.

Definition strlen (p : ptr) : M Z := string_length p SIZEOF_CHAR.
Definition wcslen (p : ptr) : M Z := string_length p SIZEOF_WCHAR_T.

Definition bvec_getstr (v : positive) : M ptr :=
  e ← bvec_empty v;
  (if (e : bool) then bvec_push_char v 0
   else c ← bvec_tback v SIZEOF_CHAR;
        if bool_decide (c ≠ 0) then bvec_push_char v 0 else mret tt);;
  bvec_tdata v.

Definition bvec_strshrink (v : positive) : M unit :=
  data ← bvec_tdata v;
  n ← strlen data;
  bvec_tresize v (size_t (n + 1)) SIZEOF_CHAR;;
  bvec_shrink v.

Definition bvec_getwcs (v : positive) : M ptr :=
  e ← bvec_empty v;
  (if (e : bool) then bvec_push_wchar v 0
   else c ← bvec_tback v SIZEOF_WCHAR_T;
        if bool_decide (c ≠ 0) then bvec_push_wchar v 0 else mret tt);;
  bvec_tdata v.

Definition bvec_wcsshrink (v : positive) : M unit :=
  data ← bvec_tdata v;
  n ← wcslen data;
  bvec_tresize v (size_t (n + 1)) SIZEOF_WCHAR_T;;
  bvec_shrink v.

(** What [bvec_getstr] and [bvec_getwcs] have in common, for an element
    of [sz] bytes: the two are this code at [SIZEOF_CHAR] and at
    [SIZEOF_WCHAR_T], and are reasoned about through it. *)
Definition get_terminated (sz : Z) (v : positive) : M ptr :=
  e ← bvec_empty v;
  (if (e : bool) then
     with_local (le_encode (Z.to_nat sz) 0) (λ p, bvec_bpush v p sz)
   else c ← bvec_tback v sz;
        if bool_decide (c ≠ 0) then
          with_local (le_encode (Z.to_nat sz) 0) (λ p, bvec_bpush v p sz)
        else mret tt);;
  bvec_tdata v.

(** ** bytevector.c: printf *)

(** [vsnprintf] and [vsnwprintf] are the platform's.  A format string
    with its arguments is taken as what the formatter writes for each
    buffer size, [fmt bufsize]; a bounded formatter writes no more than
    [bufsize] elements. *)
Definition bounded_format (buf : ptr) (bufsize : Z) (fmt : Z → list Z) (sz : Z) : M unit :=
  let out := take (Z.to_nat bufsize) (fmt bufsize) in
  match out with
  | [] => mret tt
  | _ => store_bytes buf (concat (map (le_encode (Z.to_nat sz)) out))
  end.

Definition vsnprintf (buf : ptr) (bufsize : Z) (fmt : Z → list Z) : M unit :=
  bounded_format buf bufsize fmt SIZEOF_CHAR.

Definition vsnwprintf (buf : ptr) (bufsize : Z) (fmt : Z → list Z) : M unit :=
  bounded_format buf bufsize fmt SIZEOF_WCHAR_T.

(** The [while (1)] loop of [bvec_vprintf], on the local buffer [r]. *)
Fixpoint vprintf_loop (fuel : nat) (fmt : Z → list Z) (r : positive) : M unit :=
  match fuel with
  | O => out_of_turns
  | S fuel' =>
    buf ← bvec_tdata r;
    bufsize ← bvec_tsize r SIZEOF_CHAR;
    vsnprintf buf bufsize fmt;;
    store_elem buf (size_t (bufsize - 1)) SIZEOF_CHAR 0;;
    n ← strlen buf;
    if bool_decide (n < size_t (bufsize - 1)) then (mret tt : M unit)
    else
      bvec_assert (bool_decide (bufsize < size_t (bufsize * 2))) "integer overflow";;
      bvec_tresize r (size_t (bufsize * 2)) SIZEOF_CHAR;;
      vprintf_loop fuel' fmt r
  end.

(** [bvec_vprintf]; the result is left in [r], the local it returns by
    value. *)
Definition bvec_vprintf (fuel : nat) (fmt : Z → list Z) (r : positive) : M unit :=
  bvec_ctor r;;
  bvec_tresize r BVEC_DEFAULT_PRINTF_BUFSIZE SIZEOF_CHAR;;
  vprintf_loop fuel fmt r;;
  bvec_strshrink r.

Fixpoint vwprintf_loop (fuel : nat) (fmt : Z → list Z) (r : positive) : M unit :=
  match fuel with
  | O => out_of_turns
  | S fuel' =>
    buf ← bvec_tdata r;
    bufsize ← bvec_tsize r SIZEOF_WCHAR_T;
    vsnwprintf buf bufsize fmt;;
    store_elem buf (size_t (bufsize - 1)) SIZEOF_WCHAR_T 0;;
    n ← wcslen buf;
    if bool_decide (n < size_t (bufsize - 1)) then (mret tt : M unit)
    else
      bvec_assert (bool_decide (bufsize < size_t (bufsize * 2))) "integer overflow";;
      bvec_tresize r (size_t (bufsize * 2)) SIZEOF_WCHAR_T;;
      vwprintf_loop fuel' fmt r
  end.

Definition bvec_vwprintf (fuel : nat) (fmt : Z → list Z) (r : positive) : M unit :=
  bvec_ctor r;;
  bvec_tresize r BVEC_DEFAULT_PRINTF_BUFSIZE SIZEOF_WCHAR_T;;
  vwprintf_loop fuel fmt r;;
  bvec_wcsshrink r.

(** What the two loops have in common, for an element of [sz] bytes:
    they are this loop at [SIZEOF_CHAR] and at [SIZEOF_WCHAR_T], and
    are reasoned about through it. *)
Fixpoint printf_loop (sz : Z) (fuel : nat) (fmt : Z → list Z) (r : positive) : M unit :=
  match fuel with
  | O => out_of_turns
  | S fuel' =>
    buf ← bvec_tdata r;
    bufsize ← bvec_tsize r sz;
    bounded_format buf bufsize fmt sz;;
    store_elem buf (size_t (bufsize - 1)) sz 0;;
    n ← string_length buf sz;
    if bool_decide (n < size_t (bufsize - 1)) then (mret tt : M unit)
    else
      bvec_assert (bool_decide (bufsize < size_t (bufsize * 2))) "integer overflow";;
      bvec_tresize r (size_t (bufsize * 2)) sz;;
      printf_loop sz fuel' fmt r
  end.

(** ** More of the typed view, and the other values *)

(** Modelled from the spec: the macro [bvec_tctor] of common.h, section
    4.2: construct-from-array(data, count) is construct-from-bytes(data,
    count × sizeof(T)). *)
Definition bvec_tctor (v : positive) (data : ptr) (n sz : Z) : M unit :=
  bvec_bctor v data (size_t (n * sz)).

(** [int] and [unsigned] have four bytes on the target: the self-test
    of bytevector.c pushes one of each and counts eight bytes. *)
Definition SIZEOF_INT : Z := 4.
Definition SIZEOF_UNSIGNED : Z := 4.

Definition bvec_push_int (v : positive) (val : Z) : M unit :=
  with_local (le_encode (Z.to_nat SIZEOF_INT) val) (λ p, bvec_bpush v p SIZEOF_INT).

Definition bvec_push_unsigned (v : positive) (val : Z) : M unit :=
  with_local (le_encode (Z.to_nat SIZEOF_UNSIGNED) val) (λ p, bvec_bpush v p SIZEOF_UNSIGNED).

(** ** bytevector.c: more strings *)

(** The loop of [bvec_strncat] and [bvec_wcsncat]:
    [for (l = 0; l < n && str[l]; l++);] *)
Fixpoint strncat_loop (fuel : nat) (str : ptr) (sz n l : Z) : M Z :=
  if bool_decide (l < n) then
    c ← load_elem str l sz;
    if bool_decide (c ≠ 0) then
      match fuel with
      | O => out_of_turns
      | S fuel' => strncat_loop fuel' str sz n (size_t (l + 1))
      end
    else mret l
  else mret l.

Definition bvec_strctor (v : positive) (str : ptr) : M unit :=
  n ← strlen str;
  bvec_tctor v str (size_t (n + 1)) SIZEOF_CHAR.

Definition bvec_strcat (v : positive) (str : ptr) : M unit :=
  (e ← bvec_empty v;
   if (e : bool) then mret tt
   else c ← bvec_tback v SIZEOF_CHAR;
        if bool_decide (c = 0) then bvec_tpopback v SIZEOF_CHAR else mret tt);;
  n ← strlen str;
  bvec_tpush v str (size_t (n + 1)) SIZEOF_CHAR.

(** The loop runs at most [n] times. *)
Definition bvec_strncat (v : positive) (str : ptr) (n : Z) : M unit :=
  (e ← bvec_empty v;
   if (e : bool) then mret tt
   else c ← bvec_tback v SIZEOF_CHAR;
        if bool_decide (c = 0) then bvec_tpopback v SIZEOF_CHAR else mret tt);;
  l ← strncat_loop (Z.to_nat n) str SIZEOF_CHAR n 0;
  bvec_tpush v str l SIZEOF_CHAR;;
  bvec_push_char v 0.

Definition bvec_strpushback (v : positive) (c : Z) : M unit :=
  with_local (le_encode (Z.to_nat SIZEOF_CHAR) c ++ le_encode (Z.to_nat SIZEOF_CHAR) 0)
    (λ s, bvec_strcat v s).

Definition bvec_wcsctor (v : positive) (wstr : ptr) : M unit :=
  n ← wcslen wstr;
  bvec_tctor v wstr (size_t (n + 1)) SIZEOF_WCHAR_T.

Definition bvec_wcscat (v : positive) (wstr : ptr) : M unit :=
  (e ← bvec_empty v;
   if (e : bool) then mret tt
   else c ← bvec_tback v SIZEOF_WCHAR_T;
        if bool_decide (c = 0) then bvec_tpopback v SIZEOF_WCHAR_T else mret tt);;
  n ← wcslen wstr;
  bvec_tpush v wstr (size_t (n + 1)) SIZEOF_WCHAR_T.

Definition bvec_wcsncat (v : positive) (wstr : ptr) (n : Z) : M unit :=
  (e ← bvec_empty v;
   if (e : bool) then mret tt
   else c ← bvec_tback v SIZEOF_WCHAR_T;
        if bool_decide (c = 0) then bvec_tpopback v SIZEOF_WCHAR_T else mret tt);;
  l ← strncat_loop (Z.to_nat n) wstr SIZEOF_WCHAR_T n 0;
  bvec_tpush v wstr l SIZEOF_WCHAR_T;;
  bvec_push_wchar v 0.

Definition bvec_wcspushback (v : positive) (c : Z) : M unit :=
  with_local (le_encode (Z.to_nat SIZEOF_WCHAR_T) c ++ le_encode (Z.to_nat SIZEOF_WCHAR_T) 0)
    (λ s, bvec_wcscat v s).

(** What the narrow and the wide string functions have in common, for
    an element of [sz] bytes: each pair is this code at [SIZEOF_CHAR]
    and at [SIZEOF_WCHAR_T], and is reasoned about through it. *)
Definition drop_terminator (sz : Z) (v : positive) : M unit :=
  e ← bvec_empty v;
  if (e : bool) then mret tt
  else c ← bvec_tback v sz;
       if bool_decide (c = 0) then bvec_tpopback v sz else mret tt.

Definition ctor_terminated (sz : Z) (v : positive) (str : ptr) : M unit :=
  n ← string_length str sz;
  bvec_tctor v str (size_t (n + 1)) sz.

Definition cat_terminated (sz : Z) (v : positive) (str : ptr) : M unit :=
  drop_terminator sz v;;
  n ← string_length str sz;
  bvec_tpush v str (size_t (n + 1)) sz.

Definition ncat_terminated (sz : Z) (v : positive) (str : ptr) (n : Z) : M unit :=
  drop_terminator sz v;;
  l ← strncat_loop (Z.to_nat n) str sz n 0;
  bvec_tpush v str l sz;;
  with_local (le_encode (Z.to_nat sz) 0) (λ p, bvec_bpush v p sz).

Definition pushback_terminated (sz : Z) (v : positive) (c : Z) : M unit :=
  with_local (le_encode (Z.to_nat sz) c ++ le_encode (Z.to_nat sz) 0)
    (λ s, cat_terminated sz v s).

Definition shrink_terminated (sz : Z) (v : positive) : M unit :=
  data ← bvec_tdata v;
  n ← string_length data sz;
  bvec_tresize v (size_t (n + 1)) sz;;
  bvec_shrink v.

(** ** bytevector.c: the rest of printf *)

(** What [bvec_vprintf] and [bvec_vwprintf] have in common, for an
    element of [sz] bytes. *)
Definition format_text (sz : Z) (fuel : nat) (fmt : Z → list Z) (r : positive) : M unit :=
  bvec_ctor r;;
  bvec_tresize r BVEC_DEFAULT_PRINTF_BUFSIZE sz;;
  printf_loop sz fuel fmt r;;
  shrink_terminated sz r.

(** [bvec_printf]; [r] is the address of its local [struct bvec]. *)
Definition bvec_printf (fuel : nat) (v : positive) (fmt : Z → list Z) (r : positive)
    : M unit :=
  bvec_vprintf fuel fmt r;;
  bvec_move v r;;
  bvec_dtor r.

Definition bvec_strcat_printf (fuel : nat) (v : positive) (fmt : Z → list Z) (t : positive)
    : M unit :=
  bvec_vprintf fuel fmt t;;
  s ← bvec_getstr t;
  bvec_strcat v s;;
  bvec_dtor t.

Definition bvec_wprintf (fuel : nat) (v : positive) (fmt : Z → list Z) (r : positive)
    : M unit :=
  bvec_vwprintf fuel fmt r;;
  bvec_move v r;;
  bvec_dtor r.

Definition bvec_wcscat_wprintf (fuel : nat) (v : positive) (fmt : Z → list Z) (t : positive)
    : M unit :=
  bvec_vwprintf fuel fmt t;;
  s ← bvec_getwcs t;
  bvec_wcscat v s;;
  bvec_dtor t.

End Code.

(** ** Observations *)

(** The logical size, the capacity and the stored bytes of the buffer
    at [v]. *)
Definition size_of (m : mem) (v : positive) : option Z :=
  bv ← vecs m !! v; PTRSUB (end_ bv) (begin bv).

Definition capacity_of (m : mem) (v : positive) : option Z :=
  bv ← vecs m !! v; PTRSUB (capacity bv) (begin bv).

Definition bytes_of (m : mem) (v : positive) : option (list Z) :=
  bv ← vecs m !! v;
  n ← PTRSUB (end_ bv) (begin bv);
  match begin bv with
  | NULL => Some []
  | Ptr b _ => l ← blocks m !! b; Some (take (Z.to_nat n) l)
  end.

(** Allocators to run the code with.  [like_malloc] always finds
    memory and treats [realloc(NULL, n)] as [malloc(n)], which returns
    a block even for no bytes, while [realloc(p, 0)] frees [p] and
    returns [NULL]; [null_on_zero] returns [NULL] for every request of
    no bytes; [bounded limit] moreover finds no more than [limit]
    bytes. *)
Definition like_malloc : gmap positive (list Z) → ptr → Z → bool :=
  λ _ p n, bool_decide (n ≠ 0 ∨ p = NULL).
Definition null_on_zero : gmap positive (list Z) → ptr → Z → bool :=
  λ _ _ n, bool_decide (n ≠ 0).
Definition bounded (limit : Z) : gmap positive (list Z) → ptr → Z → bool :=
  λ _ _ n, bool_decide (n ≠ 0) && bool_decide (n ≤ limit).

(** Memories to run the code on: nothing; one constructed buffer; a
    buffer of three bytes in a block of four, an empty buffer, and a
    block of two bytes that belongs to no buffer. *)
Definition empty_mem : mem := Mem ∅ ∅ 1%positive [].

Definition constructed_mem : mem :=
  Mem (<[1%positive := Bvec NULL NULL NULL]> ∅) ∅ 1%positive [].

Definition sample_mem : mem :=
  Mem (<[1%positive := Bvec (Ptr 1 0) (Ptr 1 3) (Ptr 1 4)]>
         (<[2%positive := Bvec NULL NULL NULL]> ∅))
      (<[1%positive := [65; 66; 67; 0]]> (<[2%positive := [1; 2]]> ∅))
      3%positive [].

(** A buffer of three bytes in a block of sixteen. *)
Definition roomy_mem : mem :=
  Mem (<[1%positive := Bvec (Ptr 1 0) (Ptr 1 3) (Ptr 1 16)]> ∅)
      (<[1%positive := [65; 66; 67] ++ replicate 13 0]> ∅)
      2%positive [].

(** ** The public operations of the raw buffer *)

Inductive public_op : Type :=
| Construct (v : positive)
| ConstructFromBytes (v : positive) (data : ptr) (size : Z)
| DestroyConstruct (v : positive)
| Clear (v : positive)
| ClearAndFree (v : positive)
| Copy (dst src : positive)
| Move (dst src : positive)
| Swap (a b : positive)
| Reserve (v : positive) (size : Z)
| Resize (v : positive) (size : Z)
| ShrinkToFit (v : positive)
| AppendBytes (v : positive) (data : ptr) (size : Z)
| AppendBuffer (dst src : positive)
| Truncate (v : positive) (size : Z).

Section RunOp.

Variable alloc_ok : gmap positive (list Z) → ptr → Z → bool.
Variable junk : Z.
Variable BVEC_DEFAULT_CAPACITY : Z.

Definition run_op (op : public_op) : M unit :=
  match op with
  | Construct v => bvec_ctor v
  | ConstructFromBytes v data size => bvec_bctor alloc_ok junk BVEC_DEFAULT_CAPACITY v data size
  | DestroyConstruct v => bvec_dtor v;; bvec_ctor v
  | Clear v => bvec_clear v
  | ClearAndFree v => bvec_fclear v
  | Copy dst src => bvec_copy alloc_ok junk BVEC_DEFAULT_CAPACITY dst src
  | Move dst src => bvec_move dst src
  | Swap a b => bvec_swap a b
  | Reserve v size => bvec_breserve alloc_ok junk BVEC_DEFAULT_CAPACITY v size
  | Resize v size => bvec_bresize alloc_ok junk BVEC_DEFAULT_CAPACITY v size
  | ShrinkToFit v => bvec_shrink alloc_ok junk v
  | AppendBytes v data size => bvec_bpush alloc_ok junk BVEC_DEFAULT_CAPACITY v data size
  | AppendBuffer dst src => bvec_vpush alloc_ok junk BVEC_DEFAULT_CAPACITY dst src
  | Truncate v size => bvec_bpop alloc_ok junk BVEC_DEFAULT_CAPACITY v size
  end.

End RunOp.

(** The buffer at [v] has been constructed. *)
Definition live (m : mem) (v : positive) : Prop := is_Some (vecs m !! v).

(** [n] bytes can be read at [data], outside the block of the buffer
    at [v]. *)
Definition readable_outside (m : mem) (v : positive) (data : ptr) (n : Z) : Prop :=
  is_Some (load_bytes m data n) ∧
  ∀ b o bv o', data = Ptr b o → vecs m !! v = Some bv → begin bv ≠ Ptr b o'.

(** What the contracts of section 4.1 ask of the caller: buffers that
    were constructed, byte counts that are [size_t] values, data that
    can be read (it may be [NULL] for no bytes), and no buffer appended
    to itself. *)
Definition op_ready (m : mem) (op : public_op) : Prop :=
  match op with
  | Construct v => True
  | ConstructFromBytes v data size =>
      0 ≤ size < SIZE_MOD ∧ (size ≠ 0 → is_Some (load_bytes m data size))
  | DestroyConstruct v | Clear v | ClearAndFree v | ShrinkToFit v => live m v
  | Copy dst src | Move dst src | Swap dst src => live m dst ∧ live m src
  | Reserve v size | Resize v size | Truncate v size => live m v ∧ 0 ≤ size < SIZE_MOD
  | AppendBytes v data size =>
      live m v ∧ 0 ≤ size < SIZE_MOD ∧ (size ≠ 0 → readable_outside m v data size)
  | AppendBuffer dst src => live m dst ∧ live m src ∧ dst ≠ src
  end.

(** The last element of [sz] bytes of a buffer of [size] bytes whose
    block holds [l]. *)
Definition last_element (sz : Z) (size : Z) (l : list Z) : Z :=
  le_decode (take (Z.to_nat sz) (drop (Z.to_nat (size - sz)) l)).

(** The string in the buffer at [r], seen as elements of [sz] bytes,
    is shorter than the element count minus one: the test that ends
    the loop of [bvec_vprintf] and [bvec_vwprintf]. *)
Definition fits (sz : Z) (r : positive) (m : mem) : Prop :=
  ∃ buf bufsize n,
    bvec_tdata r m = Ret buf m ∧ bvec_tsize r sz m = Ret bufsize m ∧
    string_length buf sz m = Ret n m ∧ n < bufsize - 1.

(** An outcome that is a return to the memory [m], as far as the
    buffer at [v], the blocks and the allocator calls go. *)
Definition leaves_unchanged (m : mem) (v : positive) (r : res unit) : Prop :=
  ∃ m', r = Ret tt m' ∧ m' = m ∧
        size_of m' v = size_of m v ∧ bytes_of m' v = bytes_of m v ∧
        blocks m' = blocks m ∧ calls m' = calls m.

(** The structural invariant holds for every buffer of the memory. *)
Definition all_buffers (P : bvec → Prop) (m : mem) : Prop :=
  ∀ v bv, vecs m !! v = Some bv → P bv.

(** ** Invariants *)

(** Pointer order, as C defines it: inside one block (or between two
    [NULL]s). *)
Definition ptr_le (p q : ptr) : Prop :=
  match p, q with
  | NULL, NULL => True
  | Ptr b o, Ptr b' o' => b = b' ∧ o ≤ o'
  | _, _ => False
  end.

(** The structural invariant of the data model: its items 1 and 2. *)
Definition ordered (bv : bvec) : Prop :=
  ptr_le (begin bv) (end_ bv) ∧ ptr_le (end_ bv) (capacity bv).

Definition null_iff_no_capacity (bv : bvec) : Prop :=
  begin bv = NULL ↔ capacity bv = begin bv.

Definition null_has_no_capacity (bv : bvec) : Prop :=
  begin bv = NULL → capacity bv = begin bv.

(** The struct [bv] is a buffer of [size] bytes in a block of [cap]
    bytes whose content is [l]; without a block, all three pointers are
    [NULL]. *)
Inductive describes (bs : gmap positive (list Z)) : bvec → Z → Z → list Z → Prop :=
| describes_null :
    describes bs (Bvec NULL NULL NULL) 0 0 []
| describes_block b size cap l :
    0 ≤ size ≤ cap → cap < SIZE_MOD → Z.of_nat (length l) = cap →
    bs !! b = Some l →
    describes bs (Bvec (Ptr b 0) (Ptr b size) (Ptr b cap)) size cap l.

(** The buffer at [v] is described so. *)
Definition buf (m : mem) (v : positive) (size cap : Z) (l : list Z) : Prop :=
  ∃ bv, vecs m !! v = Some bv ∧ describes (blocks m) bv size cap l.

(** The buffer at [v] owns the block [b]. *)
Definition owns (m : mem) (v : positive) (b : positive) : Prop :=
  ∃ bv o, vecs m !! v = Some bv ∧ begin bv = Ptr b o.

(** The allocator finds no memory when [realloc] is asked for [n] bytes
    for the block of the buffer at [v]. *)
Definition refuses (alloc_ok : gmap positive (list Z) → ptr → Z → bool)
    (m : mem) (v : positive) (n : Z) : Prop :=
  ∃ bv, vecs m !! v = Some bv ∧ alloc_ok (blocks m) (begin bv) n = false.

(** The capacity that growing starts from:
    [old_capacity ? old_capacity : BVEC_DEFAULT_CAPACITY]. *)
Definition first_capacity (default_capacity cap : Z) : Z :=
  if decide (cap = 0) then default_capacity else cap.

(** [c'] is [c] halved some number of times. *)
Definition halved (c c' : Z) : Prop := ∃ k, 0 ≤ k ∧ c' = c / 2 ^ k.

(** [c'] is the first of [c], [2c], [4c], ... that reaches [n]. *)
Definition doubled (c n c' : Z) : Prop :=
  ∃ k, 0 ≤ k ∧ c' = c * 2 ^ k ∧ n ≤ c' ∧ ∀ j, 0 ≤ j < k → c * 2 ^ j < n.

(** The memory while a local variable that holds [bytes] is live, as
    [with_local] hands it to the code that uses the variable. *)
Definition local_frame (bytes : list Z) (m : mem) : mem :=
  Mem (vecs m) (<[next_block m := bytes]> (blocks m)) (Pos.succ (next_block m)) (calls m).

(** What an operation on the buffer at [v] leaves alone: the other
    buffers, and the blocks that [v] does not own. *)
Definition frame (v : positive) (m m' : mem) : Prop :=
  (∀ v', v' ≠ v → vecs m' !! v' = vecs m !! v') ∧
  (∀ b l, blocks m !! b = Some l → ¬ owns m v b → blocks m' !! b = Some l) ∧
  (∀ b, owns m' v b → owns m v b ∨ (next_block m ≤ b)%positive) ∧
  (next_block m ≤ next_block m')%positive.

(** The memory is well formed: every buffer is described by its block,
    no two buffers share a block, and the next block is new.  With
    [strict], a buffer of no capacity has no block. *)
Record state_ok (strict : bool) (m : mem) : Prop := StateOk {
  ok_vec : ∀ v bv, vecs m !! v = Some bv →
    (∃ size cap l, describes (blocks m) bv size cap l) ∧
    (strict = true → capacity bv = begin bv → begin bv = NULL);
  ok_sep : ∀ v1 v2 bv1 bv2, vecs m !! v1 = Some bv1 → vecs m !! v2 = Some bv2 →
    v1 ≠ v2 → begin bv1 ≠ NULL → begin bv1 ≠ begin bv2;
  ok_next : ∀ b, is_Some (blocks m !! b) → (b < next_block m)%positive
}.

(** What a run must establish: on return [Q], on a fatal error [E] of
    its message; undefined behaviour and running out of a loop bound
    are excluded. *)
Definition wp {A} (c : M A) (Q : A → mem → Prop) (E : string → Prop) (m : mem) : Prop :=
  match c m with
  | Ret a m' => Q a m'
  | Fatal msg => E msg
  | Undef => False
  | OutOfTurns => False
  end.

(** ** What the further properties are stated with *)

(** Why growing the capacity [cap] of the buffer [v] to hold [n] bytes
    quits with [msg]: no doubling of the capacity (of the default
    capacity, for a buffer of capacity zero) reaches [n] within the
    size type, or the allocator refuses the first one that does. *)
Definition growth_fails (alloc_ok : gmap positive (list Z) → ptr → Z → bool)
    (default_capacity : Z) (m : mem) (v : positive) (cap n : Z) (msg : string) : Prop :=
  cap < n ∧
  ((msg = "integer overflow"%string ∧
    ∀ c', doubled (first_capacity default_capacity cap) n c' → SIZE_MOD ≤ c') ∨
   (msg = "out of memory"%string ∧
    ∃ c', cap < c' ∧ doubled (first_capacity default_capacity cap) n c' ∧
          refuses alloc_ok m v c')).

(** The same for a buffer that has just been constructed: its first
    block of [n] bytes comes from [realloc(NULL, ...)], with the blocks
    [bs] live. *)
Definition first_block_fails (alloc_ok : gmap positive (list Z) → ptr → Z → bool)
    (default_capacity : Z) (bs : gmap positive (list Z)) (n : Z) (msg : string) : Prop :=
  (msg = "integer overflow"%string ∧
   ∀ c', doubled default_capacity n c' → SIZE_MOD ≤ c') ∨
  (msg = "out of memory"%string ∧
   ∃ c', doubled default_capacity n c' ∧ alloc_ok bs NULL c' = false).

(** The allocator refuses some request of at least one byte. *)
Definition refuses_some (alloc_ok : gmap positive (list Z) → ptr → Z → bool) : Prop :=
  ∃ bs p c, 0 < c ∧ alloc_ok bs p c = false.

(** When formatting a text of [len] elements of [sz] bytes can quit
    with "integer overflow": the default capacity is zero, the first
    buffer of [bufsize] elements has more than [2^31] bytes, or the
    text with its terminator has more than [2^30]. *)
Definition format_overflows (default_capacity bufsize sz len : Z) : Prop :=
  default_capacity = 0 ∨ 2 ^ 31 < bufsize * sz ∨ 2 ^ 30 < (len + 1) * sz.

(** The string at [p]: [n] elements of [sz] bytes before the
    terminator; [bytes] are the elements with the terminator. *)
Definition string_at (m : mem) (p : ptr) (sz n : Z) (bytes : list Z) : Prop :=
  string_length p sz m = Ret n m ∧
  load_bytes m p ((n + 1) * sz) = Some bytes ∧
  (n + 1) * sz < SIZE_MOD.

(** What is left of [size] bytes when a terminator at the end is
    dropped. *)
Definition unterminated (sz size : Z) (l : list Z) : Z :=
  if decide (size ≠ 0 ∧ last_element sz size l = 0) then size - sz else size.

(** The elements [out] as bytes, each of [sz] bytes. *)
Definition encoded (sz : Z) (out : list Z) : list Z :=
  concat (map (le_encode (Z.to_nat sz)) out).

(** The formatter prints the text [t]: whatever the buffer size [n],
    the first [n - 1] elements it writes are those of the text and its
    terminator, as far as they go.  The standard [vsnprintf], which
    writes [n - 1] elements of the text and a terminator, does so, and
    so does one that writes [n] elements and no terminator when the
    text does not fit. *)
Definition prints (t : list Z) (fmt : Z → list Z) : Prop :=
  ∀ n, 0 < n → take (Z.to_nat (n - 1)) (fmt n) = take (Z.to_nat (n - 1)) (t ++ [0]).

(** Formatters to run the code with: the standard one and the one
    that leaves out the terminator. *)
Definition standard_format (t : list Z) : Z → list Z :=
  λ n, take (Z.to_nat (n - 1)) t ++ [0].
Definition unterminated_format (t : list Z) : Z → list Z :=
  λ n, take (Z.to_nat n) (t ++ [0]).

(** The buffers an operation may write to. *)
Definition writes (op : public_op) (v : positive) : Prop :=
  match op with
  | Construct v' | ConstructFromBytes v' _ _ | DestroyConstruct v' | Clear v'
  | ClearAndFree v' | Reserve v' _ | Resize v' _ | ShrinkToFit v'
  | AppendBytes v' _ _ | Truncate v' _ => v = v'
  | Copy dst _ | AppendBuffer dst _ => v = dst
  | Move dst src | Swap dst src => v = dst ∨ v = src
  end.

(** A memory with strings: a buffer that holds "AB" with its
    terminator in a block of four bytes, an empty buffer, and a block
    with the string "CD". *)
Definition text_mem : mem :=
  Mem (<[1%positive := Bvec (Ptr 1 0) (Ptr 1 3) (Ptr 1 4)]>
         (<[2%positive := Bvec NULL NULL NULL]> ∅))
      (<[1%positive := [65; 66; 0; 7]]> (<[2%positive := [67; 68; 0]]> ∅))
      3%positive [].

End ByteVector.

(** * wstr.c: UTF-16 and UTF-8 *)

Module WStr.

(** A C string is given by the elements its memory holds before the
    terminator that ends it: reading at the end of the list reads the
    terminator.  [wchar_t] and [unsigned short] have 16 bits, [char] 8,
    [unsigned] 32. *)
Definition u8 (x : Z) : Z := x mod 2 ^ 8.
Definition u16 (x : Z) : Z := x mod 2 ^ 16.
Definition u32 (x : Z) : Z := x mod 2 ^ 32.

(** [*s] *)
Definition peek (s : list Z) : Z := hd 0 s.

(** Modelled from the spec: [cstr_pushback] and [wstr_pushback] of
    common.h, the push-char of the text layer: concat-string with a
    single-character string, which puts the character before the
    terminator (and nothing for the terminator itself); [cstr_mdtor]
    and [wstr_mdtor] hand out the string that was built. *)
Definition cstr_pushback (v : list Z) (c : Z) : list Z :=
  if decide (u8 c = 0) then v else v ++ [u8 c].

Definition wstr_pushback (v : list Z) (c : Z) : list Z :=
  if decide (u16 c = 0) then v else v ++ [u16 c].

Definition cstr_mdtor (v : list Z) : list Z := v.
Definition wstr_mdtor (v : list Z) : list Z := v.

(** The second half of the loop body of [utf16_to_utf8]: the code point
    [c] as one to four bytes. *)
Definition utf8_put (v : list Z) (c : Z) : list Z :=
  if decide (c < Z.shiftl 1 7) then
    cstr_pushback v c
  else if decide (c < Z.shiftl 1 11) then
    let v := cstr_pushback v (Z.lor 0xc0 (Z.shiftr c 6)) in
    cstr_pushback v (Z.lor 0x80 (Z.land c 0x3f))
  else if decide (c < Z.shiftl 1 16) then
    let v := cstr_pushback v (Z.lor 0xe0 (Z.shiftr c 12)) in
    let v := cstr_pushback v (Z.lor 0x80 (Z.land (Z.shiftr c 6) 0x3f)) in
    cstr_pushback v (Z.lor 0x80 (Z.land c 0x3f))
  else
    let v := cstr_pushback v (Z.lor 0xf0 (Z.shiftr c 18)) in
    let v := cstr_pushback v (Z.lor 0x80 (Z.land (Z.shiftr c 12) 0x3f)) in
    let v := cstr_pushback v (Z.lor 0x80 (Z.land (Z.shiftr c 6) 0x3f)) in
    cstr_pushback v (Z.lor 0x80 (Z.land c 0x3f)).

(** The loop of [utf16_to_utf8]. *)
Fixpoint utf16_to_utf8_loop (s : list Z) (v : list Z) : list Z :=
  match s with
  | [] => v
  | x :: s1 =>
    if decide (x = 0) then v
    else
      let w1 := u16 x in
      if decide (Z.land w1 0xf800 ≠ 0xd800) then
        utf16_to_utf8_loop s1 (utf8_put v w1)
      else if decide (Z.land w1 0xfc00 = 0xd800) then
        match s1 with
        | y :: s2 =>
          let w2 := u16 y in
          if decide (Z.land w2 0xfc00 = 0xdc00) then
            utf16_to_utf8_loop s2
              (utf8_put v (u32 (Z.lor (Z.shiftl (Z.land w1 0x3ff) 10) (Z.land w2 0x3ff) + 0x10000)))
          else utf16_to_utf8_loop s1 (utf8_put v 0xfffd)
        | [] => utf16_to_utf8_loop s1 (utf8_put v 0xfffd)
        end
      else utf16_to_utf8_loop s1 (utf8_put v 0xfffd)
  end.

Definition utf16_to_utf8 (s : list Z) : list Z :=
  cstr_mdtor (utf16_to_utf8_loop s []).

(** The first [if] chain of the loop body of [utf8_to_utf16]: the
    number of bytes that follow the byte [b], and the bits it brings. *)
Definition utf8_lead (b : Z) : nat * Z :=
  if decide (b ≤ 0x7f) then (0%nat, b)
  else if decide (b < 0xc2) then (0%nat, 0xfffd)
  else if decide (b ≤ 0xdf) then (1%nat, Z.land b 0x1f)
  else if decide (b ≤ 0xef) then (2%nat, Z.land b 0xf)
  else if decide (b ≤ 0xf4) then (3%nat, Z.land b 0x7)
  else (0%nat, 0xfffd).

(** The [for] loop of [utf8_to_utf16], with [k] turns left to go from
    turn [i]: it returns [c] and the rest of the string. *)
Fixpoint utf8_follow (k : nat) (i : Z) (b c : Z) (s : list Z) : Z * list Z :=
  match k with
  | O => (c, s)
  | S k' =>
    let l := if decide (i = 1) then
               (if decide (b = 0xe0) then 0xa0 else if decide (b = 0xf0) then 0x90 else 0x80)
             else 0x80 in
    let h := if decide (i = 1) then
               (if decide (b = 0xed) then 0x9f else if decide (b = 0xf4) then 0x8f else 0xbf)
             else 0xbf in
    let b := u8 (peek s) in
    if decide (b < l ∨ b > h) then (0xfffd, s)
    else utf8_follow k' (i + 1) b (Z.lor (u32 (Z.shiftl c 6)) (Z.land b 0x3f)) (tail s)
  end.

(** The end of the loop body of [utf8_to_utf16]: the code point [c] as
    one or two code units. *)
Definition utf16_put (v : list Z) (c : Z) : list Z :=
  if decide (c < 0x10000) then
    wstr_pushback v c
  else
    let c := u32 (c - 0x10000) in
    let v := wstr_pushback v (Z.lor 0xd800 (Z.shiftr c 10)) in
    wstr_pushback v (Z.lor 0xdc00 (Z.land c 0x3ff)).

(** The loop body of [utf8_to_utf16] up to the end of its [for] loop,
    for a string that starts with the byte [x] and goes on with [s]:
    the code point, and the rest of the string. *)
Definition utf8_take (x : Z) (s : list Z) : Z * list Z :=
  let b := u8 x in
  utf8_follow (utf8_lead b).1 1 b (utf8_lead b).2 s.

(** The loop of [utf8_to_utf16]: every turn takes at least the byte it
    starts with. *)
Equations? utf8_to_utf16_loop (s : list Z) (v : list Z) : list Z by wf (length s) lt :=
  utf8_to_utf16_loop [] v := v;
  utf8_to_utf16_loop (x :: s1) v :=
    if decide (x = 0) then v
    else utf8_to_utf16_loop (utf8_take x s1).2 (utf16_put v (utf8_take x s1).1).
Proof.
  assert (∀ k i b c s, length (utf8_follow k i b c s).2 ≤ length s)%nat as Hshort.
  { induction k as [|k IH]; intros i b c s; simpl; [lia|].
    case_decide; simpl; [lia|]. etrans; [apply IH|]. destruct s; simpl; lia. }
  pose proof (Hshort (utf8_lead (u8 x)).1 1 (u8 x) (utf8_lead (u8 x)).2 s1).
  unfold utf8_take. simpl. lia.
Qed.

Definition utf8_to_utf16 (s : list Z) : list Z :=
  wstr_mdtor (utf8_to_utf16_loop s []).

(** Well-formed UTF-16 without a zero code unit: code units outside the
    surrogate range, and pairs of a high surrogate followed by a low
    one. *)
Inductive well_formed_utf16 : list Z → Prop :=
| wf_end :
    well_formed_utf16 []
| wf_unit w s :
    0 < w < 0x10000 → ¬ (0xd800 ≤ w ≤ 0xdfff) →
    well_formed_utf16 s → well_formed_utf16 (w :: s)
| wf_pair w1 w2 s :
    0xd800 ≤ w1 ≤ 0xdbff → 0xdc00 ≤ w2 ≤ 0xdfff →
    well_formed_utf16 s → well_formed_utf16 (w1 :: w2 :: s).

(** Well-formed UTF-8 without a zero byte: the byte ranges of the
    Unicode standard (table 3-7). *)
Inductive well_formed_utf8 : list Z → Prop :=
| wf8_end :
    well_formed_utf8 []
| wf8_one b s :
    0 < b ≤ 0x7f →
    well_formed_utf8 s → well_formed_utf8 (b :: s)
| wf8_two b1 b2 s :
    0xc2 ≤ b1 ≤ 0xdf → 0x80 ≤ b2 ≤ 0xbf →
    well_formed_utf8 s → well_formed_utf8 (b1 :: b2 :: s)
| wf8_three b1 b2 b3 s :
    0xe0 ≤ b1 ≤ 0xef →
    (if decide (b1 = 0xe0) then 0xa0 else 0x80) ≤ b2 →
    b2 ≤ (if decide (b1 = 0xed) then 0x9f else 0xbf) →
    0x80 ≤ b3 ≤ 0xbf →
    well_formed_utf8 s → well_formed_utf8 (b1 :: b2 :: b3 :: s)
| wf8_four b1 b2 b3 b4 s :
    0xf0 ≤ b1 ≤ 0xf4 →
    (if decide (b1 = 0xf0) then 0x90 else 0x80) ≤ b2 →
    b2 ≤ (if decide (b1 = 0xf4) then 0x8f else 0xbf) →
    0x80 ≤ b3 ≤ 0xbf → 0x80 ≤ b4 ≤ 0xbf →
    well_formed_utf8 s → well_formed_utf8 (b1 :: b2 :: b3 :: b4 :: s).

(** A Unicode scalar value other than zero. *)
Definition scalar (c : Z) : Prop := 0 < c < 0x110000 ∧ ¬ (0xd800 ≤ c ≤ 0xdfff).

(** ** wstr.c: the code page table *)

(** The loop of [chinese_to_unicode]; [table i] is [table[i]]. *)
Fixpoint chinese_to_unicode_loop (table : Z → Z) (s : list Z) (v : list Z) : list Z :=
  match s with
  | [] => v
  | x :: s1 =>
    if decide (x = 0) then v
    else
      let b1 := u8 x in
      if decide (b1 < 0x80) then
        chinese_to_unicode_loop table s1 (wstr_pushback v b1)
      else
        match s1 with
        | y :: s2 =>
          if decide (y ≠ 0) then
            let b2 := u8 y in
            let i := Z.lor (Z.shiftl b1 8) b2 - 0x8000 in
            chinese_to_unicode_loop table s2
              (wstr_pushback v (if decide (u16 (table i) ≠ 0) then u16 (table i) else 0xfffd))
          else chinese_to_unicode_loop table s1 (wstr_pushback v 0xfffd)
        | [] => chinese_to_unicode_loop table s1 (wstr_pushback v 0xfffd)
        end
  end.

Definition chinese_to_unicode (s : list Z) (table : Z → Z) : list Z :=
  wstr_mdtor (chinese_to_unicode_loop table s []).

End WStr.

(** * Proofs about the byte vector *)

Module ByteVectorProofs.
Import ByteVector.

Lemma size_mod_eq : SIZE_MOD = 4294967296.
Proof. reflexivity. Qed.

Lemma size_t_small x : 0 ≤ x < SIZE_MOD → size_t x = x.
Proof. intros. unfold size_t. apply Z.mod_small. lia. Qed.

(** ** Rules for [wp] *)

Lemma wp_ret {A} (a : A) Q E m : Q a m → wp (mret a) Q E m.
Proof. done. Qed.

Lemma wp_bind {A B} (c : M A) (f : A → M B) Q E m :
  wp c (λ a m', wp (f a) Q E m') E m → wp (c ≫= f) Q E m.
Proof. unfold wp, mbind, M_bind. by destruct (c m). Qed.

Lemma wp_assoc {A B C} (c : M A) (f : A → M B) (g : B → M C) Q E m :
  wp ((c ≫= f) ≫= g) Q E m → wp (c ≫= (λ a, f a ≫= g)) Q E m.
Proof. unfold wp, mbind, M_bind. by destruct (c m). Qed.

Lemma wp_mono {A} (c : M A) (Q Q' : A → mem → Prop) (E E' : string → Prop) m :
  wp c Q E m → (∀ a m', Q a m' → Q' a m') → (∀ msg, E msg → E' msg) → wp c Q' E' m.
Proof. unfold wp. destruct (c m); auto. Qed.

Lemma wp_load_vec v bv Q E m :
  vecs m !! v = Some bv → Q bv m → wp (load_vec v) Q E m.
Proof. unfold wp, load_vec. by intros ->. Qed.

Lemma wp_store_vec v bv Q E m :
  Q tt (Mem (<[v := bv]> (vecs m)) (blocks m) (next_block m) (calls m)) →
  wp (store_vec v bv) Q E m.
Proof. done. Qed.

Lemma wp_defined {A} (o : option A) a Q E m :
  o = Some a → Q a m → wp (defined o) Q E m.
Proof. by intros ->. Qed.

Lemma wp_assert (expr : bool) message Q E m :
  (expr = true → Q tt m) → (expr = false → E message) →
  wp (bvec_assert expr message) Q E m.
Proof. destruct expr; unfold wp; simpl; auto. Qed.

(** ** Reading a described buffer *)

Lemma describes_bounds m bv size cap l :
  describes m bv size cap l → 0 ≤ size ≤ cap ∧ cap < SIZE_MOD ∧ Z.of_nat (length l) = cap.
Proof. pose proof size_mod_eq. destruct 1; cbn [length]; lia. Qed.

Lemma describes_nonempty bs bv size cap l :
  describes bs bv size cap l → 0 < cap →
  ∃ b, bv = Bvec (Ptr b 0) (Ptr b size) (Ptr b cap) ∧ bs !! b = Some l.
Proof. destruct 1; [lia|eauto]. Qed.

Lemma describes_size m bv size cap l :
  describes m bv size cap l → PTRSUB (end_ bv) (begin bv) = Some size.
Proof.
  destruct 1; simpl; [done|]. rewrite decide_True by done.
  f_equal. rewrite Z.sub_0_r. apply size_t_small. lia.
Qed.

Lemma describes_capacity m bv size cap l :
  describes m bv size cap l → PTRSUB (capacity bv) (begin bv) = Some cap.
Proof.
  destruct 1; simpl; [done|]. rewrite decide_True by done.
  f_equal. rewrite Z.sub_0_r. apply size_t_small. lia.
Qed.

Lemma describes_ordered m bv size cap l :
  describes m bv size cap l → ordered bv ∧ null_has_no_capacity bv.
Proof.
  destruct 1; unfold ordered, null_has_no_capacity; simpl; [done|].
  split; [|done]. split; (split; [done|lia]).
Qed.

Lemma buf_size_of m v size cap l : buf m v size cap l → size_of m v = Some size.
Proof.
  intros (bv & Hv & Hd). unfold size_of. rewrite Hv. simpl.
  by eapply describes_size.
Qed.

Lemma buf_capacity_of m v size cap l : buf m v size cap l → capacity_of m v = Some cap.
Proof.
  intros (bv & Hv & Hd). unfold capacity_of. rewrite Hv. simpl.
  by eapply describes_capacity.
Qed.

Lemma buf_bytes_of m v size cap l :
  buf m v size cap l → bytes_of m v = Some (take (Z.to_nat size) l).
Proof.
  intros (bv & Hv & Hd). unfold bytes_of. rewrite Hv. simpl.
  rewrite (describes_size _ _ _ _ _ Hd). simpl.
  destruct Hd as [|b size cap l ? ? ? Hb]; simpl; [done|]. by rewrite Hb.
Qed.

Lemma wp_bsize m v size cap l Q E :
  buf m v size cap l → Q size m → wp (bvec_bsize v) Q E m.
Proof.
  intros (bv & Hv & Hd) HQ. unfold bvec_bsize. apply wp_bind.
  eapply wp_load_vec; [done|]. eapply wp_defined; [by eapply describes_size|done].
Qed.

Lemma wp_bcapacity m v size cap l Q E :
  buf m v size cap l → Q cap m → wp (bvec_bcapacity v) Q E m.
Proof.
  intros (bv & Hv & Hd) HQ. unfold bvec_bcapacity. apply wp_bind.
  eapply wp_load_vec; [done|]. eapply wp_defined; [by eapply describes_capacity|done].
Qed.

(** ** The well-formed memory under an update *)

Lemma describes_other_blocks bs bs' bv size cap l :
  describes bs bv size cap l →
  (∀ b o, begin bv = Ptr b o → bs' !! b = bs !! b) →
  describes bs' bv size cap l.
Proof.
  destruct 1 as [|b size cap l ? ? ? Hb]; intros Hsame; constructor; try done.
  by rewrite (Hsame b 0).
Qed.

(** Writing the struct at [v] and changing blocks keeps the memory well
    formed when the new struct is described, owns a block no other
    buffer owns, and the blocks of the other buffers stay. *)
Lemma state_ok_update strict m v bv' bs' next' calls' :
  state_ok strict m →
  (∃ size cap l, describes bs' bv' size cap l) →
  (strict = true → capacity bv' = begin bv' → begin bv' = NULL) →
  (∀ v' bv, v' ≠ v → vecs m !! v' = Some bv → begin bv' ≠ NULL → begin bv' ≠ begin bv) →
  (∀ v' bv b o, v' ≠ v → vecs m !! v' = Some bv → begin bv = Ptr b o →
     bs' !! b = blocks m !! b) →
  (∀ b, is_Some (bs' !! b) → (b < next')%positive) →
  state_ok strict (Mem (<[v := bv']> (vecs m)) bs' next' calls').
Proof.
  intros [Hvec Hsep Hnext] Hd Hstrict Hfresh Hkeep Hnext'.
  split; simpl.
  - intros v1 bv1. destruct (decide (v1 = v)) as [->|Hne].
    + rewrite lookup_insert_eq. intros [= <-]. done.
    + rewrite lookup_insert_ne by done. intros Hv1.
      destruct (Hvec _ _ Hv1) as [(size & cap & l & Hd1) Hs1]. split; [|done].
      exists size, cap, l. eapply describes_other_blocks; [done|].
      intros b o Hb. by eapply Hkeep.
  - intros v1 v2 bv1 bv2.
    destruct (decide (v1 = v)) as [->|Hne1]; destruct (decide (v2 = v)) as [->|Hne2].
    + done.
    + rewrite lookup_insert_eq, lookup_insert_ne by done.
      intros [= <-] Hv2 _. by eapply Hfresh.
    + rewrite lookup_insert_eq, lookup_insert_ne by done.
      intros Hv1 [= <-] _ Hnn Heq. eapply (Hfresh v1 bv1); [done|done| |done].
      by rewrite <- Heq.
    + rewrite !lookup_insert_ne by done. apply Hsep.
  - done.
Qed.

(** A block that a buffer of a well-formed memory owns is live, hence
    older than the next block. *)
Lemma owned_block_live strict m v bv b o :
  state_ok strict m → vecs m !! v = Some bv → begin bv = Ptr b o →
  o = 0 ∧ is_Some (blocks m !! b) ∧ (b < next_block m)%positive.
Proof.
  intros Hok Hv Hb. destruct (ok_vec _ _ Hok _ _ Hv) as [(size & cap & l & Hd) _].
  destruct Hd as [|b' size cap l ? ? ? Hl]; simpl in Hb; [done|].
  injection Hb as -> ->. split; [done|]. split; [by eexists|].
  apply (ok_next _ _ Hok). by eexists.
Qed.

(** ** The operations, one by one *)

Section Operations.

Variable alloc_ok : gmap positive (list Z) → ptr → Z → bool.
Variable junk : Z.
Variable BVEC_DEFAULT_CAPACITY : Z.
Variable strict : bool.

(** With [strict], the allocator returns [NULL] for no bytes. *)
Hypothesis strict_alloc :
  strict = true → ∀ bs p, alloc_ok bs p 0 = false.
Hypothesis default_capacity_range : 0 ≤ BVEC_DEFAULT_CAPACITY < SIZE_MOD.

Local Abbreviation get_terminated :=
  (ByteVector.get_terminated alloc_ok junk BVEC_DEFAULT_CAPACITY).
Local Abbreviation printf_loop :=
  (ByteVector.printf_loop alloc_ok junk BVEC_DEFAULT_CAPACITY).

Lemma wp_brealloc m v size cap l newcap Q E :
  state_ok strict m → buf m v size cap l → size ≤ newcap → newcap < SIZE_MOD →
  (∀ m', state_ok strict m' →
         buf m' v size newcap (resize (Z.to_nat newcap) junk l) →
         frame v m m' →
         (∃ p, calls m' = calls m ++ [Realloc p newcap] ∧
               (newcap ≠ 0 → alloc_ok (blocks m) p newcap = true)) →
         Q tt m') →
  (newcap ≠ 0 → refuses alloc_ok m v newcap → E "out of memory"%string) →
  wp (bvec_brealloc alloc_ok junk v newcap) Q E m.
Proof.
  intros Hok (bv & Hv & Hd) Hge Hlt HQ HE.
  pose proof (describes_bounds _ _ _ _ _ Hd) as (Hs & Hc & Hl).
  unfold bvec_brealloc. apply wp_bind. eapply wp_bsize; [by exists bv|].
  apply wp_bind. eapply wp_load_vec; [done|].
  assert (owned_block m (begin bv) = Some l ∧
          (∀ v' bv1 b o, v' ≠ v → vecs m !! v' = Some bv1 → begin bv1 = Ptr b o →
             release (begin bv) (blocks m) !! b = blocks m !! b) ∧
          (∀ b l1, blocks m !! b = Some l1 → ¬ owns m v b →
             release (begin bv) (blocks m) !! b = Some l1) ∧
          (∀ b, is_Some (release (begin bv) (blocks m) !! b) → is_Some (blocks m !! b)))
    as (Hown & Hkeep & Hframe & Hsub).
  { destruct Hd as [|b size cap l ? ? ? Hb]; simpl.
    - done.
    - split; [done|]. split; [|split].
      + intros v' bv1 b1 o Hne Hv1 Hb1. apply lookup_delete_ne.
        intros <-. eapply (ok_sep _ _ Hok v v'); [done|done|done|done|].
        simpl. rewrite Hb1.
        destruct (owned_block_live _ _ _ _ _ _ Hok Hv1 Hb1) as [-> _]. done.
      + intros b1 l1 Hb1 Hnown. rewrite lookup_delete_ne; [done|].
        intros <-. apply Hnown. by exists (Bvec (Ptr b 0) (Ptr b size) (Ptr b cap)), 0.
      + intros b1. destruct (decide (b = b1)) as [->|].
        * rewrite lookup_delete_eq. by intros [? ?].
        * by rewrite lookup_delete_ne. }
  apply wp_bind. unfold wp at 1, realloc. rewrite Hown.
  destruct (alloc_ok (blocks m) (begin bv) newcap) eqn:Halloc.
  - apply wp_bind, wp_assert; [intros _|done].
    apply wp_bind. eapply wp_defined; [done|].
    apply wp_bind. eapply wp_defined; [done|].
    apply wp_store_vec. simpl. rewrite !Z.add_0_l.
    set (nb := next_block m).
    assert (∀ b, is_Some (blocks m !! b) → b ≠ nb) as Hnb.
    { intros b Hb%(ok_next _ _ Hok). unfold nb. lia. }
    apply HQ.
    + apply state_ok_update; try done.
      * eexists size, newcap, _. constructor; [lia|done| |apply lookup_insert_eq].
        rewrite length_resize. lia.
      * simpl. intros Hst [= ->]. rewrite strict_alloc in Halloc; done.
      * simpl. intros v' bv1 Hne Hv1 _ Heq.
        destruct (owned_block_live _ _ _ _ _ _ Hok Hv1 (eq_sym Heq)) as (_ & Hlive & _).
        by apply Hnb in Hlive.
      * intros v' bv1 b o Hne Hv1 Hb1.
        destruct (owned_block_live _ _ _ _ _ _ Hok Hv1 Hb1) as (_ & Hlive & _).
        rewrite lookup_insert_ne by (by apply not_eq_sym, Hnb). by eapply Hkeep.
      * intros b. destruct (decide (nb = b)) as [<-|Hne]; [lia|].
        rewrite lookup_insert_ne by done. intros Hb%Hsub.
        apply (ok_next _ _ Hok) in Hb. fold nb in Hb. lia.
    + eexists. simpl. split; [apply lookup_insert_eq|].
      constructor; [lia|done| |apply lookup_insert_eq]. rewrite length_resize. lia.
    + split; [|split; [|split]]; simpl.
      * intros v' Hne. by rewrite lookup_insert_ne.
      * intros b l1 Hb1 Hnown. rewrite lookup_insert_ne; [by apply Hframe|].
        apply not_eq_sym, Hnb. by eexists.
      * intros b (bv1 & o & Hv1 & Hb1). simpl in Hv1.
        rewrite lookup_insert_eq in Hv1. injection Hv1 as <-.
        injection Hb1 as <- _. right. unfold nb. lia.
      * lia.
    + by eexists.
  - destruct (decide (newcap = 0)) as [->|Hnz].
    + apply wp_bind, wp_assert; [intros _|done].
      assert (size = 0) as -> by lia.
      apply wp_bind. eapply wp_defined; [done|].
      apply wp_bind. eapply wp_defined; [done|].
      apply wp_store_vec. simpl. apply HQ.
      * apply state_ok_update; try done.
        -- eexists 0, 0, []. constructor.
        -- intros b Hb%Hsub. by apply (ok_next _ _ Hok).
      * eexists. simpl. split; [apply lookup_insert_eq|].
        change (Z.to_nat 0) with 0%nat. rewrite resize_0. constructor.
      * split; [|split; [|split]]; simpl; [|done| |lia].
        -- intros v' Hne. by rewrite lookup_insert_ne.
        -- intros b (bv1 & o & Hv1 & Hb1). simpl in Hv1.
           rewrite lookup_insert_eq in Hv1. by injection Hv1 as <-.
      * eexists. split; [done|]. by intros ?.
    + apply wp_bind, wp_assert; [|intros _; apply HE; [done|by exists bv]].
      simpl. rewrite bool_decide_false by done. done.
Qed.

Lemma pow2_31_32 : 2 ^ 31 = 2147483648 ∧ 2 ^ 32 = 4294967296.
Proof. done. Qed.

(** The doubling loop returns the first of [c], [2c], [4c], ... that
    reaches [n], and is fatal when the doubling wraps; the bound of the
    model is never met. *)
Lemma reserve_loop_spec fuel c n m :
  0 ≤ c < SIZE_MOD → SIZE_MOD ≤ Z.max c 1 * 2 ^ Z.of_nat fuel →
  match reserve_loop fuel c n m with
  | Ret c' m' => m' = m ∧ c ≤ c' < SIZE_MOD ∧ n ≤ c' ∧ (n ≤ c → c' = c) ∧ (c < n → c < c')
  | Fatal msg => msg = "integer overflow"%string ∧ c < n ∧ (0 < c → 2 ^ 31 < n)
  | Undef => False
  | OutOfTurns => False
  end.
Proof.
  pose proof size_mod_eq as HM. destruct pow2_31_32 as [H31 H32].
  revert c. induction fuel as [|fuel IH]; intros c Hc Hfuel.
  - simpl in Hfuel. lia.
  - simpl. case_bool_decide as Hlt; [|simpl; unfold mret, M_ret; split; [done|lia]].
    unfold mbind, M_bind, bvec_assert.
    assert (2 ^ Z.of_nat (S fuel) = 2 * 2 ^ Z.of_nat fuel) as Hpow.
    { rewrite Nat2Z.inj_succ, Z.pow_succ_r by lia. done. }
    case_bool_decide as Hdbl; simpl.
    + assert (0 < c ∧ c * 2 < SIZE_MOD) as [Hpos Hsmall].
      { unfold size_t in Hdbl. rewrite HM in *.
        destruct (decide (c * 2 < 4294967296)); [rewrite Z.mod_small in Hdbl; lia|].
        assert ((c * 2) mod 4294967296 = c * 2 - 4294967296); [|lia].
        symmetry. apply (Z.mod_unique _ _ 1); lia. }
      rewrite size_t_small by lia.
      specialize (IH (c * 2)). destruct (reserve_loop fuel (c * 2) n m).
      * destruct IH as (-> & ? & ? & ? & ?); [lia|nia|]. split; [done|lia].
      * destruct IH as (-> & ? & ?); [lia|nia|]. split; [done|lia].
      * apply IH; [lia|nia].
      * apply IH; [lia|nia].
    + split; [done|]. split; [lia|]. intros Hpos.
      unfold size_t in Hdbl. rewrite HM in *.
      destruct (decide (c * 2 < 4294967296)); [rewrite Z.mod_small in Hdbl; lia|]. lia.
Qed.

Lemma doubled_step c n c' :
  0 ≤ c → c < n → doubled (c * 2) n c' ↔ doubled c n c'.
Proof.
  intros Hc Hlt. split; intros (k & Hk & -> & Hn & Hmin).
  - exists (k + 1). rewrite Z.pow_add_r, Z.pow_1_r by lia.
    split; [lia|]. split; [lia|]. split; [lia|]. intros j Hj.
    destruct (decide (j = 0)) as [->|Hnz]; [rewrite Z.pow_0_r; lia|].
    specialize (Hmin (j - 1) ltac:(lia)).
    replace (2 ^ j) with (2 * 2 ^ (j - 1)); [lia|].
    rewrite <- Z.pow_succ_r by lia. f_equal. lia.
  - destruct (decide (k = 0)) as [->|Hnz]; [rewrite Z.pow_0_r in Hn; lia|].
    exists (k - 1).
    assert (2 ^ k = 2 * 2 ^ (k - 1)) as Hpow.
    { rewrite <- Z.pow_succ_r by lia. f_equal. lia. }
    split; [lia|]. split; [lia|]. split; [lia|]. intros j Hj.
    specialize (Hmin (j + 1) ltac:(lia)).
    rewrite Z.pow_add_r, Z.pow_1_r in Hmin by lia. lia.
Qed.

(** What the loop returns is the first doubling that reaches [n]; it
    is fatal only when that doubling does not fit [size_t], or when
    there is none ([c] is zero). *)
Lemma reserve_loop_exact fuel c n m :
  0 ≤ c < SIZE_MOD →
  match reserve_loop fuel c n m with
  | Ret c' _ => doubled c n c'
  | Fatal _ => ∀ c', doubled c n c' → SIZE_MOD ≤ c'
  | Undef => True
  | OutOfTurns => True
  end.
Proof.
  pose proof size_mod_eq as HM.
  assert (∀ c1, ¬ c1 < n → doubled c1 n c1) as Hstop.
  { intros c1 Hge. exists 0. rewrite Z.pow_0_r.
    split; [done|]. split; [lia|]. split; [lia|]. intros j Hj. lia. }
  revert c. induction fuel as [|fuel IH]; intros c Hc.
  - simpl. case_bool_decide as Hlt; [done|]. by apply Hstop.
  - simpl. case_bool_decide as Hlt; [|by apply Hstop].
    unfold mbind, M_bind, bvec_assert. case_bool_decide as Hdbl; simpl.
    + assert (0 < c ∧ c * 2 < SIZE_MOD) as [Hpos Hsmall].
      { unfold size_t in Hdbl. rewrite HM in *.
        destruct (decide (c * 2 < 4294967296)); [rewrite Z.mod_small in Hdbl; lia|].
        assert ((c * 2) mod 4294967296 = c * 2 - 4294967296); [|lia].
        symmetry. apply (Z.mod_unique _ _ 1); lia. }
      rewrite size_t_small by lia.
      specialize (IH (c * 2) ltac:(lia)).
      destruct (reserve_loop fuel (c * 2) n m); [| |done|done].
      * apply doubled_step; [lia|done|done].
      * intros c' Hc'. apply IH. apply doubled_step; [lia|done|done].
    + intros c' (k & Hk & -> & Hn & _).
      destruct (decide (k = 0)) as [->|Hnz]; [rewrite Z.pow_0_r in Hn; lia|].
      assert (2 ^ 1 ≤ 2 ^ k) as Hpow by (apply Z.pow_le_mono_r; lia).
      rewrite Z.pow_1_r in Hpow.
      destruct (decide (c * 2 < SIZE_MOD)) as [Hs|Hs]; [|nia].
      rewrite size_t_small in Hdbl by lia. assert (c = 0) as -> by lia. lia.
Qed.

Lemma wp_reserve_loop c n Q E m :
  0 ≤ c < SIZE_MOD →
  (∀ c', c ≤ c' < SIZE_MOD → n ≤ c' → (n ≤ c → c' = c) → (c < n → c < c') →
     doubled c n c' → Q c' m) →
  (c < n → (0 < c → 2 ^ 31 < n) → (∀ c', doubled c n c' → SIZE_MOD ≤ c') →
     E "integer overflow"%string) →
  wp (reserve_loop LOOP_BOUND c n) Q E m.
Proof.
  intros Hc HQ HE. unfold wp.
  pose proof (reserve_loop_spec LOOP_BOUND c n m Hc) as Hspec.
  pose proof (reserve_loop_exact LOOP_BOUND c n m Hc) as Hexact.
  destruct (reserve_loop LOOP_BOUND c n m).
  - destruct Hspec as (-> & ? & ? & ? & ?); [|by apply HQ].
    rewrite size_mod_eq. change (2 ^ Z.of_nat LOOP_BOUND) with 8589934592. lia.
  - destruct Hspec as (-> & ? & ?); [|by apply HE].
    rewrite size_mod_eq. change (2 ^ Z.of_nat LOOP_BOUND) with 8589934592. lia.
  - apply Hspec. rewrite size_mod_eq. change (2 ^ Z.of_nat LOOP_BOUND) with 8589934592. lia.
  - apply Hspec. rewrite size_mod_eq. change (2 ^ Z.of_nat LOOP_BOUND) with 8589934592. lia.
Qed.

Lemma frame_refl v m : frame v m m.
Proof. split; [done|]. split; [done|]. split; [by left|lia]. Qed.

(** [bvec_breserve]: the size stays, the capacity reaches [n], the
    block is reallocated exactly when the doubled capacity exceeds the
    old one. *)
Lemma wp_breserve_exact m v size cap l n Q E :
  state_ok strict m → buf m v size cap l → 0 ≤ n →
  (∀ m' cap', state_ok strict m' →
     buf m' v size cap' (resize (Z.to_nat cap') junk l) →
     frame v m m' → n ≤ cap' → cap ≤ cap' →
     (cap' = cap ∧ m' = m ∨
      cap < cap' ∧ (cap < n ∨ cap = 0) ∧
      ∃ p, calls m' = calls m ++ [Realloc p cap'] ∧
           (cap' ≠ 0 → alloc_ok (blocks m) p cap' = true)) →
     (cap ≠ 0 → n ≤ cap → m' = m) →
     (cap = 0 → BVEC_DEFAULT_CAPACITY ≤ cap') →
     Q tt m') →
  (cap < n → (0 < cap ∨ 0 < BVEC_DEFAULT_CAPACITY → 2 ^ 31 < n) →
     (∀ c', doubled (first_capacity BVEC_DEFAULT_CAPACITY cap) n c' → SIZE_MOD ≤ c') →
     E "integer overflow"%string) →
  (cap < n ∨ cap = 0 →
     ∀ c', cap < c' → doubled (first_capacity BVEC_DEFAULT_CAPACITY cap) n c' →
           refuses alloc_ok m v c' → E "out of memory"%string) →
  wp (bvec_breserve alloc_ok junk BVEC_DEFAULT_CAPACITY v n) Q E m.
Proof.
  intros Hok Hbuf Hn HQ HE1 HE2.
  pose proof Hbuf as (bv & Hv & Hd).
  pose proof (describes_bounds _ _ _ _ _ Hd) as (Hs & Hc & Hl).
  unfold bvec_breserve. apply wp_bind. eapply wp_bcapacity; [done|].
  set (c0 := if bool_decide (cap ≠ 0) then cap else BVEC_DEFAULT_CAPACITY).
  assert (0 ≤ c0 < SIZE_MOD ∧ cap ≤ c0 ∧ (cap ≠ 0 → c0 = cap) ∧
          (cap = 0 → c0 = BVEC_DEFAULT_CAPACITY) ∧
          c0 = first_capacity BVEC_DEFAULT_CAPACITY cap) as (Hc0 & Hle0 & Hnz0 & Hz0 & Hfc).
  { unfold c0, first_capacity. case_bool_decide; case_decide; lia. }
  clearbody c0.
  assert (cap < n ∨ cap = 0 ∨ n ≤ cap) as Hcases by lia.
  apply wp_bind. apply wp_reserve_loop; [done| |].
  - intros c' Hc' Hnc' Hsame Hgrow Hdbl.
    case_bool_decide as Hcmp.
    + assert (cap < n ∨ cap = 0) as Hor.
      { destruct (decide (cap = 0)); [by right|left]. lia. }
      eapply wp_brealloc; [done|done|lia|lia| |].
      * intros m' Hok' Hbuf' Hfr Hcalls.
        apply (HQ m' c'); [done|done|done|lia|lia| |intros Hnz Hle; lia|lia].
        right. split; [lia|]. split; [done|done].
      * intros _ Href. apply (HE2 Hor c'); [lia|by rewrite <- Hfc|done].
    + apply wp_ret. assert (c' = cap) as -> by lia.
      apply (HQ m cap);
        [done|rewrite resize_all_alt by lia; done|apply frame_refl|lia|lia|by left|done|lia].
  - intros Hlt Hbig Hwrap. apply HE1; [lia| |by rewrite <- Hfc].
    intros Hpos. apply Hbig. lia.
Qed.

Lemma wp_breserve m v size cap l n Q E :
  state_ok strict m → buf m v size cap l → 0 ≤ n →
  (∀ m' cap', state_ok strict m' →
     buf m' v size cap' (resize (Z.to_nat cap') junk l) →
     frame v m m' → n ≤ cap' → cap ≤ cap' →
     (cap' = cap ∧ m' = m ∨
      cap < cap' ∧ (cap < n ∨ cap = 0) ∧
      ∃ p, calls m' = calls m ++ [Realloc p cap'] ∧
           (cap' ≠ 0 → alloc_ok (blocks m) p cap' = true)) →
     (cap ≠ 0 → n ≤ cap → m' = m) →
     (cap = 0 → BVEC_DEFAULT_CAPACITY ≤ cap') →
     Q tt m') →
  (cap < n → (0 < cap ∨ 0 < BVEC_DEFAULT_CAPACITY → 2 ^ 31 < n) →
     E "integer overflow"%string) →
  (cap < n ∨ cap = 0 → E "out of memory"%string) →
  wp (bvec_breserve alloc_ok junk BVEC_DEFAULT_CAPACITY v n) Q E m.
Proof.
  intros Hok Hbuf Hn HQ HE1 HE2.
  eapply wp_breserve_exact; [done|done|done|done| |].
  - intros Hlt Hbig _. by apply HE1.
  - intros Hor c' _ _ _. by apply HE2.
Qed.

(** Writing [v->end] (or any field but [begin] and [capacity]). *)
Lemma state_ok_reshape m v bv bv' size' cap' l' :
  state_ok strict m → vecs m !! v = Some bv →
  begin bv' = begin bv → capacity bv' = capacity bv →
  describes (blocks m) bv' size' cap' l' →
  state_ok strict (Mem (<[v := bv']> (vecs m)) (blocks m) (next_block m) (calls m)).
Proof.
  intros Hok Hv Hb Hc Hd. apply state_ok_update; try done.
  - by eexists _, _, _.
  - rewrite Hb, Hc. by apply (ok_vec _ _ Hok v).
  - rewrite Hb. intros v' bv1 Hne Hv1. by apply (ok_sep _ _ Hok v v').
  - apply (ok_next _ _ Hok).
Qed.

Lemma frame_store v m0 m bv bv' :
  frame v m0 m → vecs m !! v = Some bv → begin bv' = begin bv →
  frame v m0 (Mem (<[v := bv']> (vecs m)) (blocks m) (next_block m) (calls m)).
Proof.
  intros (Hvecs & Hblocks & Howns & Hnext) Hv Hb. split; [|split; [|split]]; simpl.
  - intros v' Hne. rewrite lookup_insert_ne by done. by apply Hvecs.
  - done.
  - intros b (bv1 & o & Hv1 & Hb1). simpl in Hv1. rewrite lookup_insert_eq in Hv1.
    injection Hv1 as <-. apply Howns. exists bv, o. split; [done|congruence].
  - done.
Qed.

Lemma set_end_ok m v size cap l n :
  state_ok strict m → buf m v size cap l → 0 ≤ n ≤ cap →
  ∃ bv e, vecs m !! v = Some bv ∧ PTRADD (begin bv) n = Some e ∧
    let m' := Mem (<[v := Bvec (begin bv) e (capacity bv)]> (vecs m))
                  (blocks m) (next_block m) (calls m) in
    state_ok strict m' ∧ buf m' v n cap l ∧ (∀ m0, frame v m0 m → frame v m0 m').
Proof.
  intros Hok (bv & Hv & Hd) Hn. exists bv.
  assert (∃ e, PTRADD (begin bv) n = Some e ∧
               describes (blocks m) (Bvec (begin bv) e (capacity bv)) n cap l)
    as (e & He & Hd').
  { destruct Hd as [|b size cap l ? ? ? Hb]; simpl.
    - assert (n = 0) as -> by lia. eexists. split; [done|]. constructor.
    - eexists. split; [done|]. rewrite Z.add_0_l. by constructor. }
  exists e. split; [done|]. split; [done|]. simpl. split; [|split].
  - by eapply state_ok_reshape.
  - eexists. simpl. split; [apply lookup_insert_eq|done].
  - intros m0 Hfr. by eapply frame_store.
Qed.

(** [bvec_bresize]: growing reserves first; shrinking only moves
    [end]. *)
Lemma wp_bresize_exact m v size cap l n Q E :
  state_ok strict m → buf m v size cap l → 0 ≤ n →
  (∀ m' cap', state_ok strict m' →
     buf m' v n cap' (resize (Z.to_nat cap') junk l) →
     frame v m m' → cap ≤ cap' →
     (n ≤ cap → cap ≠ 0 ∨ n ≤ size →
        cap' = cap ∧ blocks m' = blocks m ∧ calls m' = calls m ∧
        next_block m' = next_block m) →
     (cap' = cap ∨ ∃ bs p, alloc_ok bs p cap' = true) →
     Q tt m') →
  (size < n → cap < n → (0 < cap ∨ 0 < BVEC_DEFAULT_CAPACITY → 2 ^ 31 < n) →
     (∀ c', doubled (first_capacity BVEC_DEFAULT_CAPACITY cap) n c' → SIZE_MOD ≤ c') →
     E "integer overflow"%string) →
  (size < n → cap < n →
     ∀ c', cap < c' → doubled (first_capacity BVEC_DEFAULT_CAPACITY cap) n c' →
           refuses alloc_ok m v c' → E "out of memory"%string) →
  wp (bvec_bresize alloc_ok junk BVEC_DEFAULT_CAPACITY v n) Q E m.
Proof.
  intros Hok Hbuf Hn HQ HE1 HE2.
  pose proof Hbuf as (bv & Hv & Hd).
  pose proof (describes_bounds _ _ _ _ _ Hd) as (Hs & Hc & Hl).
  assert (∀ m1 cap', state_ok strict m1 →
            buf m1 v size cap' (resize (Z.to_nat cap') junk l) →
            frame v m m1 → n ≤ cap' → cap ≤ cap' →
            (n ≤ cap → cap ≠ 0 ∨ n ≤ size → cap' = cap ∧ m1 = m) →
            (cap' = cap ∨ ∃ bs p, alloc_ok bs p cap' = true) →
            wp (bv ← load_vec v;
                e ← defined (PTRADD (begin bv) n);
                store_vec v (Bvec (begin bv) e (capacity bv))) Q E m1) as Hend.
  { intros m1 cap' Hok1 Hbuf1 Hfr Hncap Hcap Hsame Halloc.
    destruct (set_end_ok m1 v size cap' _ n Hok1 Hbuf1) as (bv1 & e & Hv1 & He & Hok2 & Hbuf2 & Hfr2);
      [lia|].
    apply wp_bind. eapply wp_load_vec; [done|].
    apply wp_bind. eapply wp_defined; [done|]. apply wp_store_vec.
    apply (HQ _ cap'); [done|done|by apply Hfr2|done| |done].
    intros H1 H2. destruct (Hsame H1 H2) as [-> ->]. done. }
  unfold bvec_bresize. apply wp_bind. eapply wp_bsize; [done|].
  apply wp_bind. case_bool_decide as Hgrow.
  - eapply wp_breserve_exact; [done|done|done| | |].
    + intros m1 cap' Hok1 Hbuf1 Hfr Hncap Hcap Hcases Hsame _.
      apply (Hend m1 cap'); [done|done|done|done|done| |].
      * intros H1 [H2|H2]; [|lia]. split; [|by apply Hsame].
        destruct Hcases as [[-> _]|(? & ? & _)]; [done|lia].
      * destruct Hcases as [[-> _]|(? & _ & p & _ & Halloc)]; [by left|right].
        exists (blocks m), p. apply Halloc. lia.
    + intros Hlt Hbig Hwrap. by apply HE1.
    + intros Hor c' Hc' Hdbl Href. apply (HE2 Hgrow ltac:(lia) c'); done.
  - apply wp_ret. apply (Hend m cap); [done| |apply frame_refl|lia|lia|done|by left].
    rewrite resize_all_alt by lia. done.
Qed.

Lemma wp_bresize m v size cap l n Q E :
  state_ok strict m → buf m v size cap l → 0 ≤ n →
  (∀ m' cap', state_ok strict m' →
     buf m' v n cap' (resize (Z.to_nat cap') junk l) →
     frame v m m' → cap ≤ cap' →
     (n ≤ cap → cap ≠ 0 ∨ n ≤ size →
        cap' = cap ∧ blocks m' = blocks m ∧ calls m' = calls m ∧
        next_block m' = next_block m) →
     (cap' = cap ∨ ∃ bs p, alloc_ok bs p cap' = true) →
     Q tt m') →
  (size < n → cap < n → (0 < cap ∨ 0 < BVEC_DEFAULT_CAPACITY → 2 ^ 31 < n) →
     E "integer overflow"%string) →
  (size < n → cap < n → E "out of memory"%string) →
  wp (bvec_bresize alloc_ok junk BVEC_DEFAULT_CAPACITY v n) Q E m.
Proof.
  intros Hok Hbuf Hn HQ HE1 HE2.
  eapply wp_bresize_exact; [done|done|done|done| |].
  - intros H1 H2 Hbig _. by apply HE1.
  - intros H1 H2 c' _ _ _. by apply HE2.
Qed.

(** The halving loop ends within the bound, between the size and the
    capacity it starts from. *)
Lemma shrink_loop_spec fuel c s :
  0 ≤ s ≤ c → c < 2 ^ Z.of_nat fuel →
  ∃ c', shrink_loop fuel c s = Some c' ∧ s ≤ c' ≤ c ∧ (c' = 0 ∨ c' / 2 < s).
Proof.
  revert c. induction fuel as [|fuel IH]; intros c Hc Hfuel.
  - simpl in *. assert (c = 0) as -> by lia. exists 0.
    split; [reflexivity|lia].
  - simpl. destruct (decide (c ≠ 0 ∧ s ≤ c / 2)) as [[Hnz Hhalf]|Hstop].
    + rewrite !bool_decide_true by done. simpl.
      destruct (IH (c / 2)) as (c' & -> & Hc' & Hend).
      * split; [lia|done].
      * rewrite Nat2Z.inj_succ, Z.pow_succ_r in Hfuel by lia.
        apply Z.div_lt_upper_bound; lia.
      * exists c'. split; [done|]. split; [|done].
        assert (c / 2 ≤ c) by (apply Z.div_le_upper_bound; lia). lia.
    + exists c. split.
      * destruct (bool_decide (c ≠ 0)) eqn:H1; simpl; [|done].
        apply bool_decide_eq_true in H1.
        rewrite bool_decide_false; [done|]. intros ?. by apply Hstop.
      * split; [lia|]. destruct (decide (c = 0)); [by left|right].
        destruct (decide (s ≤ c / 2)); [|lia]. by destruct Hstop.
Qed.

Lemma shrink_loop_halves fuel c s c' :
  shrink_loop fuel c s = Some c' → halved c c'.
Proof.
  assert (∀ c1, halved c1 c1) as Hstop.
  { intros c1. exists 0. by rewrite Z.pow_0_r, Z.div_1_r. }
  revert c. induction fuel as [|fuel IH]; intros c; simpl.
  - destruct (bool_decide (c ≠ 0) && bool_decide (s ≤ c / 2)); [done|].
    intros [= <-]. apply Hstop.
  - destruct (bool_decide (c ≠ 0) && bool_decide (s ≤ c / 2)).
    + intros (k & Hk & ->)%IH. exists (k + 1). split; [lia|].
      rewrite Z.pow_add_r, Z.pow_1_r by lia.
      rewrite Z.div_div by (try done; apply Z.pow_pos_nonneg; lia).
      f_equal. lia.
    + intros [= <-]. apply Hstop.
Qed.

(** [bvec_shrink] *)
Lemma wp_shrink_exact m v size cap l Q E :
  state_ok strict m → buf m v size cap l →
  (∀ m' cap', state_ok strict m' →
     buf m' v size cap' (resize (Z.to_nat cap') junk l) →
     frame v m m' → size ≤ cap' ≤ cap → (cap' = 0 ∨ cap' / 2 < size) →
     (∃ p, calls m' = calls m ++ [Realloc p cap'] ∧
           (cap' ≠ 0 → alloc_ok (blocks m) p cap' = true)) →
     halved cap cap' →
     Q tt m') →
  (∀ cap', size ≤ cap' ≤ cap → cap' ≠ 0 → cap' / 2 < size → halved cap cap' →
     refuses alloc_ok m v cap' → E "out of memory"%string) →
  wp (bvec_shrink alloc_ok junk v) Q E m.
Proof.
  intros Hok Hbuf HQ HE.
  pose proof Hbuf as (bv & Hv & Hd).
  pose proof (describes_bounds _ _ _ _ _ Hd) as (Hs & Hc & Hl).
  unfold bvec_shrink. apply wp_bind. eapply wp_bsize; [done|].
  apply wp_bind. eapply wp_bcapacity; [done|].
  destruct (shrink_loop_spec LOOP_BOUND cap size) as (c' & Hloop & Hc' & Hend); [done| |].
  { rewrite size_mod_eq in Hc. change (2 ^ Z.of_nat LOOP_BOUND) with 8589934592. lia. }
  pose proof (shrink_loop_halves _ _ _ _ Hloop) as Hhalved. rewrite Hloop.
  eapply wp_brealloc; [done|done|lia|lia| |].
  - intros m' Hok' Hbuf' Hfr Hcalls. by apply (HQ m' c').
  - intros Hnz Href. apply (HE c'); [done|done|lia|done|done].
Qed.

Lemma wp_shrink m v size cap l Q E :
  state_ok strict m → buf m v size cap l →
  (∀ m' cap', state_ok strict m' →
     buf m' v size cap' (resize (Z.to_nat cap') junk l) →
     frame v m m' → size ≤ cap' ≤ cap → (cap' = 0 ∨ cap' / 2 < size) →
     (∃ p, calls m' = calls m ++ [Realloc p cap'] ∧
           (cap' ≠ 0 → alloc_ok (blocks m) p cap' = true)) →
     Q tt m') →
  E "out of memory"%string →
  wp (bvec_shrink alloc_ok junk v) Q E m.
Proof.
  intros Hok Hbuf HQ HE. eapply wp_shrink_exact; [done|done| |done].
  intros m' cap' Hok' Hbuf' Hfr Hcap Hend Hcalls _. by apply (HQ m' cap').
Qed.

(** [bvec_bpop]: removing more than there is is fatal. *)
Lemma wp_bpop m v size cap l n Q E :
  state_ok strict m → buf m v size cap l → 0 ≤ n < SIZE_MOD →
  (n ≤ size → ∀ m', state_ok strict m' → buf m' v (size - n) cap l →
     frame v m m' → blocks m' = blocks m → calls m' = calls m →
     (n = 0 → m' = m) → Q tt m') →
  (size < n → E "interger underflow"%string) →
  wp (bvec_bpop alloc_ok junk BVEC_DEFAULT_CAPACITY v n) Q E m.
Proof.
  intros Hok Hbuf Hn HQ HE.
  pose proof Hbuf as (bv & Hv & Hd).
  pose proof (describes_bounds _ _ _ _ _ Hd) as (Hs & Hc & Hl).
  pose proof size_mod_eq as HM.
  unfold bvec_bpop. case_bool_decide as Hnz.
  - apply wp_bind. eapply wp_bsize; [done|].
    destruct (decide (n ≤ size)) as [Hle|Hgt].
    + rewrite size_t_small by lia.
      apply wp_bind, wp_assert; [intros _|intros ?%bool_decide_eq_false; lia].
      eapply wp_bresize; [done|done|lia| |intros; lia|intros; lia].
      intros m' cap' Hok' Hbuf' Hfr Hcap Hsame _.
      destruct Hsame as (-> & Hb & Hcl & _); [lia|right; lia|].
      rewrite resize_all_alt in Hbuf' by lia.
      apply HQ; try done; lia.
    + apply wp_bind, wp_assert; [intros Hlt%bool_decide_eq_true|intros _; apply HE; lia].
      assert (size_t (size - n) = size - n + SIZE_MOD); [|lia].
      unfold size_t. symmetry. apply (Z.mod_unique _ _ (-1)); lia.
  - apply wp_ret. assert (n = 0) as -> by (destruct (decide (n = 0)); [done|by destruct Hnz]).
    apply HQ; try done; [lia|by rewrite Z.sub_0_r|apply frame_refl].
Qed.

(** Writing into the block of a buffer. *)
Lemma state_ok_write m v b size cap l l' :
  state_ok strict m →
  vecs m !! v = Some (Bvec (Ptr b 0) (Ptr b size) (Ptr b cap)) →
  describes (blocks m) (Bvec (Ptr b 0) (Ptr b size) (Ptr b cap)) size cap l →
  length l' = length l →
  let m' := Mem (vecs m) (<[b := l']> (blocks m)) (next_block m) (calls m) in
  state_ok strict m' ∧ buf m' v size cap l' ∧ frame v m m'.
Proof.
  intros Hok Hv Hd Hlen m'.
  pose proof (describes_bounds _ _ _ _ _ Hd) as (Hs & Hc & Hl).
  assert (describes (blocks m') (Bvec (Ptr b 0) (Ptr b size) (Ptr b cap)) size cap l') as Hd'.
  { constructor; [done|done|lia|apply lookup_insert_eq]. }
  assert (is_Some (blocks m !! b)) as Hlive.
  { inversion Hd; subst. by eexists. }
  split; [|split].
  - unfold m'. rewrite <- (insert_id (vecs m) v _ Hv).
    apply state_ok_update; try done.
    + by eexists _, _, _.
    + by apply (ok_vec _ _ Hok v).
    + intros v' bv1 Hne Hv1. by apply (ok_sep _ _ Hok v v').
    + intros v' bv1 b1 o Hne Hv1 Hb1. apply lookup_insert_ne. intros <-.
      destruct (owned_block_live _ _ _ _ _ _ Hok Hv1 Hb1) as [-> _].
      eapply (ok_sep _ _ Hok v v'); [done|done|done|done|]. by rewrite Hb1.
    + intros b1. destruct (decide (b = b1)) as [<-|Hne].
      * intros _. by apply (ok_next _ _ Hok).
      * rewrite lookup_insert_ne by done. apply (ok_next _ _ Hok).
  - by eexists.
  - split; [done|]. split; [|split; [by left|simpl; lia]].
    intros b1 l1 Hb1 Hnown. simpl. rewrite lookup_insert_ne; [done|].
    intros <-. apply Hnown. by eexists _, 0.
Qed.

Lemma load_bytes_length m p n bytes :
  load_bytes m p n = Some bytes → Z.of_nat (length bytes) = n.
Proof.
  unfold load_bytes. destruct p as [|b o]; [done|].
  destruct (blocks m !! b) as [l|]; [|done]. case_decide as Hr; [|done].
  intros [= <-]. rewrite length_take, length_drop. lia.
Qed.

(** [bvec_bpush]: the bytes at [data], in a block that is not the
    buffer's own, are appended. *)
Lemma wp_bpush_exact m v size cap l data n bytes Q E :
  state_ok strict m → buf m v size cap l → 0 ≤ n < SIZE_MOD →
  (n ≠ 0 → load_bytes m data n = Some bytes ∧ ∀ b o, data = Ptr b o → ¬ owns m v b) →
  (n = 0 → bytes = []) →
  (size + n < SIZE_MOD → ∀ m' cap' l', state_ok strict m' →
     buf m' v (size + n) cap' l' →
     take (Z.to_nat (size + n)) l' = take (Z.to_nat size) l ++ bytes →
     frame v m m' → cap ≤ cap' → (n = 0 → m' = m) →
     (size + n ≤ cap → cap ≠ 0 → cap' = cap ∧ calls m' = calls m) →
     Q tt m') →
  (n ≠ 0 → SIZE_MOD ≤ size + n → E "interger overflow"%string) →
  (n ≠ 0 → cap < size + n →
     (∀ c', doubled (first_capacity BVEC_DEFAULT_CAPACITY cap) (size + n) c' →
            SIZE_MOD ≤ c') →
     E "integer overflow"%string) →
  (n ≠ 0 → cap < size + n →
     ∀ c', cap < c' → doubled (first_capacity BVEC_DEFAULT_CAPACITY cap) (size + n) c' →
           refuses alloc_ok m v c' → E "out of memory"%string) →
  wp (bvec_bpush alloc_ok junk BVEC_DEFAULT_CAPACITY v data n) Q E m.
Proof.
  intros Hok Hbuf Hn Hdata Hnil HQ HE1 HE2 HE3.
  pose proof Hbuf as (bv & Hv & Hd).
  pose proof (describes_bounds _ _ _ _ _ Hd) as (Hs & Hc & Hl).
  pose proof size_mod_eq as HM.
  unfold bvec_bpush. case_bool_decide as Hnz.
  - destruct (Hdata Hnz) as [Hbytes Hsep].
    pose proof (load_bytes_length _ _ _ _ Hbytes) as Hblen.
    apply wp_bind. eapply wp_bsize; [done|].
    destruct (decide (size + n < SIZE_MOD)) as [Hfit|Hover].
    + rewrite size_t_small by lia.
      apply wp_bind, wp_assert; [intros _|intros ?%bool_decide_eq_false; lia].
      apply wp_bind.
      eapply wp_bresize_exact; [done|done|lia| | |].
      2:{ intros H1 H2 _ Hwrap. by apply HE2. }
      2:{ intros H1 H2 c' Hc' Hdbl Href. by apply (HE3 Hnz H2 c'). }
      intros m1 cap' Hok1 Hbuf1 Hfr Hcap Hsame _.
      destruct Hbuf1 as (bv1 & Hv1 & Hd1).
      pose proof (describes_bounds _ _ _ _ _ Hd1) as (Hs1 & Hc1 & Hl1).
      destruct Hfr as (Hfvecs & Hfblocks & Hfowns & Hfnext).
      destruct (describes_nonempty _ _ _ _ _ Hd1) as (b1 & -> & Hb1); [lia|].
      apply wp_bind. eapply wp_load_vec; [done|].
      apply wp_bind. eapply wp_defined; [done|]. simpl. rewrite Z.add_0_l.
      assert (∀ bd od, data = Ptr bd od → bd ≠ b1 ∧ blocks m1 !! bd = blocks m !! bd ∧
                                          is_Some (blocks m !! bd)) as Hdblock.
      { intros bd od ->. unfold load_bytes in Hbytes.
        destruct (blocks m !! bd) as [ld|] eqn:Hbd; [|done].
        split; [|split; [|by eexists]].
        - intros ->. destruct (Hfowns b1) as [Hown|Hnew].
          + by eexists _, 0.
          + by eapply Hsep.
          + assert (b1 < next_block m)%positive; [|lia].
            apply (ok_next _ _ Hok). by eexists.
        - erewrite Hfblocks; [done|done|by eapply Hsep]. }
      unfold wp, memcpy.
      assert (load_bytes m1 data n = Some bytes) as ->.
      { unfold load_bytes in *. destruct data as [|bd od]; [done|].
        destruct (Hdblock bd od eq_refl) as (_ & -> & _). done. }
      assert (overlap (Ptr b1 size) data n = false) as ->.
      { destruct data as [|bd od]; [done|]. simpl.
        apply bool_decide_eq_false. intros [<- _].
        by destruct (Hdblock b1 od eq_refl). }
      unfold store_bytes. rewrite Hb1.
      rewrite length_resize in *. rewrite decide_True by lia.
      set (l1 := resize (Z.to_nat cap') junk l) in *.
      set (l' := take (Z.to_nat size) l1 ++ bytes ++ drop (Z.to_nat size + length bytes) l1).
      assert (length l' = length l1) as Hlen'.
      { unfold l', l1. rewrite !length_app, length_take, length_drop, length_resize. lia. }
      destruct (state_ok_write m1 v b1 (size + n) cap' l1 l' Hok1 Hv1 Hd1 Hlen')
        as (Hok2 & Hbuf2 & Hfr2).
      apply (HQ Hfit _ cap' l'); [done|done| | |done|lia|].
      * assert (take (Z.to_nat size) l1 = take (Z.to_nat size) l) as Hpre.
        { unfold l1. rewrite take_resize_le by lia. apply resize_le. lia. }
        unfold l'. rewrite app_assoc, Hpre. apply take_app_length'.
        rewrite length_app, length_take. lia.
      * destruct Hfr2 as (Hf2vecs & Hf2blocks & Hf2owns & Hf2next).
        split; [|split; [|split]]; simpl in *.
        -- done.
        -- intros b l0 Hb Hnown. apply Hf2blocks; [by apply Hfblocks|].
           intros (bv2 & o2 & Hv2 & Hb2). rewrite Hv1 in Hv2. injection Hv2 as <-.
           simpl in Hb2. injection Hb2 as <- _.
           destruct (Hfowns b1) as [Hown|Hnew]; [by eexists _, 0|done|].
           assert (b1 < next_block m)%positive; [|lia].
           apply (ok_next _ _ Hok). by eexists.
        -- done.
        -- done.
      * intros Hle Hcz. destruct Hsame as (-> & _ & Hcl & _); [lia|by left|]. done.
    + apply wp_bind, wp_assert; [intros Hlt%bool_decide_eq_true|intros _; apply HE1; lia].
      assert (size_t (size + n) = size + n - SIZE_MOD); [|lia].
      unfold size_t. symmetry. apply (Z.mod_unique _ _ 1); lia.
  - apply wp_ret. assert (n = 0) as -> by (destruct (decide (n = 0)); [done|by destruct Hnz]).
    rewrite (Hnil eq_refl) in *.
    apply (HQ ltac:(lia) m cap l);
      [done|by rewrite Z.add_0_r|by rewrite Z.add_0_r, app_nil_r|apply frame_refl
      |lia|done|done].
Qed.

Lemma wp_bpush m v size cap l data n bytes Q E :
  state_ok strict m → buf m v size cap l → 0 ≤ n < SIZE_MOD →
  (n ≠ 0 → load_bytes m data n = Some bytes ∧ ∀ b o, data = Ptr b o → ¬ owns m v b) →
  (n = 0 → bytes = []) →
  (size + n < SIZE_MOD → ∀ m' cap' l', state_ok strict m' →
     buf m' v (size + n) cap' l' →
     take (Z.to_nat (size + n)) l' = take (Z.to_nat size) l ++ bytes →
     frame v m m' → cap ≤ cap' → (n = 0 → m' = m) →
     (size + n ≤ cap → cap ≠ 0 → cap' = cap ∧ calls m' = calls m) →
     Q tt m') →
  (n ≠ 0 → SIZE_MOD ≤ size + n → E "interger overflow"%string) →
  (n ≠ 0 → cap < size + n → E "integer overflow"%string) →
  (n ≠ 0 → cap < size + n → E "out of memory"%string) →
  wp (bvec_bpush alloc_ok junk BVEC_DEFAULT_CAPACITY v data n) Q E m.
Proof.
  intros Hok Hbuf Hn Hdata Hnil HQ HE1 HE2 HE3.
  eapply wp_bpush_exact; [done|done|done|done|done|done|done| |].
  - intros H1 H2 _. by apply HE2.
  - intros H1 H2 c' _ _ _. by apply HE3.
Qed.

(** [bvec_ctor]: the struct need not have been written before. *)
Lemma state_ok_ctor m v :
  state_ok strict m →
  state_ok strict (Mem (<[v := Bvec NULL NULL NULL]> (vecs m)) (blocks m)
                       (next_block m) (calls m)).
Proof.
  intros Hok. apply state_ok_update; try done.
  - eexists 0, 0, []. constructor.
  - apply (ok_next _ _ Hok).
Qed.

Lemma wp_ctor m v Q E :
  Q tt (Mem (<[v := Bvec NULL NULL NULL]> (vecs m)) (blocks m) (next_block m) (calls m)) →
  wp (bvec_ctor v) Q E m.
Proof. done. Qed.

(** [bvec_clear] *)
Lemma wp_clear m v size cap l Q E :
  state_ok strict m → buf m v size cap l →
  (∀ m', state_ok strict m' → buf m' v 0 cap l → frame v m m' → Q tt m') →
  wp (bvec_clear v) Q E m.
Proof.
  intros Hok Hbuf HQ.
  pose proof Hbuf as (bv0 & Hv0 & Hd0).
  pose proof (describes_bounds _ _ _ _ _ Hd0) as (Hs & Hc & Hl).
  destruct (set_end_ok m v size cap l 0 Hok Hbuf) as (bv & e & Hv & He & Hok' & Hbuf' & Hfr);
    [lia|].
  assert (e = begin bv) as ->.
  { rewrite Hv in Hv0. injection Hv0 as ->.
    destruct Hd0; simpl in He; by injection He as <-. }
  unfold bvec_clear. apply wp_bind. eapply wp_load_vec; [done|].
  apply wp_store_vec. apply HQ; [done|done|]. apply Hfr, frame_refl.
Qed.

(** [bvec_dtor] followed by [bvec_ctor], which is [bvec_fclear]: the
    block is released and the buffer is empty. *)
Lemma released_blocks m v bv :
  state_ok strict m → vecs m !! v = Some bv →
  is_Some (owned_block m (begin bv)) ∧
  (∀ v' bv1 b o, v' ≠ v → vecs m !! v' = Some bv1 → begin bv1 = Ptr b o →
     release (begin bv) (blocks m) !! b = blocks m !! b) ∧
  (∀ b l1, blocks m !! b = Some l1 → ¬ owns m v b →
     release (begin bv) (blocks m) !! b = Some l1) ∧
  (∀ b, is_Some (release (begin bv) (blocks m) !! b) → is_Some (blocks m !! b)).
Proof.
  intros Hok Hv. destruct (ok_vec _ _ Hok _ _ Hv) as [(size & cap & l & Hd) _].
  destruct Hd as [|b size cap l ? ? ? Hb]; simpl.
  - split; [by eexists|]. done.
  - split; [by eexists|]. split; [|split].
    + intros v' bv1 b1 o Hne Hv1 Hb1. apply lookup_delete_ne.
      intros <-. eapply (ok_sep _ _ Hok v v'); [done|done|done|done|].
      simpl. rewrite Hb1.
      destruct (owned_block_live _ _ _ _ _ _ Hok Hv1 Hb1) as [-> _]. done.
    + intros b1 l1 Hb1 Hnown. rewrite lookup_delete_ne; [done|].
      intros <-. apply Hnown. by exists (Bvec (Ptr b 0) (Ptr b size) (Ptr b cap)), 0.
    + intros b1. destruct (decide (b = b1)) as [->|].
      * rewrite lookup_delete_eq. by intros [? ?].
      * by rewrite lookup_delete_ne.
Qed.

Lemma wp_dtor_ctor m v bv Q E :
  state_ok strict m → vecs m !! v = Some bv →
  (∀ m', state_ok strict m' → buf m' v 0 0 [] → frame v m m' →
     m' = Mem (<[v := Bvec NULL NULL NULL]> (vecs m)) (release (begin bv) (blocks m))
              (next_block m) (calls m ++ [Free (begin bv)]) →
     Q tt m') →
  wp (bvec_dtor v;; bvec_ctor v) Q E m.
Proof.
  intros Hok Hv HQ.
  destruct (released_blocks m v bv Hok Hv) as ([l Hown] & Hkeep & Hframe & Hsub).
  apply wp_bind. unfold bvec_dtor. apply wp_bind. eapply wp_load_vec; [done|].
  unfold wp at 1, free. rewrite Hown. apply wp_ctor. simpl.
  apply HQ; [| | |done].
  - apply state_ok_update; try done.
    + eexists 0, 0, []. constructor.
    + intros b Hb%Hsub. by apply (ok_next _ _ Hok).
  - eexists. simpl. split; [apply lookup_insert_eq|constructor].
  - split; [|split; [|split]]; simpl; [|done| |lia].
    + intros v' Hne. by rewrite lookup_insert_ne.
    + intros b (bv1 & o & Hv1 & Hb1). simpl in Hv1.
      rewrite lookup_insert_eq in Hv1. by injection Hv1 as <-.
Qed.

(** Another buffer is not touched by an operation on [v]. *)
Lemma frame_other_buf m m' v v' size cap l :
  state_ok strict m → frame v m m' → v' ≠ v →
  buf m v' size cap l → buf m' v' size cap l.
Proof.
  intros Hok (Hvecs & Hblocks & _ & _) Hne (bv & Hv & Hd).
  exists bv. rewrite Hvecs by done. split; [done|].
  destruct Hd as [|b size cap l ? ? ? Hb]; constructor; try done.
  apply Hblocks; [done|]. intros (bv1 & o & Hv1 & Hb1).
  eapply (ok_sep _ _ Hok v' v); [done|done|done|done|].
  simpl. rewrite Hb1.
  by destruct (owned_block_live _ _ _ _ _ _ Hok Hv1 Hb1) as [-> _].
Qed.

Lemma buf_load_bytes m v size cap l bv :
  buf m v size cap l → vecs m !! v = Some bv → size ≠ 0 →
  load_bytes m (begin bv) size = Some (take (Z.to_nat size) l).
Proof.
  intros (bv' & Hv' & Hd) Hv Hnz. rewrite Hv in Hv'. injection Hv' as <-.
  pose proof (describes_bounds _ _ _ _ _ Hd) as (Hs & Hc & Hl).
  destruct Hd as [|b size cap l ? ? ? Hb]; [done|]. simpl. rewrite Hb.
  rewrite decide_True by lia. done.
Qed.

(** [bvec_vpush], for two buffers. *)
Lemma wp_vpush m dst src sd cd ld ss cs ls Q E :
  state_ok strict m → dst ≠ src → buf m dst sd cd ld → buf m src ss cs ls →
  (sd + ss < SIZE_MOD → ∀ m' cap' l', state_ok strict m' →
     buf m' dst (sd + ss) cap' l' →
     take (Z.to_nat (sd + ss)) l' = take (Z.to_nat sd) ld ++ take (Z.to_nat ss) ls →
     frame dst m m' → Q tt m') →
  (ss ≠ 0 → SIZE_MOD ≤ sd + ss → E "interger overflow"%string) →
  (ss ≠ 0 → cd < sd + ss → E "integer overflow"%string) →
  (ss ≠ 0 → cd < sd + ss → E "out of memory"%string) →
  wp (bvec_vpush alloc_ok junk BVEC_DEFAULT_CAPACITY dst src) Q E m.
Proof.
  intros Hok Hne Hdst Hsrc HQ HE1 HE2 HE3.
  pose proof Hsrc as (bvs & Hvs & Hds).
  pose proof (describes_bounds _ _ _ _ _ Hds) as (Hs & Hc & Hl).
  unfold bvec_vpush, bvec_bdata. apply wp_bind, wp_bind.
  eapply wp_load_vec; [done|]. apply wp_ret.
  apply wp_bind. eapply wp_bsize; [done|].
  eapply (wp_bpush _ _ _ _ _ _ _ (take (Z.to_nat ss) ls)); [done|done|lia| | | |done|done|done].
  - intros Hnz. split; [by eapply buf_load_bytes|].
    intros b o Hb (bvd & od & Hvd & Hbd).
    destruct (owned_block_live _ _ _ _ _ _ Hok Hvd Hbd) as [-> _].
    destruct (owned_block_live _ _ _ _ _ _ Hok Hvs Hb) as [-> _].
    eapply (ok_sep _ _ Hok dst src); [done|done|done| |]; congruence.
  - by intros ->.
  - intros Hfit m' cap' l' Hok' Hbuf' Htake Hfr _ _ _. by eapply HQ.
Qed.

(** [bvec_bctor] *)
Lemma wp_bctor m v data n bytes Q E :
  state_ok strict m → 0 ≤ n < SIZE_MOD →
  (n ≠ 0 → load_bytes m data n = Some bytes) → (n = 0 → bytes = []) →
  (∀ m' cap' l', state_ok strict m' → buf m' v n cap' l' →
     take (Z.to_nat n) l' = bytes → Q tt m') →
  (n ≠ 0 → E "integer overflow"%string) →
  (n ≠ 0 → E "out of memory"%string) →
  wp (bvec_bctor alloc_ok junk BVEC_DEFAULT_CAPACITY v data n) Q E m.
Proof.
  intros Hok Hn Hdata Hnil HQ HE1 HE2.
  unfold bvec_bctor. apply wp_bind, wp_ctor.
  pose proof (state_ok_ctor m v Hok) as Hok1.
  eapply (wp_bpush _ _ 0 0 [] _ _ bytes); [done| |done| |done| | | |].
  - eexists. simpl. split; [apply lookup_insert_eq|constructor].
  - intros Hnz. split; [by apply Hdata|].
    intros b o _ (bv & ob & Hv & Hb). simpl in Hv. rewrite lookup_insert_eq in Hv.
    by injection Hv as <-.
  - intros Hfit m' cap' l' Hok' Hbuf' Htake _ _ _ _. by eapply HQ.
  - rewrite size_mod_eq in *. lia.
  - intros. by apply HE1.
  - intros. by apply HE2.
Qed.

(** [bvec_copy], for two buffers *)
Lemma wp_copy m dst src sd cd ld ss cs ls Q E :
  state_ok strict m → dst ≠ src → buf m dst sd cd ld → buf m src ss cs ls →
  (∀ m' cap' l', state_ok strict m' → buf m' dst ss cap' l' →
     take (Z.to_nat ss) l' = take (Z.to_nat ss) ls → buf m' src ss cs ls →
     Q tt m') →
  (ss ≠ 0 → E "integer overflow"%string) →
  (ss ≠ 0 → E "out of memory"%string) →
  wp (bvec_copy alloc_ok junk BVEC_DEFAULT_CAPACITY dst src) Q E m.
Proof.
  intros Hok Hne Hdst Hsrc HQ HE1 HE2.
  pose proof Hdst as (bvd & Hvd & Hdd).
  assert (0 ≤ ss < SIZE_MOD) as Hss.
  { destruct Hsrc as (bvs & _ & Hds). apply describes_bounds in Hds. lia. }
  unfold bvec_copy. rewrite bool_decide_true by done.
  unfold bvec_vctor.
  apply (wp_assoc (bvec_dtor dst) (λ _, bvec_ctor dst)
           (λ _, bvec_vpush alloc_ok junk BVEC_DEFAULT_CAPACITY dst src)).
  apply wp_bind. eapply wp_dtor_ctor; [done|done|].
  intros m1 Hok1 Hbuf1 Hfr1 _.
  pose proof (frame_other_buf _ _ _ _ _ _ _ Hok Hfr1 (not_eq_sym Hne) Hsrc) as Hsrc1.
  eapply wp_vpush; [done|done|done|done| | | |].
  - simpl. intros _ m' cap' l' Hok' Hbuf' Htake Hfr'. eapply HQ; [done|done|done|].
    eapply (frame_other_buf m1 m' dst src); [done|done|by apply not_eq_sym|done].
  - rewrite size_mod_eq in *. lia.
  - intros. by apply HE1.
  - intros. by apply HE2.
Qed.

(** [bvec_move], for two buffers: no allocator call can fail. *)
Lemma move_run m dst src bvd bvs :
  state_ok strict m → dst ≠ src →
  vecs m !! dst = Some bvd → vecs m !! src = Some bvs →
  bvec_move dst src m =
    Ret tt (Mem (<[src := Bvec NULL NULL NULL]> (<[dst := bvs]> (vecs m)))
                (release (begin bvd) (blocks m)) (next_block m)
                (calls m ++ [Free (begin bvd)])).
Proof.
  intros Hok Hne Hvd Hvs.
  destruct (released_blocks m dst bvd Hok Hvd) as ([l Hown] & _).
  unfold bvec_move. rewrite bool_decide_true by done.
  unfold mbind, M_bind, bvec_dtor, load_vec, free, store_vec, bvec_ctor, mbind, M_bind.
  rewrite Hvd, Hown. simpl. rewrite Hvs. done.
Qed.

Lemma move_state_ok m dst src bvd bvs :
  state_ok strict m → dst ≠ src →
  vecs m !! dst = Some bvd → vecs m !! src = Some bvs →
  state_ok strict (Mem (<[src := Bvec NULL NULL NULL]> (<[dst := bvs]> (vecs m)))
                       (release (begin bvd) (blocks m)) (next_block m)
                       (calls m ++ [Free (begin bvd)])).
Proof.
  intros Hok Hne Hvd Hvs.
  destruct (released_blocks m dst bvd Hok Hvd) as (_ & Hkeep & _ & Hsub).
  rewrite insert_insert_ne by done.
  pose proof (state_ok_ctor m src Hok) as Hok1.
  apply (state_ok_update strict _ dst bvs _ _ _ Hok1); simpl.
  - destruct (ok_vec _ _ Hok _ _ Hvs) as [(size & cap & l & Hd) _].
    exists size, cap, l. eapply describes_other_blocks; [done|].
    intros b o Hb. by eapply (Hkeep src).
  - by apply (ok_vec _ _ Hok src).
  - intros v' bv Hne' Hv' Hnn. destruct (decide (v' = src)) as [->|Hne''].
    + rewrite lookup_insert_eq in Hv'. injection Hv' as <-. done.
    + rewrite lookup_insert_ne in Hv' by done. by apply (ok_sep _ _ Hok src v').
  - intros v' bv b o Hne' Hv' Hb. destruct (decide (v' = src)) as [->|Hne''].
    + rewrite lookup_insert_eq in Hv'. by injection Hv' as <-.
    + rewrite lookup_insert_ne in Hv' by done. by eapply Hkeep.
  - intros b Hb%Hsub. by apply (ok_next _ _ Hok).
Qed.

(** [bvec_swap] *)
Lemma swap_run m a b bva bvb :
  vecs m !! a = Some bva → vecs m !! b = Some bvb →
  bvec_swap a b m =
    Ret tt (Mem (<[b := bva]> (<[a := bvb]> (vecs m))) (blocks m) (next_block m) (calls m)).
Proof.
  intros Hva Hvb. unfold bvec_swap, mbind, M_bind, load_vec, store_vec.
  by rewrite Hva, Hvb.
Qed.

Lemma swap_state_ok m a b bva bvb :
  state_ok strict m → vecs m !! a = Some bva → vecs m !! b = Some bvb →
  state_ok strict (Mem (<[b := bva]> (<[a := bvb]> (vecs m))) (blocks m)
                       (next_block m) (calls m)).
Proof.
  intros Hok Hva Hvb.
  set (σ := λ v : positive, if decide (v = b) then a else if decide (v = a) then b else v).
  assert (∀ v, <[b := bva]> (<[a := bvb]> (vecs m)) !! v = vecs m !! σ v) as Hlook.
  { intros v. unfold σ. destruct (decide (v = b)) as [->|Hb].
    - by rewrite lookup_insert_eq.
    - rewrite lookup_insert_ne by done. destruct (decide (v = a)) as [->|Ha].
      + by rewrite lookup_insert_eq.
      + by rewrite lookup_insert_ne. }
  assert (∀ v1 v2, v1 ≠ v2 → σ v1 ≠ σ v2) as Hinj.
  { intros v1 v2. unfold σ. repeat case_decide; congruence. }
  split; simpl.
  - intros v bv. rewrite Hlook. apply (ok_vec _ _ Hok).
  - intros v1 v2 bv1 bv2. rewrite !Hlook. intros H1 H2 Hne.
    by apply (ok_sep _ _ Hok (σ v1) (σ v2)), Hinj.
  - apply (ok_next _ _ Hok).
Qed.

(** *** Locals, elements and terminators *)

Lemma wp_with_local {A} (bytes : list Z) (k : ptr → M A) Q E m :
  wp (k (Ptr (next_block m) 0))
     (λ a m', Q a (Mem (vecs m') (delete (next_block m) (blocks m')) (next_block m')
                       (calls m')))
     E (Mem (vecs m) (<[next_block m := bytes]> (blocks m)) (Pos.succ (next_block m))
            (calls m)) →
  wp (with_local bytes k) Q E m.
Proof. unfold wp, with_local. by destruct (k _ _). Qed.

(** A block that no buffer owns can come and go. *)
Lemma state_ok_new_block m bytes :
  state_ok strict m →
  state_ok strict (Mem (vecs m) (<[next_block m := bytes]> (blocks m))
                       (Pos.succ (next_block m)) (calls m)).
Proof.
  intros Hok. assert (∀ b, is_Some (blocks m !! b) → b ≠ next_block m) as Hnb.
  { intros b Hb%(ok_next _ _ Hok). lia. }
  split; simpl.
  - intros v bv Hv. destruct (ok_vec _ _ Hok _ _ Hv) as [(size & cap & l & Hd) Hs].
    split; [|done]. exists size, cap, l. eapply describes_other_blocks; [done|].
    intros b o Hb. apply lookup_insert_ne, not_eq_sym, Hnb.
    by destruct (owned_block_live _ _ _ _ _ _ Hok Hv Hb) as (_ & ? & _).
  - apply (ok_sep _ _ Hok).
  - intros b. destruct (decide (next_block m = b)) as [<-|Hne]; [lia|].
    rewrite lookup_insert_ne by done. intros Hb%(ok_next _ _ Hok). lia.
Qed.

Lemma state_ok_drop_block m nb :
  state_ok strict m → (∀ v, ¬ owns m v nb) →
  state_ok strict (Mem (vecs m) (delete nb (blocks m)) (next_block m) (calls m)).
Proof.
  intros Hok Hfree. split; simpl.
  - intros v bv Hv. destruct (ok_vec _ _ Hok _ _ Hv) as [(size & cap & l & Hd) Hs].
    split; [|done]. exists size, cap, l. eapply describes_other_blocks; [done|].
    intros b o Hb. apply lookup_delete_ne. intros <-. apply (Hfree v). by exists bv, o.
  - apply (ok_sep _ _ Hok).
  - intros b. destruct (decide (nb = b)) as [<-|Hne].
    + rewrite lookup_delete_eq. by intros [? ?].
    + rewrite lookup_delete_ne by done. apply (ok_next _ _ Hok).
Qed.

(** Pushing the bytes of a local variable: [bvec_push_char] and
    [bvec_push_wchar]. *)
Lemma wp_push_local m v size cap l bytes n Q E :
  state_ok strict m → buf m v size cap l →
  n = Z.of_nat (length bytes) → 0 < n < SIZE_MOD →
  (size + n < SIZE_MOD → ∀ m' cap' l', state_ok strict m' →
     buf m' v (size + n) cap' l' →
     take (Z.to_nat (size + n)) l' = take (Z.to_nat size) l ++ bytes →
     Q tt m') →
  (SIZE_MOD ≤ size + n → E "interger overflow"%string) →
  (cap < size + n →
     (∀ c', doubled (first_capacity BVEC_DEFAULT_CAPACITY cap) (size + n) c' →
            SIZE_MOD ≤ c') →
     E "integer overflow"%string) →
  (cap < size + n →
     ∀ c', cap < c' → doubled (first_capacity BVEC_DEFAULT_CAPACITY cap) (size + n) c' →
           refuses alloc_ok (local_frame bytes m) v c' → E "out of memory"%string) →
  wp (with_local bytes (λ p, bvec_bpush alloc_ok junk BVEC_DEFAULT_CAPACITY v p n)) Q E m.
Proof.
  intros Hok Hbuf -> Hlen HQ HE1 HE2 HE3.
  pose proof Hbuf as (bv & Hv & Hd).
  set (nb := next_block m).
  assert (∀ b, is_Some (blocks m !! b) → b ≠ nb) as Hnb.
  { intros b Hb%(ok_next _ _ Hok). unfold nb. lia. }
  assert (∀ b, owns m v b → b ≠ nb) as Hown.
  { intros b (bv1 & o & Hv1 & Hb1). apply Hnb.
    by destruct (owned_block_live _ _ _ _ _ _ Hok Hv1 Hb1) as (_ & ? & _). }
  apply wp_with_local. fold nb.
  pose proof (state_ok_new_block m bytes Hok) as Hok1. fold nb in Hok1.
  eapply (wp_bpush_exact _ _ size cap l _ _ bytes); [done| |lia| |lia| |auto|auto|].
  - exists bv. split; [done|]. eapply describes_other_blocks; [done|].
    intros b o Hb. simpl. apply lookup_insert_ne, not_eq_sym, Hown. by exists bv, o.
  - intros _. split.
    + unfold load_bytes. simpl. rewrite lookup_insert_eq.
      rewrite decide_True by lia. rewrite drop_0. by rewrite Nat2Z.id, firstn_all.
    + intros b o [= <- <-] Hb. by apply (Hown nb).
  - intros Hfit m2 cap' l' Hok2 Hbuf2 Htake Hfr _ _ _.
    destruct Hfr as (Hfvecs & Hfblocks & Hfowns & Hfnext). simpl in *.
    assert (∀ v', ¬ owns m2 v' nb) as Hfree.
    { intros v' Hown'. destruct (decide (v' = v)) as [->|Hne'].
      - destruct (Hfowns _ Hown') as [Hold|Hnew]; [by apply (Hown nb)|lia].
      - destruct Hown' as (bv1 & o & Hv1 & Hb1). rewrite Hfvecs in Hv1 by done.
        destruct (owned_block_live _ _ _ _ _ _ Hok Hv1 Hb1) as (_ & Hlive & _).
        by apply (Hnb nb). }
    apply (HQ Hfit _ cap' l'); [|  |done].
    + by apply state_ok_drop_block.
    + destruct Hbuf2 as (bv2 & Hv2 & Hd2). exists bv2. split; [done|].
      eapply describes_other_blocks; [done|]. intros b o Hb. simpl.
      apply lookup_delete_ne. intros <-. apply (Hfree v). by exists bv2, o.
  - intros _ Hlt c' Hc' Hdbl Href. by apply (HE3 Hlt c').
Qed.

Lemma tback_run m v size cap l sz :
  buf m v size cap l → 0 < sz → 0 < size → size mod sz = 0 →
  bvec_tback v sz m = Ret (last_element sz size l) m.
Proof.
  intros (bv & Hv & Hd) Hsz Hsize Hmod.
  pose proof (describes_bounds _ _ _ _ _ Hd) as (Hs & Hc & Hl).
  apply Z.mod_divide in Hmod as [q Hq]; [|lia].
  assert (0 < q ∧ q ≤ size) as [? ?] by nia.
  unfold bvec_tback, bvec_tsize, bvec_tat, bvec_tdata, bvec_bdata, bvec_bsize.
  unfold mbind, M_bind, load_vec. rewrite Hv. simpl.
  rewrite (describes_size _ _ _ _ _ Hd). simpl.
  destruct (describes_nonempty _ _ _ _ _ Hd) as (b & -> & Hb); [lia|]. simpl.
  assert (size `div` sz = q) as -> by (subst size; by apply Z.div_mul; lia).
  rewrite size_t_small by lia.
  rewrite Hv. simpl. unfold load_elem. simpl. unfold load_bytes. rewrite Hb.
  rewrite decide_True by nia. unfold last_element.
  by replace (0 + (q - 1) * sz) with (size - sz) by lia.
Qed.

Lemma le_encode_zero k : le_encode k 0 = replicate k 0.
Proof.
  induction k as [|k IH]; [done|]. cbn [le_encode replicate].
  change (0 `div` 256) with 0. change (0 `mod` 256) with 0. by rewrite IH.
Qed.

Lemma le_decode_zero k : le_decode (replicate k 0) = 0.
Proof. induction k as [|k IH]; [done|]. simpl. rewrite IH. done. Qed.

Lemma getstr_is_get_terminated v :
  bvec_getstr alloc_ok junk BVEC_DEFAULT_CAPACITY v = get_terminated SIZEOF_CHAR v.
Proof. done. Qed.

Lemma getwcs_is_get_terminated v :
  bvec_getwcs alloc_ok junk BVEC_DEFAULT_CAPACITY v = get_terminated SIZEOF_WCHAR_T v.
Proof. done. Qed.

(** A buffer that ends with a terminator is left alone. *)
Lemma get_terminated_fixed m v size cap l sz bv :
  buf m v size cap l → vecs m !! v = Some bv →
  0 < sz → 0 < size → size mod sz = 0 → last_element sz size l = 0 →
  get_terminated sz v m = Ret (begin bv) m.
Proof.
  intros Hbuf Hv Hsz Hsize Hmod Hlast.
  pose proof Hbuf as (bv' & Hv' & Hd). rewrite Hv in Hv'. injection Hv' as <-.
  assert (bvec_empty v m = Ret false m) as Hempty.
  { unfold bvec_empty, bvec_bsize, mbind, M_bind, load_vec. rewrite Hv. simpl.
    rewrite (describes_size _ _ _ _ _ Hd). simpl.
    by rewrite bool_decide_false by lia. }
  assert (bvec_tdata v m = Ret (begin bv) m) as Hdata.
  { unfold bvec_tdata, bvec_bdata, mbind, M_bind, load_vec. by rewrite Hv. }
  unfold get_terminated. unfold mbind at 1 2, M_bind at 1 2. rewrite Hempty.
  unfold mbind at 1, M_bind at 1. rewrite (tback_run _ _ _ _ _ _ Hbuf) by done.
  rewrite Hlast. simpl. unfold mret, M_ret. by rewrite Hdata.
Qed.

(** [bvec_getstr] and [bvec_getwcs]: a terminator is appended exactly
    when the buffer is empty or does not end with one, and calling
    again changes nothing. *)
Lemma wp_get_terminated m v size cap l sz E :
  state_ok strict m → buf m v size cap l →
  0 < sz < SIZE_MOD → size mod sz = 0 →
  (size = 0 ∨ last_element sz size l ≠ 0 → SIZE_MOD ≤ size + sz →
     E "interger overflow"%string) →
  (size = 0 ∨ last_element sz size l ≠ 0 → cap < size + sz →
     (∀ c', doubled (first_capacity BVEC_DEFAULT_CAPACITY cap) (size + sz) c' →
            SIZE_MOD ≤ c') →
     E "integer overflow"%string) →
  (size = 0 ∨ last_element sz size l ≠ 0 → cap < size + sz →
     ∀ c', cap < c' → doubled (first_capacity BVEC_DEFAULT_CAPACITY cap) (size + sz) c' →
           refuses alloc_ok (local_frame (le_encode (Z.to_nat sz) 0) m) v c' →
           E "out of memory"%string) →
  wp (get_terminated sz v)
     (λ p m',
        (if decide (size = 0 ∨ last_element sz size l ≠ 0)
         then size_of m' v = Some (size + sz) ∧
              bytes_of m' v = Some (take (Z.to_nat size) l ++ replicate (Z.to_nat sz) 0)
         else m' = m) ∧
        state_ok strict m' ∧
        bvec_bdata v m' = Ret p m' ∧
        get_terminated sz v m' = Ret p m')
     E m.
Proof.
  intros Hok Hbuf Hsz Hmod HE1 HE2 HE3.
  pose proof Hbuf as (bv & Hv & Hd).
  pose proof (describes_bounds _ _ _ _ _ Hd) as (Hs & Hc & Hl).
  assert (Z.of_nat (length (le_encode (Z.to_nat sz) 0)) = sz) as Hlen.
  { rewrite le_encode_zero, length_replicate. lia. }
  assert (∀ Q, size = 0 ∨ last_element sz size l ≠ 0 →
               (size + sz < SIZE_MOD → ∀ m' cap' l', state_ok strict m' →
                  buf m' v (size + sz) cap' l' →
                  take (Z.to_nat (size + sz)) l' =
                    take (Z.to_nat size) l ++ replicate (Z.to_nat sz) 0 → Q tt m') →
               wp (with_local (le_encode (Z.to_nat sz) 0)
                     (λ p, bvec_bpush alloc_ok junk BVEC_DEFAULT_CAPACITY v p sz)) Q E m)
    as Hpush.
  { intros Q Hdue HQ.
    apply (wp_push_local m v size cap l); [done|done|by rewrite Hlen|done| | | |].
    - rewrite le_encode_zero. exact HQ.
    - by apply HE1.
    - by apply HE2.
    - by apply HE3. }
  assert (∀ m' cap' l', size + sz < SIZE_MOD → state_ok strict m' →
            buf m' v (size + sz) cap' l' →
            take (Z.to_nat (size + sz)) l' =
              take (Z.to_nat size) l ++ replicate (Z.to_nat sz) 0 →
            wp (bvec_tdata v)
               (λ p m'', (size_of m'' v = Some (size + sz) ∧
                          bytes_of m'' v =
                            Some (take (Z.to_nat size) l ++ replicate (Z.to_nat sz) 0)) ∧
                         state_ok strict m'' ∧ bvec_bdata v m'' = Ret p m'' ∧
                         get_terminated sz v m'' = Ret p m'') E m') as Hafter.
  { intros m' cap' l' Hfit Hok' Hbuf' Htake.
    pose proof Hbuf' as (bv' & Hv' & Hd').
    pose proof (describes_bounds _ _ _ _ _ Hd') as (Hs' & Hc' & Hl').
    unfold bvec_tdata, bvec_bdata. apply wp_bind. eapply wp_load_vec; [done|].
    apply wp_ret. split; [split|split; [done|split]].
    - by eapply buf_size_of.
    - rewrite (buf_bytes_of _ _ _ _ _ Hbuf'). by f_equal.
    - unfold mbind, M_bind, load_vec. by rewrite Hv'.
    - eapply get_terminated_fixed; [done|done|lia|lia| |].
      + rewrite Z.add_mod, Hmod, Z_mod_same_full by lia. done.
      + unfold last_element. replace (size + sz - sz) with size by lia.
        assert (take (Z.to_nat sz) (drop (Z.to_nat size) l') =
                replicate (Z.to_nat sz) 0) as ->; [|apply le_decode_zero].
        replace (Z.to_nat (size + sz)) with (Z.to_nat size + Z.to_nat sz)%nat in Htake
          by lia.
        rewrite <- take_take_drop in Htake.
        apply app_inj_1 in Htake as [_ ?]; [done|].
        rewrite !length_take. lia. }
  unfold get_terminated. apply wp_bind. unfold bvec_empty. apply wp_bind.
  eapply wp_bsize; [done|]. apply wp_ret.
  apply wp_bind. case_bool_decide as Hempty.
  - apply Hpush; [by left|]. intros Hfit m' cap' l' Hok' Hbuf' Htake.
    eapply wp_mono; [by eapply Hafter| |done].
    intros p m'' (HA & Hrest). split; [|done]. by rewrite decide_True by (by left).
  - apply wp_bind. unfold wp at 1. rewrite (tback_run _ _ _ _ _ _ Hbuf) by lia.
    case_bool_decide as Hlast.
    + apply Hpush; [by right|]. intros Hfit m' cap' l' Hok' Hbuf' Htake.
      eapply wp_mono; [by eapply Hafter| |done].
      intros p m'' (HA & Hrest). split; [|done]. by rewrite decide_True by (by right).
    + apply wp_ret. unfold bvec_tdata, bvec_bdata. apply wp_bind.
      eapply wp_load_vec; [done|]. apply wp_ret.
      split; [by rewrite decide_False by (intros [?|?]; done)|].
      split; [done|]. split.
      * unfold mbind, M_bind, load_vec. by rewrite Hv.
      * eapply get_terminated_fixed; [done|done|lia|lia|done|].
        destruct (decide (last_element sz size l = 0)); [done|by destruct Hlast].
Qed.

(** *** The formatted-text loop *)

Lemma vprintf_loop_is_printf_loop fuel fmt r :
  vprintf_loop alloc_ok junk BVEC_DEFAULT_CAPACITY fuel fmt r =
  printf_loop SIZEOF_CHAR fuel fmt r.
Proof. induction fuel as [|fuel IH]; [done|]. simpl. by rewrite IH. Qed.

Lemma vwprintf_loop_is_printf_loop fuel fmt r :
  vwprintf_loop alloc_ok junk BVEC_DEFAULT_CAPACITY fuel fmt r =
  printf_loop SIZEOF_WCHAR_T fuel fmt r.
Proof. induction fuel as [|fuel IH]; [done|]. simpl. by rewrite IH. Qed.

Lemma elements_of_lookup n k l i :
  (i < n)%nat →
  elements_of n k l !! i = Some (le_decode (take k (drop (i * k) l))).
Proof.
  revert l i. induction n as [|n IH]; intros l i Hi; [lia|].
  destruct i as [|i]; simpl; [done|].
  rewrite IH by lia. by rewrite drop_drop.
Qed.

Lemma first_zero_exists (l : list Z) (i : nat) :
  l !! i = Some 0 → ∃ n, first_zero l = Some n ∧ 0 ≤ n ≤ Z.of_nat i.
Proof.
  revert i. induction l as [|x l IH]; intros i Hi; [done|]. simpl.
  case_decide as Hx; [exists 0; split; [done|lia]|].
  destruct i as [|i]; simpl in Hi; [congruence|].
  destruct (IH i Hi) as (n & -> & Hn). exists (Z.succ n). split; [done|lia].
Qed.

Lemma le_encode_length k x : length (le_encode k x) = k.
Proof. revert x. induction k as [|k IH]; intros x; [done|]. simpl. by rewrite IH. Qed.

Lemma encoded_length k (out : list Z) :
  length (concat (map (le_encode k) out)) = (length out * k)%nat.
Proof.
  induction out as [|x out IH]; [done|].
  simpl. rewrite length_app, IH, le_encode_length. lia.
Qed.

(** The formatter writes inside the buffer. *)
Lemma bounded_format_ok m r b size cap l bufsize fmt sz :
  state_ok strict m →
  vecs m !! r = Some (Bvec (Ptr b 0) (Ptr b size) (Ptr b cap)) →
  describes (blocks m) (Bvec (Ptr b 0) (Ptr b size) (Ptr b cap)) size cap l →
  0 < sz → 0 ≤ bufsize → bufsize * sz ≤ size →
  ∃ m1 l1, bounded_format (Ptr b 0) bufsize fmt sz m = Ret tt m1 ∧
           state_ok strict m1 ∧ vecs m1 = vecs m ∧
           describes (blocks m1) (Bvec (Ptr b 0) (Ptr b size) (Ptr b cap)) size cap l1.
Proof.
  intros Hok Hv Hd Hsz Hbs Hsize.
  pose proof (describes_bounds _ _ _ _ _ Hd) as (Hs & Hc & Hl).
  unfold bounded_format.
  assert (length (take (Z.to_nat bufsize) (fmt bufsize)) ≤ Z.to_nat bufsize)%nat as Holen.
  { rewrite length_take. lia. }
  destruct (take (Z.to_nat bufsize) (fmt bufsize)) as [|x out].
  - by exists m, l.
  - pose proof (encoded_length (Z.to_nat sz) (x :: out)) as Hwlen.
    set (written := concat (map (le_encode (Z.to_nat sz)) (x :: out))) in *.
    inversion Hd as [|? ? ? ? _ _ _ Hb]; subst.
    unfold store_bytes. rewrite Hb. rewrite decide_True by nia.
    set (l1 := take (Z.to_nat 0) l ++ written ++ drop (Z.to_nat 0 + length written) l).
    assert (length l1 = length l) as Hl1.
    { unfold l1. rewrite !length_app, length_take, length_drop. nia. }
    destruct (state_ok_write m r b size (Z.of_nat (length l)) l l1 Hok Hv Hd Hl1)
      as (Hok1 & (bv1 & Hv1 & Hd1) & _).
    eexists _, l1. split; [done|]. split; [done|]. split; [done|].
    simpl in Hv1. rewrite Hv in Hv1. by injection Hv1 as <-.
Qed.

(** One turn of the loop up to its test: the formatter writes into the
    buffer, the last element is set to zero, and the string has a
    length below the element count. *)
Lemma wp_printf_turn {A} m r size cap l sz bufsize fmt (k : ptr → Z → Z → M A) Q E :
  state_ok strict m → buf m r size cap l →
  0 < sz → 0 < bufsize → size = bufsize * sz →
  (∀ m' l' p n, state_ok strict m' → buf m' r size cap l' →
     bvec_tdata r m' = Ret p m' → bvec_tsize r sz m' = Ret bufsize m' →
     string_length p sz m' = Ret n m' →
     0 ≤ n ≤ bufsize - 1 → wp (k p bufsize n) Q E m') →
  wp (buf ← bvec_tdata r;
      bufsize ← bvec_tsize r sz;
      bounded_format buf bufsize fmt sz;;
      store_elem buf (size_t (bufsize - 1)) sz 0;;
      n ← string_length buf sz;
      k buf bufsize n) Q E m.
Proof.
  intros Hok Hbuf Hsz Hbs Hsize HQ.
  pose proof Hbuf as (bv & Hv & Hd).
  pose proof (describes_bounds _ _ _ _ _ Hd) as (Hs & Hc & Hl).
  destruct (describes_nonempty _ _ _ _ _ Hd) as (b & -> & Hb); [nia|].
  apply wp_bind. unfold bvec_tdata, bvec_bdata. apply wp_bind.
  eapply wp_load_vec; [done|]. apply wp_ret. simpl.
  apply wp_bind. unfold bvec_tsize. apply wp_bind. eapply wp_bsize; [done|]. apply wp_ret.
  assert (size `div` sz = bufsize) as Hdiv by (subst size; apply Z.div_mul; lia).
  rewrite Hdiv.
  (* the formatter *)
  destruct (bounded_format_ok m r b size cap l bufsize fmt sz Hok Hv Hd)
    as (m1 & l1 & Hrun1 & Hok1 & Hvecs1 & Hd1); [lia|lia|lia|].
  apply wp_bind. unfold wp at 1. rewrite Hrun1.
  assert (vecs m1 !! r = Some (Bvec (Ptr b 0) (Ptr b size) (Ptr b cap))) as Hv1
    by (by rewrite Hvecs1).
  pose proof (describes_bounds _ _ _ _ _ Hd1) as (_ & _ & Hl1).
  destruct (describes_nonempty _ _ _ _ _ Hd1) as (b' & [= <-] & Hb1); [nia|].
  (* the last element *)
  rewrite size_t_small by nia.
  set (kk := Z.to_nat sz).
  set (off := Z.to_nat ((bufsize - 1) * sz)).
  set (l2 := take off l1 ++ le_encode kk 0 ++ drop (off + kk) l1).
  assert (Z.of_nat off + sz = size) as Hoff by (unfold off; nia).
  assert (length l2 = length l1) as Hl2.
  { unfold l2. rewrite !length_app, length_take, length_drop, le_encode_length.
    unfold kk. lia. }
  destruct (state_ok_write m1 r b size cap l1 l2 Hok1 Hv1 Hd1 Hl2) as (Hok2 & Hbuf2 & _).
  apply wp_bind. unfold store_elem. apply wp_bind. eapply wp_defined; [done|].
  unfold wp at 1, store_bytes. rewrite Hb1, le_encode_length.
  rewrite decide_True by nia.
  rewrite Z.add_0_l. fold kk off l2.
  (* the length of the string *)
  set (m2 := Mem (vecs m1) (<[b:=l2]> (blocks m1)) (next_block m1) (calls m1)) in *.
  assert (∃ n, string_length (Ptr b 0) sz m2 = Ret n m2 ∧ 0 ≤ n ≤ bufsize - 1)
    as (n & Hrun & Hn).
  { unfold string_length. simpl. rewrite lookup_insert_eq.
    rewrite decide_True by lia. change (Z.to_nat 0) with 0%nat. rewrite drop_0.
    fold kk.
    destruct (first_zero_exists (elements_of (length l2 `div` kk) kk l2)
                (Z.to_nat (bufsize - 1))) as (n & -> & Hn).
    - rewrite elements_of_lookup.
      + f_equal. replace (Z.to_nat (bufsize - 1) * kk)%nat with off by (unfold off, kk; nia).
        unfold l2. rewrite drop_app_length' by (rewrite length_take; lia).
        rewrite take_app_length' by (by rewrite le_encode_length).
        rewrite le_encode_zero. apply le_decode_zero.
      + assert (Z.to_nat bufsize ≤ length l2 `div` kk)%nat; [|lia].
        apply Nat.div_le_lower_bound; [unfold kk; lia|]. unfold kk. nia.
    - exists n. split; [done|lia]. }
  apply wp_bind. unfold wp at 1. rewrite Hrun.
  eapply (HQ m2 l2); try done.
  - unfold bvec_tdata, bvec_bdata, mbind, M_bind, load_vec. simpl. by rewrite Hv1.
  - unfold bvec_tsize, bvec_bsize, mbind, M_bind, load_vec. simpl. rewrite Hv1. simpl.
    rewrite decide_True by done. rewrite Z.sub_0_r, size_t_small by lia. simpl.
    unfold mret, M_ret. by rewrite Hdiv.
Qed.

(** The loop ends within the turns a [size_t] can double: it returns
    when the string fits, and quits when the doubling wraps or the
    buffer cannot grow.  For elements of two bytes the byte size must
    double without wrapping too, which holds while no block has
    [2^31] bytes or more. *)
Lemma wp_printf_loop fuel fmt r sz :
  sz = 1 ∨ (sz = 2 ∧ ∀ bs p n, alloc_ok bs p n = true → n < 2 ^ 31) →
  ∀ m size cap l bufsize,
  state_ok strict m → buf m r size cap l →
  0 < bufsize → size = bufsize * sz → (sz = 2 → cap < 2 ^ 31) →
  SIZE_MOD ≤ bufsize * 2 ^ Z.of_nat fuel →
  wp (printf_loop sz fuel fmt r) (λ _ m', fits sz r m')
     (λ msg, msg = "integer overflow"%string ∨ msg = "out of memory"%string) m.
Proof.
  intros Hsz. pose proof size_mod_eq as HM. destruct pow2_31_32 as [H31 H32].
  assert (0 < sz) as Hpos by (destruct Hsz as [->|[-> _]]; lia).
  induction fuel as [|fuel IH]; intros m size cap l bufsize Hok Hbuf Hbs Hsize Hcap Hfuel.
  - pose proof Hbuf as (bv & Hv & Hd).
    pose proof (describes_bounds _ _ _ _ _ Hd) as (Hs & Hc & Hl).
    simpl in Hfuel. nia.
  - cbn [printf_loop].
    apply (wp_printf_turn m r size cap l sz bufsize); [done|done|done|done|done|].
    intros m1 l1 p n Hok1 Hbuf1 Hdata1 Htsize1 Hlen1 Hn.
    pose proof Hbuf1 as (bv & Hv & Hd).
    pose proof (describes_bounds _ _ _ _ _ Hd) as (Hs & Hc & Hl).
    rewrite size_t_small by nia.
    case_bool_decide as Hfit.
    + apply wp_ret. exists p, bufsize, n. done.
    + apply wp_bind, wp_assert; [intros Hdbl%bool_decide_eq_true|intros _; by left].
      assert (bufsize * 2 < SIZE_MOD) as Hsmall.
      { unfold size_t in Hdbl. rewrite HM in *.
        destruct (decide (bufsize * 2 < 4294967296)); [done|].
        assert ((bufsize * 2) mod 4294967296 = bufsize * 2 - 4294967296); [|lia].
        symmetry. apply (Z.mod_unique _ _ 1); nia. }
      rewrite size_t_small by lia.
      assert (bufsize * 2 * sz < SIZE_MOD) as Hbytes.
      { destruct Hsz as [->|[-> _]]; [lia|]. specialize (Hcap eq_refl). lia. }
      apply wp_bind. unfold bvec_tresize. rewrite size_t_small by nia.
      eapply wp_bresize; [done|done|nia| |intros; by left|intros; by right].
      intros m2 cap' Hok2 Hbuf2 Hfr Hcap' _ Halloc.
      eapply (IH m2 _ cap' _ (bufsize * 2)); [done|done|lia|done| |].
      * intros ->. destruct Halloc as [->|(bs & q & Halloc)]; [by apply Hcap|].
        destruct Hsz as [?|[_ Hlim]]; [lia|]. by eapply Hlim.
      * rewrite Nat2Z.inj_succ, Z.pow_succ_r in Hfuel by lia. lia.
Qed.

Lemma live_buf m v :
  state_ok strict m → live m v → ∃ size cap l, buf m v size cap l.
Proof.
  intros Hok [bv Hv]. destruct (ok_vec _ _ Hok _ _ Hv) as [(size & cap & l & Hd) _].
  exists size, cap, l, bv. done.
Qed.

(** Every public operation keeps the memory well formed, and either
    returns or quits. *)
Lemma run_op_state_ok op m :
  state_ok strict m → op_ready m op →
  wp (run_op alloc_ok junk BVEC_DEFAULT_CAPACITY op) (λ _ m', state_ok strict m')
     (λ _, True) m.
Proof.
  intros Hok Hready. destruct op as [v|v data n|v|v|v|dst src|dst src|a b|v n|v n|v|v data n|dst src|v n];
    simpl in *.
  - apply wp_ctor. by apply state_ok_ctor.
  - destruct Hready as [Hn Hdata]. destruct (decide (n = 0)) as [->|Hnz].
    + eapply (wp_bctor _ _ _ _ []); done.
    + destruct (Hdata Hnz) as [bytes Hbytes].
      eapply (wp_bctor _ _ _ _ bytes); done.
  - destruct Hready as [bv Hv]. by eapply wp_dtor_ctor.
  - destruct (live_buf _ _ Hok Hready) as (size & cap & l & Hbuf).
    by eapply wp_clear.
  - destruct Hready as [bv Hv]. unfold bvec_fclear. by eapply wp_dtor_ctor.
  - destruct Hready as [Hd Hs]. destruct (decide (dst = src)) as [->|Hne].
    + unfold bvec_copy. rewrite bool_decide_false by (by intros ?). by apply wp_ret.
    + destruct (live_buf _ _ Hok Hd) as (sd & cd & ld & Hbd).
      destruct (live_buf _ _ Hok Hs) as (ss & cs & ls & Hbs).
      eapply wp_copy; done.
  - destruct Hready as [[bvd Hd] [bvs Hs]]. destruct (decide (dst = src)) as [->|Hne].
    + unfold bvec_move. rewrite bool_decide_false by (by intros ?). by apply wp_ret.
    + unfold wp. rewrite (move_run _ _ _ _ _ Hok Hne Hd Hs). by apply move_state_ok.
  - destruct Hready as [[bva Ha] [bvb Hb]].
    unfold wp. rewrite (swap_run _ _ _ _ _ Ha Hb). by apply swap_state_ok.
  - destruct Hready as [Hlive Hn].
    destruct (live_buf _ _ Hok Hlive) as (size & cap & l & Hbuf).
    eapply wp_breserve; try done. lia.
  - destruct Hready as [Hlive Hn].
    destruct (live_buf _ _ Hok Hlive) as (size & cap & l & Hbuf).
    eapply wp_bresize; try done. lia.
  - destruct (live_buf _ _ Hok Hready) as (size & cap & l & Hbuf).
    by eapply wp_shrink.
  - destruct Hready as (Hlive & Hn & Hdata).
    destruct (live_buf _ _ Hok Hlive) as (size & cap & l & Hbuf).
    destruct (decide (n = 0)) as [->|Hnz].
    + eapply (wp_bpush _ _ _ _ _ _ _ []); done.
    + destruct (Hdata Hnz) as [[bytes Hbytes] Hout].
      eapply (wp_bpush _ _ _ _ _ _ _ bytes); try done.
      intros _. split; [done|]. intros b o -> (bv & o' & Hv & Hb).
      by eapply Hout.
  - destruct Hready as (Hd & Hs & Hne).
    destruct (live_buf _ _ Hok Hd) as (sd & cd & ld & Hbd).
    destruct (live_buf _ _ Hok Hs) as (ss & cs & ls & Hbs).
    eapply wp_vpush; done.
  - destruct Hready as [Hlive Hn].
    destruct (live_buf _ _ Hok Hlive) as (size & cap & l & Hbuf).
    eapply wp_bpop; done.
Qed.

End Operations.

(** ** The structural invariant *)

Lemma state_ok_ordered strict m :
  state_ok strict m → all_buffers ordered m ∧ all_buffers null_has_no_capacity m.
Proof.
  intros Hok. split; intros v bv Hv;
    destruct (ok_vec _ _ Hok _ _ Hv) as [(size & cap & l & Hd) _];
    by apply describes_ordered in Hd as [? ?].
Qed.

Lemma state_ok_null_iff m :
  state_ok true m → all_buffers null_iff_no_capacity m.
Proof.
  intros Hok v bv Hv. destruct (ok_vec _ _ Hok _ _ Hv) as [(size & cap & l & Hd) Hstrict].
  split; [|by apply Hstrict]. by apply describes_ordered in Hd as [_ ?].
Qed.

Lemma state_ok_empty strict : state_ok strict empty_mem.
Proof.
  split; simpl.
  - intros v bv. by rewrite lookup_empty.
  - intros v1 v2 bv1 bv2. by rewrite lookup_empty.
  - intros b. rewrite lookup_empty. by intros [? ?].
Qed.

Lemma state_ok_constructed strict : state_ok strict constructed_mem.
Proof. apply (state_ok_ctor strict empty_mem 1), state_ok_empty. Qed.

Lemma state_ok_sample strict : state_ok strict sample_mem.
Proof.
  pose proof (state_ok_ctor strict empty_mem 2 (state_ok_empty strict)) as Hok.
  apply (state_ok_update strict _ 1 _ _ _ _ Hok); simpl.
  - exists 3, 4, [65; 66; 67; 0]. by constructor.
  - done.
  - intros v' bv Hne [[_ <-]|[_ ?]]%lookup_insert_Some _; done.
  - intros v' bv b o Hne [[_ <-]|[_ ?]]%lookup_insert_Some; done.
  - intros b Hb. apply lookup_insert_is_Some in Hb as [<-|[_ Hb]]; [done|].
    apply lookup_insert_is_Some in Hb as [<-|[_ Hb]]; [done|].
    rewrite lookup_empty in Hb. by destruct Hb.
Qed.

Lemma buf_sample : buf sample_mem 1 3 4 [65; 66; 67; 0].
Proof. eexists. split; [done|]. by constructor. Qed.

Lemma buf_sample_empty : buf sample_mem 2 0 0 [].
Proof. eexists. split; [done|]. by constructor. Qed.

Lemma state_ok_roomy strict : state_ok strict roomy_mem.
Proof.
  apply (state_ok_update strict _ 1 _ _ _ _ (state_ok_empty strict)); simpl.
  - exists 3, 16, ([65; 66; 67] ++ replicate 13 0). by constructor.
  - done.
  - intros v' bv Hne Hv. by rewrite lookup_empty in Hv.
  - intros v' bv b o Hne Hv. by rewrite lookup_empty in Hv.
  - intros b Hb. apply lookup_insert_is_Some in Hb as [<-|[_ Hb]]; [done|].
    rewrite lookup_empty in Hb. by destruct Hb.
Qed.

Lemma buf_roomy : buf roomy_mem 1 3 16 ([65; 66; 67] ++ replicate 13 0).
Proof. eexists. split; [done|]. by constructor. Qed.

End ByteVectorProofs.

(** * The claims about the raw buffer *)

Module ByteVectorClaims.
Import ByteVector ByteVectorProofs.

(** C1, amended.  In a well-formed memory (every buffer is described by
    a live block of its capacity, no two buffers share a block), every
    public operation called as its contract asks (construct,
    construct-from-bytes, destroy-then-construct, clear, clear-and-free,
    copy, move, swap, reserve, resize, shrink-to-fit, append-bytes,
    append-buffer, truncate) either quits with a fatal error or returns
    in a well-formed memory where every buffer has
    [begin <= end <= capacity_end] and a [NULL] [begin] only with no
    capacity.  That no capacity means a [NULL] [begin] holds as well
    when the allocator returns [NULL] for every request of no bytes
    ([strict]). *)
Theorem structural_invariant_kept
    (alloc_ok : gmap positive (list Z) → ptr → Z → bool) (junk default_capacity : Z)
    (strict : bool) (op : public_op) (m : mem) :
  0 ≤ default_capacity < SIZE_MOD →
  (strict = true → ∀ bs p, alloc_ok bs p 0 = false) →
  state_ok strict m →
  op_ready m op →
  wp (run_op alloc_ok junk default_capacity op)
     (λ _ m', state_ok strict m' ∧
              all_buffers ordered m' ∧
              all_buffers null_has_no_capacity m' ∧
              (strict = true → all_buffers null_iff_no_capacity m'))
     (λ _, True) m.
Proof.
  intros Hdef Hstrict Hok Hready.
  eapply wp_mono; [by apply (run_op_state_ok alloc_ok junk default_capacity strict)| |done].
  intros [] m' Hok'. simpl in Hok'. split; [done|].
  destruct (state_ok_ordered _ _ Hok') as [H1 H2]. split; [done|]. split; [done|].
  intros Hs. subst strict. by apply state_ok_null_iff.
Qed.

Lemma structural_invariant_kept_witness :
  0 ≤ 16 < SIZE_MOD ∧
  (true = true → ∀ (bs : gmap positive (list Z)) (p : ptr), null_on_zero bs p 0 = false) ∧
  state_ok true sample_mem ∧
  op_ready sample_mem (AppendBytes 1 (Ptr 2 0) 2) ∧
  wp (run_op null_on_zero 0 16 (AppendBytes 1 (Ptr 2 0) 2))
     (λ _ m', state_ok true m' ∧
              all_buffers ordered m' ∧
              all_buffers null_has_no_capacity m' ∧
              (true = true → all_buffers null_iff_no_capacity m'))
     (λ _, True) sample_mem.
Proof.
  assert (0 ≤ 16 < SIZE_MOD) as H1 by (rewrite size_mod_eq; lia).
  assert (true = true → ∀ (bs : gmap positive (list Z)) (p : ptr),
            null_on_zero bs p 0 = false) as H2 by done.
  assert (op_ready sample_mem (AppendBytes 1 (Ptr 2 0) 2)) as H3.
  { split; [by eexists|]. split; [rewrite size_mod_eq; lia|]. intros _.
    split; [by eexists|]. intros b o bv o' [= <- <-] [= <-]. done. }
  split; [done|]. split; [done|]. split; [apply state_ok_sample|]. split; [done|].
  apply (structural_invariant_kept null_on_zero 0 16 true _ sample_mem H1 H2
           (state_ok_sample true) H3).
Defined.

(** C1 as stated fails: with an allocator for which [realloc(NULL, 0)]
    is [malloc(0)] and returns a block of no bytes, shrink-to-fit of a
    freshly constructed buffer leaves [begin] not [NULL] although
    [capacity_end] equals [begin]. *)
Lemma shrink_of_constructed_breaks_null_iff :
  state_ok true constructed_mem ∧
  all_buffers null_iff_no_capacity constructed_mem ∧
  op_ready constructed_mem (ShrinkToFit 1) ∧
  ∃ m', run_op like_malloc 0 16 (ShrinkToFit 1) constructed_mem = Ret tt m' ∧
        vecs m' !! 1%positive = Some (Bvec (Ptr 1 0) (Ptr 1 0) (Ptr 1 0)) ∧
        ¬ all_buffers null_iff_no_capacity m'.
Proof.
  split; [apply state_ok_constructed|].
  split; [apply state_ok_null_iff, state_ok_constructed|].
  split; [by eexists|].
  eexists. split; [by vm_compute|]. split; [done|].
  intros Hall. specialize (Hall 1%positive _ eq_refl) as [_ Hnull].
  by specialize (Hnull eq_refl).
Qed.

(** C2, amended.  [reserve(v, min_bytes)] either quits (a capacity
    doubling wraps, or the allocator finds no memory; both only when a
    reallocation is due) or returns with the size and the bytes
    unchanged and a capacity of at least [min_bytes].  It calls the
    allocator only if the doubled capacity exceeds the current one; on
    a buffer whose capacity is not zero and satisfies the request it
    calls nothing and changes nothing.  A buffer of capacity zero gets
    at least the default capacity, whatever is requested. *)
Theorem reserve_spec
    (alloc_ok : gmap positive (list Z) → ptr → Z → bool) (junk default_capacity : Z)
    (m : mem) (v : positive) (size cap : Z) (l : list Z) (min_bytes : Z) :
  0 ≤ default_capacity < SIZE_MOD →
  state_ok false m →
  buf m v size cap l →
  0 ≤ min_bytes < SIZE_MOD →
  wp (bvec_breserve alloc_ok junk default_capacity v min_bytes)
     (λ _ m', ∃ cap',
        size_of m' v = Some size ∧
        capacity_of m' v = Some cap' ∧
        bytes_of m' v = bytes_of m v ∧
        min_bytes ≤ cap' ∧
        (calls m' ≠ calls m → cap < cap') ∧
        (cap ≠ 0 → min_bytes ≤ cap → m' = m) ∧
        (cap = 0 → default_capacity ≤ cap'))
     (λ msg, (msg = "integer overflow"%string ∧ cap < min_bytes) ∨
             (msg = "out of memory"%string ∧ (cap < min_bytes ∨ cap = 0)))
     m.
Proof.
  intros Hdef Hok Hbuf Hn.
  pose proof Hbuf as (bv & Hv & Hd).
  pose proof (describes_bounds _ _ _ _ _ Hd) as (Hs & Hc & Hl).
  eapply (wp_breserve alloc_ok junk default_capacity false); try done; [lia| | |].
  - intros m' cap' Hok' Hbuf' Hfr Hncap Hcap Hcases Hsame Hdefault.
    exists cap'. split; [by eapply buf_size_of|]. split; [by eapply buf_capacity_of|].
    split; [|split; [done|split; [|done]]].
    + rewrite (buf_bytes_of _ _ _ _ _ Hbuf'), (buf_bytes_of _ _ _ _ _ Hbuf).
      f_equal. rewrite take_resize_le by lia. apply resize_le. lia.
    + intros Hcalls. destruct Hcases as [[_ ->]|[? _]]; done.
  - intros Hlt _. by left.
  - intros Hor. by right.
Qed.

Lemma reserve_spec_witness :
  0 ≤ 16 < SIZE_MOD ∧ state_ok false sample_mem ∧ buf sample_mem 1 3 4 [65; 66; 67; 0] ∧
  0 ≤ 100 < SIZE_MOD ∧
  wp (bvec_breserve null_on_zero 0 16 1 100)
     (λ _ m', ∃ cap',
        size_of m' 1 = Some 3 ∧
        capacity_of m' 1 = Some cap' ∧
        bytes_of m' 1 = bytes_of sample_mem 1 ∧
        100 ≤ cap' ∧
        (calls m' ≠ calls sample_mem → 4 < cap') ∧
        (4 ≠ 0 → 100 ≤ 4 → m' = sample_mem) ∧
        (4 = 0 → 16 ≤ cap'))
     (λ msg, (msg = "integer overflow"%string ∧ 4 < 100) ∨
             (msg = "out of memory"%string ∧ (4 < 100 ∨ 4 = 0)))
     sample_mem.
Proof.
  assert (0 ≤ 16 < SIZE_MOD) as H1 by (rewrite size_mod_eq; lia).
  assert (0 ≤ 100 < SIZE_MOD) as H2 by (rewrite size_mod_eq; lia).
  split; [done|]. split; [apply state_ok_sample|]. split; [apply buf_sample|].
  split; [done|].
  apply (reserve_spec null_on_zero 0 16 sample_mem 1 3 4 [65; 66; 67; 0] 100 H1
           (state_ok_sample false) buf_sample H2).
Defined.

(** C2 as stated fails: a constructed buffer has capacity 0, which
    satisfies a request of 0 bytes, and yet [reserve(v, 0)] calls the
    allocator and leaves the buffer with the default capacity. *)
Lemma reserve_zero_on_constructed_reallocates :
  state_ok true constructed_mem ∧
  capacity_of constructed_mem 1 = Some 0 ∧
  ∃ m', bvec_breserve null_on_zero 0 16 1 0 constructed_mem = Ret tt m' ∧
        calls constructed_mem = [] ∧
        calls m' = [Realloc NULL 16] ∧
        capacity_of m' 1 = Some 16 ∧
        m' ≠ constructed_mem.
Proof.
  split; [apply state_ok_constructed|]. split; [done|].
  eexists. split; [by vm_compute|]. split; [done|]. split; [done|]. split; [done|].
  intros Heq. by apply (f_equal calls) in Heq.
Qed.

(** C3.  [shrink-to-fit(v)] asks the allocator for the old capacity
    halved until it is below twice the size, or zero when the size is
    zero, and returns unless that capacity is not zero and the
    allocator refuses it; it then quits with "out of memory".  When it
    returns, the capacity is the one asked for, not above the old one,
    the size and the bytes are unchanged, and the capacity is below
    twice the size, or zero when the size is zero. *)
Theorem shrink_spec
    (alloc_ok : gmap positive (list Z) → ptr → Z → bool) (junk : Z)
    (m : mem) (v : positive) (size cap : Z) (l : list Z) :
  state_ok false m →
  buf m v size cap l →
  wp (bvec_shrink alloc_ok junk v)
     (λ _ m', ∃ cap',
        capacity_of m' v = Some cap' ∧
        cap' ≤ cap ∧
        size_of m' v = Some size ∧
        bytes_of m' v = bytes_of m v ∧
        (cap' < 2 * size ∨ (size = 0 ∧ cap' = 0)) ∧
        halved cap cap')
     (λ msg, msg = "out of memory"%string ∧
             ∃ cap', size ≤ cap' ≤ cap ∧ cap' ≠ 0 ∧ cap' < 2 * size ∧
                     halved cap cap' ∧ refuses alloc_ok m v cap')
     m.
Proof.
  intros Hok Hbuf.
  pose proof Hbuf as (bv & Hv & Hd).
  pose proof (describes_bounds _ _ _ _ _ Hd) as (Hs & Hc & Hl).
  assert (∀ c, 0 ≤ c → c / 2 < size → c < 2 * size) as Hhalve.
  { intros c Hc0 Hhalf. destruct (decide (c < 2 * size)); [done|].
    assert (size ≤ c / 2); [|lia]. apply Z.div_le_lower_bound; lia. }
  eapply (wp_shrink_exact alloc_ok junk false); try done.
  - intros m' cap' Hok' Hbuf' Hfr Hcap Hend Hcalls Hhalved.
    exists cap'. split; [by eapply buf_capacity_of|]. split; [lia|].
    split; [by eapply buf_size_of|]. split; [|split; [|done]].
    + rewrite (buf_bytes_of _ _ _ _ _ Hbuf'), (buf_bytes_of _ _ _ _ _ Hbuf).
      f_equal. rewrite take_resize_le by lia. apply resize_le. lia.
    + destruct Hend as [->|Hhalf]; [right; lia|left]. apply Hhalve; lia.
  - intros cap' Hcap Hnz Hhalf Hhalved Href. split; [done|]. exists cap'.
    split; [done|]. split; [done|]. split; [apply Hhalve; lia|done].
Qed.

Lemma shrink_spec_witness :
  state_ok false roomy_mem ∧ buf roomy_mem 1 3 16 ([65; 66; 67] ++ replicate 13 0) ∧
  wp (bvec_shrink like_malloc 0 1)
     (λ _ m', ∃ cap',
        capacity_of m' 1 = Some cap' ∧
        cap' ≤ 16 ∧
        size_of m' 1 = Some 3 ∧
        bytes_of m' 1 = bytes_of roomy_mem 1 ∧
        (cap' < 2 * 3 ∨ (3 = 0 ∧ cap' = 0)) ∧
        halved 16 cap')
     (λ msg, msg = "out of memory"%string ∧
             ∃ cap', 3 ≤ cap' ≤ 16 ∧ cap' ≠ 0 ∧ cap' < 2 * 3 ∧
                     halved 16 cap' ∧ refuses like_malloc roomy_mem 1 cap')
     roomy_mem.
Proof.
  split; [apply state_ok_roomy|]. split; [apply buf_roomy|].
  apply (shrink_spec like_malloc 0 roomy_mem 1 3 16 ([65; 66; 67] ++ replicate 13 0)
           (state_ok_roomy false) buf_roomy).
Defined.

(** C4, amended.  When [size + n] does not overflow [size_t] and [n]
    bytes can be read at [d] outside the block of the buffer,
    [append-bytes(v, d, n)] returns with the size grown by [n] and the
    bytes followed by the [n] bytes of [d], or quits.  It quits only
    when [n] is not zero and the capacity is below [size + n]: with
    "integer overflow" when no doubling of the capacity (of the default
    capacity, for a buffer of capacity zero) reaches [size + n] within
    [size_t], and with "out of memory" when the allocator refuses the
    first doubling that reaches it.  With [n = 0] it changes nothing,
    whatever [d] is ([NULL] too). *)
Theorem append_bytes_spec
    (alloc_ok : gmap positive (list Z) → ptr → Z → bool) (junk default_capacity : Z)
    (m : mem) (v : positive) (size cap : Z) (l : list Z)
    (d : ptr) (n : Z) (bytes : list Z) :
  0 ≤ default_capacity < SIZE_MOD →
  state_ok false m →
  buf m v size cap l →
  0 ≤ n →
  size + n < SIZE_MOD →
  (n ≠ 0 → load_bytes m d n = Some bytes ∧ ∀ b o, d = Ptr b o → ¬ owns m v b) →
  (n = 0 → bytes = []) →
  wp (bvec_bpush alloc_ok junk default_capacity v d n)
     (λ _ m', size_of m' v = Some (size + n) ∧
              bytes_of m' v = Some (take (Z.to_nat size) l ++ bytes) ∧
              (n = 0 → m' = m))
     (λ msg, n ≠ 0 ∧ cap < size + n ∧
             ((msg = "integer overflow"%string ∧
               ∀ c', doubled (first_capacity default_capacity cap) (size + n) c' →
                     SIZE_MOD ≤ c') ∨
              (msg = "out of memory"%string ∧
               ∃ c', cap < c' ∧
                     doubled (first_capacity default_capacity cap) (size + n) c' ∧
                     refuses alloc_ok m v c')))
     m ∧
  ∀ d' m0, bvec_bpush alloc_ok junk default_capacity v d' 0 m0 = Ret tt m0.
Proof.
  intros Hdef Hok Hbuf Hn Hfit Hdata Hnil. split; [|done].
  pose proof Hbuf as (bv & Hv & Hd).
  pose proof (describes_bounds _ _ _ _ _ Hd) as (Hs & Hc & Hl).
  eapply (wp_bpush_exact alloc_ok junk default_capacity false); try done; [lia| |lia| |].
  - intros _ m' cap' l' Hok' Hbuf' Htake Hfr Hcap Hsame _.
    split; [by eapply buf_size_of|]. split; [|done].
    rewrite (buf_bytes_of _ _ _ _ _ Hbuf'). by f_equal.
  - intros Hnz Hlt Hwrap. split; [done|]. split; [done|]. by left.
  - intros Hnz Hlt c' Hc' Hdbl Href. split; [done|]. split; [done|]. right.
    split; [done|]. by exists c'.
Qed.

Lemma append_bytes_spec_witness :
  0 ≤ 16 < SIZE_MOD ∧ state_ok false sample_mem ∧ buf sample_mem 1 3 4 [65; 66; 67; 0] ∧
  0 ≤ 2 ∧ 3 + 2 < SIZE_MOD ∧
  (2 ≠ 0 → load_bytes sample_mem (Ptr 2 0) 2 = Some [1; 2] ∧
           ∀ b o, Ptr 2 0 = Ptr b o → ¬ owns sample_mem 1 b) ∧
  (2 = 0 → [1; 2] = []) ∧
  wp (bvec_bpush like_malloc 0 16 1 (Ptr 2 0) 2)
     (λ _ m', size_of m' 1 = Some (3 + 2) ∧
              bytes_of m' 1 = Some (take (Z.to_nat 3) [65; 66; 67; 0] ++ [1; 2]) ∧
              (2 = 0 → m' = sample_mem))
     (λ msg, 2 ≠ 0 ∧ 4 < 3 + 2 ∧
             ((msg = "integer overflow"%string ∧
               ∀ c', doubled (first_capacity 16 4) (3 + 2) c' → SIZE_MOD ≤ c') ∨
              (msg = "out of memory"%string ∧
               ∃ c', 4 < c' ∧ doubled (first_capacity 16 4) (3 + 2) c' ∧
                     refuses like_malloc sample_mem 1 c')))
     sample_mem ∧
  ∀ d' m0, bvec_bpush like_malloc 0 16 1 d' 0 m0 = Ret tt m0.
Proof.
  assert (0 ≤ 16 < SIZE_MOD) as H1 by (rewrite size_mod_eq; lia).
  assert (3 + 2 < SIZE_MOD) as H2 by (rewrite size_mod_eq; lia).
  assert (0 ≤ 2) as H3 by lia.
  assert (2 ≠ 0 → load_bytes sample_mem (Ptr 2 0) 2 = Some [1; 2] ∧
           ∀ b o, Ptr 2 0 = Ptr b o → ¬ owns sample_mem 1 b) as H4.
  { intros _. split; [done|]. intros b o [= <- <-] (bv & o' & [= <-] & [=]). }
  assert (2 = 0 → [1; 2] = ([] : list Z)) as H5 by done.
  split; [done|]. split; [apply state_ok_sample|]. split; [apply buf_sample|].
  split; [done|]. split; [done|]. split; [done|]. split; [done|].
  apply (append_bytes_spec like_malloc 0 16 sample_mem 1 3 4 [65; 66; 67; 0]
           (Ptr 2 0) 2 [1; 2] H1 (state_ok_sample false) buf_sample H3 H2 H4 H5).
Defined.

(** C4 as stated fails: [size + n] fits [size_t] and the call quits
    all the same.  With an allocator that finds no more than 4 bytes,
    appending two readable bytes to a buffer of three bytes in a block
    of four quits with "out of memory".  With any allocator and any
    data, appending 2147483646 bytes to that buffer quits with "integer
    overflow": the capacity doubles from 4 to [2^31], which is below
    the 2147483649 bytes asked for, and the next doubling wraps. *)
Lemma append_bytes_quits_within_size_type :
  state_ok false sample_mem ∧
  size_of sample_mem 1 = Some 3 ∧
  load_bytes sample_mem (Ptr 2 0) 2 = Some [1; 2] ∧
  3 + 2 < SIZE_MOD ∧
  bvec_bpush (bounded 4) 0 16 1 (Ptr 2 0) 2 sample_mem = Fatal "out of memory" ∧
  3 + 2147483646 < SIZE_MOD ∧
  ∀ d, bvec_bpush like_malloc 0 16 1 d 2147483646 sample_mem = Fatal "integer overflow".
Proof.
  split; [apply state_ok_sample|]. split; [done|]. split; [done|].
  split; [rewrite size_mod_eq; lia|]. split; [by vm_compute|].
  split; [rewrite size_mod_eq; lia|]. intros d. by vm_compute.
Qed.

(** C5.  For two distinct constructed buffers of a well-formed memory,
    [move(dst, src)] returns; [dst] then holds the three pointers that
    [src] held, so its bytes are the bytes [src] had, and [src] is the
    empty buffer of size 0.  The memory stays well formed. *)
Theorem move_spec (m : mem) (dst src : positive) (bvd bvs : bvec) :
  state_ok false m →
  dst ≠ src →
  vecs m !! dst = Some bvd →
  vecs m !! src = Some bvs →
  ∃ m', bvec_move dst src m = Ret tt m' ∧
        vecs m' !! dst = Some bvs ∧
        bytes_of m' dst = bytes_of m src ∧
        vecs m' !! src = Some (Bvec NULL NULL NULL) ∧
        size_of m' src = Some 0 ∧
        state_ok false m'.
Proof.
  intros Hok Hne Hvd Hvs. eexists. split; [by eapply move_run|].
  assert (vecs (Mem (<[src := Bvec NULL NULL NULL]> (<[dst := bvs]> (vecs m)))
                    (release (begin bvd) (blocks m)) (next_block m)
                    (calls m ++ [Free (begin bvd)])) !! dst = Some bvs) as Hdst.
  { simpl. rewrite lookup_insert_ne by done. apply lookup_insert_eq. }
  split; [done|]. split; [|split; [|split]].
  - unfold bytes_of. rewrite Hdst, Hvs. simpl.
    destruct (PTRSUB (end_ bvs) (begin bvs)) as [n|]; [simpl|done].
    destruct (begin bvs) as [|b o] eqn:Hb; [done|].
    destruct (released_blocks false m dst bvd Hok Hvd) as (_ & Hkeep & _).
    by rewrite (Hkeep src bvs b o).
  - simpl. apply lookup_insert_eq.
  - unfold size_of. simpl. by rewrite lookup_insert_eq.
  - by apply move_state_ok.
Qed.

Lemma move_spec_witness :
  state_ok false sample_mem ∧ 2%positive ≠ 1%positive ∧
  vecs sample_mem !! 2%positive = Some (Bvec NULL NULL NULL) ∧
  vecs sample_mem !! 1%positive = Some (Bvec (Ptr 1 0) (Ptr 1 3) (Ptr 1 4)) ∧
  ∃ m', bvec_move 2 1 sample_mem = Ret tt m' ∧
        vecs m' !! 2%positive = Some (Bvec (Ptr 1 0) (Ptr 1 3) (Ptr 1 4)) ∧
        bytes_of m' 2 = bytes_of sample_mem 1 ∧
        vecs m' !! 1%positive = Some (Bvec NULL NULL NULL) ∧
        size_of m' 1 = Some 0 ∧
        state_ok false m'.
Proof.
  assert (2%positive ≠ 1%positive) as H1 by done.
  assert (vecs sample_mem !! 2%positive = Some (Bvec NULL NULL NULL)) as H2 by done.
  assert (vecs sample_mem !! 1%positive = Some (Bvec (Ptr 1 0) (Ptr 1 3) (Ptr 1 4)))
    as H3 by done.
  split; [apply state_ok_sample|]. split; [done|]. split; [done|]. split; [done|].
  apply (move_spec sample_mem 2 1 _ _ (state_ok_sample false) H1 H2 H3).
Defined.

(** C6.  On one constructed buffer, [copy(v, v)], [move(v, v)] and
    [swap(v, v)] return and leave the memory as it was: the size and
    the bytes of the buffer, every block, and no call of the allocator
    (nothing is freed). *)
Theorem self_aliasing_spec
    (alloc_ok : gmap positive (list Z) → ptr → Z → bool) (junk default_capacity : Z)
    (m : mem) (v : positive) :
  live m v →
  leaves_unchanged m v (bvec_copy alloc_ok junk default_capacity v v m) ∧
  leaves_unchanged m v (bvec_move v v m) ∧
  leaves_unchanged m v (bvec_swap v v m).
Proof.
  intros [bv Hv].
  assert (leaves_unchanged m v (Ret tt m)) as Hsame by (by exists m).
  split; [|split].
  - unfold bvec_copy. by rewrite bool_decide_false by (by intros ?).
  - unfold bvec_move. by rewrite bool_decide_false by (by intros ?).
  - rewrite (swap_run _ _ _ _ _ Hv Hv).
    rewrite insert_insert_eq, insert_id by done. by destruct m.
Qed.

Lemma self_aliasing_spec_witness :
  live sample_mem 1 ∧
  leaves_unchanged sample_mem 1 (bvec_copy like_malloc 0 16 1 1 sample_mem) ∧
  leaves_unchanged sample_mem 1 (bvec_move 1 1 sample_mem) ∧
  leaves_unchanged sample_mem 1 (bvec_swap 1 1 sample_mem).
Proof.
  assert (live sample_mem 1) as H1 by (by eexists).
  split; [done|]. apply (self_aliasing_spec like_malloc 0 16 sample_mem 1 H1).
Defined.

(** C8.  For a positive count [n], [truncate(v, n)] with [n] above the
    size quits with the underflow message; with [n] at most the size
    it returns with the size reduced by [n], and leaves the capacity,
    the blocks and so the bytes that remain as they were. *)
Theorem truncate_spec
    (alloc_ok : gmap positive (list Z) → ptr → Z → bool) (junk default_capacity : Z)
    (m : mem) (v : positive) (size cap : Z) (l : list Z) (n : Z) :
  0 ≤ default_capacity < SIZE_MOD →
  state_ok false m →
  buf m v size cap l →
  0 < n < SIZE_MOD →
  (size < n →
     bvec_bpop alloc_ok junk default_capacity v n m = Fatal "interger underflow") ∧
  (n ≤ size →
     ∃ m', bvec_bpop alloc_ok junk default_capacity v n m = Ret tt m' ∧
           size_of m' v = Some (size - n) ∧
           capacity_of m' v = Some cap ∧
           blocks m' = blocks m ∧
           bytes_of m' v = Some (take (Z.to_nat (size - n)) l) ∧
           state_ok false m').
Proof.
  intros Hdef Hok Hbuf Hn.
  assert (wp (bvec_bpop alloc_ok junk default_capacity v n)
             (λ _ m', n ≤ size ∧ size_of m' v = Some (size - n) ∧
                      capacity_of m' v = Some cap ∧ blocks m' = blocks m ∧
                      bytes_of m' v = Some (take (Z.to_nat (size - n)) l) ∧
                      state_ok false m')
             (λ msg, size < n ∧ msg = "interger underflow"%string) m) as Hwp.
  { eapply (wp_bpop alloc_ok junk default_capacity false); try done; [lia|].
    intros Hle m1 Hok1 Hbuf1 Hfr Hb Hc _. split; [done|].
    split; [by eapply buf_size_of|]. split; [by eapply buf_capacity_of|].
    split; [done|]. split; [by eapply buf_bytes_of|done]. }
  unfold wp in Hwp.
  destruct (bvec_bpop alloc_ok junk default_capacity v n m) as [[] m'|msg| |]; [| |done|done].
  - destruct Hwp as (Hle & Hrest). split; [lia|]. intros _. by exists m'.
  - destruct Hwp as (Hlt & ->). split; [done|lia].
Qed.

Lemma truncate_spec_witness :
  0 ≤ 16 < SIZE_MOD ∧ state_ok false sample_mem ∧ buf sample_mem 1 3 4 [65; 66; 67; 0] ∧
  0 < 2 < SIZE_MOD ∧
  (3 < 2 → bvec_bpop like_malloc 0 16 1 2 sample_mem = Fatal "interger underflow") ∧
  (2 ≤ 3 →
     ∃ m', bvec_bpop like_malloc 0 16 1 2 sample_mem = Ret tt m' ∧
           size_of m' 1 = Some (3 - 2) ∧
           capacity_of m' 1 = Some 4 ∧
           blocks m' = blocks sample_mem ∧
           bytes_of m' 1 = Some (take (Z.to_nat (3 - 2)) [65; 66; 67; 0]) ∧
           state_ok false m').
Proof.
  assert (0 ≤ 16 < SIZE_MOD) as H1 by (rewrite size_mod_eq; lia).
  assert (0 < 2 < SIZE_MOD) as H2 by (rewrite size_mod_eq; lia).
  split; [done|]. split; [apply state_ok_sample|]. split; [apply buf_sample|].
  split; [done|].
  apply (truncate_spec like_malloc 0 16 sample_mem 1 3 4 [65; 66; 67; 0] 2 H1
           (state_ok_sample false) buf_sample H2).
Defined.

(** C7, amended.  Let [get] be [bvec_getstr] (elements of one byte) or
    [bvec_getwcs] (elements of two bytes), on a buffer whose size is a
    multiple of the element size.  When [get(v)] returns, a terminator
    element has been appended if the buffer was empty or its last
    element was not zero, and nothing has changed otherwise; a second
    call returns the same pointer and leaves the memory as the first
    call left it.  It quits only when a terminator is due: with
    "interger overflow" when the size would wrap, and, the capacity
    being below the new size, with "integer overflow" when no doubling
    of the capacity reaches the new size within [size_t] or with "out
    of memory" when the allocator refuses the first doubling that
    reaches it. *)
Theorem get_as_string_spec
    (alloc_ok : gmap positive (list Z) → ptr → Z → bool) (junk default_capacity : Z)
    (get : positive → M ptr) (sz : Z)
    (m : mem) (v : positive) (size cap : Z) (l : list Z) :
  (get = bvec_getstr alloc_ok junk default_capacity ∧ sz = SIZEOF_CHAR) ∨
  (get = bvec_getwcs alloc_ok junk default_capacity ∧ sz = SIZEOF_WCHAR_T) →
  0 ≤ default_capacity < SIZE_MOD →
  state_ok false m →
  buf m v size cap l →
  size mod sz = 0 →
  wp (get v)
     (λ p m',
        (if decide (size = 0 ∨ last_element sz size l ≠ 0)
         then size_of m' v = Some (size + sz) ∧
              bytes_of m' v = Some (take (Z.to_nat size) l ++ replicate (Z.to_nat sz) 0)
         else m' = m) ∧
        bvec_bdata v m' = Ret p m' ∧
        get v m' = Ret p m')
     (λ msg, (size = 0 ∨ last_element sz size l ≠ 0) ∧
             ((SIZE_MOD ≤ size + sz ∧ msg = "interger overflow"%string) ∨
              (cap < size + sz ∧
               ((msg = "integer overflow"%string ∧
                 ∀ c', doubled (first_capacity default_capacity cap) (size + sz) c' →
                       SIZE_MOD ≤ c') ∨
                (msg = "out of memory"%string ∧
                 ∃ c', cap < c' ∧
                       doubled (first_capacity default_capacity cap) (size + sz) c' ∧
                       refuses alloc_ok (local_frame (le_encode (Z.to_nat sz) 0) m)
                         v c')))))
     m.
Proof.
  intros Hget Hdef Hok Hbuf Hmod.
  assert (get = get_terminated alloc_ok junk default_capacity sz ∧ 0 < sz < SIZE_MOD)
    as [-> Hsz].
  { rewrite size_mod_eq. destruct Hget as [[-> ->]|[-> ->]]; split; done. }
  eapply wp_mono;
    [apply (wp_get_terminated alloc_ok junk default_capacity false ltac:(done) Hdef
              m v size cap l sz _ Hok Hbuf Hsz Hmod)| |intros msg Hmsg; exact Hmsg].
  - intros Hdue Hbig. split; [done|]. by left.
  - intros Hdue Hlt Hwrap. split; [done|]. right. split; [done|]. by left.
  - intros Hdue Hlt c' Hc' Hdbl Href. split; [done|]. right. split; [done|]. right.
    split; [done|]. by exists c'.
  - intros p m' (H1 & _ & H2 & H3). done.
Qed.

Lemma get_as_string_spec_witness :
  ((bvec_getstr like_malloc 0 16 = bvec_getstr like_malloc 0 16 ∧ 1 = SIZEOF_CHAR) ∨
   (bvec_getstr like_malloc 0 16 = bvec_getwcs like_malloc 0 16 ∧ 1 = SIZEOF_WCHAR_T)) ∧
  0 ≤ 16 < SIZE_MOD ∧ state_ok false sample_mem ∧ buf sample_mem 1 3 4 [65; 66; 67; 0] ∧
  3 mod 1 = 0 ∧
  wp (bvec_getstr like_malloc 0 16 1)
     (λ p m',
        (if decide (3 = 0 ∨ last_element 1 3 [65; 66; 67; 0] ≠ 0)
         then size_of m' 1 = Some (3 + 1) ∧
              bytes_of m' 1 = Some (take (Z.to_nat 3) [65; 66; 67; 0] ++
                                    replicate (Z.to_nat 1) 0)
         else m' = sample_mem) ∧
        bvec_bdata 1 m' = Ret p m' ∧
        bvec_getstr like_malloc 0 16 1 m' = Ret p m')
     (λ msg, (3 = 0 ∨ last_element 1 3 [65; 66; 67; 0] ≠ 0) ∧
             ((SIZE_MOD ≤ 3 + 1 ∧ msg = "interger overflow"%string) ∨
              (4 < 3 + 1 ∧
               ((msg = "integer overflow"%string ∧
                 ∀ c', doubled (first_capacity 16 4) (3 + 1) c' → SIZE_MOD ≤ c') ∨
                (msg = "out of memory"%string ∧
                 ∃ c', 4 < c' ∧ doubled (first_capacity 16 4) (3 + 1) c' ∧
                       refuses like_malloc
                         (local_frame (le_encode (Z.to_nat 1) 0) sample_mem) 1 c')))))
     sample_mem.
Proof.
  assert ((bvec_getstr like_malloc 0 16 = bvec_getstr like_malloc 0 16 ∧ 1 = SIZEOF_CHAR) ∨
          (bvec_getstr like_malloc 0 16 = bvec_getwcs like_malloc 0 16 ∧
           1 = SIZEOF_WCHAR_T)) as H0 by (by left).
  assert (0 ≤ 16 < SIZE_MOD) as H1 by (rewrite size_mod_eq; lia).
  assert (3 mod 1 = 0) as H2 by done.
  split; [done|]. split; [done|]. split; [apply state_ok_sample|].
  split; [apply buf_sample|]. split; [done|].
  apply (get_as_string_spec like_malloc 0 16 _ 1 sample_mem 1 3 4 [65; 66; 67; 0] H0 H1
           (state_ok_sample false) buf_sample H2).
Defined.

(** C7 as stated fails.  On a buffer of three bytes, which is no
    multiple of the two bytes of a wide element, [bvec_getwcs] appends
    a terminator at each call: the size goes from 3 to 5 and from 5 to
    7.  And on an empty buffer, with an allocator that finds no more
    than 4 bytes, [bvec_getstr] appends nothing and quits: the default
    capacity of 16 bytes cannot be had. *)
Lemma get_wide_string_twice_appends_twice :
  state_ok false sample_mem ∧
  size_of sample_mem 1 = Some 3 ∧
  (∃ p1 m1 p2 m2,
     bvec_getwcs like_malloc 0 16 1 sample_mem = Ret p1 m1 ∧
     size_of m1 1 = Some 5 ∧
     bytes_of m1 1 = Some [65; 66; 67; 0; 0] ∧
     bvec_getwcs like_malloc 0 16 1 m1 = Ret p2 m2 ∧
     size_of m2 1 = Some 7 ∧
     bytes_of m2 1 = Some [65; 66; 67; 0; 0; 0; 0]) ∧
  size_of sample_mem 2 = Some 0 ∧
  bvec_getstr (bounded 4) 0 16 2 sample_mem = Fatal "out of memory".
Proof.
  split; [apply state_ok_sample|]. split; [done|]. split.
  - do 4 eexists. split; [by vm_compute|]. split; [done|]. split; [done|].
    split; [by vm_compute|]. split; done.
  - split; [done|]. by vm_compute.
Qed.

(** C9, amended.  Let [loop] be the retry loop of [bvec_vprintf]
    (elements of one byte) or of [bvec_vwprintf] (elements of two
    bytes), started on a buffer that holds at least one element.  For
    every formatter [fmt], 32 turns are enough for the loop to end: it
    returns with the string shorter than the element count minus one,
    or it quits, with "integer overflow" when the doubling wraps (in
    the loop or in the growth of the capacity) or with "out of memory"
    when the allocator finds no memory.  For [bvec_vwprintf] this is
    stated for allocators that hand out no block of [2^31] bytes or
    more. *)
Theorem printf_loop_terminates
    (alloc_ok : gmap positive (list Z) → ptr → Z → bool) (junk default_capacity : Z)
    (loop : nat → (Z → list Z) → positive → M unit) (sz : Z)
    (fmt : Z → list Z) (r : positive)
    (m : mem) (size cap : Z) (l : list Z) (fuel : nat) :
  (loop = vprintf_loop alloc_ok junk default_capacity ∧ sz = SIZEOF_CHAR) ∨
  (loop = vwprintf_loop alloc_ok junk default_capacity ∧ sz = SIZEOF_WCHAR_T ∧
   cap < 2 ^ 31 ∧ ∀ bs p n, alloc_ok bs p n = true → n < 2 ^ 31) →
  0 ≤ default_capacity < SIZE_MOD →
  state_ok false m →
  buf m r size cap l →
  0 < size →
  size mod sz = 0 →
  (32 ≤ fuel)%nat →
  wp (loop fuel fmt r)
     (λ _ m', fits sz r m')
     (λ msg, msg = "integer overflow"%string ∨ msg = "out of memory"%string)
     m.
Proof.
  intros Hloop Hdef Hok Hbuf Hsize Hmod Hfuel.
  assert (loop fuel fmt r = printf_loop alloc_ok junk default_capacity sz fuel fmt r ∧
          (sz = 1 ∨ (sz = 2 ∧ ∀ bs p n, alloc_ok bs p n = true → n < 2 ^ 31)) ∧
          (sz = 2 → cap < 2 ^ 31)) as (-> & Hsz & Hcap).
  { destruct Hloop as [[-> ->]|(-> & -> & Hcap & Hlim)].
    - split; [apply vprintf_loop_is_printf_loop|]. split; [by left|done].
    - split; [apply vwprintf_loop_is_printf_loop|]. split; [by right|done]. }
  assert (0 < sz) as Hpos by (destruct Hsz as [->|[-> _]]; lia).
  apply Z.mod_divide in Hmod as [bufsize Hbs]; [|lia].
  eapply (wp_printf_loop alloc_ok junk default_capacity false ltac:(done) Hdef
            fuel fmt r sz Hsz m size cap l bufsize); try done; [nia|].
  rewrite size_mod_eq. assert (2 ^ 32 ≤ 2 ^ Z.of_nat fuel).
  { apply Z.pow_le_mono_r; lia. }
  destruct pow2_31_32 as [_ H32]. nia.
Qed.

Lemma printf_loop_terminates_witness :
  ((vprintf_loop like_malloc 0 16 = vprintf_loop like_malloc 0 16 ∧ 1 = SIZEOF_CHAR) ∨
   (vprintf_loop like_malloc 0 16 = vwprintf_loop like_malloc 0 16 ∧ 1 = SIZEOF_WCHAR_T ∧
    4 < 2 ^ 31 ∧ ∀ bs p n, like_malloc bs p n = true → n < 2 ^ 31)) ∧
  0 ≤ 16 < SIZE_MOD ∧ state_ok false sample_mem ∧ buf sample_mem 1 3 4 [65; 66; 67; 0] ∧
  0 < 3 ∧ 3 mod 1 = 0 ∧ (32 ≤ 32)%nat ∧
  wp (vprintf_loop like_malloc 0 16 32 (λ _, [72; 105; 0]) 1)
     (λ _ m', fits 1 1 m')
     (λ msg, msg = "integer overflow"%string ∨ msg = "out of memory"%string)
     sample_mem.
Proof.
  assert ((vprintf_loop like_malloc 0 16 = vprintf_loop like_malloc 0 16 ∧
           1 = SIZEOF_CHAR) ∨
          (vprintf_loop like_malloc 0 16 = vwprintf_loop like_malloc 0 16 ∧
           1 = SIZEOF_WCHAR_T ∧ 4 < 2 ^ 31 ∧
           ∀ bs p n, like_malloc bs p n = true → n < 2 ^ 31)) as H0 by (by left).
  assert (0 ≤ 16 < SIZE_MOD) as H1 by (rewrite size_mod_eq; lia).
  assert (0 < 3) as H2 by lia.
  assert (3 mod 1 = 0) as H3 by done.
  assert (32 ≤ 32)%nat as H4 by lia.
  split; [done|]. split; [done|]. split; [apply state_ok_sample|].
  split; [apply buf_sample|]. split; [done|]. split; [done|]. split; [done|].
  apply (printf_loop_terminates like_malloc 0 16 _ 1 (λ _, [72; 105; 0]) 1 sample_mem
           3 4 [65; 66; 67; 0] 32 H0 H1 (state_ok_sample false) buf_sample H2 H3 H4).
Defined.

(** C9 as stated fails: with an allocator that finds no more than 8
    bytes and a text of 20 characters, [bvec_vprintf] starts its loop
    on a buffer of 2 bytes, and the loop quits with "out of memory"
    when the buffer of 8 bytes is to be doubled: no string fits, and
    no doubling wraps. *)
Lemma printf_loop_quits_out_of_memory :
  ∃ m0,
    (bvec_ctor 1;; bvec_tresize (bounded 8) 0 1 1 2 SIZEOF_CHAR) empty_mem = Ret tt m0 ∧
    size_of m0 1 = Some 2 ∧
    vprintf_loop (bounded 8) 0 1 40 (λ _, replicate 20 65) 1 m0 = Fatal "out of memory" ∧
    bvec_vprintf (bounded 8) 0 1 2 40 (λ _, replicate 20 65) 1 empty_mem
      = Fatal "out of memory".
Proof. eexists. split; [by vm_compute|]. split; [done|]. split; by vm_compute. Qed.

End ByteVectorClaims.

(** * Proofs about the converters *)

Module WStrProofs.
Import WStr.

(** ** Masks and shifts as arithmetic *)

Lemma lor_add a k y : 0 ≤ k → 0 ≤ y < 2 ^ k → Z.lor (a * 2 ^ k) y = a * 2 ^ k + y.
Proof.
  intros Hk Hy. rewrite <- Z.shiftl_mul_pow2 by done.
  assert (Z.land (Z.shiftl a k) y = 0) as Hdisj.
  { apply Z.bits_inj'. intros n Hn. rewrite Z.land_spec, Z.bits_0.
    destruct (Z.lt_ge_cases n k) as [Hlt|Hge].
    - by rewrite Z.shiftl_spec_low.
    - rewrite <- (Z.mod_small y (2 ^ k)) by done.
      rewrite Z.mod_pow2_bits_high by lia. apply andb_false_r. }
  rewrite <- Z.lxor_lor by done. symmetry. by apply Z.add_nocarry_lxor.
Qed.

Lemma land_high w m k : 0 ≤ k → Z.land w (m * 2 ^ k) = Z.land (w / 2 ^ k) m * 2 ^ k.
Proof.
  intros Hk. rewrite <- !Z.shiftl_mul_pow2, <- Z.shiftr_div_pow2 by done.
  apply Z.bits_inj'. intros n Hn. rewrite Z.land_spec.
  destruct (Z.lt_ge_cases n k) as [Hlt|Hge].
  - rewrite !Z.shiftl_spec_low by done. apply andb_false_r.
  - rewrite !Z.shiftl_spec_high, Z.land_spec, Z.shiftr_spec by lia.
    by replace (n - k + k) with n by lia.
Qed.

Lemma land_mask x k : 0 ≤ k → Z.land x (2 ^ k - 1) = x mod 2 ^ k.
Proof. intros Hk. rewrite <- Z.land_ones by done. by rewrite Z.ones_equiv, <- Z.sub_1_r. Qed.

Lemma land_3f x : Z.land x 0x3f = x mod 64.
Proof. apply (land_mask x 6). lia. Qed.
Lemma land_1f x : Z.land x 0x1f = x mod 32.
Proof. apply (land_mask x 5). lia. Qed.
Lemma land_0f x : Z.land x 0xf = x mod 16.
Proof. apply (land_mask x 4). lia. Qed.
Lemma land_07 x : Z.land x 0x7 = x mod 8.
Proof. apply (land_mask x 3). lia. Qed.
Lemma land_3ff x : Z.land x 0x3ff = x mod 1024.
Proof. apply (land_mask x 10). lia. Qed.

Lemma land_f800 w : Z.land w 0xf800 = (w / 2048) mod 32 * 2048.
Proof. rewrite <- land_1f. apply (land_high w 31 11). lia. Qed.
Lemma land_fc00 w : Z.land w 0xfc00 = (w / 1024) mod 64 * 1024.
Proof. rewrite <- land_3f. apply (land_high w 63 10). lia. Qed.

Lemma shiftr_6 x : Z.shiftr x 6 = x / 64.
Proof. apply (Z.shiftr_div_pow2 x 6). lia. Qed.
Lemma shiftr_10 x : Z.shiftr x 10 = x / 1024.
Proof. apply (Z.shiftr_div_pow2 x 10). lia. Qed.
Lemma shiftr_12 x : Z.shiftr x 12 = x / 4096.
Proof. apply (Z.shiftr_div_pow2 x 12). lia. Qed.
Lemma shiftr_18 x : Z.shiftr x 18 = x / 262144.
Proof. apply (Z.shiftr_div_pow2 x 18). lia. Qed.
Lemma shiftl_6 x : Z.shiftl x 6 = x * 64.
Proof. apply (Z.shiftl_mul_pow2 x 6). lia. Qed.
Lemma shiftl_10 x : Z.shiftl x 10 = x * 1024.
Proof. apply (Z.shiftl_mul_pow2 x 10). lia. Qed.

Lemma lor_80 y : 0 ≤ y < 64 → Z.lor 0x80 y = 0x80 + y.
Proof. apply (lor_add 2 6 y). lia. Qed.
Lemma lor_c0 y : 0 ≤ y < 32 → Z.lor 0xc0 y = 0xc0 + y.
Proof. apply (lor_add 6 5 y). lia. Qed.
Lemma lor_e0 y : 0 ≤ y < 16 → Z.lor 0xe0 y = 0xe0 + y.
Proof. apply (lor_add 14 4 y). lia. Qed.
Lemma lor_f0 y : 0 ≤ y < 8 → Z.lor 0xf0 y = 0xf0 + y.
Proof. apply (lor_add 30 3 y). lia. Qed.
Lemma lor_d800 y : 0 ≤ y < 1024 → Z.lor 0xd800 y = 0xd800 + y.
Proof. apply (lor_add 54 10 y). lia. Qed.
Lemma lor_dc00 y : 0 ≤ y < 1024 → Z.lor 0xdc00 y = 0xdc00 + y.
Proof. apply (lor_add 55 10 y). lia. Qed.
Lemma lor_64 a y : 0 ≤ y < 64 → Z.lor (a * 64) y = a * 64 + y.
Proof. apply (lor_add a 6 y). lia. Qed.
Lemma lor_1024 a y : 0 ≤ y < 1024 → Z.lor (a * 1024) y = a * 1024 + y.
Proof. apply (lor_add a 10 y). lia. Qed.

Lemma u8_small x : 0 ≤ x < 256 → u8 x = x.
Proof. intros. by apply Z.mod_small. Qed.
Lemma u16_small x : 0 ≤ x < 65536 → u16 x = x.
Proof. intros. by apply Z.mod_small. Qed.
Lemma u32_small x : 0 ≤ x < 4294967296 → u32 x = x.
Proof. intros. by apply Z.mod_small. Qed.

Ltac divmod := Z.to_euclidean_division_equations; lia.

(** ** One code point, encoded *)

Lemma cstr_pushback_byte v x : 0 < x < 256 → cstr_pushback v x = v ++ [x].
Proof.
  intros Hx. unfold cstr_pushback. rewrite u8_small by lia.
  by rewrite decide_False by lia.
Qed.

Lemma wstr_pushback_unit v x : 0 < x < 65536 → wstr_pushback v x = v ++ [x].
Proof.
  intros Hx. unfold wstr_pushback. rewrite u16_small by lia.
  by rewrite decide_False by lia.
Qed.

Lemma utf8_put_1 v c : 0 < c < 0x80 → utf8_put v c = v ++ [c].
Proof.
  intros Hc. unfold utf8_put. change (Z.shiftl 1 7) with 128.
  rewrite decide_True by lia. apply cstr_pushback_byte. lia.
Qed.

Lemma utf8_put_2 v c :
  0x80 ≤ c < 0x800 → utf8_put v c = v ++ [0xc0 + c / 64; 0x80 + c mod 64].
Proof.
  intros Hc. unfold utf8_put.
  change (Z.shiftl 1 7) with 128. change (Z.shiftl 1 11) with 2048.
  rewrite decide_False, decide_True by lia.
  rewrite shiftr_6, land_3f, lor_c0, lor_80 by divmod.
  rewrite !cstr_pushback_byte by divmod. by rewrite <- app_assoc.
Qed.

Lemma utf8_put_3 v c :
  0x800 ≤ c < 0x10000 →
  utf8_put v c = v ++ [0xe0 + c / 4096; 0x80 + (c / 64) mod 64; 0x80 + c mod 64].
Proof.
  intros Hc. unfold utf8_put.
  change (Z.shiftl 1 7) with 128. change (Z.shiftl 1 11) with 2048.
  change (Z.shiftl 1 16) with 65536.
  rewrite !decide_False, decide_True by lia.
  rewrite shiftr_6, shiftr_12, !land_3f, lor_e0, !lor_80 by divmod.
  rewrite !cstr_pushback_byte by divmod. by rewrite <- !app_assoc.
Qed.

Lemma utf8_put_4 v c :
  0x10000 ≤ c < 0x110000 →
  utf8_put v c = v ++ [0xf0 + c / 262144; 0x80 + (c / 4096) mod 64;
                       0x80 + (c / 64) mod 64; 0x80 + c mod 64].
Proof.
  intros Hc. unfold utf8_put.
  change (Z.shiftl 1 7) with 128. change (Z.shiftl 1 11) with 2048.
  change (Z.shiftl 1 16) with 65536.
  rewrite !decide_False by lia.
  rewrite shiftr_6, shiftr_12, shiftr_18, !land_3f, lor_f0, !lor_80 by divmod.
  rewrite !cstr_pushback_byte by divmod. by rewrite <- !app_assoc.
Qed.

Lemma utf16_put_1 v c : 0 < c < 0x10000 → utf16_put v c = v ++ [c].
Proof.
  intros Hc. unfold utf16_put. rewrite decide_True by lia.
  apply wstr_pushback_unit. lia.
Qed.

Lemma utf16_put_2 v c :
  0x10000 ≤ c < 0x110000 →
  utf16_put v c = v ++ [0xd800 + (c - 0x10000) / 1024; 0xdc00 + (c - 0x10000) mod 1024].
Proof.
  intros Hc. unfold utf16_put. rewrite decide_False by lia.
  rewrite u32_small by lia.
  rewrite shiftr_10, land_3ff, lor_d800, lor_dc00 by divmod.
  rewrite !wstr_pushback_unit by divmod. by rewrite <- app_assoc.
Qed.

(** ** One code point, decoded *)

Lemma utf8_lead_1 b : 0 ≤ b ≤ 0x7f → utf8_lead b = (0%nat, b).
Proof. intros Hb. unfold utf8_lead. by rewrite decide_True by lia. Qed.

Lemma utf8_lead_2 b : 0xc2 ≤ b ≤ 0xdf → utf8_lead b = (1%nat, b mod 32).
Proof.
  intros Hb. unfold utf8_lead. rewrite !decide_False, decide_True by lia.
  by rewrite land_1f.
Qed.

Lemma utf8_lead_3 b : 0xe0 ≤ b ≤ 0xef → utf8_lead b = (2%nat, b mod 16).
Proof.
  intros Hb. unfold utf8_lead. rewrite !decide_False, decide_True by lia.
  by rewrite land_0f.
Qed.

Lemma utf8_lead_4 b : 0xf0 ≤ b ≤ 0xf4 → utf8_lead b = (3%nat, b mod 8).
Proof.
  intros Hb. unfold utf8_lead. rewrite !decide_False, decide_True by lia.
  by rewrite land_07.
Qed.

(** A turn of the [for] loop on a byte that is in range. *)
Lemma utf8_follow_step k i b c x s :
  0 ≤ c < 2 ^ 26 →
  (if decide (i = 1) then
     (if decide (b = 0xe0) then 0xa0 else if decide (b = 0xf0) then 0x90 else 0x80)
   else 0x80) ≤ x →
  x ≤ (if decide (i = 1) then
         (if decide (b = 0xed) then 0x9f else if decide (b = 0xf4) then 0x8f else 0xbf)
       else 0xbf) →
  utf8_follow (S k) i b c (x :: s) = utf8_follow k (i + 1) x (c * 64 + x mod 64) s.
Proof.
  intros Hc Hl Hh. cbn [utf8_follow peek hd tail].
  assert (0 ≤ x < 256) as Hx by (repeat case_decide; lia).
  rewrite u8_small by done. rewrite decide_False by lia.
  rewrite shiftl_6, land_3f, u32_small by lia. by rewrite lor_64 by divmod.
Qed.

Lemma utf8_take_1 b s : 0 < b < 0x80 → utf8_take b s = (b, s).
Proof.
  intros Hb. unfold utf8_take. rewrite u8_small by lia.
  by rewrite utf8_lead_1 by lia.
Qed.

Lemma utf8_take_2 c s :
  0x80 ≤ c < 0x800 →
  utf8_take (0xc0 + c / 64) ((0x80 + c mod 64) :: s) = (c, s).
Proof.
  intros Hc. unfold utf8_take. rewrite u8_small by divmod.
  rewrite utf8_lead_2 by divmod. cbn [fst snd].
  rewrite utf8_follow_step; [|divmod|repeat case_decide; divmod..].
  cbn [utf8_follow]. f_equal. divmod.
Qed.

Lemma utf8_take_3 c s :
  0x800 ≤ c < 0x10000 → ¬ (0xd800 ≤ c ≤ 0xdfff) →
  utf8_take (0xe0 + c / 4096) ((0x80 + (c / 64) mod 64) :: (0x80 + c mod 64) :: s) = (c, s).
Proof.
  intros Hc Hns. unfold utf8_take. rewrite u8_small by divmod.
  rewrite utf8_lead_3 by divmod. cbn [fst snd].
  rewrite utf8_follow_step; [|divmod|repeat case_decide; divmod..].
  rewrite utf8_follow_step; [|divmod|repeat case_decide; divmod..].
  cbn [utf8_follow]. f_equal. divmod.
Qed.

Lemma utf8_take_4 c s :
  0x10000 ≤ c < 0x110000 →
  utf8_take (0xf0 + c / 262144)
    ((0x80 + (c / 4096) mod 64) :: (0x80 + (c / 64) mod 64) :: (0x80 + c mod 64) :: s)
  = (c, s).
Proof.
  intros Hc. unfold utf8_take. rewrite u8_small by divmod.
  rewrite utf8_lead_4 by divmod. cbn [fst snd].
  rewrite utf8_follow_step; [|divmod|repeat case_decide; divmod..].
  rewrite utf8_follow_step; [|divmod|repeat case_decide; divmod..].
  rewrite utf8_follow_step; [|divmod|repeat case_decide; divmod..].
  cbn [utf8_follow]. f_equal. divmod.
Qed.

(** ** The loops *)

Lemma utf16_to_utf8_loop_unit w s v :
  0 < w < 0x10000 → ¬ (0xd800 ≤ w ≤ 0xdfff) →
  utf16_to_utf8_loop (w :: s) v = utf16_to_utf8_loop s (utf8_put v w).
Proof.
  intros Hw Hns. cbn [utf16_to_utf8_loop].
  rewrite decide_False by lia. rewrite u16_small by lia.
  rewrite land_f800. by rewrite decide_True by divmod.
Qed.

Lemma utf16_to_utf8_loop_pair w1 w2 s v :
  0xd800 ≤ w1 ≤ 0xdbff → 0xdc00 ≤ w2 ≤ 0xdfff →
  utf16_to_utf8_loop (w1 :: w2 :: s) v =
  utf16_to_utf8_loop s (utf8_put v (0x10000 + (w1 - 0xd800) * 1024 + (w2 - 0xdc00))).
Proof.
  intros Hw1 Hw2. cbn [utf16_to_utf8_loop].
  rewrite decide_False by lia. rewrite !u16_small by lia.
  rewrite land_f800, !land_fc00.
  rewrite decide_False by divmod. rewrite !decide_True by divmod.
  rewrite !land_3ff, shiftl_10, lor_1024 by divmod.
  rewrite u32_small by divmod. do 2 f_equal. divmod.
Qed.

Lemma utf8_put_app v c : 0 < c < 0x110000 → utf8_put v c = v ++ utf8_put [] c.
Proof.
  intros Hc. destruct (decide (c < 0x80)); [by rewrite !utf8_put_1 by lia|].
  destruct (decide (c < 0x800)); [by rewrite !utf8_put_2 by lia|].
  destruct (decide (c < 0x10000)); [by rewrite !utf8_put_3 by lia|].
  by rewrite !utf8_put_4 by lia.
Qed.

Lemma utf16_to_utf8_loop_acc s :
  well_formed_utf16 s →
  ∀ v, utf16_to_utf8_loop s v = v ++ utf16_to_utf8_loop s [].
Proof.
  induction 1 as [|w s Hw Hns Hwf IH|w1 w2 s Hw1 Hw2 Hwf IH]; intros v.
  - by rewrite app_nil_r.
  - rewrite !utf16_to_utf8_loop_unit by done.
    rewrite IH, (IH (utf8_put [] w)), utf8_put_app by lia. by rewrite app_assoc.
  - rewrite !utf16_to_utf8_loop_pair by done.
    rewrite IH, (IH (utf8_put [] _)), utf8_put_app by lia. by rewrite app_assoc.
Qed.

(** Decoding what one code unit, or one pair, was encoded to gives it
    back and goes on with the rest. *)
Lemma utf8_to_utf16_loop_scalar c rest v :
  0 < c < 0x110000 → ¬ (0xd800 ≤ c ≤ 0xdfff) →
  utf8_to_utf16_loop (utf8_put [] c ++ rest) v =
  utf8_to_utf16_loop rest (utf16_put v c).
Proof.
  intros Hc Hns. destruct (decide (c < 0x80)); [|destruct (decide (c < 0x800));
    [|destruct (decide (c < 0x10000))]].
  - rewrite utf8_put_1 by lia. cbn [app]. rewrite utf8_to_utf16_loop_equation_2.
    rewrite decide_False by lia. by rewrite utf8_take_1 by lia.
  - rewrite utf8_put_2 by lia. cbn [app]. rewrite utf8_to_utf16_loop_equation_2.
    rewrite decide_False by divmod. by rewrite utf8_take_2 by lia.
  - rewrite utf8_put_3 by lia. cbn [app]. rewrite utf8_to_utf16_loop_equation_2.
    rewrite decide_False by divmod. by rewrite utf8_take_3 by lia.
  - rewrite utf8_put_4 by lia. cbn [app]. rewrite utf8_to_utf16_loop_equation_2.
    rewrite decide_False by divmod. by rewrite utf8_take_4 by lia.
Qed.

Lemma utf8_to_utf16_loop_encoded s :
  well_formed_utf16 s →
  ∀ v, utf8_to_utf16_loop (utf16_to_utf8_loop s []) v = v ++ s.
Proof.
  induction 1 as [|w s Hw Hns Hwf IH|w1 w2 s Hw1 Hw2 Hwf IH]; intros v.
  - cbn [utf16_to_utf8_loop]. rewrite utf8_to_utf16_loop_equation_1.
    by rewrite app_nil_r.
  - rewrite utf16_to_utf8_loop_unit, utf16_to_utf8_loop_acc by done.
    rewrite utf8_to_utf16_loop_scalar, IH by lia.
    rewrite utf16_put_1 by lia. by rewrite <- app_assoc.
  - rewrite utf16_to_utf8_loop_pair, utf16_to_utf8_loop_acc by done.
    rewrite utf8_to_utf16_loop_scalar, IH by lia.
    rewrite utf16_put_2 by lia. rewrite <- app_assoc. cbn [app].
    do 2 f_equal; [|f_equal]; divmod.
Qed.

End WStrProofs.

(** * The claim about the converters *)

Module WStrClaims.
Import WStr WStrProofs.

(** C10.  For every well-formed UTF-16 string (no surrogate outside a
    pair of a high one followed by a low one, no zero code unit),
    converting to UTF-8 and back gives the string again. *)
Theorem utf16_utf8_round_trip (s : list Z) :
  well_formed_utf16 s →
  utf8_to_utf16 (utf16_to_utf8 s) = s.
Proof.
  intros Hwf. unfold utf8_to_utf16, utf16_to_utf8, wstr_mdtor, cstr_mdtor.
  by rewrite utf8_to_utf16_loop_encoded.
Qed.

Lemma utf16_utf8_round_trip_witness :
  well_formed_utf16 [0x41; 0xe9; 0x4e2d; 0xd83d; 0xde00] ∧
  utf8_to_utf16 (utf16_to_utf8 [0x41; 0xe9; 0x4e2d; 0xd83d; 0xde00])
    = [0x41; 0xe9; 0x4e2d; 0xd83d; 0xde00].
Proof.
  assert (well_formed_utf16 [0x41; 0xe9; 0x4e2d; 0xd83d; 0xde00]) as Hwf.
  { apply wf_unit; [lia|lia|]. apply wf_unit; [lia|lia|]. apply wf_unit; [lia|lia|].
    apply wf_pair; [lia|lia|]. apply wf_end. }
  split; [done|]. apply (utf16_utf8_round_trip _ Hwf).
Defined.

End WStrClaims.

(** * More proofs about the raw buffer *)

Module ByteVectorMore.
Import ByteVector ByteVectorProofs.

Section More.

Variable alloc_ok : gmap positive (list Z) → ptr → Z → bool.
Variable junk : Z.
Variable BVEC_DEFAULT_CAPACITY : Z.
Variable strict : bool.

Hypothesis strict_alloc :
  strict = true → ∀ bs p, alloc_ok bs p 0 = false.
Hypothesis default_capacity_range : 0 ≤ BVEC_DEFAULT_CAPACITY < SIZE_MOD.

Local Abbreviation wp_brealloc := (ByteVectorProofs.wp_brealloc alloc_ok junk strict strict_alloc).
Local Abbreviation wp_shrink := (ByteVectorProofs.wp_shrink alloc_ok junk strict strict_alloc).
Local Abbreviation wp_breserve :=
  (ByteVectorProofs.wp_breserve alloc_ok junk BVEC_DEFAULT_CAPACITY strict strict_alloc
     default_capacity_range).
Local Abbreviation wp_bresize :=
  (ByteVectorProofs.wp_bresize alloc_ok junk BVEC_DEFAULT_CAPACITY strict strict_alloc
     default_capacity_range).
Local Abbreviation wp_bpop :=
  (ByteVectorProofs.wp_bpop alloc_ok junk BVEC_DEFAULT_CAPACITY strict strict_alloc
     default_capacity_range).
Local Abbreviation wp_bpush :=
  (ByteVectorProofs.wp_bpush alloc_ok junk BVEC_DEFAULT_CAPACITY strict strict_alloc
     default_capacity_range).
Local Abbreviation wp_vpush :=
  (ByteVectorProofs.wp_vpush alloc_ok junk BVEC_DEFAULT_CAPACITY strict strict_alloc
     default_capacity_range).
Local Abbreviation wp_bctor :=
  (ByteVectorProofs.wp_bctor alloc_ok junk BVEC_DEFAULT_CAPACITY strict strict_alloc
     default_capacity_range).
Local Abbreviation wp_copy :=
  (ByteVectorProofs.wp_copy alloc_ok junk BVEC_DEFAULT_CAPACITY strict strict_alloc
     default_capacity_range).
Local Abbreviation wp_push_local :=
  (ByteVectorProofs.wp_push_local alloc_ok junk BVEC_DEFAULT_CAPACITY strict strict_alloc
     default_capacity_range).
Local Abbreviation wp_get_terminated :=
  (ByteVectorProofs.wp_get_terminated alloc_ok junk BVEC_DEFAULT_CAPACITY strict strict_alloc
     default_capacity_range).
Local Abbreviation wp_clear := (ByteVectorProofs.wp_clear strict).
Local Abbreviation wp_dtor_ctor := (ByteVectorProofs.wp_dtor_ctor strict).
Local Abbreviation move_run := (ByteVectorProofs.move_run strict).
Local Abbreviation move_state_ok := (ByteVectorProofs.move_state_ok strict).
Local Abbreviation swap_state_ok := (ByteVectorProofs.swap_state_ok strict).
Local Abbreviation live_buf := (ByteVectorProofs.live_buf strict).
Local Abbreviation frame_other_buf := (ByteVectorProofs.frame_other_buf strict).
Local Abbreviation released_blocks := (ByteVectorProofs.released_blocks strict).
Local Abbreviation state_ok_ctor := (ByteVectorProofs.state_ok_ctor strict).
Local Abbreviation state_ok_write := (ByteVectorProofs.state_ok_write strict).
Local Abbreviation state_ok_new_block := (ByteVectorProofs.state_ok_new_block strict).
Local Abbreviation state_ok_drop_block := (ByteVectorProofs.state_ok_drop_block strict).
Local Abbreviation set_end_ok := (ByteVectorProofs.set_end_ok strict).
Local Abbreviation tback_run :=
  (ByteVectorProofs.tback_run BVEC_DEFAULT_CAPACITY default_capacity_range).
Local Abbreviation get_terminated_fixed :=
  (ByteVectorProofs.get_terminated_fixed alloc_ok junk BVEC_DEFAULT_CAPACITY
     default_capacity_range).
Local Abbreviation wp_bpush_exact :=
  (ByteVectorProofs.wp_bpush_exact alloc_ok junk BVEC_DEFAULT_CAPACITY strict strict_alloc
     default_capacity_range).
Local Abbreviation wp_bresize_exact :=
  (ByteVectorProofs.wp_bresize_exact alloc_ok junk BVEC_DEFAULT_CAPACITY strict strict_alloc
     default_capacity_range).
Local Abbreviation wp_shrink_exact :=
  (ByteVectorProofs.wp_shrink_exact alloc_ok junk strict strict_alloc).
Local Abbreviation drop_terminator :=
  (ByteVector.drop_terminator alloc_ok junk BVEC_DEFAULT_CAPACITY).
Local Abbreviation cat_terminated :=
  (ByteVector.cat_terminated alloc_ok junk BVEC_DEFAULT_CAPACITY).
Local Abbreviation ctor_terminated :=
  (ByteVector.ctor_terminated alloc_ok junk BVEC_DEFAULT_CAPACITY).
Local Abbreviation ncat_terminated :=
  (ByteVector.ncat_terminated alloc_ok junk BVEC_DEFAULT_CAPACITY).
Local Abbreviation pushback_terminated :=
  (ByteVector.pushback_terminated alloc_ok junk BVEC_DEFAULT_CAPACITY).
Local Abbreviation shrink_terminated :=
  (ByteVector.shrink_terminated alloc_ok junk BVEC_DEFAULT_CAPACITY).
Local Abbreviation get_terminated :=
  (ByteVector.get_terminated alloc_ok junk BVEC_DEFAULT_CAPACITY).
Local Abbreviation printf_loop :=
  (ByteVector.printf_loop alloc_ok junk BVEC_DEFAULT_CAPACITY).

(** ** Buffers that an operation does not write to *)

Lemma frame_ctor v m :
  frame v m (Mem (<[v := Bvec NULL NULL NULL]> (vecs m)) (blocks m) (next_block m) (calls m)).
Proof.
  split; [|split; [|split]]; simpl; [|done| |lia].
  - intros v' Hne. by rewrite lookup_insert_ne.
  - intros b (bv1 & o & Hv1 & Hb1). simpl in Hv1.
    rewrite lookup_insert_eq in Hv1. by injection Hv1 as <-.
Qed.

(** An operation leaves alone the buffers it does not write to: their
    struct, and the block they own with its bytes. *)
Lemma unwritten_kept op m w size cap l :
  state_ok strict m → op_ready m op → ¬ writes op w → buf m w size cap l →
  wp (run_op alloc_ok junk BVEC_DEFAULT_CAPACITY op)
     (λ _ m', buf m' w size cap l ∧ vecs m' !! w = vecs m !! w) (λ _, True) m.
Proof.
  intros Hok Hready Hw Hbuf.
  assert (∀ v m0 m', v ≠ w → state_ok strict m0 → frame v m0 m' →
            buf m0 w size cap l → vecs m0 !! w = vecs m !! w →
            buf m' w size cap l ∧ vecs m' !! w = vecs m !! w) as Hframe.
  { intros v m0 m' Hne Hok0 Hfr Hbuf0 Hv0. split; [by eapply frame_other_buf|].
    destruct Hfr as (Hvecs & _). rewrite <- Hv0. by apply Hvecs. }
  destruct op as [v|v data n|v|v|v|dst src|dst src|a b|v n|v n|v|v data n|dst src|v n];
    simpl in *.
  - apply wp_ctor. apply (Hframe v m); [congruence|done|apply frame_ctor|done|done].
  - destruct Hready as [Hn Hdata]. unfold bvec_bctor. apply wp_bind, wp_ctor.
    pose proof (state_ok_ctor m v Hok) as Hok1.
    destruct (Hframe v m _ ltac:(congruence) Hok (frame_ctor v m) Hbuf eq_refl)
      as [Hbuf1 Hvecs1].
    assert (∃ bytes, (n ≠ 0 → load_bytes m data n = Some bytes) ∧ (n = 0 → bytes = []))
      as (bytes & Hbytes & Hnil).
    { destruct (decide (n = 0)) as [->|Hnz]; [by exists []|].
      destruct (Hdata Hnz) as [bytes Hbytes]. by exists bytes. }
    eapply (wp_bpush _ _ 0 0 [] _ _ bytes); [done| |done| |done| |done|done|done].
    + eexists. simpl. split; [apply lookup_insert_eq|constructor].
    + intros Hnz. split; [by apply Hbytes|].
      intros b o _ (bv & ob & Hv & Hb). simpl in Hv. rewrite lookup_insert_eq in Hv.
      by injection Hv as <-.
    + intros _ m' cap' l' _ _ _ Hfr _ _ _.
      eapply (Hframe v _ m'); [congruence|done|done|done|done].
  - destruct Hready as [bv Hv]. eapply wp_dtor_ctor; [done|done|].
    intros m' _ _ Hfr _. apply (Hframe v m); [congruence|done|done|done|done].
  - destruct (live_buf _ _ Hok Hready) as (size' & cap' & l' & Hbuf').
    eapply wp_clear; [done|done|].
    intros m' _ _ Hfr. apply (Hframe v m); [congruence|done|done|done|done].
  - destruct Hready as [bv Hv]. unfold bvec_fclear. eapply wp_dtor_ctor; [done|done|].
    intros m' _ _ Hfr _. apply (Hframe v m); [congruence|done|done|done|done].
  - destruct Hready as [Hd Hs]. destruct (decide (dst = src)) as [->|Hne].
    + unfold bvec_copy. rewrite bool_decide_false by (by intros ?). by apply wp_ret.
    + destruct (live_buf _ _ Hok Hd) as (sd & cd & ld & Hbd).
      destruct (live_buf _ _ Hok Hs) as (ss & cs & ls & Hbs).
      pose proof Hbd as (bvd & Hvd & Hdd).
      unfold bvec_copy. rewrite bool_decide_true by done. unfold bvec_vctor.
      apply (wp_assoc (bvec_dtor dst) (λ _, bvec_ctor dst)
               (λ _, bvec_vpush alloc_ok junk BVEC_DEFAULT_CAPACITY dst src)).
      apply wp_bind. eapply wp_dtor_ctor; [done|done|].
      intros m1 Hok1 Hbuf1 Hfr1 _.
      pose proof (frame_other_buf _ _ _ _ _ _ _ Hok Hfr1 (not_eq_sym Hne) Hbs) as Hsrc1.
      destruct (Hframe dst m m1 ltac:(congruence) Hok Hfr1 Hbuf eq_refl) as [Hbuf1' Hvecs1].
      eapply wp_vpush; [done|done|done|done| |done|done|done].
      simpl. intros _ m' cap' l' _ _ _ Hfr'.
      apply (Hframe dst m1 m'); [congruence|done|done|done|done].
  - destruct Hready as [[bvd Hd] [bvs Hs]]. destruct (decide (dst = src)) as [->|Hne].
    + unfold bvec_move. rewrite bool_decide_false by (by intros ?). by apply wp_ret.
    + unfold wp. rewrite (move_run _ _ _ _ _ Hok Hne Hd Hs).
      destruct (released_blocks m dst bvd Hok Hd) as (_ & Hkeep & _).
      assert (w ≠ dst ∧ w ≠ src) as [Hwd Hws] by (split; intros ->; apply Hw; auto).
      destruct Hbuf as (bvw & Hvw & Hdw). split.
      * exists bvw. simpl. rewrite !lookup_insert_ne by done. split; [done|].
        eapply describes_other_blocks; [done|]. intros b o Hb. by eapply (Hkeep w).
      * simpl. by rewrite !lookup_insert_ne.
  - destruct Hready as [[bva Ha] [bvb Hb]].
    unfold wp. rewrite (swap_run _ _ _ _ _ Ha Hb).
    assert (w ≠ a ∧ w ≠ b) as [Hwa Hwb] by (split; intros ->; apply Hw; auto).
    destruct Hbuf as (bvw & Hvw & Hdw). split.
    + exists bvw. simpl. by rewrite !lookup_insert_ne.
    + simpl. by rewrite !lookup_insert_ne.
  - destruct Hready as [Hlive Hn].
    destruct (live_buf _ _ Hok Hlive) as (size' & cap' & l' & Hbuf').
    eapply wp_breserve; try done; [lia|].
    intros m' cap'' _ _ Hfr _ _ _ _ _. apply (Hframe v m); [congruence|done|done|done|done].
  - destruct Hready as [Hlive Hn].
    destruct (live_buf _ _ Hok Hlive) as (size' & cap' & l' & Hbuf').
    eapply wp_bresize; try done; [lia|].
    intros m' cap'' _ _ Hfr _ _ _. apply (Hframe v m); [congruence|done|done|done|done].
  - destruct (live_buf _ _ Hok Hready) as (size' & cap' & l' & Hbuf').
    eapply wp_shrink; try done.
    intros m' cap'' _ _ Hfr _ _ _. apply (Hframe v m); [congruence|done|done|done|done].
  - destruct Hready as (Hlive & Hn & Hdata).
    destruct (live_buf _ _ Hok Hlive) as (size' & cap' & l' & Hbuf').
    assert (∃ bytes, (n ≠ 0 → load_bytes m data n = Some bytes ∧
                               ∀ b o, data = Ptr b o → ¬ owns m v b) ∧
                     (n = 0 → bytes = [])) as (bytes & Hbytes & Hnil).
    { destruct (decide (n = 0)) as [->|Hnz]; [by exists []|].
      destruct (Hdata Hnz) as [[bytes Hbytes] Hout]. exists bytes. split; [|done].
      intros _. split; [done|]. intros b o -> (bv & o' & Hv & Hb). by eapply Hout. }
    eapply (wp_bpush _ _ _ _ _ _ _ bytes); [done|done|done|done|done| |done|done|done].
    intros _ m' cap'' l'' _ _ _ Hfr _ _ _.
    apply (Hframe v m); [congruence|done|done|done|done].
  - destruct Hready as (Hd & Hs & Hne).
    destruct (live_buf _ _ Hok Hd) as (sd & cd & ld & Hbd).
    destruct (live_buf _ _ Hok Hs) as (ss & cs & ls & Hbs).
    eapply wp_vpush; [done|done|done|done| |done|done|done].
    intros _ m' cap' l' _ _ _ Hfr.
    apply (Hframe dst m); [congruence|done|done|done|done].
  - destruct Hready as [Hlive Hn].
    destruct (live_buf _ _ Hok Hlive) as (size' & cap' & l' & Hbuf').
    eapply wp_bpop; try done.
    intros _ m' _ _ Hfr _ _ _. apply (Hframe v m); [congruence|done|done|done|done].
Qed.

(** ** Doubling a capacity *)

Lemma doubled_exists c n :
  0 < c → ∃ c', doubled c n c' ∧ (c' = c ∨ c' < 2 * n).
Proof.
  intros Hc.
  assert (∀ f : nat, n ≤ c * 2 ^ Z.of_nat f →
            ∃ k, 0 ≤ k ∧ n ≤ c * 2 ^ k ∧ ∀ j, 0 ≤ j < k → c * 2 ^ j < n) as Hleast.
  { induction f as [|f IH]; intros Hf.
    - exists 0. split; [done|]. split; [done|]. intros j Hj. lia.
    - destruct (decide (n ≤ c * 2 ^ Z.of_nat f)) as [Hle|Hgt]; [by apply IH|].
      exists (Z.of_nat (S f)). split; [lia|]. split; [done|]. intros j Hj.
      assert (2 ^ j ≤ 2 ^ Z.of_nat f) by (apply Z.pow_le_mono_r; lia). nia. }
  destruct (Hleast (Z.to_nat n)) as (k & Hk & Hreach & Hfirst).
  { destruct (decide (0 ≤ n)) as [Hn|Hn].
    - rewrite Z2Nat.id by done. pose proof (Z.pow_gt_lin_r 2 n ltac:(lia) Hn). nia.
    - assert (0 < 2 ^ Z.of_nat (Z.to_nat n)) by (apply Z.pow_pos_nonneg; lia). nia. }
  exists (c * 2 ^ k). split; [by exists k|].
  destruct (decide (k = 0)) as [->|Hnz]; [left; lia|right].
  specialize (Hfirst (k - 1) ltac:(lia)).
  replace k with (Z.succ (k - 1)) by lia. rewrite Z.pow_succ_r by lia. lia.
Qed.

(** When no doubling of a capacity reaches a size within the size
    type, the capacity is zero or the size is above [2^31]. *)
Lemma wrap_needs c n :
  0 ≤ c < SIZE_MOD → (∀ c', doubled c n c' → SIZE_MOD ≤ c') → c = 0 ∨ 2 ^ 31 < n.
Proof.
  clear default_capacity_range strict_alloc.
  intros Hc Hwrap. destruct (decide (c = 0)) as [?|Hnz]; [by left|right].
  destruct (doubled_exists c n) as (c' & Hd & Hsmall); [lia|].
  specialize (Hwrap c' Hd). rewrite size_mod_eq in *. lia.
Qed.

Lemma refuses_is_some m v c :
  0 < c → refuses alloc_ok m v c → refuses_some alloc_ok.
Proof. intros Hc (bv & _ & Hno). by exists (blocks m), (begin bv), c. Qed.

(** ** Strings in memory *)

Lemma string_length_blocks p sz m m' n :
  blocks m' = blocks m → string_length p sz m = Ret n m → string_length p sz m' = Ret n m'.
Proof.
  intros Hb. unfold string_length. rewrite Hb. destruct p as [|b o]; [done|].
  destruct (blocks m !! b) as [l|]; [|done]. case_decide; [|done].
  destruct (first_zero _); [|done]. by intros [= ->].
Qed.

Lemma load_bytes_blocks p n m m' :
  blocks m' = blocks m → load_bytes m' p n = load_bytes m p n.
Proof. intros Hb. unfold load_bytes. by rewrite Hb. Qed.

Lemma string_at_blocks p sz n bytes m m' :
  blocks m' = blocks m → string_at m p sz n bytes → string_at m' p sz n bytes.
Proof.
  intros Hb (Hlen & Hload & Hfit). split; [by eapply string_length_blocks|].
  split; [by rewrite (load_bytes_blocks _ _ m m')|done].
Qed.

Lemma first_zero_spec (l : list Z) n :
  first_zero l = Some n →
  0 ≤ n ∧ l !! Z.to_nat n = Some 0 ∧
  ∀ i, (i < Z.to_nat n)%nat → ∃ c, l !! i = Some c ∧ c ≠ 0.
Proof.
  revert n. induction l as [|x l IH]; intros n Hn; [done|]. simpl in Hn.
  case_decide as Hx.
  - injection Hn as <-. subst x. split; [done|]. split; [done|]. intros i Hi. simpl in Hi. lia.
  - destruct (first_zero l) as [n'|]; [|done]. injection Hn as <-.
    destruct (IH n' eq_refl) as (Hn' & Hz & Hbefore).
    split; [lia|]. replace (Z.to_nat (Z.succ n')) with (S (Z.to_nat n')) by lia.
    split; [done|]. intros [|i] Hi; [by exists x|]. apply Hbefore. lia.
Qed.

Lemma elements_of_length n k l : length (elements_of n k l) = n.
Proof. revert l. induction n as [|n IH]; intros l; [done|]. simpl. by rewrite IH. Qed.

Lemma load_elem_run m b o l sz i :
  blocks m !! b = Some l → 0 ≤ o ≤ Z.of_nat (length l) → 0 < sz → 0 ≤ i →
  (Z.to_nat i < length (drop (Z.to_nat o) l) `div` Z.to_nat sz)%nat →
  load_elem (Ptr b o) i sz m =
    Ret (le_decode (take (Z.to_nat sz)
                      (drop (Z.to_nat i * Z.to_nat sz) (drop (Z.to_nat o) l)))) m ∧
  o + (i + 1) * sz ≤ Z.of_nat (length l).
Proof.
  intros Hb Ho Hsz Hi Hcount.
  assert (o + (i + 1) * sz ≤ Z.of_nat (length l)) as Hfit.
  { rewrite length_drop in Hcount.
    pose proof (Nat.Div0.mul_div_le (length l - Z.to_nat o) (Z.to_nat sz)). nia. }
  split; [|done]. unfold load_elem, PTRADD, load_bytes. rewrite Hb.
  rewrite decide_True by nia. do 3 f_equal. rewrite drop_drop. f_equal. nia.
Qed.

(** The elements of a string: none is zero before the terminator. *)
Lemma string_length_elems p sz m n :
  0 < sz → string_length p sz m = Ret n m →
  0 ≤ n ∧ load_elem p n sz m = Ret 0 m ∧
  (∀ i, 0 ≤ i < n → ∃ c, load_elem p i sz m = Ret c m ∧ c ≠ 0) ∧
  is_Some (load_bytes m p ((n + 1) * sz)).
Proof.
  intros Hsz. unfold string_length. destruct p as [|b o]; [done|].
  destruct (blocks m !! b) as [l|] eqn:Hb; [|done]. case_decide as Ho; [|done].
  set (bytes := drop (Z.to_nat o) l). set (k := Z.to_nat sz).
  destruct (first_zero _) as [n'|] eqn:Hfz; [|done]. intros [= ->].
  destruct (first_zero_spec _ _ Hfz) as (Hn & Hz & Hbefore).
  assert (Z.to_nat n < length bytes `div` k)%nat as Hcount.
  { apply lookup_lt_Some in Hz. by rewrite elements_of_length in Hz. }
  split; [done|]. split; [|split].
  - destruct (load_elem_run m b o l sz n Hb Ho Hsz Hn Hcount) as [-> _].
    rewrite elements_of_lookup in Hz by done. injection Hz as Hz.
    unfold bytes, k in Hz. by rewrite Hz.
  - intros i Hi. destruct (Hbefore (Z.to_nat i)) as (c & Hc & Hnz); [lia|].
    destruct (load_elem_run m b o l sz i Hb Ho Hsz) as [-> _]; [lia|fold bytes k; lia|].
    rewrite elements_of_lookup in Hc by lia. injection Hc as Hc.
    unfold bytes, k in Hc. rewrite Hc. by exists c.
  - destruct (load_elem_run m b o l sz n Hb Ho Hsz Hn Hcount) as [_ Hfit].
    unfold load_bytes. rewrite Hb. rewrite decide_True by nia. by eexists.
Qed.

Lemma bsize_run m v size cap l :
  buf m v size cap l → bvec_bsize v m = Ret size m.
Proof.
  intros (bv & Hv & Hd). unfold bvec_bsize, mbind, M_bind, load_vec. rewrite Hv. simpl.
  by rewrite (describes_size _ _ _ _ _ Hd).
Qed.

Lemma bdata_run m v bv :
  vecs m !! v = Some bv → bvec_bdata v m = Ret (begin bv) m.
Proof. intros Hv. unfold bvec_bdata, mbind, M_bind, load_vec. by rewrite Hv. Qed.

Lemma bcapacity_run m v size cap l :
  buf m v size cap l → bvec_bcapacity v m = Ret cap m.
Proof.
  intros (bv & Hv & Hd). unfold bvec_bcapacity, mbind, M_bind, load_vec. rewrite Hv. simpl.
  by rewrite (describes_capacity _ _ _ _ _ Hd).
Qed.

(** Setting the size within the capacity moves [end] and nothing
    else: the block and [begin] stay, and the allocator is not called. *)
Lemma resize_in_place m v size cap l n :
  buf m v size cap l → 0 ≤ n ≤ cap → n ≤ size ∨ cap ≠ 0 →
  ∃ bv e, vecs m !! v = Some bv ∧
    bvec_bresize alloc_ok junk BVEC_DEFAULT_CAPACITY v n m =
      Ret tt (Mem (<[v := Bvec (begin bv) e (capacity bv)]> (vecs m)) (blocks m)
                  (next_block m) (calls m)).
Proof.
  intros Hbuf Hn Hcase. pose proof Hbuf as (bv & Hv & Hd).
  pose proof (describes_bounds _ _ _ _ _ Hd) as (Hs & Hc & Hl).
  assert (∃ e, PTRADD (begin bv) n = Some e) as [e He].
  { destruct Hd; simpl; [|by eexists]. rewrite decide_True by lia. by eexists. }
  exists bv, e. split; [done|].
  unfold bvec_bresize. unfold mbind at 1, M_bind at 1. rewrite (bsize_run _ _ _ _ _ Hbuf).
  assert ((if bool_decide (size < n)
           then bvec_breserve alloc_ok junk BVEC_DEFAULT_CAPACITY v n else mret tt) m
          = Ret tt m) as Hres.
  { case_bool_decide as Hlt; [|done].
    unfold bvec_breserve, mbind, M_bind. rewrite (bcapacity_run _ _ _ _ _ Hbuf).
    rewrite bool_decide_true by lia. unfold LOOP_BOUND. cbn [reserve_loop].
    rewrite bool_decide_false by lia. unfold mret, M_ret.
    by rewrite bool_decide_false by lia. }
  unfold mbind at 1, M_bind at 1. rewrite Hres.
  unfold mbind, M_bind, load_vec. rewrite Hv. simpl. by rewrite He.
Qed.

(** What the allocator refuses a buffer depends on its [begin] and on
    the blocks only. *)
Lemma refuses_in_place m v bv e c n :
  vecs m !! v = Some bv →
  refuses alloc_ok (Mem (<[v := Bvec (begin bv) e c]> (vecs m)) (blocks m)
                        (next_block m) (calls m)) v n →
  refuses alloc_ok m v n.
Proof.
  intros Hv (bv' & Hv' & Hno). simpl in Hv'. rewrite lookup_insert_eq in Hv'.
  injection Hv' as <-. by exists bv.
Qed.

Lemma empty_run m v size cap l :
  buf m v size cap l → bvec_empty v m = Ret (bool_decide (size = 0)) m.
Proof.
  intros (bv & Hv & Hd). unfold bvec_empty, bvec_bsize, mbind, M_bind, load_vec.
  rewrite Hv. simpl. by rewrite (describes_size _ _ _ _ _ Hd).
Qed.

Lemma bpop_in_place m v size cap l n :
  buf m v size cap l → 0 < n ≤ size →
  ∃ bv e, vecs m !! v = Some bv ∧
    bvec_bpop alloc_ok junk BVEC_DEFAULT_CAPACITY v n m =
      Ret tt (Mem (<[v := Bvec (begin bv) e (capacity bv)]> (vecs m)) (blocks m)
                  (next_block m) (calls m)).
Proof.
  intros Hbuf Hn. pose proof Hbuf as (bv0 & Hv0 & Hd).
  pose proof (describes_bounds _ _ _ _ _ Hd) as (Hs & Hc & Hl).
  destruct (resize_in_place m v size cap l (size - n) Hbuf) as (bv & e & Hv & Hrun);
    [lia|left; lia|].
  exists bv, e. split; [done|].
  unfold bvec_bpop. rewrite bool_decide_true by lia.
  unfold mbind at 1, M_bind at 1. rewrite (bsize_run _ _ _ _ _ Hbuf).
  rewrite size_t_small by lia. unfold mbind, M_bind, bvec_assert.
  by rewrite bool_decide_true by lia.
Qed.

(** A terminator at the end is dropped: the first statement of
    [bvec_strcat] and of the functions like it. *)
Lemma wp_drop_terminator m v size cap l sz Q E :
  state_ok strict m → buf m v size cap l → 0 < sz < SIZE_MOD → size mod sz = 0 →
  (∀ m', state_ok strict m' → buf m' v (unterminated sz size l) cap l →
     frame v m m' → blocks m' = blocks m → calls m' = calls m →
     (∀ c, refuses alloc_ok m' v c → refuses alloc_ok m v c) → Q tt m') →
  wp (drop_terminator sz v) Q E m.
Proof.
  intros Hok Hbuf Hsz Hmod HQ.
  pose proof Hbuf as (bv & Hv & Hd).
  pose proof (describes_bounds _ _ _ _ _ Hd) as (Hs & Hc & Hl).
  unfold ByteVector.drop_terminator, unterminated in *. apply wp_bind.
  unfold wp at 1. rewrite (empty_run _ _ _ _ _ Hbuf).
  case_bool_decide as Hempty.
  - apply wp_ret. rewrite decide_False in HQ by (intros [? _]; done).
    apply HQ; [done|done|apply frame_refl|done|done|done].
  - apply wp_bind. unfold wp at 1. rewrite (tback_run _ _ _ _ _ _ Hbuf) by lia.
    case_bool_decide as Hlast.
    + rewrite decide_True in HQ by done.
      assert (sz ≤ size).
      { apply Z.mod_divide in Hmod as [q Hq]; [|lia]. assert (0 < q) by nia. nia. }
      destruct (bpop_in_place m v size cap l sz Hbuf) as (bv0 & e & Hv0 & Hrun); [lia|].
      assert (wp (bvec_bpop alloc_ok junk BVEC_DEFAULT_CAPACITY v sz)
                (λ _ m', state_ok strict m' ∧ buf m' v (size - sz) cap l ∧ frame v m m' ∧
                         blocks m' = blocks m ∧ calls m' = calls m)
                (λ _, False) m) as Hpop.
      { eapply wp_bpop; [done|done|lia| |lia]. by intros _ m' ? ? ? ? ? _. }
      unfold bvec_tpopback. unfold wp in Hpop |- *. rewrite Hrun in Hpop |- *.
      destruct Hpop as (Hok' & Hbuf' & Hfr & Hb & Hc').
      apply HQ; [done|done|done|done|done|].
      intros c. by apply refuses_in_place.
    + apply wp_ret. rewrite decide_False in HQ by (intros [_ ?]; done).
      apply HQ; [done|done|apply frame_refl|done|done|done].
Qed.

Lemma unterminated_range sz size l :
  0 < sz → 0 ≤ size → size mod sz = 0 →
  0 ≤ unterminated sz size l ≤ size ∧ unterminated sz size l mod sz = 0.
Proof.
  intros Hsz Hsize Hmod. unfold unterminated. case_decide as H; [|done].
  apply Z.mod_divide in Hmod as [q Hq]; [|lia]. destruct H as [Hnz _].
  assert (0 < q) by nia. split; [nia|].
  apply Z.mod_divide; [lia|]. exists (q - 1). lia.
Qed.

(** [bvec_strcat] and [bvec_wcscat] *)
Lemma wp_cat_terminated_exact m v size cap l sz str n bytes Q E :
  state_ok strict m → buf m v size cap l → 0 < sz < SIZE_MOD → size mod sz = 0 →
  string_at m str sz n bytes → (∀ b o, str = Ptr b o → ¬ owns m v b) →
  let kept := unterminated sz size l in
  (kept + (n + 1) * sz < SIZE_MOD → ∀ m' cap' l', state_ok strict m' →
     buf m' v (kept + (n + 1) * sz) cap' l' →
     take (Z.to_nat (kept + (n + 1) * sz)) l' = take (Z.to_nat kept) l ++ bytes →
     frame v m m' → Q tt m') →
  (SIZE_MOD ≤ kept + (n + 1) * sz → E "interger overflow"%string) →
  (cap < kept + (n + 1) * sz →
     (∀ c', doubled (first_capacity BVEC_DEFAULT_CAPACITY cap) (kept + (n + 1) * sz) c' →
            SIZE_MOD ≤ c') →
     E "integer overflow"%string) →
  (cap < kept + (n + 1) * sz →
     ∀ c', cap < c' →
           doubled (first_capacity BVEC_DEFAULT_CAPACITY cap) (kept + (n + 1) * sz) c' →
           refuses alloc_ok m v c' → E "out of memory"%string) →
  wp (cat_terminated sz v str) Q E m.
Proof.
  intros Hok Hbuf Hsz Hmod Hstr Hout kept HQ HE1 HE2 HE3.
  pose proof Hbuf as (bv & Hv & Hd).
  pose proof (describes_bounds _ _ _ _ _ Hd) as (Hs & Hc & Hl).
  destruct (unterminated_range sz size l) as [Hkept Hkmod]; [lia|lia|done|].
  fold kept in Hkept, Hkmod.
  unfold ByteVector.cat_terminated. apply wp_bind.
  eapply wp_drop_terminator; [done|done|done|done|].
  intros m1 Hok1 Hbuf1 Hfr1 Hb1 Hc1 Hno1. fold kept in Hbuf1.
  destruct (string_at_blocks str sz n bytes m m1 Hb1 Hstr) as (Hlen1 & Hload1 & Hfit).
  assert (0 ≤ n) as Hn.
  { eapply string_length_elems; [|done]. lia. }
  apply wp_bind. unfold wp at 1. rewrite Hlen1.
  unfold bvec_tpush. rewrite (size_t_small (n + 1)) by nia.
  rewrite size_t_small by nia.
  eapply (wp_bpush_exact _ _ _ _ _ _ _ bytes);
    [done|done|nia| |nia| |intros; apply HE1; lia|intros; by apply HE2
    |intros ? ? c' ? ? ?; apply (HE3 ltac:(done) c'); [done|done|by apply Hno1]].
  - intros _. split; [done|]. intros b o Hp Hown. apply (Hout b o Hp).
    destruct Hfr1 as (_ & _ & Howns & _). destruct (Howns _ Hown) as [?|Hnew]; [done|].
    subst str. unfold load_bytes in Hload1. rewrite Hb1 in Hload1.
    destruct (blocks m !! b) as [lb|] eqn:Hlb; [|done].
    assert (b < next_block m)%positive by (by eapply (ok_next _ _ Hok)). lia.
  - intros Hfit' m' cap' l' Hok' Hbuf' Htake Hfr' _ _ _.
    apply (HQ Hfit' m' cap' l'); [done|done|done|].
    destruct Hfr1 as (F1 & F2 & F3 & F4). destruct Hfr' as (G1 & G2 & G3 & G4).
    split; [|split; [|split]].
    + intros v' Hne. by rewrite G1, F1.
    + intros b lb Hlb Hnown. apply G2; [by apply F2|].
      intros Hown1. destruct (F3 _ Hown1) as [?|Hnew]; [done|].
      assert (b < next_block m)%positive by (by eapply (ok_next _ _ Hok)). lia.
    + intros b Hown'. destruct (G3 _ Hown') as [Hown1|Hnew]; [|right; lia].
      destruct (F3 _ Hown1) as [?|?]; [by left|by right].
    + lia.
Qed.

Lemma wp_cat_terminated m v size cap l sz str n bytes Q E :
  state_ok strict m → buf m v size cap l → 0 < sz < SIZE_MOD → size mod sz = 0 →
  string_at m str sz n bytes → (∀ b o, str = Ptr b o → ¬ owns m v b) →
  let kept := unterminated sz size l in
  (kept + (n + 1) * sz < SIZE_MOD → ∀ m' cap' l', state_ok strict m' →
     buf m' v (kept + (n + 1) * sz) cap' l' →
     take (Z.to_nat (kept + (n + 1) * sz)) l' = take (Z.to_nat kept) l ++ bytes →
     frame v m m' → Q tt m') →
  (SIZE_MOD ≤ kept + (n + 1) * sz → E "interger overflow"%string) →
  (cap < kept + (n + 1) * sz → E "integer overflow"%string) →
  (cap < kept + (n + 1) * sz → E "out of memory"%string) →
  wp (cat_terminated sz v str) Q E m.
Proof.
  intros Hok Hbuf Hsz Hmod Hstr Hout kept HQ HE1 HE2 HE3.
  eapply wp_cat_terminated_exact; [done|done|done|done|done|done|done|done| |].
  - intros ? _. by apply HE2.
  - intros ? c' _ _ _. by apply HE3.
Qed.

(** ** [bvec_vpush], [bvec_bctor] and [bvec_copy], with what makes them quit *)

Lemma wp_vpush_exact m dst src sd cd ld ss cs ls Q E :
  state_ok strict m → dst ≠ src → buf m dst sd cd ld → buf m src ss cs ls →
  (sd + ss < SIZE_MOD → ∀ m' cap' l', state_ok strict m' →
     buf m' dst (sd + ss) cap' l' →
     take (Z.to_nat (sd + ss)) l' = take (Z.to_nat sd) ld ++ take (Z.to_nat ss) ls →
     frame dst m m' → Q tt m') →
  (ss ≠ 0 → SIZE_MOD ≤ sd + ss → E "interger overflow"%string) →
  (ss ≠ 0 → cd < sd + ss →
     (∀ c', doubled (first_capacity BVEC_DEFAULT_CAPACITY cd) (sd + ss) c' → SIZE_MOD ≤ c') →
     E "integer overflow"%string) →
  (ss ≠ 0 → cd < sd + ss →
     ∀ c', cd < c' → doubled (first_capacity BVEC_DEFAULT_CAPACITY cd) (sd + ss) c' →
           refuses alloc_ok m dst c' → E "out of memory"%string) →
  wp (bvec_vpush alloc_ok junk BVEC_DEFAULT_CAPACITY dst src) Q E m.
Proof.
  intros Hok Hne Hdst Hsrc HQ HE1 HE2 HE3.
  pose proof Hsrc as (bvs & Hvs & Hds).
  pose proof (describes_bounds _ _ _ _ _ Hds) as (Hs & Hc & Hl).
  unfold bvec_vpush, bvec_bdata. apply wp_bind, wp_bind.
  eapply wp_load_vec; [done|]. apply wp_ret.
  apply wp_bind. eapply wp_bsize; [done|].
  eapply (wp_bpush_exact _ _ _ _ _ _ _ (take (Z.to_nat ss) ls));
    [done|done|lia| | | |done|done|done].
  - intros Hnz. split; [by eapply buf_load_bytes|].
    intros b o Hb (bvd & od & Hvd & Hbd).
    destruct (owned_block_live _ _ _ _ _ _ Hok Hvd Hbd) as [-> _].
    destruct (owned_block_live _ _ _ _ _ _ Hok Hvs Hb) as [-> _].
    eapply (ok_sep _ _ Hok dst src); [done|done|done| |]; congruence.
  - by intros ->.
  - intros Hfit m' cap' l' Hok' Hbuf' Htake Hfr _ _ _. by eapply HQ.
Qed.

Lemma wp_bctor_exact m v data n bytes Q E :
  state_ok strict m → 0 ≤ n < SIZE_MOD →
  (n ≠ 0 → load_bytes m data n = Some bytes) → (n = 0 → bytes = []) →
  (∀ m' cap' l', state_ok strict m' → buf m' v n cap' l' →
     take (Z.to_nat n) l' = bytes → Q tt m') →
  (n ≠ 0 →
     (∀ c', doubled (first_capacity BVEC_DEFAULT_CAPACITY 0) n c' → SIZE_MOD ≤ c') →
     E "integer overflow"%string) →
  (n ≠ 0 →
     ∀ c', doubled (first_capacity BVEC_DEFAULT_CAPACITY 0) n c' →
           alloc_ok (blocks m) NULL c' = false → E "out of memory"%string) →
  wp (bvec_bctor alloc_ok junk BVEC_DEFAULT_CAPACITY v data n) Q E m.
Proof.
  intros Hok Hn Hdata Hnil HQ HE1 HE2.
  unfold bvec_bctor. apply wp_bind, wp_ctor.
  pose proof (state_ok_ctor m v Hok) as Hok1.
  eapply (wp_bpush_exact _ _ 0 0 [] _ _ bytes); [done| |done| |done| | | |].
  - eexists. simpl. split; [apply lookup_insert_eq|constructor].
  - intros Hnz. split; [by apply Hdata|].
    intros b o _ (bv & ob & Hv & Hb). simpl in Hv. rewrite lookup_insert_eq in Hv.
    by injection Hv as <-.
  - intros Hfit m' cap' l' Hok' Hbuf' Htake _ _ _ _. by eapply HQ.
  - rewrite size_mod_eq in *. lia.
  - intros Hnz _ Hwrap. by apply HE1.
  - intros Hnz _ c' _ Hd (bv & Hv & Hno). simpl in Hv, Hno.
    rewrite lookup_insert_eq in Hv. injection Hv as <-. by eapply HE2.
Qed.

Lemma wp_copy_exact m dst src sd cd ld ss cs ls bvd Q E :
  state_ok strict m → dst ≠ src → buf m dst sd cd ld → buf m src ss cs ls →
  vecs m !! dst = Some bvd →
  (∀ m' cap' l', state_ok strict m' → buf m' dst ss cap' l' →
     take (Z.to_nat ss) l' = take (Z.to_nat ss) ls → buf m' src ss cs ls →
     Q tt m') →
  (ss ≠ 0 →
     (∀ c', doubled (first_capacity BVEC_DEFAULT_CAPACITY 0) ss c' → SIZE_MOD ≤ c') →
     E "integer overflow"%string) →
  (ss ≠ 0 →
     ∀ c', doubled (first_capacity BVEC_DEFAULT_CAPACITY 0) ss c' →
           alloc_ok (release (begin bvd) (blocks m)) NULL c' = false →
           E "out of memory"%string) →
  wp (bvec_copy alloc_ok junk BVEC_DEFAULT_CAPACITY dst src) Q E m.
Proof.
  intros Hok Hne Hdst Hsrc Hvd HQ HE1 HE2.
  assert (0 ≤ ss < SIZE_MOD) as Hss.
  { destruct Hsrc as (bvs & _ & Hds). apply describes_bounds in Hds. lia. }
  unfold bvec_copy. rewrite bool_decide_true by done.
  unfold bvec_vctor.
  apply (wp_assoc (bvec_dtor dst) (λ _, bvec_ctor dst)
           (λ _, bvec_vpush alloc_ok junk BVEC_DEFAULT_CAPACITY dst src)).
  apply wp_bind. eapply wp_dtor_ctor; [done|done|].
  intros m1 Hok1 Hbuf1 Hfr1 Hm1.
  pose proof (frame_other_buf _ _ _ _ _ _ _ Hok Hfr1 (not_eq_sym Hne) Hsrc) as Hsrc1.
  eapply wp_vpush_exact; [done|done|done|done| | | |].
  - simpl. intros _ m' cap' l' Hok' Hbuf' Htake Hfr'. eapply HQ; [done|done|done|].
    eapply (frame_other_buf m1 m' dst src); [done|done|by apply not_eq_sym|done].
  - rewrite size_mod_eq in *. lia.
  - intros Hnz _ Hwrap. by apply HE1.
  - intros Hnz _ c' _ Hd (bv & Hv & Hno). subst m1. simpl in Hv, Hno.
    rewrite lookup_insert_eq in Hv. injection Hv as <-. by eapply HE2.
Qed.

Lemma load_bytes_sub m b o n bytes a c :
  load_bytes m (Ptr b o) n = Some bytes → 0 ≤ a → 0 ≤ c → a + c ≤ n →
  load_bytes m (Ptr b (o + a)) c = Some (take (Z.to_nat c) (drop (Z.to_nat a) bytes)).
Proof.
  unfold load_bytes. destruct (blocks m !! b) as [l|]; [|done].
  case_decide as Hin; [|done]. intros [= <-] Ha Hc Hac.
  rewrite decide_True by lia. f_equal.
  rewrite skipn_firstn_comm, take_take, drop_drop.
  f_equal; [lia|f_equal; lia].
Qed.

Lemma load_elem_of_bytes m p sz n bytes i :
  load_bytes m p n = Some bytes → 0 < sz → 0 ≤ i → (i + 1) * sz ≤ n →
  load_elem p i sz m =
    Ret (le_decode (take (Z.to_nat sz) (drop (Z.to_nat (i * sz)) bytes))) m.
Proof.
  intros Hload Hsz Hi Hin. destruct p as [|b o]; [done|].
  unfold load_elem, PTRADD.
  by rewrite (load_bytes_sub m b o n bytes (i * sz) sz Hload) by nia.
Qed.

(** The last element of a string with its terminator is the
    terminator. *)
Lemma string_at_last m p sz n bytes l :
  0 < sz → string_at m p sz n bytes →
  take (Z.to_nat ((n + 1) * sz)) l = bytes →
  0 ≤ n ∧ Z.of_nat (length bytes) = (n + 1) * sz ∧ last_element sz ((n + 1) * sz) l = 0.
Proof.
  intros Hsz (Hlen & Hload & Hfit) Htake.
  destruct (string_length_elems p sz m n Hsz Hlen) as (Hn & Hterm & _).
  pose proof (load_bytes_length _ _ _ _ Hload) as Hblen.
  split; [done|]. split; [done|].
  rewrite (load_elem_of_bytes m p sz _ bytes n Hload) in Hterm by lia.
  injection Hterm as Hterm. unfold last_element.
  replace ((n + 1) * sz - sz) with (n * sz) by lia.
  rewrite <- Hterm, <- Htake. f_equal.
  rewrite skipn_firstn_comm, take_take. f_equal. lia.
Qed.

(** [bvec_strctor] and [bvec_wcsctor] *)
Lemma wp_ctor_terminated_exact m v sz str n bytes Q E :
  state_ok strict m → 0 < sz < SIZE_MOD → string_at m str sz n bytes →
  (∀ m' cap' l', state_ok strict m' → buf m' v ((n + 1) * sz) cap' l' →
     take (Z.to_nat ((n + 1) * sz)) l' = bytes →
     last_element sz ((n + 1) * sz) l' = 0 → Q tt m') →
  ((∀ c', doubled (first_capacity BVEC_DEFAULT_CAPACITY 0) ((n + 1) * sz) c' →
          SIZE_MOD ≤ c') →
     E "integer overflow"%string) →
  (∀ c', doubled (first_capacity BVEC_DEFAULT_CAPACITY 0) ((n + 1) * sz) c' →
         alloc_ok (blocks m) NULL c' = false → E "out of memory"%string) →
  wp (ctor_terminated sz v str) Q E m.
Proof.
  intros Hok Hsz Hstr HQ HE1 HE2. pose proof Hstr as (Hlen & Hload & Hfit).
  destruct (string_length_elems str sz m n ltac:(lia) Hlen) as (Hn & _).
  unfold ByteVector.ctor_terminated. apply wp_bind. unfold wp at 1. rewrite Hlen.
  unfold ByteVector.bvec_tctor. rewrite (size_t_small (n + 1)) by nia.
  rewrite size_t_small by nia.
  eapply (wp_bctor_exact _ _ _ _ bytes);
    [done|nia|done|nia| |intros _; apply HE1|intros _; apply HE2].
  intros m' cap' l' Hok' Hbuf' Htake. apply (HQ m' cap' l'); [done|done|done|].
  eapply string_at_last; [|done|done]. lia.
Qed.

Lemma wp_ctor_terminated m v sz str n bytes Q E :
  state_ok strict m → 0 < sz < SIZE_MOD → string_at m str sz n bytes →
  (∀ m' cap' l', state_ok strict m' → buf m' v ((n + 1) * sz) cap' l' →
     take (Z.to_nat ((n + 1) * sz)) l' = bytes →
     last_element sz ((n + 1) * sz) l' = 0 → Q tt m') →
  E "integer overflow"%string → E "out of memory"%string →
  wp (ctor_terminated sz v str) Q E m.
Proof.
  intros Hok Hsz Hstr HQ HE1 HE2.
  eapply wp_ctor_terminated_exact; [done|done|done|done| |]; by intros.
Qed.

(** The loop of [bvec_strncat] counts the elements up to the
    terminator, and no more than [n]. *)
Lemma strncat_loop_run m str sz n len fuel l :
  0 < sz → string_length str sz m = Ret len m → 0 ≤ n < SIZE_MOD →
  0 ≤ l ≤ Z.min n len → (Z.to_nat (Z.min n len - l) ≤ fuel)%nat →
  strncat_loop fuel str sz n l m = Ret (Z.min n len) m.
Proof.
  intros Hsz Hlen Hn. destruct (string_length_elems str sz m len Hsz Hlen)
    as (Hlen0 & Hterm & Hbefore & _).
  revert l. induction fuel as [|fuel IH]; intros l Hl Hfuel.
  - assert (l = Z.min n len) as -> by lia. cbn [strncat_loop].
    case_bool_decide as Hlt; [|done].
    assert (Z.min n len = len) as -> by lia.
    unfold mbind, M_bind. rewrite Hterm. by rewrite bool_decide_false by (by intros ?).
  - cbn [strncat_loop]. case_bool_decide as Hlt; [|f_equal; lia].
    unfold mbind, M_bind. destruct (decide (l < len)) as [Hin|Hend].
    + destruct (Hbefore l ltac:(lia)) as (c & -> & Hc).
      rewrite bool_decide_true by done. rewrite size_t_small by lia. apply IH; lia.
    + assert (l = len) as -> by lia. rewrite Hterm.
      rewrite bool_decide_false by (by intros ?). unfold mret, M_ret. f_equal. lia.
Qed.

(** With [n = 0] the string is not read. *)
Lemma ncat_terminated_zero sz v str m :
  ncat_terminated sz v str 0 m = ncat_terminated sz v NULL 0 m.
Proof.
  unfold ByteVector.ncat_terminated, mbind, M_bind.
  destruct (drop_terminator sz v m) as [[] m1| | |]; [|done..].
  change (Z.to_nat 0) with 0%nat. cbn [strncat_loop].
  rewrite bool_decide_false by lia. unfold mret, M_ret.
  unfold bvec_tpush, bvec_bpush. rewrite Z.mul_0_l.
  change (size_t 0) with 0. by rewrite bool_decide_false by (by intros ?).
Qed.

Lemma frame_trans v m m1 m2 :
  state_ok strict m → frame v m m1 → frame v m1 m2 → frame v m m2.
Proof.
  intros Hok (F1 & F2 & F3 & F4) (G1 & G2 & G3 & G4). split; [|split; [|split]].
  - intros v' Hne. by rewrite G1, F1.
  - intros b lb Hlb Hnown. apply G2; [by apply F2|].
    intros Hown1. destruct (F3 _ Hown1) as [?|Hnew]; [done|].
    assert (b < next_block m)%positive by (by eapply (ok_next _ _ Hok)). lia.
  - intros b Hown'. destruct (G3 _ Hown') as [Hown1|Hnew]; [|right; lia].
    destruct (F3 _ Hown1) as [?|?]; [by left|by right].
  - lia.
Qed.

(** [bvec_strncat] and [bvec_wcsncat] *)
Lemma wp_ncat_terminated m v size cap l sz str n len bytes Q E :
  state_ok strict m → buf m v size cap l → 0 < sz < SIZE_MOD → size mod sz = 0 →
  string_at m str sz len bytes → (∀ b o, str = Ptr b o → ¬ owns m v b) →
  0 ≤ n < SIZE_MOD →
  let kept := unterminated sz size l in
  let k := Z.min n len in
  (kept + k * sz + sz < SIZE_MOD → ∀ m' cap' l', state_ok strict m' →
     buf m' v (kept + k * sz + sz) cap' l' →
     take (Z.to_nat (kept + k * sz + sz)) l' =
       take (Z.to_nat kept) l ++ take (Z.to_nat (k * sz)) bytes ++ replicate (Z.to_nat sz) 0 →
     Q tt m') →
  (SIZE_MOD ≤ kept + k * sz + sz → E "interger overflow"%string) →
  (cap < kept + k * sz + sz →
     first_capacity BVEC_DEFAULT_CAPACITY cap = 0 ∨ 2 ^ 31 < kept + k * sz + sz →
     E "integer overflow"%string) →
  (cap < kept + k * sz + sz → refuses_some alloc_ok → E "out of memory"%string) →
  wp (ncat_terminated sz v str n) Q E m.
Proof.
  intros Hok Hbuf Hsz Hmod Hstr Hout Hn kept k HQ HE1 HE2 HE3.
  assert (∀ c, 0 ≤ c < SIZE_MOD → 0 ≤ first_capacity BVEC_DEFAULT_CAPACITY c < SIZE_MOD)
    as Hfirst by (intros c ?; unfold first_capacity; case_decide; lia).
  pose proof Hbuf as (bv & Hv & Hd).
  pose proof (describes_bounds _ _ _ _ _ Hd) as (Hs & Hc & Hl).
  destruct (unterminated_range sz size l) as [Hkept Hkmod]; [lia|lia|done|].
  fold kept in Hkept, Hkmod.
  unfold ByteVector.ncat_terminated. apply wp_bind.
  eapply wp_drop_terminator; [done|done|done|done|].
  intros m1 Hok1 Hbuf1 Hfr1 Hb1 Hc1 _. fold kept in Hbuf1.
  destruct (string_at_blocks str sz len bytes m m1 Hb1 Hstr) as (Hlen1 & Hload1 & Hfit).
  destruct (string_length_elems str sz m1 len ltac:(lia) Hlen1) as (Hlen0 & _).
  assert (0 ≤ k ≤ len) as Hk by (unfold k; lia).
  apply wp_bind. unfold wp at 1.
  rewrite (strncat_loop_run m1 str sz n len) by (done || lia). fold k.
  apply wp_bind. unfold bvec_tpush. rewrite size_t_small by nia.
  eapply (wp_bpush_exact _ _ _ _ _ _ _ (take (Z.to_nat (k * sz)) bytes));
    [done|done|nia| | | |intros; apply HE1; nia| |].
  4:{ intros ? ? Hwrap. apply HE2; [nia|].
      destruct (wrap_needs _ _ (Hfirst cap ltac:(lia)) Hwrap); [by left|right; nia]. }
  4:{ intros ? ? c' ? ? Hno. apply HE3; [nia|].
      eapply refuses_is_some; [|done]. lia. }
  - intros Hnz. split.
    + destruct str as [|b o]; [done|].
      pose proof (load_bytes_sub m1 b o _ bytes 0 (k * sz) Hload1) as Hsub.
      rewrite Z.add_0_r in Hsub. rewrite Hsub by nia. by rewrite drop_0.
    + intros b o Hp Hown. apply (Hout b o Hp).
      destruct Hfr1 as (_ & _ & Howns & _). destruct (Howns _ Hown) as [?|Hnew]; [done|].
      subst str. unfold load_bytes in Hload1. rewrite Hb1 in Hload1.
      destruct (blocks m !! b) as [lb|] eqn:Hlb; [|done].
      assert (b < next_block m)%positive by (by eapply (ok_next _ _ Hok)). lia.
  - intros ->. done.
  - intros Hfit2 m2 cap2 l2 Hok2 Hbuf2 Htake2 Hfr2 Hcap2 _ _.
    pose proof Hbuf2 as (bv2 & Hv2 & Hd2).
    pose proof (describes_bounds _ _ _ _ _ Hd2) as (Hs2 & Hc2 & _).
    eapply (wp_push_local m2 v _ cap2 l2 (le_encode (Z.to_nat sz) 0));
      [done|done|by rewrite le_encode_length; lia|lia| |intros; apply HE1; nia| |].
    2:{ intros ? Hwrap. apply HE2; [nia|].
        destruct (wrap_needs _ _ (Hfirst cap2 ltac:(lia)) Hwrap) as [Hz|?]; [left|right; nia].
        unfold first_capacity in *. repeat case_decide; lia. }
    2:{ intros ? c' ? ? Hno. apply HE3; [nia|].
        eapply refuses_is_some; [|done]. lia. }
    intros Hfit3 m3 cap3 l3 Hok3 Hbuf3 Htake3. apply (HQ Hfit3 m3 cap3 l3); [done|done|].
    rewrite Htake3, Htake2, le_encode_zero. by rewrite <- app_assoc.
Qed.

(** ** Elements and their bytes *)

Lemma le_decode_encode k x : le_decode (le_encode k x) = x mod 256 ^ Z.of_nat k.
Proof.
  revert x. induction k as [|k IH]; intros x.
  - simpl. by rewrite Z.mod_1_r.
  - cbn [le_encode le_decode]. rewrite IH.
    rewrite Nat2Z.inj_succ, Z.pow_succ_r by lia.
    rewrite Z.rem_mul_r by lia. done.
Qed.

Lemma le_decode_encode_small k x :
  0 ≤ x < 256 ^ Z.of_nat k → le_decode (le_encode k x) = x.
Proof. intros Hx. rewrite le_decode_encode. by apply Z.mod_small. Qed.

(** ** A block of a local variable *)

Lemma local_kept m v bytes :
  state_ok strict m →
  ∀ size cap l, buf m v size cap l →
    buf (Mem (vecs m) (<[next_block m := bytes]> (blocks m)) (Pos.succ (next_block m))
             (calls m)) v size cap l.
Proof.
  intros Hok size cap l (bv & Hv & Hd). exists bv. split; [done|].
  eapply describes_other_blocks; [done|]. intros b o Hb. simpl.
  apply lookup_insert_ne. intros <-.
  destruct (owned_block_live _ _ _ _ _ _ Hok Hv Hb) as (_ & _ & Hlt). lia.
Qed.

Lemma local_dropped m v bytes m2 :
  state_ok strict m →
  state_ok strict m2 →
  frame v (Mem (vecs m) (<[next_block m := bytes]> (blocks m)) (Pos.succ (next_block m))
               (calls m)) m2 →
  let m3 := Mem (vecs m2) (delete (next_block m) (blocks m2)) (next_block m2) (calls m2) in
  state_ok strict m3 ∧ (∀ size cap l, buf m2 v size cap l → buf m3 v size cap l).
Proof.
  intros Hok Hok2 (Hfvecs & Hfblocks & Hfowns & Hfnext). simpl in *.
  set (nb := next_block m) in *.
  assert (∀ v' bv b o, vecs m !! v' = Some bv → begin bv = Ptr b o → b ≠ nb) as Hown.
  { intros v' bv b o Hv Hb.
    destruct (owned_block_live _ _ _ _ _ _ Hok Hv Hb) as (_ & _ & Hlt). unfold nb. lia. }
  assert (∀ v', ¬ owns m2 v' nb) as Hfree.
  { intros v' Hown'. destruct (decide (v' = v)) as [->|Hne'].
    - destruct (Hfowns _ Hown') as [(bv & o & Hv & Hb)|Hnew]; [|lia].
      by eapply (Hown v bv nb o).
    - destruct Hown' as (bv1 & o & Hv1 & Hb1). rewrite Hfvecs in Hv1 by done.
      by eapply (Hown v' bv1 nb o). }
  split; [by apply state_ok_drop_block|].
  intros size cap l (bv2 & Hv2 & Hd2). exists bv2. split; [done|].
  eapply describes_other_blocks; [done|]. intros b o Hb. simpl.
  apply lookup_delete_ne. intros <-. apply (Hfree v). by exists bv2, o.
Qed.

(** ** [bvec_strpushback] and [bvec_wcspushback] *)

Lemma local_string_at m sz c :
  0 < sz → 2 * sz < SIZE_MOD → 0 ≤ c < 256 ^ sz →
  let k := Z.to_nat sz in
  let m1 := Mem (vecs m) (<[next_block m := le_encode k c ++ le_encode k 0]> (blocks m))
                (Pos.succ (next_block m)) (calls m) in
  string_at m1 (Ptr (next_block m) 0) sz (if decide (c = 0) then 0 else 1)
    (if decide (c = 0) then replicate k 0 else le_encode k c ++ replicate k 0).
Proof.
  intros Hsz Hsmall Hc k m1.
  assert (Z.of_nat k = sz) as Hk by (unfold k; lia).
  assert (le_decode (le_encode k c) = c) as Hdec.
  { apply le_decode_encode_small. by rewrite Hk. }
  assert (string_length (Ptr (next_block m) 0) sz m1
          = Ret (if decide (c = 0) then 0 else 1) m1) as Hlen.
  { unfold string_length. simpl. rewrite lookup_insert_eq.
    rewrite decide_True by lia. change (Z.to_nat 0) with 0%nat. rewrite drop_0.
    fold k. rewrite length_app, !le_encode_length.
    replace (k + k)%nat with (2 * k)%nat by lia. rewrite Nat.div_mul by lia.
    cbn [elements_of]. rewrite take_app_length' by (by rewrite le_encode_length).
    rewrite drop_app_length' by (by rewrite le_encode_length).
    rewrite take_ge by (by rewrite le_encode_length).
    rewrite Hdec, le_encode_zero, le_decode_zero. cbn [first_zero].
    case_decide; [done|]. by rewrite decide_True by done. }
  split; [done|]. split.
  - unfold load_bytes. simpl. rewrite lookup_insert_eq.
    rewrite length_app, !le_encode_length. change (Z.to_nat 0) with 0%nat. rewrite drop_0.
    case_decide as Hz.
    + subst c. rewrite decide_True by lia. f_equal.
      rewrite le_encode_zero. rewrite take_app_length'; [done|].
      rewrite length_replicate. lia.
    + rewrite decide_True by lia. f_equal. rewrite le_encode_zero.
      apply take_ge. rewrite length_app, le_encode_length, length_replicate. lia.
  - case_decide; lia.
Qed.

Lemma wp_pushback_terminated_exact m v size cap l sz c Q E :
  state_ok strict m → buf m v size cap l →
  0 < sz → 2 * sz < SIZE_MOD → size mod sz = 0 → 0 ≤ c < 256 ^ sz →
  let kept := unterminated sz size l in
  let added := if decide (c = 0) then replicate (Z.to_nat sz) 0
               else le_encode (Z.to_nat sz) c ++ replicate (Z.to_nat sz) 0 in
  let total := kept + Z.of_nat (length added) in
  (total < SIZE_MOD → ∀ m' cap' l', state_ok strict m' →
     buf m' v total cap' l' →
     take (Z.to_nat total) l' = take (Z.to_nat kept) l ++ added → Q tt m') →
  (SIZE_MOD ≤ total → E "interger overflow"%string) →
  (cap < total →
     (∀ c', doubled (first_capacity BVEC_DEFAULT_CAPACITY cap) total c' → SIZE_MOD ≤ c') →
     E "integer overflow"%string) →
  (cap < total →
     ∀ c', cap < c' → doubled (first_capacity BVEC_DEFAULT_CAPACITY cap) total c' →
           refuses alloc_ok
             (local_frame (le_encode (Z.to_nat sz) c ++ le_encode (Z.to_nat sz) 0) m) v c' →
           E "out of memory"%string) →
  wp (pushback_terminated sz v c) Q E m.
Proof.
  intros Hok Hbuf Hsz Hsmall Hmod Hc kept added total HQ HE1 HE2 HE3.
  pose proof Hbuf as (bv & Hv & Hd).
  pose proof (describes_bounds _ _ _ _ _ Hd) as (Hs & Hcap & Hl).
  pose proof (local_string_at m sz c Hsz Hsmall Hc) as Hstr. cbn zeta in Hstr.
  assert (total = kept + ((if decide (c = 0) then 0 else 1) + 1) * sz) as Htotal.
  { unfold total, added. case_decide;
      rewrite ?length_app, ?le_encode_length, ?length_replicate; lia. }
  unfold ByteVector.pushback_terminated. apply wp_with_local.
  eapply wp_cat_terminated_exact;
    [by apply state_ok_new_block|by apply local_kept|lia|done|done| | | | |].
  - intros b o [= <- <-] (bv1 & o1 & Hv1 & Hb1). simpl in Hv1.
    destruct (owned_block_live _ _ _ _ _ _ Hok Hv1 Hb1) as (_ & _ & Hlt). lia.
  - fold kept. rewrite <- Htotal. intros Hfit m2 cap2 l2 Hok2 Hbuf2 Htake2 Hfr2.
    destruct (local_dropped m v _ m2 Hok Hok2 Hfr2) as [Hok3 Hbuf3].
    apply (HQ Hfit _ cap2 l2); [done|by apply Hbuf3|done].
  - fold kept. rewrite <- Htotal. intros. by apply HE1.
  - fold kept. rewrite <- Htotal. intros. by apply HE2.
  - fold kept. rewrite <- Htotal. intros ? c' ? ? Hno. by apply (HE3 ltac:(done) c').
Qed.

Lemma wp_pushback_terminated m v size cap l sz c Q E :
  state_ok strict m → buf m v size cap l →
  0 < sz → 2 * sz < SIZE_MOD → size mod sz = 0 → 0 ≤ c < 256 ^ sz →
  let kept := unterminated sz size l in
  let added := if decide (c = 0) then replicate (Z.to_nat sz) 0
               else le_encode (Z.to_nat sz) c ++ replicate (Z.to_nat sz) 0 in
  let total := kept + Z.of_nat (length added) in
  (total < SIZE_MOD → ∀ m' cap' l', state_ok strict m' →
     buf m' v total cap' l' →
     take (Z.to_nat total) l' = take (Z.to_nat kept) l ++ added → Q tt m') →
  (cap < total →
     E "interger overflow"%string ∧ E "integer overflow"%string ∧ E "out of memory"%string) →
  wp (pushback_terminated sz v c) Q E m.
Proof.
  intros Hok Hbuf Hsz Hsmall Hmod Hc kept added total HQ HE.
  pose proof Hbuf as (bv & Hv & Hd).
  pose proof (describes_bounds _ _ _ _ _ Hd) as (Hs & Hcap & Hl).
  subst total added kept. cbn zeta.
  eapply wp_pushback_terminated_exact; [done|done|done|done|done|done|done| | |].
  - intros. apply HE. lia.
  - intros. by apply HE.
  - intros. by apply HE.
Qed.

(** ** [bvec_strshrink] and [bvec_wcsshrink] *)

Lemma wp_shrink_terminated_exact m v size cap l sz n bv Q E :
  state_ok strict m → buf m v size cap l → 0 < sz →
  vecs m !! v = Some bv → string_length (begin bv) sz m = Ret n m →
  (∀ m' cap', state_ok strict m' →
     buf m' v ((n + 1) * sz) cap' (resize (Z.to_nat cap') junk l) →
     (n + 1) * sz ≤ cap' ≤ cap → cap' / 2 < (n + 1) * sz → halved cap cap' →
     frame v m m' → Q tt m') →
  (∀ cap', (n + 1) * sz ≤ cap' ≤ cap → cap' ≠ 0 → cap' / 2 < (n + 1) * sz →
     halved cap cap' → refuses alloc_ok m v cap' → E "out of memory"%string) →
  wp (shrink_terminated sz v) Q E m.
Proof.
  intros Hok Hbuf Hsz Hv Hlen HQ HE.
  pose proof Hbuf as (bv' & Hv' & Hd). rewrite Hv in Hv'. injection Hv' as <-.
  pose proof (describes_bounds _ _ _ _ _ Hd) as (Hs & Hcap & Hl).
  destruct (string_length_elems _ sz m n Hsz Hlen) as (Hn & _ & _ & [bytes Hload]).
  assert ((n + 1) * sz ≤ cap ∧ 0 < cap) as [Hfit Hpos].
  { destruct Hd as [|b size cap l ? ? ? Hb]; [done|]. simpl in Hload.
    unfold load_bytes in Hload. rewrite Hb in Hload. case_decide; [|done]. nia. }
  destruct (resize_in_place m v size cap l ((n + 1) * sz) Hbuf) as (bv0 & e & Hv0 & Hrun);
    [nia|right; lia|].
  rewrite Hv in Hv0. injection Hv0 as <-.
  assert (wp (bvec_bresize alloc_ok junk BVEC_DEFAULT_CAPACITY v ((n + 1) * sz))
            (λ _ m1, state_ok strict m1 ∧ buf m1 v ((n + 1) * sz) cap l ∧ frame v m m1)
            (λ _, False) m) as Hres.
  { eapply wp_bresize; [done|done|nia| |intros; lia|intros; lia].
    intros m1 cap1 Hok1 Hbuf1 Hfr1 Hcap1 Hsame _.
    destruct Hsame as (-> & _); [done|left; lia|].
    by rewrite resize_all_alt in Hbuf1 by lia. }
  unfold wp in Hres. rewrite Hrun in Hres. destruct Hres as (Hok1 & Hbuf1 & Hfr1).
  unfold ByteVector.shrink_terminated. apply wp_bind.
  unfold bvec_tdata, bvec_bdata. apply wp_bind. eapply wp_load_vec; [done|]. apply wp_ret.
  apply wp_bind. unfold wp at 1. rewrite Hlen.
  apply wp_bind. unfold bvec_tresize. rewrite (size_t_small (n + 1)) by nia.
  rewrite size_t_small by nia. unfold wp at 1. rewrite Hrun.
  eapply wp_shrink_exact; [done|done| |].
  - intros m2 cap2 Hok2 Hbuf2 Hfr2 Hcap2 Hhalf _ Hhalved.
    apply (HQ m2 cap2); [done|done|lia| |done|].
    + destruct Hhalf as [->|?]; [nia|done].
    + by eapply frame_trans.
  - intros cap' ? ? ? ? Hno. apply (HE cap'); [done|done|done|done|].
    by eapply refuses_in_place.
Qed.

Lemma wp_shrink_terminated m v size cap l sz n bv Q E :
  state_ok strict m → buf m v size cap l → 0 < sz →
  vecs m !! v = Some bv → string_length (begin bv) sz m = Ret n m →
  (∀ m' cap', state_ok strict m' →
     buf m' v ((n + 1) * sz) cap' (resize (Z.to_nat cap') junk l) →
     (n + 1) * sz ≤ cap' ≤ cap → cap' / 2 < (n + 1) * sz →
     frame v m m' → Q tt m') →
  E "out of memory"%string →
  wp (shrink_terminated sz v) Q E m.
Proof.
  intros Hok Hbuf Hsz Hv Hlen HQ HE.
  eapply wp_shrink_terminated_exact; [done|done|done|done|done| |by intros].
  intros m' cap' ? ? ? ? _ ?. by apply (HQ m' cap').
Qed.

(** ** Pushing a value, reading it back, popping it *)

Lemma wp_push_back_pop m v size cap l sz x E :
  state_ok strict m → buf m v size cap l → 0 < sz < SIZE_MOD → size mod sz = 0 →
  (SIZE_MOD ≤ size + sz → E "interger overflow"%string) →
  (cap < size + sz →
     (∀ c', doubled (first_capacity BVEC_DEFAULT_CAPACITY cap) (size + sz) c' →
            SIZE_MOD ≤ c') →
     E "integer overflow"%string) →
  (cap < size + sz →
     ∀ c', cap < c' → doubled (first_capacity BVEC_DEFAULT_CAPACITY cap) (size + sz) c' →
           refuses alloc_ok (local_frame (le_encode (Z.to_nat sz) x) m) v c' →
           E "out of memory"%string) →
  wp (with_local (le_encode (Z.to_nat sz) x)
        (λ p, bvec_bpush alloc_ok junk BVEC_DEFAULT_CAPACITY v p sz))
     (λ _ m1,
        state_ok strict m1 ∧
        size_of m1 v = Some (size + sz) ∧
        bytes_of m1 v = Some (take (Z.to_nat size) l ++ le_encode (Z.to_nat sz) x) ∧
        bvec_tback v sz m1 = Ret (x mod 256 ^ sz) m1 ∧
        wp (bvec_tpopback alloc_ok junk BVEC_DEFAULT_CAPACITY v sz)
           (λ _ m2, state_ok strict m2 ∧ size_of m2 v = Some size ∧
                    bytes_of m2 v = Some (take (Z.to_nat size) l))
           (λ _, False) m1)
     E m.
Proof.
  intros Hok Hbuf Hsz Hmod HE1 HE2 HE3.
  pose proof Hbuf as (bv & Hv & Hd).
  pose proof (describes_bounds _ _ _ _ _ Hd) as (Hs & Hcap & Hl).
  eapply (wp_push_local m v size cap l (le_encode (Z.to_nat sz) x));
    [done|done|by rewrite le_encode_length; lia|lia| |done|done|done].
  intros Hfit m1 cap1 l1 Hok1 Hbuf1 Htake1.
  pose proof Hbuf1 as (bv1 & Hv1 & Hd1).
  pose proof (describes_bounds _ _ _ _ _ Hd1) as (Hs1 & Hcap1 & Hl1).
  assert (take (Z.to_nat size) l1 = take (Z.to_nat size) l ∧
          take (Z.to_nat sz) (drop (Z.to_nat size) l1) = le_encode (Z.to_nat sz) x)
    as [Hold Hnew].
  { replace (Z.to_nat (size + sz)) with (Z.to_nat size + Z.to_nat sz)%nat in Htake1 by lia.
    rewrite <- take_take_drop in Htake1.
    apply app_inj_1 in Htake1; [done|]. rewrite !length_take. lia. }
  split; [done|]. split; [by eapply buf_size_of|].
  split; [by rewrite (buf_bytes_of _ _ _ _ _ Hbuf1), Htake1|].
  split.
  - rewrite (tback_run _ _ _ _ _ _ Hbuf1); [|lia|lia|].
    + unfold last_element. replace (size + sz - sz) with size by lia.
      rewrite Hnew, le_decode_encode. do 3 f_equal. lia.
    + rewrite Z.add_mod, Hmod, Z_mod_same_full by lia. done.
  - unfold bvec_tpopback. eapply wp_bpop; [done|done|lia| |lia].
    intros _ m2 Hok2 Hbuf2 _ _ _ _. replace (size + sz - sz) with size in Hbuf2 by lia.
    split; [done|]. split; [by eapply buf_size_of|].
    by rewrite (buf_bytes_of _ _ _ _ _ Hbuf2), Hold.
Qed.

(** ** Appending a buffer to itself *)

(** [bvec_brealloc] on a buffer with a block: the block is given up
    for a new one, or the process quits. *)
Lemma brealloc_run m v b size cap l c :
  vecs m !! v = Some (Bvec (Ptr b 0) (Ptr b size) (Ptr b cap)) →
  describes (blocks m) (Bvec (Ptr b 0) (Ptr b size) (Ptr b cap)) size cap l →
  c ≠ 0 →
  bvec_brealloc alloc_ok junk v c m =
    if alloc_ok (blocks m) (Ptr b 0) c then
      Ret tt (Mem (<[v := Bvec (Ptr (next_block m) 0) (Ptr (next_block m) (0 + size))
                           (Ptr (next_block m) (0 + c))]> (vecs m))
                  (<[next_block m := resize (Z.to_nat c) junk l]> (delete b (blocks m)))
                  (Pos.succ (next_block m)) (calls m ++ [Realloc (Ptr b 0) c]))
    else Fatal "out of memory".
Proof.
  intros Hv Hd Hc.
  assert (buf m v size cap l) as Hbuf by (by eexists).
  inversion Hd as [|? ? ? ? _ _ _ Hb]; subst.
  unfold bvec_brealloc. unfold mbind at 1, M_bind at 1. rewrite (bsize_run _ _ _ _ _ Hbuf).
  unfold mbind at 1, M_bind at 1, load_vec. rewrite Hv. simpl.
  unfold mbind at 1, M_bind at 1, realloc. simpl. rewrite Hb.
  destruct (alloc_ok (blocks m) (Ptr b 0) c); simpl.
  - done.
  - rewrite decide_False by done. simpl.
    by rewrite bool_decide_false by done.
Qed.

(** [bvec_vpush(v, v)]: when the capacity has to grow the bytes are
    read from the block that [realloc] gave up. *)
Lemma self_append_grows m v size cap l :
  state_ok strict m → buf m v size cap l →
  0 < size → cap < size + size → size + size < SIZE_MOD →
  match bvec_vpush alloc_ok junk BVEC_DEFAULT_CAPACITY v v m with
  | Ret _ _ => False
  | Fatal msg => msg = "integer overflow"%string ∨ msg = "out of memory"%string
  | Undef => True
  | OutOfTurns => False
  end.
Proof.
  intros Hok Hbuf Hsize Hgrow Hfit.
  pose proof Hbuf as (bv & Hv & Hd).
  pose proof (describes_bounds _ _ _ _ _ Hd) as (Hs & Hc & Hl).
  destruct (describes_nonempty _ _ _ _ _ Hd) as (b & -> & Hb); [lia|].
  destruct (owned_block_live _ _ _ _ _ _ Hok Hv eq_refl) as (_ & _ & Hlt).
  unfold bvec_vpush. unfold mbind at 1, M_bind at 1. rewrite (bdata_run _ _ _ Hv).
  simpl. unfold mbind at 1, M_bind at 1. rewrite (bsize_run _ _ _ _ _ Hbuf).
  unfold bvec_bpush. rewrite bool_decide_true by lia.
  unfold mbind at 1, M_bind at 1. rewrite (bsize_run _ _ _ _ _ Hbuf).
  rewrite size_t_small by lia.
  unfold mbind at 1, M_bind at 1. rewrite bool_decide_true by lia. simpl.
  unfold mbind at 1, M_bind at 1.
  (* the resize *)
  unfold bvec_bresize. unfold mbind at 1, M_bind at 1. rewrite (bsize_run _ _ _ _ _ Hbuf).
  rewrite bool_decide_true by lia.
  unfold mbind at 1, M_bind at 1. unfold bvec_breserve.
  unfold mbind at 1, M_bind at 1. rewrite (bcapacity_run _ _ _ _ _ Hbuf).
  rewrite bool_decide_true by lia.
  unfold mbind at 1, M_bind at 1.
  pose proof (reserve_loop_spec BVEC_DEFAULT_CAPACITY default_capacity_range
                LOOP_BOUND cap (size + size) m) as Hloop.
  destruct (reserve_loop LOOP_BOUND cap (size + size) m) as [c m'|msg| |].
  - destruct Hloop as (-> & Hc' & Hn' & _ & Hgt); [lia| |].
    { rewrite size_mod_eq. change (Z.of_nat LOOP_BOUND) with 33.
      assert (1 ≤ Z.max cap 1) by lia. change (2 ^ 33) with 8589934592. lia. }
    rewrite bool_decide_true by lia.
    rewrite (brealloc_run m v b size cap l c Hv Hd) by lia.
    destruct (alloc_ok (blocks m) (Ptr b 0) c); [|by right].
    set (m1 := Mem _ _ _ _).
    assert (vecs m1 !! v = Some (Bvec (Ptr (next_block m) 0) (Ptr (next_block m) (0 + size))
                                   (Ptr (next_block m) (0 + c)))) as Hv1
      by apply lookup_insert_eq.
    unfold mbind at 1, M_bind at 1, load_vec at 1. rewrite Hv1.
    unfold mbind at 1, M_bind at 1. simpl.
    unfold mbind at 1, M_bind at 1, load_vec. cbn [vecs]. rewrite lookup_insert_eq.
    unfold mbind at 1, M_bind at 1. cbn [begin PTRADD defined mret M_ret].
    unfold memcpy, load_bytes. cbn [blocks].
    rewrite lookup_insert_ne by lia. by rewrite lookup_delete_eq.
  - destruct Hloop as (-> & _); [lia| |by left].
    rewrite size_mod_eq. change (Z.of_nat LOOP_BOUND) with 33.
    assert (1 ≤ Z.max cap 1) by lia. change (2 ^ 33) with 8589934592. lia.
  - done.
  - apply Hloop; [lia|].
    rewrite size_mod_eq. change (Z.of_nat LOOP_BOUND) with 33.
    assert (1 ≤ Z.max cap 1) by lia. change (2 ^ 33) with 8589934592. lia.
Qed.

(** When the capacity suffices the bytes are there twice. *)
Lemma self_append_fits m v size cap l Q E :
  state_ok strict m → buf m v size cap l → size + size ≤ cap →
  (∀ m' l', state_ok strict m' → buf m' v (size + size) cap l' →
     take (Z.to_nat (size + size)) l' = take (Z.to_nat size) l ++ take (Z.to_nat size) l →
     calls m' = calls m → Q tt m') →
  wp (bvec_vpush alloc_ok junk BVEC_DEFAULT_CAPACITY v v) Q E m.
Proof.
  intros Hok Hbuf Hfit HQ.
  pose proof Hbuf as (bv & Hv & Hd).
  pose proof (describes_bounds _ _ _ _ _ Hd) as (Hs & Hc & Hl).
  destruct (decide (size = 0)) as [->|Hnz].
  { unfold wp, bvec_vpush. unfold mbind at 1, M_bind at 1. rewrite (bdata_run _ _ _ Hv).
    simpl. unfold mbind at 1, M_bind at 1. rewrite (bsize_run _ _ _ _ _ Hbuf).
    unfold bvec_bpush. rewrite bool_decide_false by (by intros ?). simpl.
    apply (HQ m l); [done|done|done|done]. }
  destruct (describes_nonempty _ _ _ _ _ Hd) as (b & -> & Hb); [lia|].
  unfold bvec_vpush, bvec_bdata. apply wp_bind, wp_bind.
  eapply wp_load_vec; [done|]. apply wp_ret. simpl.
  apply wp_bind. eapply wp_bsize; [done|].
  unfold bvec_bpush. rewrite bool_decide_true by done.
  apply wp_bind. eapply wp_bsize; [done|]. rewrite size_t_small by lia.
  apply wp_bind, wp_assert; [intros _|intros Hf%bool_decide_eq_false; lia].
  apply wp_bind. eapply wp_bresize; [done|done|lia| |intros; lia|intros; lia].
  intros m1 cap1 Hok1 Hbuf1 Hfr1 Hcap1 Hsame _.
  destruct Hsame as (-> & Hb1 & Hc1 & Hn1); [lia|left; lia|].
  rewrite resize_all_alt in Hbuf1 by lia.
  pose proof Hbuf1 as (bv1 & Hv1 & Hd1).
  destruct (describes_nonempty _ _ _ _ _ Hd1) as (b1 & -> & Hbl1); [lia|].
  assert (b1 = b) as ->.
  { destruct Hfr1 as (_ & _ & Hown & _).
    destruct (Hown b1) as [(bv0 & o0 & Hv0 & Hb0)|Hnew].
    - by exists (Bvec (Ptr b1 0) (Ptr b1 (size + size)) (Ptr b1 cap)), 0.
    - rewrite Hv in Hv0. injection Hv0 as <-. by injection Hb0 as ->.
    - assert (b1 < next_block m1)%positive by (eapply (ok_next _ _ Hok1); by eexists).
      lia. }
  apply wp_bind. eapply wp_load_vec; [done|]. simpl. rewrite Z.add_0_l.
  apply wp_bind, wp_ret.
  unfold wp, memcpy, load_bytes. rewrite Hbl1. rewrite decide_True by lia.
  unfold overlap. rewrite bool_decide_false by lia.
  unfold store_bytes. rewrite Hbl1. rewrite length_take.
  rewrite decide_True by lia.
  change (Z.to_nat 0) with 0%nat. rewrite drop_0.
  set (l2 := take (Z.to_nat size) l ++ take (Z.to_nat size) l ++ _).
  assert (length l2 = length l) as Hl2.
  { unfold l2. rewrite !length_app, !length_take, length_drop. lia. }
  destruct (state_ok_write m1 v b (size + size) cap l l2 Hok1 Hv1 Hd1 Hl2)
    as (Hok2 & Hbuf2 & _).
  apply (HQ _ l2); [done|done| |done].
  unfold l2. rewrite app_assoc. rewrite take_app_length'; [done|].
  rewrite length_app, !length_take. lia.
Qed.

(** ** Text in a buffer *)

Lemma encoded_app sz a b : encoded sz (a ++ b) = encoded sz a ++ encoded sz b.
Proof. unfold encoded. by rewrite map_app, concat_app. Qed.

Lemma encoded_zero sz : encoded sz [0] = replicate (Z.to_nat sz) 0.
Proof. unfold encoded. simpl. by rewrite app_nil_r, le_encode_zero. Qed.

Lemma encoded_len sz out :
  0 ≤ sz → Z.of_nat (length (encoded sz out)) = Z.of_nat (length out) * sz.
Proof. intros Hsz. unfold encoded. rewrite encoded_length. lia. Qed.

Lemma elements_of_encoded sz out c rest :
  0 < sz → Forall (λ x, 0 ≤ x < 256 ^ sz) out →
  elements_of (length out + c) (Z.to_nat sz) (encoded sz out ++ rest) =
  out ++ elements_of c (Z.to_nat sz) rest.
Proof.
  intros Hsz. induction 1 as [|x out Hx Hout IH]; [done|].
  unfold encoded in *. cbn [map concat length Nat.add elements_of app].
  rewrite <- !app_assoc.
  rewrite take_app_length' by (by rewrite le_encode_length).
  rewrite drop_app_length' by (by rewrite le_encode_length).
  rewrite le_decode_encode_small by (by rewrite Z2Nat.id by lia). by rewrite IH.
Qed.

Lemma first_zero_app (pre post : list Z) :
  Forall (λ x, x ≠ 0) pre → first_zero (pre ++ 0 :: post) = Some (Z.of_nat (length pre)).
Proof.
  induction 1 as [|x pre Hx Hpre IH]; [done|]. cbn [app first_zero length].
  rewrite decide_False by done. rewrite IH. simpl. f_equal. lia.
Qed.

(** A block that starts with a text and its terminator holds the
    string. *)
Lemma string_length_text m b l sz t rest :
  0 < sz → blocks m !! b = Some l →
  Forall (λ x, 0 < x < 256 ^ sz) t →
  l = encoded sz t ++ replicate (Z.to_nat sz) 0 ++ rest →
  string_length (Ptr b 0) sz m = Ret (Z.of_nat (length t)) m.
Proof.
  intros Hsz Hb Ht ->. unfold string_length. rewrite Hb.
  rewrite decide_True by lia. change (Z.to_nat 0) with 0%nat. rewrite drop_0.
  set (k := Z.to_nat sz).
  assert (∃ c, (length (encoded sz t ++ replicate k 0%Z ++ rest) `div` k
                = length t + S c)%nat) as [c ->].
  { exists (length rest `div` k)%nat.
    rewrite !length_app, length_replicate.
    pose proof (encoded_len sz t ltac:(lia)) as Hlen.
    replace (length (encoded sz t) + (k + length rest))%nat
      with ((length t + 1) * k + length rest)%nat by (unfold k; nia).
    rewrite Nat.div_add_l by (unfold k; lia). lia. }
  unfold k. rewrite elements_of_encoded; [|done|].
  - cbn [elements_of]. rewrite take_app_length' by (by rewrite length_replicate).
    rewrite le_decode_zero. rewrite first_zero_app; [done|].
    eapply Forall_impl; [done|]. simpl. lia.
  - eapply Forall_impl; [done|]. simpl. lia.
Qed.

(** The formatter writes what it prints at the start of the block. *)
Lemma bounded_format_run m r b size cap l n fmt sz :
  state_ok strict m →
  vecs m !! r = Some (Bvec (Ptr b 0) (Ptr b size) (Ptr b cap)) →
  describes (blocks m) (Bvec (Ptr b 0) (Ptr b size) (Ptr b cap)) size cap l →
  0 < sz → 0 ≤ n → n * sz ≤ size →
  let written := encoded sz (take (Z.to_nat n) (fmt n)) in
  let l1 := written ++ drop (length written) l in
  ∃ m1, bounded_format (Ptr b 0) n fmt sz m = Ret tt m1 ∧
        state_ok strict m1 ∧ vecs m1 = vecs m ∧ calls m1 = calls m ∧
        describes (blocks m1) (Bvec (Ptr b 0) (Ptr b size) (Ptr b cap)) size cap l1 ∧
        frame r m m1.
Proof.
  intros Hok Hv Hd Hsz Hn Hsize written l1.
  pose proof (describes_bounds _ _ _ _ _ Hd) as (Hs & Hc & Hl).
  unfold bounded_format. unfold l1, written, encoded.
  assert (length (take (Z.to_nat n) (fmt n)) ≤ Z.to_nat n)%nat as Holen.
  { rewrite length_take. lia. }
  destruct (take (Z.to_nat n) (fmt n)) as [|x out].
  - exists m. simpl. rewrite drop_0. repeat (split; [done|]). apply frame_refl.
  - pose proof (encoded_length (Z.to_nat sz) (x :: out)) as Hwlen.
    set (w := concat (map (le_encode (Z.to_nat sz)) (x :: out))) in *.
    inversion Hd as [|? ? ? ? _ _ _ Hb]; subst.
    unfold store_bytes. rewrite Hb. rewrite decide_True by nia.
    change (Z.to_nat 0) with 0%nat. rewrite take_0, Nat.add_0_l, app_nil_l.
    assert (length (w ++ drop (length w) l) = length l) as Hl1.
    { rewrite !length_app, length_drop. nia. }
    destruct (state_ok_write m r b size (Z.of_nat (length l)) l _ Hok Hv Hd Hl1)
      as (Hok1 & (bv1 & Hv1 & Hd1) & Hfr).
    eexists. split; [done|]. split; [done|]. split; [done|]. split; [done|].
    split; [|done].
    simpl in Hv1. rewrite Hv in Hv1. by injection Hv1 as <-.
Qed.

(** One turn of the loop up to its test, for a formatter that prints a
    text: the string in the buffer is the text, cut short to one
    element less than the buffer has. *)
Lemma wp_printf_turn_text {A} m r size cap l sz n t fmt (k : ptr → Z → Z → M A) Q E :
  state_ok strict m → buf m r size cap l →
  0 < sz → 0 < n → size = n * sz →
  prints t fmt → Forall (λ x, 0 < x < 256 ^ sz) t →
  let len := Z.of_nat (length t) in
  let idx := Z.min len (n - 1) in
  (∀ m' l' bv, state_ok strict m' → buf m' r size cap l' →
     vecs m' !! r = Some bv → frame r m m' → calls m' = calls m →
     string_length (begin bv) sz m' = Ret idx m' →
     (∃ rest, l' = encoded sz (take (Z.to_nat idx) t) ++ replicate (Z.to_nat sz) 0 ++ rest) →
     wp (k (begin bv) n idx) Q E m') →
  wp (buf ← bvec_tdata r;
      bufsize ← bvec_tsize r sz;
      bounded_format buf bufsize fmt sz;;
      store_elem buf (size_t (bufsize - 1)) sz 0;;
      n ← string_length buf sz;
      k buf bufsize n) Q E m.
Proof.
  intros Hok Hbuf Hsz Hn Hsize Hprints Ht len idx HQ.
  pose proof Hbuf as (bv & Hv & Hd).
  pose proof (describes_bounds _ _ _ _ _ Hd) as (Hs & Hc & Hl).
  destruct (describes_nonempty _ _ _ _ _ Hd) as (b & -> & Hb); [nia|].
  apply wp_bind. unfold bvec_tdata, bvec_bdata. apply wp_bind.
  eapply wp_load_vec; [done|]. apply wp_ret. simpl.
  apply wp_bind. unfold bvec_tsize. apply wp_bind. eapply wp_bsize; [done|]. apply wp_ret.
  assert (size `div` sz = n) as Hdiv by (subst size; apply Z.div_mul; lia).
  rewrite Hdiv.
  (* the formatter *)
  destruct (bounded_format_run m r b size cap l n fmt sz Hok Hv Hd)
    as (m1 & Hrun1 & Hok1 & Hvecs1 & Hcalls1 & Hd1 & Hfr1); [lia|lia|lia|].
  apply wp_bind. unfold wp at 1. rewrite Hrun1.
  set (out := take (Z.to_nat n) (fmt n)) in *.
  set (l1 := encoded sz out ++ drop (length (encoded sz out)) l) in *.
  assert (vecs m1 !! r = Some (Bvec (Ptr b 0) (Ptr b size) (Ptr b cap))) as Hv1
    by (by rewrite Hvecs1).
  pose proof (describes_bounds _ _ _ _ _ Hd1) as (_ & _ & Hl1).
  destruct (describes_nonempty _ _ _ _ _ Hd1) as (b' & [= <-] & Hb1); [nia|].
  (* what the block starts with *)
  set (k0 := Z.to_nat sz).
  assert (Z.of_nat k0 = sz) as Hk0 by (unfold k0; lia).
  assert (0 ≤ idx ≤ len ∧ idx ≤ n - 1) as Hidx by (unfold idx; lia).
  assert (∃ rest1, l1 = encoded sz (take (Z.to_nat (n - 1)) (t ++ [0])) ++ rest1)
    as [rest1 Hstart].
  { exists (encoded sz (drop (Z.to_nat (n - 1)) out) ++ drop (length (encoded sz out)) l).
    unfold l1. rewrite app_assoc, <- encoded_app. rewrite <- (Hprints n Hn).
    replace (take (Z.to_nat (n - 1)) (fmt n)) with (take (Z.to_nat (n - 1)) out).
    - by rewrite take_drop.
    - unfold out. rewrite take_take. f_equal. lia. }
  (* the last element *)
  rewrite size_t_small by nia.
  set (off := Z.to_nat ((n - 1) * sz)).
  set (l2 := take off l1 ++ le_encode k0 0 ++ drop (off + k0) l1).
  assert (Z.of_nat off + sz = size) as Hoff by (unfold off; nia).
  assert (length l2 = length l1) as Hl2.
  { unfold l2. rewrite !length_app, length_take, length_drop, le_encode_length. lia. }
  destruct (state_ok_write m1 r b size cap l1 l2 Hok1 Hv1 Hd1 Hl2) as (Hok2 & Hbuf2 & Hfr2).
  apply wp_bind. unfold store_elem. apply wp_bind. eapply wp_defined; [done|].
  unfold wp at 1, store_bytes. rewrite Hb1, le_encode_length.
  rewrite decide_True by nia.
  rewrite Z.add_0_l. fold k0 off l2.
  set (m2 := Mem (vecs m1) (<[b:=l2]> (blocks m1)) (next_block m1) (calls m1)) in *.
  assert (∃ rest, l2 = encoded sz (take (Z.to_nat idx) t) ++ replicate k0 0 ++ rest)
    as [rest Hl2eq].
  { unfold l2. rewrite le_encode_zero. destruct (decide (len < n - 1)) as [HA|HB].
    - (* the text and its terminator are there *)
      rewrite take_ge in Hstart by (rewrite length_app; simpl; unfold len in *; lia).
      rewrite encoded_app, encoded_zero in Hstart. fold k0 in Hstart.
      assert (idx = len) as -> by lia.
      rewrite (take_ge t) by (unfold len; lia).
      pose proof (encoded_len sz t ltac:(lia)) as Hlen.
      set (P := encoded sz t ++ replicate k0 0).
      assert (length P ≤ off)%nat as HP.
      { unfold P. rewrite length_app, length_replicate. unfold off, len in *. nia. }
      rewrite <- app_assoc in Hstart. rewrite app_assoc in Hstart. fold P in Hstart.
      rewrite Hstart. rewrite take_app_ge by done.
      eexists. unfold P. rewrite <- !app_assoc. done.
    - (* the text is cut *)
      assert (idx = n - 1) as -> by lia.
      rewrite take_app_le in Hstart by (unfold len in *; lia).
      pose proof (encoded_len sz (take (Z.to_nat (n - 1)) t) ltac:(lia)) as Hlen.
      rewrite length_take in Hlen.
      rewrite Hstart. rewrite take_app_length' by (unfold off, len in *; nia).
      eexists. done. }
  assert (string_length (Ptr b 0) sz m2 = Ret idx m2) as Hrun.
  { replace idx with (Z.of_nat (length (take (Z.to_nat idx) t)))
      by (rewrite length_take; unfold len in *; lia).
    eapply string_length_text; [done| | |exact Hl2eq].
    - unfold m2. simpl. apply lookup_insert_eq.
    - by apply Forall_take. }
  apply wp_bind. unfold wp at 1. rewrite Hrun.
  eapply (HQ m2 l2 (Bvec (Ptr b 0) (Ptr b size) (Ptr b cap))); try done.
  - by eapply frame_trans.
  - by exists rest.
Qed.

(** The loop, for a formatter that prints a text: it ends with the
    text and its terminator at the start of the block. *)
Lemma wp_printf_loop_text fuel fmt r sz t :
  sz = 1 ∨ (sz = 2 ∧ ∀ bs p n, alloc_ok bs p n = true → n < 2 ^ 31) →
  prints t fmt → Forall (λ x, 0 < x < 256 ^ sz) t →
  ∀ m size cap l n,
  state_ok strict m → buf m r size cap l →
  0 < n → size = n * sz → (sz = 2 → cap < 2 ^ 31) →
  SIZE_MOD ≤ n * 2 ^ Z.of_nat fuel →
  wp (printf_loop sz fuel fmt r)
     (λ _ m', ∃ size' cap' l' bv rest,
        state_ok strict m' ∧ buf m' r size' cap' l' ∧ vecs m' !! r = Some bv ∧
        frame r m m' ∧
        string_length (begin bv) sz m' = Ret (Z.of_nat (length t)) m' ∧
        l' = encoded sz t ++ replicate (Z.to_nat sz) 0 ++ rest)
     (λ msg, (msg = "integer overflow"%string ∧
              2 ^ 30 < (Z.of_nat (length t) + 1) * sz) ∨
             (msg = "out of memory"%string ∧ refuses_some alloc_ok)) m.
Proof.
  intros Hsz Hprints Ht. pose proof size_mod_eq as HM. destruct pow2_31_32 as [H31 H32].
  assert (0 < sz) as Hpos by (destruct Hsz as [->|[-> _]]; lia).
  induction fuel as [|fuel IH]; intros m size cap l n Hok Hbuf Hn Hsize Hcap Hfuel.
  - pose proof Hbuf as (bv & Hv & Hd).
    pose proof (describes_bounds _ _ _ _ _ Hd) as (Hs & Hc & Hl).
    simpl in Hfuel. nia.
  - cbn [ByteVector.printf_loop].
    apply (wp_printf_turn_text m r size cap l sz n t fmt); [done|done|done|done|done|done|done|].
    intros m1 l1 bv1 Hok1 Hbuf1 Hv1 Hfr1 Hcalls1 Hlen1 Hstart1.
    pose proof Hbuf1 as (bv & Hv & Hd).
    pose proof (describes_bounds _ _ _ _ _ Hd) as (Hs & Hc & Hl).
    rewrite size_t_small by nia.
    case_bool_decide as Hfit.
    + apply wp_ret. assert (Z.min (Z.of_nat (length t)) (n - 1) = Z.of_nat (length t)) as Hidx
        by lia.
      rewrite Hidx in *. rewrite Nat2Z.id, firstn_all in Hstart1.
      destruct Hstart1 as [rest Hrest].
      exists size, cap, l1, bv1, rest. split; [done|]. split; [done|]. split; [done|].
      split; [done|]. done.
    + apply wp_bind, wp_assert; [intros Hdbl%bool_decide_eq_true|].
      2:{ intros Hwrap%bool_decide_eq_false. left. split; [done|].
          destruct (decide (n * 2 < SIZE_MOD)) as [Hsmall|Hlarge]; [|nia].
          rewrite size_t_small in Hwrap by lia. lia. }
      assert (n * 2 < SIZE_MOD) as Hsmall.
      { unfold size_t in Hdbl. rewrite HM in *.
        destruct (decide (n * 2 < 4294967296)); [done|].
        assert ((n * 2) mod 4294967296 = n * 2 - 4294967296); [|lia].
        symmetry. apply (Z.mod_unique _ _ 1); nia. }
      rewrite size_t_small by lia.
      assert (n * 2 * sz < SIZE_MOD) as Hbytes.
      { destruct Hsz as [->|[-> _]]; [lia|]. specialize (Hcap eq_refl). lia. }
      apply wp_bind. unfold bvec_tresize. rewrite size_t_small by nia.
      eapply wp_bresize_exact; [done|done|nia| | |].
      2:{ intros ? ? Hlong _. left. split; [done|]. specialize (Hlong ltac:(left; lia)). nia. }
      2:{ intros ? ? c' ? ? Hno. right. split; [done|].
          eapply refuses_is_some; [|done]. lia. }
      intros m2 cap' Hok2 Hbuf2 Hfr Hcap' _ Halloc.
      eapply wp_mono; [eapply (IH m2 _ cap' _ (n * 2)); [done|done|lia|done| |]| |done].
      * intros ->. destruct Halloc as [->|(bs & q & Halloc)]; [by apply Hcap|].
        destruct Hsz as [?|[_ Hlim]]; [lia|]. by eapply Hlim.
      * rewrite Nat2Z.inj_succ, Z.pow_succ_r in Hfuel by lia. lia.
      * intros [] m3 (size3 & cap3 & l3 & bv3 & rest3 & Hok3 & Hbuf3 & Hv3 & Hfr3 & Hrest).
        exists size3, cap3, l3, bv3, rest3. split; [done|]. split; [done|]. split; [done|].
        split; [|done]. eapply frame_trans; [done| |done].
        by eapply frame_trans.
Qed.

(** [bvec_vprintf] and [bvec_vwprintf], for a formatter that prints a
    text: the local buffer ends up holding the text and its terminator
    and nothing else. *)
Lemma wp_format_text fuel fmt r sz t BUFSIZE m Q E :
  sz = 1 ∨ (sz = 2 ∧ ∀ bs p n, alloc_ok bs p n = true → n < 2 ^ 31) →
  prints t fmt → Forall (λ x, 0 < x < 256 ^ sz) t →
  state_ok strict m → 0 < BUFSIZE → BUFSIZE * sz < SIZE_MOD →
  SIZE_MOD ≤ BUFSIZE * 2 ^ Z.of_nat fuel →
  let size := (Z.of_nat (length t) + 1) * sz in
  (∀ m' cap l bv, state_ok strict m' → buf m' r size cap l →
     vecs m' !! r = Some bv →
     string_length (begin bv) sz m' = Ret (Z.of_nat (length t)) m' →
     take (Z.to_nat size) l = encoded sz (t ++ [0]) →
     cap / 2 < size → frame r m m' → Q tt m') →
  (format_overflows BVEC_DEFAULT_CAPACITY BUFSIZE sz (Z.of_nat (length t)) →
     E "integer overflow"%string) →
  (refuses_some alloc_ok → E "out of memory"%string) →
  wp (bvec_ctor r;; bvec_tresize alloc_ok junk BVEC_DEFAULT_CAPACITY r BUFSIZE sz;;
      printf_loop sz fuel fmt r;;
      shrink_terminated sz r) Q E m.
Proof.
  intros Hsz Hprints Ht Hok Hbs Hbytes Hfuel size HQ HE1 HE2.
  assert (0 < sz) as Hpos by (destruct Hsz as [->|[-> _]]; lia).
  apply wp_bind, wp_ctor.
  pose proof (state_ok_ctor m r Hok) as Hok0. pose proof (frame_ctor r m) as Hfr0.
  set (m0 := Mem _ _ _ _) in *.
  assert (buf m0 r 0 0 []) as Hbuf0.
  { eexists. simpl. split; [apply lookup_insert_eq|constructor]. }
  apply wp_bind. unfold bvec_tresize. rewrite size_t_small by nia.
  eapply wp_bresize_exact; [done|done|nia| | |].
  2:{ intros ? ? Hlong _. apply HE1.
      destruct (decide (BVEC_DEFAULT_CAPACITY = 0)); [by left|right; left].
      apply Hlong. right. lia. }
  2:{ intros ? ? c' ? ? Hno. apply HE2. eapply refuses_is_some; [|done]. lia. }
  intros m1 cap1 Hok1 Hbuf1 Hfr1 Hcap1 _ Halloc.
  apply wp_bind.
  eapply wp_mono;
    [eapply (wp_printf_loop_text fuel fmt r sz t Hsz Hprints Ht m1 _ cap1 _ BUFSIZE);
       [done|done|done|done| |done]| |].
  - intros ->. destruct Halloc as [->|(bs & q & Halloc)]; [destruct pow2_31_32; lia|].
    destruct Hsz as [?|[_ Hlim]]; [lia|]. by eapply Hlim.
  - intros [] m2 (size2 & cap2 & l2 & bv2 & rest & Hok2 & Hbuf2 & Hv2 & Hfr2 & Hlen2 & Hl2).
    eapply wp_shrink_terminated_exact; [done|done|done|done|done| |].
    2:{ intros cap' ? ? ? ? Hno. apply HE2. eapply refuses_is_some; [|done]. nia. }
    intros m3 cap3 Hok3 Hbuf3 Hcap3 Hhalf3 _ Hfr3.
    pose proof Hbuf3 as (bv3 & Hv3 & Hd3).
    pose proof (describes_bounds _ _ _ _ _ Hd3) as (Hs3 & Hc3 & Hlen3).
    assert (take (Z.to_nat size) (resize (Z.to_nat cap3) junk l2) = encoded sz (t ++ [0]))
      as Htext.
    { rewrite take_resize_le by (unfold size; lia).
      pose proof (encoded_len sz t ltac:(lia)) as Hlen.
      rewrite encoded_app, encoded_zero.
      rewrite Hl2, app_assoc. rewrite resize_app_le.
      - rewrite resize_all_alt; [done|].
        rewrite length_app, length_replicate. unfold size. nia.
      - rewrite length_app, length_replicate. unfold size. nia. }
    eapply (HQ m3 cap3 _ bv3); try done.
    + destruct (describes_nonempty _ _ _ _ _ Hd3) as (b & -> & Hb); [unfold size; nia|].
      simpl.
      eapply string_length_text; [done|done|done|].
      rewrite <- (take_drop (Z.to_nat size) (resize _ _ _)), Htext.
      by rewrite encoded_app, encoded_zero, <- app_assoc.
    + eapply frame_trans; [done| |done]. eapply frame_trans; [done| |done].
      by eapply frame_trans.
  - intros msg [[-> ?]|[-> ?]]; [apply HE1; right; by right|by apply HE2].
Qed.

Section Format.

Variable BVEC_DEFAULT_PRINTF_BUFSIZE : Z.

Local Abbreviation format_text :=
  (ByteVector.format_text alloc_ok junk BVEC_DEFAULT_CAPACITY BVEC_DEFAULT_PRINTF_BUFSIZE).

Lemma vprintf_is_format_text fuel fmt r :
  bvec_vprintf alloc_ok junk BVEC_DEFAULT_CAPACITY BVEC_DEFAULT_PRINTF_BUFSIZE fuel fmt r =
  format_text SIZEOF_CHAR fuel fmt r.
Proof.
  unfold bvec_vprintf, ByteVector.format_text. by rewrite vprintf_loop_is_printf_loop.
Qed.

Lemma vwprintf_is_format_text fuel fmt r :
  bvec_vwprintf alloc_ok junk BVEC_DEFAULT_CAPACITY BVEC_DEFAULT_PRINTF_BUFSIZE fuel fmt r =
  format_text SIZEOF_WCHAR_T fuel fmt r.
Proof.
  unfold bvec_vwprintf, ByteVector.format_text. by rewrite vwprintf_loop_is_printf_loop.
Qed.

Lemma standard_format_prints t : prints t (standard_format t).
Proof.
  intros n Hn. unfold standard_format.
  destruct (decide (Z.to_nat (n - 1) ≤ length t)%nat).
  - rewrite !take_app_le by (rewrite ?length_take; lia). by rewrite take_take, Nat.min_id.
  - by rewrite (take_ge t) by lia.
Qed.

Lemma unterminated_format_prints t : prints t (unterminated_format t).
Proof.
  intros n Hn. unfold unterminated_format. rewrite take_take. f_equal. lia.
Qed.

Lemma state_ok_calls m log :
  state_ok strict m → state_ok strict (Mem (vecs m) (blocks m) (next_block m) log).
Proof. intros [H1 H2 H3]. by split. Qed.

(** [bvec_printf] and [bvec_wprintf]: the text replaces what the
    buffer held. *)
Lemma wp_format_into fuel v fmt r sz t m bvd :
  sz = 1 ∨ (sz = 2 ∧ ∀ bs p n, alloc_ok bs p n = true → n < 2 ^ 31) →
  prints t fmt → Forall (λ x, 0 < x < 256 ^ sz) t →
  state_ok strict m →
  0 < BVEC_DEFAULT_PRINTF_BUFSIZE → BVEC_DEFAULT_PRINTF_BUFSIZE * sz < SIZE_MOD →
  SIZE_MOD ≤ BVEC_DEFAULT_PRINTF_BUFSIZE * 2 ^ Z.of_nat fuel →
  v ≠ r → vecs m !! v = Some bvd →
  let size := (Z.of_nat (length t) + 1) * sz in
  wp (format_text sz fuel fmt r;; bvec_move v r;; bvec_dtor r)
     (λ _ m', state_ok strict m' ∧
        (∃ cap l, buf m' v size cap l ∧
           take (Z.to_nat size) l = encoded sz (t ++ [0]) ∧ cap / 2 < size) ∧
        buf m' r 0 0 [] ∧
        (∀ b o, begin bvd = Ptr b o → blocks m' !! b = None))
     (λ msg, (msg = "integer overflow"%string ∧
              format_overflows BVEC_DEFAULT_CAPACITY BVEC_DEFAULT_PRINTF_BUFSIZE sz
                (Z.of_nat (length t))) ∨
             (msg = "out of memory"%string ∧ refuses_some alloc_ok)) m.
Proof.
  intros Hsz Hprints Ht Hok Hbs Hbytes Hfuel Hne Hvd size.
  apply wp_bind. unfold ByteVector.format_text.
  eapply wp_format_text; try done; [|intros; by left|intros; by right].
  intros m1 cap1 l1 bv1 Hok1 Hbuf1 Hv1 Hlen1 Htake1 Hhalf1 Hfr1. fold size in Hbuf1.
  assert (vecs m1 !! v = Some bvd) as Hvd1.
  { destruct Hfr1 as (F1 & _). by rewrite F1. }
  pose proof (move_run m1 v r bvd bv1 Hok1 Hne Hvd1 Hv1) as Hrun.
  pose proof (move_state_ok m1 v r bvd bv1 Hok1 Hne Hvd1 Hv1) as Hok2.
  destruct (released_blocks m1 v bvd Hok1 Hvd1) as (_ & Hkeep & _ & _).
  unfold wp, mbind, M_bind. rewrite Hrun.
  unfold bvec_dtor, mbind, M_bind, load_vec. cbn [vecs].
  rewrite lookup_insert_eq. cbn [begin]. unfold free. cbn [owned_block release blocks].
  split; [by apply (state_ok_calls _ _ Hok2)|]. split; [|split].
  - exists cap1, l1. split; [|done]. exists bv1. cbn [vecs blocks]. split.
    + rewrite lookup_insert_ne by done. apply lookup_insert_eq.
    + destruct Hbuf1 as (bv' & Hv' & Hd'). rewrite Hv1 in Hv'. injection Hv' as <-.
      eapply describes_other_blocks; [done|]. intros b o Hb.
      by eapply (Hkeep r).
  - eexists. cbn [vecs blocks]. split; [apply lookup_insert_eq|constructor].
  - intros b o Hb. rewrite Hb. cbn [blocks release]. apply lookup_delete_eq.
Qed.

(** [bvec_strcat_printf] and [bvec_wcscat_wprintf]: the text goes
    after what the buffer held, and the block of the local buffer is
    released. *)
Lemma wp_format_append fuel v fmt r sz t m size cap l :
  sz = 1 ∨ (sz = 2 ∧ ∀ bs p n, alloc_ok bs p n = true → n < 2 ^ 31) →
  prints t fmt → Forall (λ x, 0 < x < 256 ^ sz) t →
  state_ok strict m →
  0 < BVEC_DEFAULT_PRINTF_BUFSIZE → BVEC_DEFAULT_PRINTF_BUFSIZE * sz < SIZE_MOD →
  SIZE_MOD ≤ BVEC_DEFAULT_PRINTF_BUFSIZE * 2 ^ Z.of_nat fuel →
  v ≠ r → buf m v size cap l → size mod sz = 0 →
  let kept := unterminated sz size l in
  let add := (Z.of_nat (length t) + 1) * sz in
  wp (format_text sz fuel fmt r;;
      s ← get_terminated sz r;
      cat_terminated sz v s;;
      bvec_dtor r)
     (λ _ m', (∃ cap' l', buf m' v (kept + add) cap' l' ∧
                take (Z.to_nat (kept + add)) l' =
                  take (Z.to_nat kept) l ++ encoded sz (t ++ [0])) ∧
              (∀ bv b o, vecs m' !! r = Some bv → begin bv = Ptr b o →
                 blocks m' !! b = None))
     (λ msg, (msg = "interger overflow"%string ∧ SIZE_MOD ≤ kept + add) ∨
             (msg = "integer overflow"%string ∧
              (format_overflows BVEC_DEFAULT_CAPACITY BVEC_DEFAULT_PRINTF_BUFSIZE sz
                 (Z.of_nat (length t)) ∨
               (cap < kept + add ∧
                (first_capacity BVEC_DEFAULT_CAPACITY cap = 0 ∨ 2 ^ 31 < kept + add)))) ∨
             (msg = "out of memory"%string ∧ refuses_some alloc_ok)) m.
Proof.
  intros Hsz Hprints Ht Hok Hbs Hbytes Hfuel Hne Hbuf Hmod kept add.
  assert (0 < sz < SIZE_MOD) as Hpos.
  { rewrite size_mod_eq. destruct Hsz as [->|[-> _]]; lia. }
  apply wp_bind. unfold ByteVector.format_text.
  pose proof Hbuf as (bv0 & Hv0 & Hd0).
  pose proof (describes_bounds _ _ _ _ _ Hd0) as (Hs0 & Hc0 & _).
  eapply wp_format_text; try done;
    [|intros; right; left; split; [done|]; by left|intros; right; by right].
  intros m1 cap1 l1 bv1 Hok1 Hbuf1 Hv1 Hlen1 Htake1 Hhalf1 Hfr1. fold add in Hbuf1, Htake1.
  pose proof (frame_other_buf _ _ _ _ _ _ _ Hok Hfr1 Hne Hbuf) as Hbufv1.
  pose proof Hbuf1 as (bv' & Hv' & Hd1). rewrite Hv1 in Hv'. injection Hv' as <-.
  pose proof (describes_bounds _ _ _ _ _ Hd1) as (Hs1 & Hc1 & Hl1).
  assert (0 < add) as Hadd by (unfold add; nia).
  destruct (describes_nonempty _ _ _ _ _ Hd1) as (b1 & -> & Hb1); [lia|].
  cbn [begin] in *.
  assert (string_at m1 (Ptr b1 0) sz (Z.of_nat (length t)) (encoded sz (t ++ [0]))) as Hstr.
  { split; [done|]. split; [|fold add; lia].
    fold add. unfold load_bytes. rewrite Hb1. rewrite decide_True by lia.
    change (Z.to_nat 0) with 0%nat. by rewrite drop_0, Htake1. }
  destruct (string_at_last _ _ sz _ _ l1 (proj1 Hpos) Hstr Htake1) as (_ & _ & Hlast).
  fold add in Hlast.
  assert (add mod sz = 0) as Haddmod by (unfold add; apply Z.mod_mul; lia).
  apply wp_bind. unfold wp at 1.
  rewrite (get_terminated_fixed m1 r add cap1 l1 sz _ Hbuf1 Hv1) by (done || lia).
  cbn [begin].
  apply wp_bind.
  eapply (wp_cat_terminated_exact m1 v size cap l sz (Ptr b1 0)); try done.
  - intros b o [= <- <-] (bvv & ov & Hvv & Hbv).
    eapply (ok_sep _ _ Hok1 r v); [done|done|done|done|].
    cbn [begin]. rewrite Hbv.
    by destruct (owned_block_live _ _ _ _ _ _ Hok1 Hvv Hbv) as [-> _].
  - intros Hfit m2 cap2 l2 Hok2 Hbuf2 Htake2 Hfr2.
    destruct Hfr2 as (G1 & G2 & G3 & G4).
    assert (¬ owns m1 v b1) as Hnown.
    { intros (bvv & ov & Hvv & Hbv).
      eapply (ok_sep _ _ Hok1 r v); [done|done|done|done|].
      cbn [begin]. rewrite Hbv.
      by destruct (owned_block_live _ _ _ _ _ _ Hok1 Hvv Hbv) as [-> _]. }
    assert (vecs m2 !! r = Some (Bvec (Ptr b1 0) (Ptr b1 add) (Ptr b1 cap1))) as Hv2
      by (by rewrite G1).
    assert (blocks m2 !! b1 = Some l1) as Hb2 by (by apply G2).
    unfold wp, bvec_dtor, mbind, M_bind, load_vec. rewrite Hv2. cbn [begin].
    unfold free. cbn [owned_block]. rewrite decide_True by done. rewrite Hb2.
    cbn [vecs blocks release]. split.
    + exists cap2, l2. split; [|done].
      destruct Hbuf2 as (bv2 & Hvv2 & Hd2). exists bv2. split; [done|].
      eapply describes_other_blocks; [done|]. intros b o Hb.
      apply lookup_delete_ne. intros <-.
      destruct (G3 b1) as [?|Hnew]; [by exists bv2, o|done|].
      assert (b1 < next_block m1)%positive by (by eapply (ok_next _ _ Hok1)). lia.
    + intros bv b o Hv Hb. rewrite Hv2 in Hv. injection Hv as <-.
      cbn [begin] in Hb. injection Hb as <- <-. apply lookup_delete_eq.
  - intros. by left.
  - intros Hbig Hwrap. right. left. split; [done|]. right. split; [done|].
    apply wrap_needs; [|done]. unfold first_capacity. case_decide; lia.
  - intros Hbig c' ? ? Hno. right. right. split; [done|].
    eapply refuses_is_some; [|done]. lia.
Qed.

End Format.

End More.

(** ** The memory with strings *)

Lemma state_ok_text strict : state_ok strict text_mem.
Proof.
  pose proof (state_ok_ctor strict empty_mem 2 (state_ok_empty strict)) as Hok.
  apply (state_ok_update strict _ 1 _ _ _ _ Hok); simpl.
  - exists 3, 4, [65; 66; 0; 7]. by constructor.
  - done.
  - intros v' bv Hne [[_ <-]|[_ ?]]%lookup_insert_Some _; done.
  - intros v' bv b o Hne [[_ <-]|[_ ?]]%lookup_insert_Some; done.
  - intros b Hb. apply lookup_insert_is_Some in Hb as [<-|[_ Hb]]; [done|].
    apply lookup_insert_is_Some in Hb as [<-|[_ Hb]]; [done|].
    rewrite lookup_empty in Hb. by destruct Hb.
Qed.

Lemma buf_text : buf text_mem 1 3 4 [65; 66; 0; 7].
Proof. eexists. split; [done|]. by constructor. Qed.

Lemma buf_text_empty : buf text_mem 2 0 0 [].
Proof. eexists. split; [done|]. by constructor. Qed.

Lemma string_at_text : string_at text_mem (Ptr 2 0) 1 2 [67; 68; 0].
Proof. split; [done|]. split; [done|]. rewrite size_mod_eq. lia. Qed.

Lemma text_outside : ∀ b o, Ptr 2 0 = Ptr b o → ¬ owns text_mem 1 b.
Proof. intros b o [= <- <-] (bv & o' & [= <-] & [=]). Qed.

End ByteVectorMore.

(** * Further properties of the raw buffer *)

Module ByteVectorExtras.
Import ByteVector ByteVectorProofs ByteVectorMore.

(** X1.  [copy(dst, src)] on two distinct buffers returns with [dst]
    holding the size and the bytes of [src] in a block of its own, and
    [src] with its block as they were.  It quits only when [src] is not
    empty and the first block of [dst] cannot be had: with "integer
    overflow" when no doubling of the default capacity holds the bytes
    within the size type, with "out of memory" when the allocator, the
    old block of [dst] freed, refuses the first one that does. *)
Theorem copy_is_independent
    (alloc_ok : gmap positive (list Z) → ptr → Z → bool) (junk default_capacity : Z)
    (m : mem) (dst src : positive) (sd cd : Z) (ld : list Z) (ss cs : Z) (ls : list Z) :
  0 ≤ default_capacity < SIZE_MOD →
  state_ok false m →
  dst ≠ src →
  buf m dst sd cd ld →
  buf m src ss cs ls →
  wp (bvec_copy alloc_ok junk default_capacity dst src)
     (λ _ m', size_of m' dst = Some ss ∧
              bytes_of m' dst = bytes_of m src ∧
              buf m' src ss cs ls ∧
              (∀ b, owns m' dst b → ¬ owns m' src b) ∧
              state_ok false m')
     (λ msg, ss ≠ 0 ∧
             ∃ bv, vecs m !! dst = Some bv ∧
                   first_block_fails alloc_ok default_capacity
                     (release (begin bv) (blocks m)) ss msg)
     m.
Proof.
  intros Hdef Hok Hne Hdst Hsrc. pose proof Hdst as (bvd & Hvd & _).
  eapply (wp_copy_exact alloc_ok junk default_capacity false ltac:(done) Hdef
            m dst src sd cd ld ss cs ls bvd); try done;
    [|intros Hnz Hwrap; split; [done|]; exists bvd; split; [done|]; by left
     |intros Hnz c' Hd Hno; split; [done|]; exists bvd; split; [done|]; right;
      split; [done|]; by exists c'].
  intros m' cap' l' Hok' Hbd Htake Hbs.
  split; [by eapply buf_size_of|]. split.
  - rewrite (buf_bytes_of _ _ _ _ _ Hbd), (buf_bytes_of _ _ _ _ _ Hsrc). by f_equal.
  - split; [done|]. split; [|done].
    intros b (bv1 & o1 & Hv1 & Hb1) (bv2 & o2 & Hv2 & Hb2).
    destruct (owned_block_live _ _ _ _ _ _ Hok' Hv1 Hb1) as [-> _].
    destruct (owned_block_live _ _ _ _ _ _ Hok' Hv2 Hb2) as [-> _].
    eapply (ok_sep _ _ Hok' dst src); [done|done|done| |]; congruence.
Qed.

Lemma copy_is_independent_witness :
  0 ≤ 16 < SIZE_MOD ∧ state_ok false sample_mem ∧ 2%positive ≠ 1%positive ∧
  buf sample_mem 2 0 0 [] ∧ buf sample_mem 1 3 4 [65; 66; 67; 0] ∧
  wp (bvec_copy like_malloc 0 16 2 1)
     (λ _ m', size_of m' 2 = Some 3 ∧
              bytes_of m' 2 = bytes_of sample_mem 1 ∧
              buf m' 1 3 4 [65; 66; 67; 0] ∧
              (∀ b, owns m' 2 b → ¬ owns m' 1 b) ∧
              state_ok false m')
     (λ msg, 3 ≠ 0 ∧
             ∃ bv, vecs sample_mem !! 2%positive = Some bv ∧
                   first_block_fails like_malloc 16
                     (release (begin bv) (blocks sample_mem)) 3 msg)
     sample_mem.
Proof.
  assert (0 ≤ 16 < SIZE_MOD) as H1 by (rewrite size_mod_eq; lia).
  assert (2%positive ≠ 1%positive) as H2 by done.
  split; [done|]. split; [apply state_ok_sample|]. split; [done|].
  split; [apply buf_sample_empty|]. split; [apply buf_sample|].
  apply (copy_is_independent like_malloc 0 16 sample_mem 2 1 0 0 [] 3 4 [65; 66; 67; 0]
           H1 (state_ok_sample false) H2 buf_sample_empty buf_sample).
Defined.

(** X2.  [swap(a, b)] on two distinct constructed buffers returns with
    the two structs exchanged, and so the sizes and the bytes; no block
    changes and the allocator is not called.  Swapping again gives the
    memory back as it was. *)
Theorem swap_exchanges (m : mem) (a b : positive) (bva bvb : bvec) :
  vecs m !! a = Some bva →
  vecs m !! b = Some bvb →
  a ≠ b →
  ∃ m', bvec_swap a b m = Ret tt m' ∧
        vecs m' !! a = Some bvb ∧ vecs m' !! b = Some bva ∧
        size_of m' a = size_of m b ∧ bytes_of m' a = bytes_of m b ∧
        size_of m' b = size_of m a ∧ bytes_of m' b = bytes_of m a ∧
        blocks m' = blocks m ∧ calls m' = calls m ∧
        bvec_swap a b m' = Ret tt m.
Proof.
  intros Ha Hb Hne. eexists. split; [by apply swap_run|].
  set (m' := Mem _ _ _ _).
  assert (vecs m' !! a = Some bvb) as Ha'.
  { simpl. rewrite lookup_insert_ne by done. apply lookup_insert_eq. }
  assert (vecs m' !! b = Some bva) as Hb' by (simpl; apply lookup_insert_eq).
  split; [done|]. split; [done|].
  split; [unfold size_of; by rewrite Ha', Hb|].
  split; [unfold bytes_of; by rewrite Ha', Hb|].
  split; [unfold size_of; by rewrite Hb', Ha|].
  split; [unfold bytes_of; by rewrite Hb', Ha|].
  split; [done|]. split; [done|].
  rewrite (swap_run _ _ _ _ _ Ha' Hb'). f_equal. unfold m'. simpl.
  destruct m as [vs bs nb cs]. simpl in *. f_equal.
  apply map_eq. intros i. destruct (decide (i = b)) as [->|Hib].
  { by rewrite lookup_insert_eq. }
  rewrite lookup_insert_ne by done. destruct (decide (i = a)) as [->|Hia].
  { by rewrite lookup_insert_eq. }
  by rewrite !lookup_insert_ne by done.
Qed.

Lemma swap_exchanges_witness :
  vecs sample_mem !! 1%positive = Some (Bvec (Ptr 1 0) (Ptr 1 3) (Ptr 1 4)) ∧
  vecs sample_mem !! 2%positive = Some (Bvec NULL NULL NULL) ∧
  1%positive ≠ 2%positive ∧
  ∃ m', bvec_swap 1 2 sample_mem = Ret tt m' ∧
        vecs m' !! 1%positive = Some (Bvec NULL NULL NULL) ∧
        vecs m' !! 2%positive = Some (Bvec (Ptr 1 0) (Ptr 1 3) (Ptr 1 4)) ∧
        size_of m' 1 = size_of sample_mem 2 ∧ bytes_of m' 1 = bytes_of sample_mem 2 ∧
        size_of m' 2 = size_of sample_mem 1 ∧ bytes_of m' 2 = bytes_of sample_mem 1 ∧
        blocks m' = blocks sample_mem ∧ calls m' = calls sample_mem ∧
        bvec_swap 1 2 m' = Ret tt sample_mem.
Proof.
  assert (vecs sample_mem !! 1%positive = Some (Bvec (Ptr 1 0) (Ptr 1 3) (Ptr 1 4)))
    as H1 by done.
  assert (vecs sample_mem !! 2%positive = Some (Bvec NULL NULL NULL)) as H2 by done.
  assert (1%positive ≠ 2%positive) as H3 by done.
  split; [done|]. split; [done|]. split; [done|].
  apply (swap_exchanges sample_mem 1 2 _ _ H1 H2 H3).
Defined.

(** X3.  [clear(v)] returns with the size zero and keeps the capacity
    and the block: no block changes and the allocator is not called.
    A following append of no more bytes than the capacity then returns
    without a call of the allocator. *)
Theorem clear_keeps_allocation
    (alloc_ok : gmap positive (list Z) → ptr → Z → bool) (junk default_capacity : Z)
    (m : mem) (v : positive) (size cap : Z) (l : list Z)
    (d : ptr) (n : Z) (bytes : list Z) :
  0 ≤ default_capacity < SIZE_MOD →
  state_ok false m →
  buf m v size cap l →
  0 < n ≤ cap →
  load_bytes m d n = Some bytes →
  (∀ b o, d = Ptr b o → ¬ owns m v b) →
  ∃ m1, bvec_clear v m = Ret tt m1 ∧
        size_of m1 v = Some 0 ∧ capacity_of m1 v = Some cap ∧
        blocks m1 = blocks m ∧ calls m1 = calls m ∧ state_ok false m1 ∧
        ∃ m2, bvec_bpush alloc_ok junk default_capacity v d n m1 = Ret tt m2 ∧
              size_of m2 v = Some n ∧ bytes_of m2 v = Some bytes ∧
              capacity_of m2 v = Some cap ∧ calls m2 = calls m.
Proof.
  intros Hdef Hok Hbuf Hn Hload Hout.
  pose proof Hbuf as (bv & Hv & Hd).
  pose proof (describes_bounds _ _ _ _ _ Hd) as (Hs & Hc & Hl).
  assert (bvec_clear v m = Ret tt (Mem (<[v := Bvec (begin bv) (begin bv) (capacity bv)]>
            (vecs m)) (blocks m) (next_block m) (calls m))) as Hrun.
  { unfold bvec_clear, mbind, M_bind, load_vec, store_vec. by rewrite Hv. }
  pose proof (wp_clear false m v size cap l
                (λ _ m', state_ok false m' ∧ buf m' v 0 cap l ∧ frame v m m')
                (λ _, False) Hok Hbuf ltac:(done)) as Hwp.
  unfold wp in Hwp. rewrite Hrun in Hwp. destruct Hwp as (Hok1 & Hbuf1 & Hfr1).
  eexists. split; [exact Hrun|]. set (m1 := Mem _ _ _ _) in *.
  split; [by eapply buf_size_of|]. split; [by eapply buf_capacity_of|].
  split; [done|]. split; [done|]. split; [done|].
  assert (wp (bvec_bpush alloc_ok junk default_capacity v d n)
             (λ _ m2, size_of m2 v = Some n ∧ bytes_of m2 v = Some bytes ∧
                      capacity_of m2 v = Some cap ∧ calls m2 = calls m)
             (λ _, False) m1) as Hwp.
  { eapply (wp_bpush alloc_ok junk default_capacity false ltac:(done) Hdef
              m1 v 0 cap l d n bytes); [done|done|lia| |lia| |lia|lia|lia].
    - intros _. split; [done|]. intros b o Hd' (bv1 & o1 & Hv1 & Hb1).
      apply (Hout b o Hd'). exists bv, o1. split; [done|]. unfold m1 in Hv1. simpl in Hv1.
      rewrite lookup_insert_eq in Hv1. by injection Hv1 as <-.
    - intros _ m2 cap2 l2 Hok2 Hbuf2 Htake2 _ _ _ Hsame.
      destruct Hsame as [-> Hcalls]; [lia|lia|]. rewrite Z.add_0_l in *.
      split; [by eapply buf_size_of|]. split.
      + rewrite (buf_bytes_of _ _ _ _ _ Hbuf2). by rewrite Htake2.
      + split; [by eapply buf_capacity_of|done]. }
  unfold wp in Hwp.
  destruct (bvec_bpush alloc_ok junk default_capacity v d n m1) as [[] m2|msg| |];
    [by exists m2|done..].
Qed.

Lemma clear_keeps_allocation_witness :
  0 ≤ 16 < SIZE_MOD ∧ state_ok false sample_mem ∧ buf sample_mem 1 3 4 [65; 66; 67; 0] ∧
  0 < 2 ≤ 4 ∧ load_bytes sample_mem (Ptr 2 0) 2 = Some [1; 2] ∧
  (∀ b o, Ptr 2 0 = Ptr b o → ¬ owns sample_mem 1 b) ∧
  ∃ m1, bvec_clear 1 sample_mem = Ret tt m1 ∧
        size_of m1 1 = Some 0 ∧ capacity_of m1 1 = Some 4 ∧
        blocks m1 = blocks sample_mem ∧ calls m1 = calls sample_mem ∧ state_ok false m1 ∧
        ∃ m2, bvec_bpush like_malloc 0 16 1 (Ptr 2 0) 2 m1 = Ret tt m2 ∧
              size_of m2 1 = Some 2 ∧ bytes_of m2 1 = Some [1; 2] ∧
              capacity_of m2 1 = Some 4 ∧ calls m2 = calls sample_mem.
Proof.
  assert (0 ≤ 16 < SIZE_MOD) as H1 by (rewrite size_mod_eq; lia).
  assert (0 < 2 ≤ 4) as H2 by lia.
  assert (load_bytes sample_mem (Ptr 2 0) 2 = Some [1; 2]) as H3 by done.
  assert (∀ b o, Ptr 2 0 = Ptr b o → ¬ owns sample_mem 1 b) as H4.
  { intros b o [= <- <-] (bv & o' & [= <-] & [=]). }
  split; [done|]. split; [apply state_ok_sample|]. split; [apply buf_sample|].
  split; [done|]. split; [done|]. split; [done|].
  apply (clear_keeps_allocation like_malloc 0 16 sample_mem 1 3 4 [65; 66; 67; 0]
           (Ptr 2 0) 2 [1; 2] H1 (state_ok_sample false) buf_sample H2 H3 H4).
Defined.

(** X4.  [clear-and-free(v)] returns with the buffer empty and without
    capacity; it hands [begin] to [free] once, and the block the buffer
    owned is no longer live.  Calling it again frees [NULL] and changes
    nothing else. *)
Theorem clear_and_free_releases (m : mem) (v : positive) (size cap : Z) (l : list Z)
    (bv : bvec) :
  state_ok false m →
  buf m v size cap l →
  vecs m !! v = Some bv →
  ∃ m', bvec_fclear v m = Ret tt m' ∧
        size_of m' v = Some 0 ∧ capacity_of m' v = Some 0 ∧
        calls m' = calls m ++ [Free (begin bv)] ∧
        (∀ b, owns m v b → blocks m' !! b = None) ∧
        state_ok false m' ∧
        bvec_fclear v m' =
          Ret tt (Mem (vecs m') (blocks m') (next_block m') (calls m' ++ [Free NULL])).
Proof.
  intros Hok Hbuf Hv.
  - pose proof (wp_dtor_ctor false m v bv
                  (λ _ m', state_ok false m' ∧ buf m' v 0 0 [] ∧
                     m' = Mem (<[v := Bvec NULL NULL NULL]> (vecs m))
                              (release (begin bv) (blocks m)) (next_block m)
                              (calls m ++ [Free (begin bv)]))
                  (λ _, False) Hok Hv ltac:(done)) as Hwp.
    unfold wp in Hwp. unfold bvec_fclear.
    destruct ((bvec_dtor v;; bvec_ctor v) m) as [[] m'|msg| |]; [|done..].
    destruct Hwp as (Hok' & Hbuf' & ->). eexists. split; [done|].
    split; [by eapply buf_size_of|]. split; [by eapply buf_capacity_of|].
    split; [done|]. split; [|split; [done|]].
    + intros b (bv1 & o & Hv1 & Hb1). rewrite Hv in Hv1. injection Hv1 as <-.
      simpl. rewrite Hb1. simpl. apply lookup_delete_eq.
    + unfold mbind, M_bind, bvec_dtor, load_vec, mbind, M_bind. simpl.
      rewrite lookup_insert_eq. unfold free. simpl. unfold bvec_ctor, store_vec. simpl.
      by rewrite insert_insert_eq.
Qed.

Lemma clear_and_free_releases_witness :
  state_ok false sample_mem ∧ buf sample_mem 1 3 4 [65; 66; 67; 0] ∧
  vecs sample_mem !! 1%positive = Some (Bvec (Ptr 1 0) (Ptr 1 3) (Ptr 1 4)) ∧
  ∃ m', bvec_fclear 1 sample_mem = Ret tt m' ∧
        size_of m' 1 = Some 0 ∧ capacity_of m' 1 = Some 0 ∧
        calls m' = calls sample_mem ++ [Free (Ptr 1 0)] ∧
        (∀ b, owns sample_mem 1 b → blocks m' !! b = None) ∧
        state_ok false m' ∧
        bvec_fclear 1 m' =
          Ret tt (Mem (vecs m') (blocks m') (next_block m') (calls m' ++ [Free NULL])).
Proof.
  assert (vecs sample_mem !! 1%positive = Some (Bvec (Ptr 1 0) (Ptr 1 3) (Ptr 1 4)))
    as H1 by done.
  split; [apply state_ok_sample|]. split; [apply buf_sample|]. split; [done|].
  apply (clear_and_free_releases sample_mem 1 3 4 [65; 66; 67; 0] _
           (state_ok_sample false) buf_sample H1).
Defined.

(** X5.  [resize(v, n)] returns with the size [n]; the bytes that were
    in use and still are keep their values, and the capacity does not
    go down.  When [n] is not above the old size nothing but [end]
    changes: the capacity and the blocks stay, and the allocator is not
    called.  It quits only when [n] is above the old size and the
    capacity: with "integer overflow" when no doubling of the capacity
    reaches [n] within the size type, with "out of memory" when the
    allocator refuses the first one that does. *)
Theorem resize_spec
    (alloc_ok : gmap positive (list Z) → ptr → Z → bool) (junk default_capacity : Z)
    (m : mem) (v : positive) (size cap : Z) (l : list Z) (n : Z) :
  0 ≤ default_capacity < SIZE_MOD →
  state_ok false m →
  buf m v size cap l →
  0 ≤ n < SIZE_MOD →
  wp (bvec_bresize alloc_ok junk default_capacity v n)
     (λ _ m', ∃ cap' bytes',
        size_of m' v = Some n ∧
        capacity_of m' v = Some cap' ∧ cap ≤ cap' ∧
        bytes_of m' v = Some bytes' ∧
        take (Z.to_nat (Z.min size n)) bytes' = take (Z.to_nat (Z.min size n)) l ∧
        (n ≤ size → cap' = cap ∧ blocks m' = blocks m ∧ calls m' = calls m) ∧
        state_ok false m')
     (λ msg, size < n ∧ growth_fails alloc_ok default_capacity m v cap n msg)
     m.
Proof.
  intros Hdef Hok Hbuf Hn.
  pose proof Hbuf as (bv & Hv & Hd).
  pose proof (describes_bounds _ _ _ _ _ Hd) as (Hs & Hc & Hl).
  eapply (wp_bresize_exact alloc_ok junk default_capacity false); try done;
    [lia| |intros ? ? _ ?; split; [done|]; split; [done|]; by left
     |intros ? ? c' ? ? ?; split; [done|]; split; [done|]; right; split; [done|];
      by exists c'].
  intros m' cap' Hok' Hbuf' Hfr Hcap Hsame _.
  pose proof Hbuf' as (bv' & Hv' & Hd').
  pose proof (describes_bounds _ _ _ _ _ Hd') as (Hs' & Hc' & Hl').
  exists cap', (take (Z.to_nat n) (resize (Z.to_nat cap') junk l)).
  split; [by eapply buf_size_of|]. split; [by eapply buf_capacity_of|]. split; [done|].
  split; [by eapply buf_bytes_of|]. split; [|split; [|done]].
  - rewrite take_take. replace (Z.to_nat (Z.min size n) `min` Z.to_nat n)%nat
      with (Z.to_nat (Z.min size n)) by lia.
    rewrite take_resize_le by lia. apply resize_le. lia.
  - intros Hle. destruct Hsame as (-> & Hb & Hcl & _); [lia|by right|done].
Qed.

Lemma resize_spec_witness :
  0 ≤ 16 < SIZE_MOD ∧ state_ok false sample_mem ∧ buf sample_mem 1 3 4 [65; 66; 67; 0] ∧
  0 ≤ 10 < SIZE_MOD ∧
  wp (bvec_bresize like_malloc 0 16 1 10)
     (λ _ m', ∃ cap' bytes',
        size_of m' 1 = Some 10 ∧
        capacity_of m' 1 = Some cap' ∧ 4 ≤ cap' ∧
        bytes_of m' 1 = Some bytes' ∧
        take (Z.to_nat (Z.min 3 10)) bytes' = take (Z.to_nat (Z.min 3 10)) [65; 66; 67; 0] ∧
        (10 ≤ 3 → cap' = 4 ∧ blocks m' = blocks sample_mem ∧ calls m' = calls sample_mem) ∧
        state_ok false m')
     (λ msg, 3 < 10 ∧ growth_fails like_malloc 16 sample_mem 1 4 10 msg)
     sample_mem.
Proof.
  assert (0 ≤ 16 < SIZE_MOD) as H1 by (rewrite size_mod_eq; lia).
  assert (0 ≤ 10 < SIZE_MOD) as H2 by (rewrite size_mod_eq; lia).
  split; [done|]. split; [apply state_ok_sample|]. split; [apply buf_sample|].
  split; [done|].
  apply (resize_spec like_malloc 0 16 sample_mem 1 3 4 [65; 66; 67; 0] 10 H1
           (state_ok_sample false) buf_sample H2).
Defined.

(** X6.  [append-buffer(dst, src)] on two distinct buffers returns with
    the bytes of [src] after those of [dst]; [src] and its block are as
    they were.  It quits only when [src] is not empty and the new size
    would wrap ("interger overflow"), no doubling of the capacity
    reaches the new size within the size type ("integer overflow"), or
    the allocator refuses the first one that does ("out of memory"). *)
Theorem append_buffer_spec
    (alloc_ok : gmap positive (list Z) → ptr → Z → bool) (junk default_capacity : Z)
    (m : mem) (dst src : positive) (sd cd : Z) (ld : list Z) (ss cs : Z) (ls : list Z) :
  0 ≤ default_capacity < SIZE_MOD →
  state_ok false m →
  dst ≠ src →
  buf m dst sd cd ld →
  buf m src ss cs ls →
  wp (bvec_vpush alloc_ok junk default_capacity dst src)
     (λ _ m', size_of m' dst = Some (sd + ss) ∧
              bytes_of m' dst = Some (take (Z.to_nat sd) ld ++ take (Z.to_nat ss) ls) ∧
              buf m' src ss cs ls ∧
              state_ok false m')
     (λ msg, ss ≠ 0 ∧
             ((SIZE_MOD ≤ sd + ss ∧ msg = "interger overflow"%string) ∨
              growth_fails alloc_ok default_capacity m dst cd (sd + ss) msg))
     m.
Proof.
  intros Hdef Hok Hne Hdst Hsrc.
  eapply (wp_vpush_exact alloc_ok junk default_capacity false); try done;
    [|by auto
     |intros ? ? ?; split; [done|]; right; split; [done|]; by left
     |intros ? ? c' ? ? ?; split; [done|]; right; split; [done|]; right; split; [done|];
      by exists c'].
  intros Hfit m' cap' l' Hok' Hbuf' Htake Hfr.
  split; [by eapply buf_size_of|]. split.
  - rewrite (buf_bytes_of _ _ _ _ _ Hbuf'). by f_equal.
  - split; [|done]. by eapply (frame_other_buf false m m' dst src).
Qed.

Lemma append_buffer_spec_witness :
  0 ≤ 16 < SIZE_MOD ∧ state_ok false sample_mem ∧ 2%positive ≠ 1%positive ∧
  buf sample_mem 2 0 0 [] ∧ buf sample_mem 1 3 4 [65; 66; 67; 0] ∧
  wp (bvec_vpush like_malloc 0 16 2 1)
     (λ _ m', size_of m' 2 = Some (0 + 3) ∧
              bytes_of m' 2 = Some (take (Z.to_nat 0) [] ++
                                    take (Z.to_nat 3) [65; 66; 67; 0]) ∧
              buf m' 1 3 4 [65; 66; 67; 0] ∧
              state_ok false m')
     (λ msg, 3 ≠ 0 ∧
             ((SIZE_MOD ≤ 0 + 3 ∧ msg = "interger overflow"%string) ∨
              growth_fails like_malloc 16 sample_mem 2 0 (0 + 3) msg))
     sample_mem.
Proof.
  assert (0 ≤ 16 < SIZE_MOD) as H1 by (rewrite size_mod_eq; lia).
  assert (2%positive ≠ 1%positive) as H2 by done.
  split; [done|]. split; [apply state_ok_sample|]. split; [done|].
  split; [apply buf_sample_empty|]. split; [apply buf_sample|].
  apply (append_buffer_spec like_malloc 0 16 sample_mem 2 1 0 0 [] 3 4 [65; 66; 67; 0]
           H1 (state_ok_sample false) H2 buf_sample_empty buf_sample).
Defined.

(** X7.  A public operation called as its contract asks leaves alone
    every buffer it does not write to (for copy and append-buffer the
    source; for the others every buffer that is not an argument): when
    it returns, such a buffer has its struct, its block and its bytes
    as before. *)
Theorem unwritten_buffers_kept
    (alloc_ok : gmap positive (list Z) → ptr → Z → bool) (junk default_capacity : Z)
    (op : public_op) (m : mem) (w : positive) (size cap : Z) (l : list Z) :
  0 ≤ default_capacity < SIZE_MOD →
  state_ok false m →
  op_ready m op →
  ¬ writes op w →
  buf m w size cap l →
  wp (run_op alloc_ok junk default_capacity op)
     (λ _ m', buf m' w size cap l ∧ vecs m' !! w = vecs m !! w ∧
              size_of m' w = size_of m w ∧ bytes_of m' w = bytes_of m w)
     (λ _, True) m.
Proof.
  intros Hdef Hok Hready Hw Hbuf.
  eapply wp_mono;
    [apply (unwritten_kept alloc_ok junk default_capacity false ltac:(done) Hdef
              op m w size cap l Hok Hready Hw Hbuf)| |done].
  intros [] m' [Hbuf' Hvecs]. split; [done|]. split; [done|]. split.
  - by rewrite (buf_size_of _ _ _ _ _ Hbuf'), (buf_size_of _ _ _ _ _ Hbuf).
  - by rewrite (buf_bytes_of _ _ _ _ _ Hbuf'), (buf_bytes_of _ _ _ _ _ Hbuf).
Qed.

Lemma unwritten_buffers_kept_witness :
  0 ≤ 16 < SIZE_MOD ∧ state_ok false sample_mem ∧
  op_ready sample_mem (Copy 2 1) ∧ ¬ writes (Copy 2 1) 1 ∧
  buf sample_mem 1 3 4 [65; 66; 67; 0] ∧
  wp (run_op like_malloc 0 16 (Copy 2 1))
     (λ _ m', buf m' 1 3 4 [65; 66; 67; 0] ∧ vecs m' !! 1%positive = vecs sample_mem !! 1%positive ∧
              size_of m' 1 = size_of sample_mem 1 ∧ bytes_of m' 1 = bytes_of sample_mem 1)
     (λ _, True) sample_mem.
Proof.
  assert (0 ≤ 16 < SIZE_MOD) as H1 by (rewrite size_mod_eq; lia).
  assert (op_ready sample_mem (Copy 2 1)) as H2 by (split; by eexists).
  assert (¬ writes (Copy 2 1) 1) as H3 by (by intros ?).
  split; [done|]. split; [apply state_ok_sample|]. split; [done|]. split; [done|].
  split; [apply buf_sample|].
  apply (unwritten_buffers_kept like_malloc 0 16 (Copy 2 1) sample_mem 1 3 4
           [65; 66; 67; 0] H1 (state_ok_sample false) H2 H3 buf_sample).
Defined.

(** X8.  [destroy(v)] frees the block and leaves the three pointers as
    they were: a second [destroy(v)] of a buffer that had a block hands
    the freed block to [free] again, which is undefined. *)
Theorem destroy_twice_undefined (m : mem) (v : positive) (size cap : Z) (l : list Z) :
  state_ok false m →
  buf m v size cap l →
  0 < cap →
  (bvec_dtor v;; bvec_dtor v) m = Undef.
Proof.
  intros Hok (bv & Hv & Hd) Hcap.
  destruct (describes_nonempty _ _ _ _ _ Hd Hcap) as (b & -> & Hb).
  unfold mbind, M_bind, bvec_dtor, load_vec, mbind, M_bind. rewrite Hv. simpl.
  unfold free at 1. simpl. rewrite Hb. simpl. rewrite Hv.
  unfold free. simpl. by rewrite lookup_delete_eq.
Qed.

Lemma destroy_twice_undefined_witness :
  state_ok false sample_mem ∧ buf sample_mem 1 3 4 [65; 66; 67; 0] ∧ 0 < 4 ∧
  (bvec_dtor 1;; bvec_dtor 1) sample_mem = Undef.
Proof.
  assert (0 < 4) as H1 by lia.
  split; [apply state_ok_sample|]. split; [apply buf_sample|]. split; [done|].
  apply (destroy_twice_undefined sample_mem 1 3 4 [65; 66; 67; 0]
           (state_ok_sample false) buf_sample H1).
Defined.

(** X9.  Appending a buffer to itself, [append-buffer(v, v)], when the
    capacity holds twice the size: it returns with the bytes twice, in
    the same block, and the allocator is not called. *)
Theorem self_append_in_place
    (alloc_ok : gmap positive (list Z) → ptr → Z → bool) (junk default_capacity : Z)
    (m : mem) (v : positive) (size cap : Z) (l : list Z) :
  0 ≤ default_capacity < SIZE_MOD →
  state_ok false m →
  buf m v size cap l →
  size + size ≤ cap →
  ∃ m', bvec_vpush alloc_ok junk default_capacity v v m = Ret tt m' ∧
        size_of m' v = Some (size + size) ∧
        capacity_of m' v = Some cap ∧
        bytes_of m' v = Some (take (Z.to_nat size) l ++ take (Z.to_nat size) l) ∧
        calls m' = calls m ∧
        state_ok false m'.
Proof.
  intros Hdef Hok Hbuf Hfit.
  pose proof (self_append_fits alloc_ok junk default_capacity false ltac:(done) Hdef
                m v size cap l
                (λ _ m', size_of m' v = Some (size + size) ∧
                         capacity_of m' v = Some cap ∧
                         bytes_of m' v =
                           Some (take (Z.to_nat size) l ++ take (Z.to_nat size) l) ∧
                         calls m' = calls m ∧ state_ok false m')
                (λ _, False) Hok Hbuf Hfit) as Hwp.
  unfold wp in Hwp.
  destruct (bvec_vpush alloc_ok junk default_capacity v v m) as [[] m'|msg| |].
  - exists m'. split; [done|]. apply Hwp.
    intros m2 l2 Hok2 Hbuf2 Htake Hcalls.
    split; [by eapply buf_size_of|]. split; [by eapply buf_capacity_of|].
    split; [by rewrite (buf_bytes_of _ _ _ _ _ Hbuf2), Htake|]. done.
  - destruct Hwp. intros m2 l2 Hok2 Hbuf2 Htake Hcalls.
    split; [by eapply buf_size_of|]. split; [by eapply buf_capacity_of|].
    split; [by rewrite (buf_bytes_of _ _ _ _ _ Hbuf2), Htake|]. done.
  - destruct Hwp. intros m2 l2 Hok2 Hbuf2 Htake Hcalls.
    split; [by eapply buf_size_of|]. split; [by eapply buf_capacity_of|].
    split; [by rewrite (buf_bytes_of _ _ _ _ _ Hbuf2), Htake|]. done.
  - destruct Hwp. intros m2 l2 Hok2 Hbuf2 Htake Hcalls.
    split; [by eapply buf_size_of|]. split; [by eapply buf_capacity_of|].
    split; [by rewrite (buf_bytes_of _ _ _ _ _ Hbuf2), Htake|]. done.
Qed.

Lemma self_append_in_place_witness :
  0 ≤ 16 < SIZE_MOD ∧ state_ok false roomy_mem ∧
  buf roomy_mem 1 3 16 ([65; 66; 67] ++ replicate 13 0) ∧ 3 + 3 ≤ 16 ∧
  ∃ m', bvec_vpush like_malloc 0 16 1 1 roomy_mem = Ret tt m' ∧
        size_of m' 1 = Some (3 + 3) ∧
        capacity_of m' 1 = Some 16 ∧
        bytes_of m' 1 =
          Some (take (Z.to_nat 3) ([65; 66; 67] ++ replicate 13 0) ++
                take (Z.to_nat 3) ([65; 66; 67] ++ replicate 13 0)) ∧
        calls m' = calls roomy_mem ∧
        state_ok false m'.
Proof.
  assert (0 ≤ 16 < SIZE_MOD) as H1 by (rewrite size_mod_eq; lia).
  assert (3 + 3 ≤ 16) as H2 by lia.
  split; [done|]. split; [apply state_ok_roomy|]. split; [apply buf_roomy|].
  split; [done|].
  apply (self_append_in_place like_malloc 0 16 roomy_mem 1 3 16
           ([65; 66; 67] ++ replicate 13 0) H1 (state_ok_roomy false) buf_roomy H2).
Defined.

(** X10.  Appending a buffer that is not empty to itself when the
    capacity does not hold twice the size never returns: it quits
    because the capacity cannot be had, or [realloc] moves the bytes
    and the copy reads them through the pointer to the block that was
    released, which is undefined. *)
Theorem self_append_cannot_grow
    (alloc_ok : gmap positive (list Z) → ptr → Z → bool) (junk default_capacity : Z)
    (m : mem) (v : positive) (size cap : Z) (l : list Z) :
  0 ≤ default_capacity < SIZE_MOD →
  state_ok false m →
  buf m v size cap l →
  0 < size →
  cap < size + size →
  size + size < SIZE_MOD →
  bvec_vpush alloc_ok junk default_capacity v v m = Undef ∨
  bvec_vpush alloc_ok junk default_capacity v v m = Fatal "integer overflow" ∨
  bvec_vpush alloc_ok junk default_capacity v v m = Fatal "out of memory".
Proof.
  intros Hdef Hok Hbuf Hsize Hgrow Hfit.
  pose proof (self_append_grows alloc_ok junk default_capacity false Hdef
                m v size cap l Hok Hbuf Hsize Hgrow Hfit) as Hrun.
  destruct (bvec_vpush alloc_ok junk default_capacity v v m) as [[] m'|msg| |];
    [done| |by left|done].
  destruct Hrun as [->| ->]; [right; by left|right; by right].
Qed.

Lemma self_append_cannot_grow_witness :
  0 ≤ 16 < SIZE_MOD ∧ state_ok false sample_mem ∧ buf sample_mem 1 3 4 [65; 66; 67; 0] ∧
  0 < 3 ∧ 4 < 3 + 3 ∧ 3 + 3 < SIZE_MOD ∧
  (bvec_vpush like_malloc 0 16 1 1 sample_mem = Undef ∨
   bvec_vpush like_malloc 0 16 1 1 sample_mem = Fatal "integer overflow" ∨
   bvec_vpush like_malloc 0 16 1 1 sample_mem = Fatal "out of memory").
Proof.
  assert (0 ≤ 16 < SIZE_MOD) as H1 by (rewrite size_mod_eq; lia).
  assert (0 < 3) as H2 by lia.
  assert (4 < 3 + 3) as H3 by lia.
  assert (3 + 3 < SIZE_MOD) as H4 by (rewrite size_mod_eq; lia).
  split; [done|]. split; [apply state_ok_sample|]. split; [apply buf_sample|].
  split; [done|]. split; [done|]. split; [done|].
  apply (self_append_cannot_grow like_malloc 0 16 sample_mem 1 3 4 [65; 66; 67; 0] H1
           (state_ok_sample false) buf_sample H2 H3 H4).
Defined.

Lemma sizes_small : 0 < 1 < SIZE_MOD ∧ 0 < 2 < SIZE_MOD ∧ 0 < 4 < SIZE_MOD.
Proof. rewrite size_mod_eq. lia. Qed.

(** X11.  Let [push] be [bvec_push_char], [bvec_push_wchar],
    [bvec_push_int] or [bvec_push_unsigned], for a type of [sz] bytes,
    on a buffer whose size is a multiple of [sz].  [push(v, x)] returns
    with the size grown by [sz] and the bytes of [x] (least significant
    first) after the old bytes; back, read at an unsigned type of [sz]
    bytes, then gives [x] modulo [256^sz], and pop-back returns with the
    size and the bytes as they were before the push.  The push quits
    only when the new size would wrap, no doubling of the capacity
    reaches it within the size type, or the allocator refuses the first
    one that does. *)
Theorem push_back_pop_round_trip
    (alloc_ok : gmap positive (list Z) → ptr → Z → bool) (junk default_capacity : Z)
    (push : positive → Z → M unit) (sz : Z)
    (m : mem) (v : positive) (size cap : Z) (l : list Z) (x : Z) :
  (push = bvec_push_char alloc_ok junk default_capacity ∧ sz = SIZEOF_CHAR) ∨
  (push = bvec_push_wchar alloc_ok junk default_capacity ∧ sz = SIZEOF_WCHAR_T) ∨
  (push = bvec_push_int alloc_ok junk default_capacity ∧ sz = SIZEOF_INT) ∨
  (push = bvec_push_unsigned alloc_ok junk default_capacity ∧ sz = SIZEOF_UNSIGNED) →
  0 ≤ default_capacity < SIZE_MOD →
  state_ok false m →
  buf m v size cap l →
  size mod sz = 0 →
  wp (push v x)
     (λ _ m1,
        size_of m1 v = Some (size + sz) ∧
        bytes_of m1 v = Some (take (Z.to_nat size) l ++ le_encode (Z.to_nat sz) x) ∧
        bvec_tback v sz m1 = Ret (x mod 256 ^ sz) m1 ∧
        wp (bvec_tpopback alloc_ok junk default_capacity v sz)
           (λ _ m2, size_of m2 v = Some size ∧ bytes_of m2 v = bytes_of m v)
           (λ _, False) m1)
     (λ msg, (SIZE_MOD ≤ size + sz ∧ msg = "interger overflow"%string) ∨
             growth_fails alloc_ok default_capacity
               (local_frame (le_encode (Z.to_nat sz) x) m) v cap (size + sz) msg)
     m.
Proof.
  intros Hpush Hdef Hok Hbuf Hmod. destruct sizes_small as (S1 & S2 & S4).
  assert (push v x = with_local (le_encode (Z.to_nat sz) x)
                       (λ p, bvec_bpush alloc_ok junk default_capacity v p sz) ∧
          0 < sz < SIZE_MOD) as [-> Hsz].
  { destruct Hpush as [[-> ->]|[[-> ->]|[[-> ->]|[-> ->]]]]; done. }
  eapply wp_mono;
    [apply (wp_push_back_pop alloc_ok junk default_capacity false ltac:(done) Hdef
              m v size cap l sz x
              (λ msg, (SIZE_MOD ≤ size + sz ∧ msg = "interger overflow"%string) ∨
                      growth_fails alloc_ok default_capacity
                        (local_frame (le_encode (Z.to_nat sz) x) m) v cap (size + sz) msg)
              Hok Hbuf Hsz Hmod)| |done].
  - intros Hwrap. by left.
  - intros Hcap Hwrap. right. split; [done|]. by left.
  - intros Hcap c' Hc' Hd Hno. right. split; [done|]. right. split; [done|]. by exists c'.
  - intros [] m1 (Hok1 & Hs1 & Hb1 & Hback & Hpop). split; [done|]. split; [done|].
    split; [done|]. eapply wp_mono; [exact Hpop| |done].
    intros [] m2 (_ & Hs2 & Hb2). split; [done|].
    by rewrite (buf_bytes_of _ _ _ _ _ Hbuf).
Qed.

Lemma push_back_pop_round_trip_witness :
  ((bvec_push_unsigned like_malloc 0 16 = bvec_push_char like_malloc 0 16 ∧
    4 = SIZEOF_CHAR) ∨
   (bvec_push_unsigned like_malloc 0 16 = bvec_push_wchar like_malloc 0 16 ∧
    4 = SIZEOF_WCHAR_T) ∨
   (bvec_push_unsigned like_malloc 0 16 = bvec_push_int like_malloc 0 16 ∧
    4 = SIZEOF_INT) ∨
   (bvec_push_unsigned like_malloc 0 16 = bvec_push_unsigned like_malloc 0 16 ∧
    4 = SIZEOF_UNSIGNED)) ∧
  0 ≤ 16 < SIZE_MOD ∧ state_ok false sample_mem ∧ buf sample_mem 2 0 0 [] ∧
  0 mod 4 = 0 ∧
  wp (bvec_push_unsigned like_malloc 0 16 2 0x44556677)
     (λ _ m1,
        size_of m1 2 = Some (0 + 4) ∧
        bytes_of m1 2 = Some (take (Z.to_nat 0) [] ++ le_encode (Z.to_nat 4) 0x44556677) ∧
        bvec_tback 2 4 m1 = Ret (0x44556677 mod 256 ^ 4) m1 ∧
        wp (bvec_tpopback like_malloc 0 16 2 4)
           (λ _ m2, size_of m2 2 = Some 0 ∧ bytes_of m2 2 = bytes_of sample_mem 2)
           (λ _, False) m1)
     (λ msg, (SIZE_MOD ≤ 0 + 4 ∧ msg = "interger overflow"%string) ∨
             growth_fails like_malloc 16
               (local_frame (le_encode (Z.to_nat 4) 0x44556677) sample_mem) 2 0 (0 + 4) msg)
     sample_mem.
Proof.
  assert ((bvec_push_unsigned like_malloc 0 16 = bvec_push_char like_malloc 0 16 ∧
           4 = SIZEOF_CHAR) ∨
          (bvec_push_unsigned like_malloc 0 16 = bvec_push_wchar like_malloc 0 16 ∧
           4 = SIZEOF_WCHAR_T) ∨
          (bvec_push_unsigned like_malloc 0 16 = bvec_push_int like_malloc 0 16 ∧
           4 = SIZEOF_INT) ∨
          (bvec_push_unsigned like_malloc 0 16 = bvec_push_unsigned like_malloc 0 16 ∧
           4 = SIZEOF_UNSIGNED)) as H0 by (right; right; by right).
  assert (0 ≤ 16 < SIZE_MOD) as H1 by (rewrite size_mod_eq; lia).
  assert (0 mod 4 = 0) as H2 by done.
  split; [done|]. split; [done|]. split; [apply state_ok_sample|].
  split; [apply buf_sample_empty|]. split; [done|].
  apply (push_back_pop_round_trip like_malloc 0 16 _ 4 sample_mem 2 0 0 [] 0x44556677
           H0 H1 (state_ok_sample false) buf_sample_empty H2).
Defined.

(** X12.  Let [ctor] and [get] be [bvec_strctor] and [bvec_getstr], or
    [bvec_wcsctor] and [bvec_getwcs], and let a string of [n]
    elements be at [str].  [ctor(v, str)] returns with the buffer
    holding the elements of the string and its terminator, and nothing
    else; [get(v)] then returns [begin] and changes nothing.  The
    constructor quits only when the first block cannot be had: no
    doubling of the default capacity holds the string within the size
    type, or the allocator refuses the first one that does. *)
Theorem string_constructor_spec
    (alloc_ok : gmap positive (list Z) → ptr → Z → bool) (junk default_capacity : Z)
    (ctor : positive → ptr → M unit) (get : positive → M ptr) (sz : Z)
    (m : mem) (v : positive) (str : ptr) (n : Z) (bytes : list Z) :
  (ctor = bvec_strctor alloc_ok junk default_capacity ∧
   get = bvec_getstr alloc_ok junk default_capacity ∧ sz = SIZEOF_CHAR) ∨
  (ctor = bvec_wcsctor alloc_ok junk default_capacity ∧
   get = bvec_getwcs alloc_ok junk default_capacity ∧ sz = SIZEOF_WCHAR_T) →
  0 ≤ default_capacity < SIZE_MOD →
  state_ok false m →
  string_at m str sz n bytes →
  wp (ctor v str)
     (λ _ m1, size_of m1 v = Some ((n + 1) * sz) ∧
              bytes_of m1 v = Some bytes ∧
              state_ok false m1 ∧
              ∃ p, bvec_bdata v m1 = Ret p m1 ∧ get v m1 = Ret p m1)
     (λ msg, first_block_fails alloc_ok default_capacity (blocks m) ((n + 1) * sz) msg)
     m.
Proof.
  intros Hfun Hdef Hok Hstr. destruct sizes_small as (S1 & S2 & S4).
  assert (ctor = ctor_terminated alloc_ok junk default_capacity sz ∧
          get = get_terminated alloc_ok junk default_capacity sz ∧
          0 < sz < SIZE_MOD) as (-> & -> & Hsz).
  { destruct Hfun as [(-> & -> & ->)|(-> & -> & ->)]; done. }
  eapply (wp_ctor_terminated_exact alloc_ok junk default_capacity false); try done;
    [|by left|intros c' ? ?; right; split; [done|]; by exists c'].
  intros m1 cap1 l1 Hok1 Hbuf1 Htake1 Hlast1.
  destruct (string_at_last m str sz n bytes l1 ltac:(lia) Hstr Htake1) as (Hn & _ & _).
  split; [by eapply buf_size_of|]. split.
  { rewrite (buf_bytes_of _ _ _ _ _ Hbuf1). by f_equal. }
  split; [done|]. pose proof Hbuf1 as (bv1 & Hv1 & Hd1). exists (begin bv1). split.
  - unfold bvec_bdata, mbind, M_bind, load_vec. by rewrite Hv1.
  - eapply (get_terminated_fixed alloc_ok junk default_capacity Hdef); [done|done|lia|nia| |done].
    apply Z.mod_mul. lia.
Qed.

Lemma string_constructor_spec_witness :
  ((bvec_strctor like_malloc 0 16 = bvec_strctor like_malloc 0 16 ∧
    bvec_getstr like_malloc 0 16 = bvec_getstr like_malloc 0 16 ∧ 1 = SIZEOF_CHAR) ∨
   (bvec_strctor like_malloc 0 16 = bvec_wcsctor like_malloc 0 16 ∧
    bvec_getstr like_malloc 0 16 = bvec_getwcs like_malloc 0 16 ∧ 1 = SIZEOF_WCHAR_T)) ∧
  0 ≤ 16 < SIZE_MOD ∧ state_ok false text_mem ∧
  string_at text_mem (Ptr 2 0) 1 2 [67; 68; 0] ∧
  wp (bvec_strctor like_malloc 0 16 2 (Ptr 2 0))
     (λ _ m1, size_of m1 2 = Some ((2 + 1) * 1) ∧
              bytes_of m1 2 = Some [67; 68; 0] ∧
              state_ok false m1 ∧
              ∃ p, bvec_bdata 2 m1 = Ret p m1 ∧ bvec_getstr like_malloc 0 16 2 m1 = Ret p m1)
     (λ msg, first_block_fails like_malloc 16 (blocks text_mem) ((2 + 1) * 1) msg)
     text_mem.
Proof.
  assert ((bvec_strctor like_malloc 0 16 = bvec_strctor like_malloc 0 16 ∧
           bvec_getstr like_malloc 0 16 = bvec_getstr like_malloc 0 16 ∧ 1 = SIZEOF_CHAR) ∨
          (bvec_strctor like_malloc 0 16 = bvec_wcsctor like_malloc 0 16 ∧
           bvec_getstr like_malloc 0 16 = bvec_getwcs like_malloc 0 16 ∧
           1 = SIZEOF_WCHAR_T)) as H0 by (by left).
  assert (0 ≤ 16 < SIZE_MOD) as H1 by (rewrite size_mod_eq; lia).
  split; [done|]. split; [done|]. split; [apply state_ok_text|].
  split; [apply string_at_text|].
  apply (string_constructor_spec like_malloc 0 16 _ _ 1 text_mem 2 (Ptr 2 0) 2 [67; 68; 0]
           H0 H1 (state_ok_text false) string_at_text).
Defined.

(** X13.  Let [cat] be [bvec_strcat] or [bvec_wcscat], on a buffer
    whose size is a multiple of the element size, and let a string of
    [n] elements be at [str], outside the block of the buffer.
    [cat(v, str)] returns with the elements of the string and its
    terminator after what the buffer held, less the terminator it ended
    with if it ended with one.  It quits only when the new size would
    wrap, no doubling of the capacity reaches it within the size type,
    or the allocator refuses the first one that does. *)
Theorem concat_string_spec
    (alloc_ok : gmap positive (list Z) → ptr → Z → bool) (junk default_capacity : Z)
    (cat : positive → ptr → M unit) (sz : Z)
    (m : mem) (v : positive) (size cap : Z) (l : list Z)
    (str : ptr) (n : Z) (bytes : list Z) :
  (cat = bvec_strcat alloc_ok junk default_capacity ∧ sz = SIZEOF_CHAR) ∨
  (cat = bvec_wcscat alloc_ok junk default_capacity ∧ sz = SIZEOF_WCHAR_T) →
  0 ≤ default_capacity < SIZE_MOD →
  state_ok false m →
  buf m v size cap l →
  size mod sz = 0 →
  string_at m str sz n bytes →
  (∀ b o, str = Ptr b o → ¬ owns m v b) →
  wp (cat v str)
     (λ _ m', size_of m' v = Some (unterminated sz size l + (n + 1) * sz) ∧
              bytes_of m' v = Some (take (Z.to_nat (unterminated sz size l)) l ++ bytes) ∧
              state_ok false m')
     (λ msg, (SIZE_MOD ≤ unterminated sz size l + (n + 1) * sz ∧
              msg = "interger overflow"%string) ∨
             growth_fails alloc_ok default_capacity m v cap
               (unterminated sz size l + (n + 1) * sz) msg)
     m.
Proof.
  intros Hfun Hdef Hok Hbuf Hmod Hstr Hout. destruct sizes_small as (S1 & S2 & S4).
  assert (cat = cat_terminated alloc_ok junk default_capacity sz ∧ 0 < sz < SIZE_MOD)
    as (-> & Hsz).
  { destruct Hfun as [(-> & ->)|(-> & ->)]; done. }
  pose proof Hbuf as (bv & Hv & Hd).
  pose proof (describes_bounds _ _ _ _ _ Hd) as (Hs & Hc & Hl).
  eapply (wp_cat_terminated_exact alloc_ok junk default_capacity false); try done.
  - intros Hfit m' cap' l' Hok' Hbuf' Htake _.
    split; [by eapply buf_size_of|]. split; [|done].
    rewrite (buf_bytes_of _ _ _ _ _ Hbuf'). by f_equal.
  - intros Hbig. by left.
  - intros Hbig Hwrap. right. split; [done|]. by left.
  - intros Hbig c' Hc' Hdbl Hno. right. split; [done|]. right. split; [done|]. by exists c'.
Qed.

Lemma concat_string_spec_witness :
  ((bvec_strcat like_malloc 0 16 = bvec_strcat like_malloc 0 16 ∧ 1 = SIZEOF_CHAR) ∨
   (bvec_strcat like_malloc 0 16 = bvec_wcscat like_malloc 0 16 ∧ 1 = SIZEOF_WCHAR_T)) ∧
  0 ≤ 16 < SIZE_MOD ∧ state_ok false text_mem ∧ buf text_mem 1 3 4 [65; 66; 0; 7] ∧
  3 mod 1 = 0 ∧ string_at text_mem (Ptr 2 0) 1 2 [67; 68; 0] ∧
  (∀ b o, Ptr 2 0 = Ptr b o → ¬ owns text_mem 1 b) ∧
  wp (bvec_strcat like_malloc 0 16 1 (Ptr 2 0))
     (λ _ m', size_of m' 1 = Some (unterminated 1 3 [65; 66; 0; 7] + (2 + 1) * 1) ∧
              bytes_of m' 1 =
                Some (take (Z.to_nat (unterminated 1 3 [65; 66; 0; 7])) [65; 66; 0; 7]
                      ++ [67; 68; 0]) ∧
              state_ok false m')
     (λ msg, (SIZE_MOD ≤ unterminated 1 3 [65; 66; 0; 7] + (2 + 1) * 1 ∧
              msg = "interger overflow"%string) ∨
             growth_fails like_malloc 16 text_mem 1 4
               (unterminated 1 3 [65; 66; 0; 7] + (2 + 1) * 1) msg)
     text_mem.
Proof.
  assert ((bvec_strcat like_malloc 0 16 = bvec_strcat like_malloc 0 16 ∧ 1 = SIZEOF_CHAR) ∨
          (bvec_strcat like_malloc 0 16 = bvec_wcscat like_malloc 0 16 ∧
           1 = SIZEOF_WCHAR_T)) as H0 by (by left).
  assert (0 ≤ 16 < SIZE_MOD) as H1 by (rewrite size_mod_eq; lia).
  assert (3 mod 1 = 0) as H2 by done.
  split; [done|]. split; [done|]. split; [apply state_ok_text|]. split; [apply buf_text|].
  split; [done|]. split; [apply string_at_text|]. split; [apply text_outside|].
  apply (concat_string_spec like_malloc 0 16 _ 1 text_mem 1 3 4 [65; 66; 0; 7]
           (Ptr 2 0) 2 [67; 68; 0] H0 H1 (state_ok_text false) buf_text H2
           string_at_text text_outside).
Defined.



(** X15.  Let [pushback] be [bvec_strpushback] or [bvec_wcspushback],
    and [c] a value of the element type.  [pushback(v, c)] returns with
    [c] and a terminator after what the buffer held, less the
    terminator it ended with if it ended with one; for [c = 0] only the
    terminator is there.  It quits only when the new size would wrap,
    no doubling of the capacity reaches it within the size type, or the
    allocator refuses the first one that does. *)
Theorem push_character_spec
    (alloc_ok : gmap positive (list Z) → ptr → Z → bool) (junk default_capacity : Z)
    (pushback : positive → Z → M unit) (sz : Z)
    (m : mem) (v : positive) (size cap : Z) (l : list Z) (c : Z) :
  (pushback = bvec_strpushback alloc_ok junk default_capacity ∧ sz = SIZEOF_CHAR) ∨
  (pushback = bvec_wcspushback alloc_ok junk default_capacity ∧ sz = SIZEOF_WCHAR_T) →
  0 ≤ default_capacity < SIZE_MOD →
  state_ok false m →
  buf m v size cap l →
  size mod sz = 0 →
  0 ≤ c < 256 ^ sz →
  wp (pushback v c)
     (λ _ m',
        let added := if decide (c = 0) then replicate (Z.to_nat sz) 0
                     else le_encode (Z.to_nat sz) c ++ replicate (Z.to_nat sz) 0 in
        size_of m' v = Some (unterminated sz size l + Z.of_nat (length added)) ∧
        bytes_of m' v = Some (take (Z.to_nat (unterminated sz size l)) l ++ added) ∧
        state_ok false m')
     (λ msg,
        let total := unterminated sz size l +
                     (if decide (c = 0) then sz else 2 * sz) in
        (SIZE_MOD ≤ total ∧ msg = "interger overflow"%string) ∨
        growth_fails alloc_ok default_capacity
          (local_frame (le_encode (Z.to_nat sz) c ++ le_encode (Z.to_nat sz) 0) m)
          v cap total msg)
     m.
Proof.
  intros Hfun Hdef Hok Hbuf Hmod Hc. pose proof size_mod_eq as HM.
  assert (pushback = pushback_terminated alloc_ok junk default_capacity sz ∧
          0 < sz ∧ 2 * sz < SIZE_MOD) as (-> & Hsz & Hsmall).
  { destruct Hfun as [(-> & ->)|(-> & ->)]; split; try done;
      unfold SIZEOF_CHAR, SIZEOF_WCHAR_T; lia. }
  assert (Z.of_nat (length (if decide (c = 0) then replicate (Z.to_nat sz) 0
                            else le_encode (Z.to_nat sz) c ++ replicate (Z.to_nat sz) 0))
          = if decide (c = 0) then sz else 2 * sz) as Hadded.
  { case_decide; rewrite ?length_app, ?le_encode_length, ?length_replicate; lia. }
  eapply (wp_pushback_terminated_exact alloc_ok junk default_capacity false); try done;
    cbn zeta.
  - intros Hfit m' cap' l' Hok' Hbuf' Htake.
    split; [by eapply buf_size_of|]. split; [|done].
    rewrite (buf_bytes_of _ _ _ _ _ Hbuf'). by f_equal.
  - rewrite Hadded. intros Hbig. by left.
  - rewrite Hadded. intros Hbig Hwrap. right. split; [done|]. by left.
  - rewrite Hadded. intros Hbig c' Hc' Hdbl Hno. right. split; [done|]. right.
    split; [done|]. by exists c'.
Qed.

Lemma push_character_spec_witness :
  ((bvec_strpushback like_malloc 0 16 = bvec_strpushback like_malloc 0 16 ∧
    1 = SIZEOF_CHAR) ∨
   (bvec_strpushback like_malloc 0 16 = bvec_wcspushback like_malloc 0 16 ∧
    1 = SIZEOF_WCHAR_T)) ∧
  0 ≤ 16 < SIZE_MOD ∧ state_ok false text_mem ∧ buf text_mem 1 3 4 [65; 66; 0; 7] ∧
  3 mod 1 = 0 ∧ 0 ≤ 67 < 256 ^ 1 ∧
  wp (bvec_strpushback like_malloc 0 16 1 67)
     (λ _ m',
        let added := if decide (67 = 0) then replicate (Z.to_nat 1) 0
                     else le_encode (Z.to_nat 1) 67 ++ replicate (Z.to_nat 1) 0 in
        size_of m' 1 = Some (unterminated 1 3 [65; 66; 0; 7] + Z.of_nat (length added)) ∧
        bytes_of m' 1 =
          Some (take (Z.to_nat (unterminated 1 3 [65; 66; 0; 7])) [65; 66; 0; 7] ++ added) ∧
        state_ok false m')
     (λ msg,
        let total := unterminated 1 3 [65; 66; 0; 7] +
                     (if decide (67 = 0) then 1 else 2 * 1) in
        (SIZE_MOD ≤ total ∧ msg = "interger overflow"%string) ∨
        growth_fails like_malloc 16
          (local_frame (le_encode (Z.to_nat 1) 67 ++ le_encode (Z.to_nat 1) 0) text_mem)
          1 4 total msg)
     text_mem.
Proof.
  assert ((bvec_strpushback like_malloc 0 16 = bvec_strpushback like_malloc 0 16 ∧
           1 = SIZEOF_CHAR) ∨
          (bvec_strpushback like_malloc 0 16 = bvec_wcspushback like_malloc 0 16 ∧
           1 = SIZEOF_WCHAR_T)) as H0 by (by left).
  assert (0 ≤ 16 < SIZE_MOD) as H1 by (rewrite size_mod_eq; lia).
  assert (3 mod 1 = 0) as H2 by done.
  assert (0 ≤ 67 < 256 ^ 1) as H3 by lia.
  split; [done|]. split; [done|]. split; [apply state_ok_text|]. split; [apply buf_text|].
  split; [done|]. split; [done|].
  apply (push_character_spec like_malloc 0 16 _ 1 text_mem 1 3 4 [65; 66; 0; 7] 67
           H0 H1 (state_ok_text false) buf_text H2 H3).
Defined.

(** X16.  Let [shrink] be [bvec_strshrink] or [bvec_wcsshrink], on a
    buffer whose block holds a string of [n] elements at its start.
    [shrink(v)] returns with the size of the string and its terminator,
    the bytes of the block up to there, and the capacity halved as long
    as the half still holds them: it is not above the old one and below
    twice the size.  It quits only with "out of memory", when the
    allocator refuses that capacity. *)
Theorem shrink_to_string_spec
    (alloc_ok : gmap positive (list Z) → ptr → Z → bool) (junk default_capacity : Z)
    (shrink : positive → M unit) (sz : Z)
    (m : mem) (v : positive) (size cap : Z) (l : list Z) (bv : bvec) (n : Z) :
  (shrink = bvec_strshrink alloc_ok junk default_capacity ∧ sz = SIZEOF_CHAR) ∨
  (shrink = bvec_wcsshrink alloc_ok junk default_capacity ∧ sz = SIZEOF_WCHAR_T) →
  0 ≤ default_capacity < SIZE_MOD →
  state_ok false m →
  buf m v size cap l →
  vecs m !! v = Some bv →
  string_length (begin bv) sz m = Ret n m →
  wp (shrink v)
     (λ _ m', ∃ cap',
        size_of m' v = Some ((n + 1) * sz) ∧
        bytes_of m' v = Some (take (Z.to_nat ((n + 1) * sz)) l) ∧
        capacity_of m' v = Some cap' ∧ cap' ≤ cap ∧ cap' < 2 * ((n + 1) * sz) ∧
        halved cap cap' ∧
        state_ok false m')
     (λ msg, msg = "out of memory"%string ∧
             ∃ cap', (n + 1) * sz ≤ cap' ≤ cap ∧ cap' < 2 * ((n + 1) * sz) ∧
                     halved cap cap' ∧ refuses alloc_ok m v cap')
     m.
Proof.
  intros Hfun Hdef Hok Hbuf Hv Hlen. destruct sizes_small as (S1 & S2 & S4).
  assert (shrink = shrink_terminated alloc_ok junk default_capacity sz ∧ 0 < sz < SIZE_MOD)
    as (-> & Hsz).
  { destruct Hfun as [(-> & ->)|(-> & ->)]; done. }
  pose proof Hbuf as (bv' & Hv' & Hd). rewrite Hv in Hv'. injection Hv' as <-.
  pose proof (describes_bounds _ _ _ _ _ Hd) as (Hs & Hc & Hl).
  assert (∀ cap', cap' / 2 < (n + 1) * sz → cap' < 2 * ((n + 1) * sz)) as Hhalve.
  { intros cap' Hhalf. destruct (decide (cap' < 2 * ((n + 1) * sz))); [done|].
    assert ((n + 1) * sz ≤ cap' / 2); [|lia]. apply Z.div_le_lower_bound; lia. }
  eapply (wp_shrink_terminated_exact alloc_ok junk default_capacity false); try done; [lia| |].
  - intros m' cap' Hok' Hbuf' Hcap' Hhalf Hhalved _. exists cap'.
    split; [by eapply buf_size_of|]. split.
    { rewrite (buf_bytes_of _ _ _ _ _ Hbuf'). f_equal.
      rewrite take_resize_le by lia. apply resize_le. lia. }
    split; [by eapply buf_capacity_of|]. split; [lia|]. split; [by apply Hhalve|done].
  - intros cap' Hcap' Hnz Hhalf Hhalved Hno. split; [done|]. exists cap'.
    split; [done|]. split; [by apply Hhalve|done].
Qed.

(** X17.  Let [shrink] be [bvec_strshrink] or [bvec_wcsshrink].  On a
    buffer without capacity [shrink(v)] is undefined: it measures the
    string at [begin], and there is no block to read. *)
Theorem shrink_without_capacity_undefined
    (alloc_ok : gmap positive (list Z) → ptr → Z → bool) (junk default_capacity : Z)
    (shrink : positive → M unit) (m : mem) (v : positive) (size : Z) (l : list Z) :
  shrink = bvec_strshrink alloc_ok junk default_capacity ∨
  shrink = bvec_wcsshrink alloc_ok junk default_capacity →
  state_ok false m →
  buf m v size 0 l →
  shrink v m = Undef.
Proof.
  intros Hfun Hok (bv & Hv & Hd).
  assert (∃ sz, shrink = shrink_terminated alloc_ok junk default_capacity sz) as [sz ->].
  { destruct Hfun as [->| ->]; [by exists SIZEOF_CHAR|by exists SIZEOF_WCHAR_T]. }
  unfold shrink_terminated, mbind, M_bind, bvec_tdata, bvec_bdata, mbind,
    M_bind, load_vec. rewrite Hv.
  inversion Hd as [|b ? ? ? ? ? Hlen Hb]; subst; simpl; [done|].
  unfold string_length. rewrite Hb. destruct l; [|simpl in Hlen; lia]. simpl.
  by destruct (Z.to_nat sz).
Qed.

Lemma shrink_without_capacity_undefined_witness :
  (bvec_strshrink like_malloc 0 16 = bvec_strshrink like_malloc 0 16 ∨
   bvec_strshrink like_malloc 0 16 = bvec_wcsshrink like_malloc 0 16) ∧
  state_ok false sample_mem ∧ buf sample_mem 2 0 0 [] ∧
  bvec_strshrink like_malloc 0 16 2 sample_mem = Undef.
Proof.
  assert (bvec_strshrink like_malloc 0 16 = bvec_strshrink like_malloc 0 16 ∨
          bvec_strshrink like_malloc 0 16 = bvec_wcsshrink like_malloc 0 16) as H0
    by (by left).
  split; [done|]. split; [apply state_ok_sample|]. split; [apply buf_sample_empty|].
  apply (shrink_without_capacity_undefined like_malloc 0 16 _ sample_mem 2 0 [] H0
           (state_ok_sample false) buf_sample_empty).
Defined.

Lemma shrink_to_string_spec_witness :
  ((bvec_strshrink like_malloc 0 16 = bvec_strshrink like_malloc 0 16 ∧ 1 = SIZEOF_CHAR) ∨
   (bvec_strshrink like_malloc 0 16 = bvec_wcsshrink like_malloc 0 16 ∧
    1 = SIZEOF_WCHAR_T)) ∧
  0 ≤ 16 < SIZE_MOD ∧ state_ok false roomy_mem ∧
  buf roomy_mem 1 3 16 ([65; 66; 67] ++ replicate 13 0) ∧
  vecs roomy_mem !! 1%positive = Some (Bvec (Ptr 1 0) (Ptr 1 3) (Ptr 1 16)) ∧
  string_length (Ptr 1 0) 1 roomy_mem = Ret 3 roomy_mem ∧
  wp (bvec_strshrink like_malloc 0 16 1)
     (λ _ m', ∃ cap',
        size_of m' 1 = Some ((3 + 1) * 1) ∧
        bytes_of m' 1 = Some (take (Z.to_nat ((3 + 1) * 1)) ([65; 66; 67] ++ replicate 13 0)) ∧
        capacity_of m' 1 = Some cap' ∧ cap' ≤ 16 ∧ cap' < 2 * ((3 + 1) * 1) ∧
        halved 16 cap' ∧
        state_ok false m')
     (λ msg, msg = "out of memory"%string ∧
             ∃ cap', (3 + 1) * 1 ≤ cap' ≤ 16 ∧ cap' < 2 * ((3 + 1) * 1) ∧
                     halved 16 cap' ∧ refuses like_malloc roomy_mem 1 cap')
     roomy_mem.
Proof.
  assert ((bvec_strshrink like_malloc 0 16 = bvec_strshrink like_malloc 0 16 ∧
           1 = SIZEOF_CHAR) ∨
          (bvec_strshrink like_malloc 0 16 = bvec_wcsshrink like_malloc 0 16 ∧
           1 = SIZEOF_WCHAR_T)) as H0 by (by left).
  assert (0 ≤ 16 < SIZE_MOD) as H1 by (rewrite size_mod_eq; lia).
  assert (vecs roomy_mem !! 1%positive = Some (Bvec (Ptr 1 0) (Ptr 1 3) (Ptr 1 16)))
    as H2 by done.
  assert (string_length (Ptr 1 0) 1 roomy_mem = Ret 3 roomy_mem) as H3 by done.
  split; [done|]. split; [done|]. split; [apply state_ok_roomy|].
  split; [apply buf_roomy|]. split; [done|]. split; [done|].
  apply (shrink_to_string_spec like_malloc 0 16 _ 1 roomy_mem 1 3 16
           ([65; 66; 67] ++ replicate 13 0) _ 3
           H0 H1 (state_ok_roomy false) buf_roomy H2 H3).
Defined.

Lemma fuel_32 bufsize fuel :
  0 < bufsize → (32 ≤ fuel)%nat → SIZE_MOD ≤ bufsize * 2 ^ Z.of_nat fuel.
Proof.
  intros Hbs Hfuel. rewrite size_mod_eq.
  assert (2 ^ 32 ≤ 2 ^ Z.of_nat fuel) by (apply Z.pow_le_mono_r; lia).
  destruct pow2_31_32 as [_ H32]. nia.
Qed.

Lemma half_double cap size : 0 ≤ size → cap / 2 < size → cap < 2 * size.
Proof.
  intros Hsize Hhalf. destruct (decide (cap < 2 * size)); [done|].
  assert (size ≤ cap / 2); [|lia]. apply Z.div_le_lower_bound; lia.
Qed.







End ByteVectorExtras.

(** * More proofs about the converters *)

Module WStrMore.
Import WStr WStrProofs.

Lemma cstr_pushback_app v c : cstr_pushback v c = v ++ cstr_pushback [] c.
Proof. unfold cstr_pushback. case_decide; [by rewrite app_nil_r|done]. Qed.

Lemma wstr_pushback_app v c : wstr_pushback v c = v ++ wstr_pushback [] c.
Proof. unfold wstr_pushback. case_decide; [by rewrite app_nil_r|done]. Qed.

Lemma utf8_put_acc v c : utf8_put v c = v ++ utf8_put [] c.
Proof.
  unfold utf8_put. repeat case_decide; cbn zeta;
    repeat (rewrite (cstr_pushback_app (cstr_pushback _ _)));
    rewrite (cstr_pushback_app v); by rewrite ?app_nil_l, <- ?app_assoc.
Qed.

Lemma utf16_put_acc v c : utf16_put v c = v ++ utf16_put [] c.
Proof.
  unfold utf16_put. case_decide; cbn zeta.
  - apply wstr_pushback_app.
  - rewrite (wstr_pushback_app (wstr_pushback v _)), (wstr_pushback_app v).
    rewrite (wstr_pushback_app (wstr_pushback [] _)).
    by rewrite <- ?app_assoc.
Qed.

Lemma utf16_to_utf8_loop_app s v :
  utf16_to_utf8_loop s v = v ++ utf16_to_utf8_loop s [].
Proof.
  assert (∀ n s, (length s ≤ n)%nat →
            ∀ v, utf16_to_utf8_loop s v = v ++ utf16_to_utf8_loop s []) as Hind;
    [|by eapply Hind].
  clear. induction n as [|n IH]; intros [|x s1] Hlen v; simpl in Hlen;
    try lia; try (by rewrite app_nil_r).
  cbn [utf16_to_utf8_loop]. case_decide; [by rewrite app_nil_r|].
  assert (∀ c, utf16_to_utf8_loop s1 (utf8_put v c) =
               v ++ utf16_to_utf8_loop s1 (utf8_put [] c)) as Hs1.
  { intros c. rewrite (IH s1), (IH s1 ltac:(lia) (utf8_put [] c)), (utf8_put_acc v) by lia.
    by rewrite app_assoc. }
  case_decide; [apply Hs1|]. case_decide; [|apply Hs1].
  destruct s1 as [|y s2]; [apply Hs1|]. case_decide; [|apply Hs1].
  simpl in Hlen.
  rewrite (IH s2), (IH s2 ltac:(lia) (utf8_put [] _)), (utf8_put_acc v) by lia.
  by rewrite app_assoc.
Qed.

Lemma utf8_follow_length k i b c s : (length (utf8_follow k i b c s).2 ≤ length s)%nat.
Proof.
  revert i b c s. induction k as [|k IH]; intros i b c s; simpl; [lia|].
  case_decide; simpl; [lia|]. etrans; [apply IH|]. destruct s; simpl; lia.
Qed.

Lemma utf8_take_length x s : (length (utf8_take x s).2 ≤ length s)%nat.
Proof. apply utf8_follow_length. Qed.

Lemma utf8_to_utf16_loop_app s v :
  utf8_to_utf16_loop s v = v ++ utf8_to_utf16_loop s [].
Proof.
  assert (∀ n s, (length s ≤ n)%nat →
            ∀ v, utf8_to_utf16_loop s v = v ++ utf8_to_utf16_loop s []) as Hind;
    [|by eapply Hind].
  clear. induction n as [|n IH]; intros [|x s1] Hlen v; simpl in Hlen; try lia;
    rewrite ?utf8_to_utf16_loop_equation_1; try (by rewrite app_nil_r).
  rewrite !utf8_to_utf16_loop_equation_2. case_decide; [by rewrite app_nil_r|].
  pose proof (utf8_take_length x s1) as Hshort.
  assert (length (utf8_take x s1).2 ≤ n)%nat as Hn by lia.
  rewrite (IH _ Hn), (IH _ Hn (utf16_put [] _)), (utf16_put_acc v).
  by rewrite app_assoc.
Qed.

(** A turn of the [for] loop, as arithmetic. *)
Lemma utf8_follow_turn k i b c s :
  0 ≤ c < 2 ^ 26 →
  utf8_follow (S k) i b c s =
    let l := if decide (i = 1) then
               (if decide (b = 0xe0) then 0xa0 else if decide (b = 0xf0) then 0x90 else 0x80)
             else 0x80 in
    let h := if decide (i = 1) then
               (if decide (b = 0xed) then 0x9f else if decide (b = 0xf4) then 0x8f else 0xbf)
             else 0xbf in
    let b' := u8 (peek s) in
    if decide (b' < l ∨ b' > h) then (0xfffd, s)
    else utf8_follow k (i + 1) b' (c * 64 + b' mod 64) (tail s).
Proof.
  intros Hc. cbn [utf8_follow]. cbn zeta. case_decide; [done|].
  rewrite shiftl_6, land_3f, u32_small by lia. by rewrite lor_64 by divmod.
Qed.

Lemma u8_range x : 0 ≤ u8 x < 256.
Proof. unfold u8. apply Z.mod_pos_bound. lia. Qed.

Lemma u16_range x : 0 ≤ u16 x < 65536.
Proof. unfold u16. apply Z.mod_pos_bound. lia. Qed.

(** Whatever the bytes are, a turn of the loop of [utf8_to_utf16]
    decodes zero or a scalar value. *)
Lemma utf8_take_scalar x s : (utf8_take x s).1 = 0 ∨ scalar (utf8_take x s).1.
Proof.
  unfold utf8_take, scalar. pose proof (u8_range x) as Hb.
  set (b := u8 x) in *. clearbody b.
  unfold utf8_lead. repeat case_decide; cbn [fst snd].
  - cbn. lia.
  - cbn. lia.
  - rewrite land_1f. rewrite utf8_follow_turn by divmod. cbn zeta.
    pose proof (u8_range (peek s)).
    repeat case_decide; cbn [fst snd utf8_follow]; try lia; right; divmod.
  - rewrite land_0f. do 2 (rewrite utf8_follow_turn by divmod; cbn zeta).
    pose proof (u8_range (peek s)). set (b2 := u8 (peek s)) in *. clearbody b2.
    pose proof (u8_range (peek (tail s))). set (b3 := u8 (peek (tail s))) in *. clearbody b3.
    repeat case_decide; cbn [fst snd utf8_follow]; try lia; right; divmod.
  - rewrite land_07. do 3 (rewrite utf8_follow_turn by divmod; cbn zeta).
    pose proof (u8_range (peek s)). set (b2 := u8 (peek s)) in *. clearbody b2.
    pose proof (u8_range (peek (tail s))). set (b3 := u8 (peek (tail s))) in *. clearbody b3.
    pose proof (u8_range (peek (tail (tail s)))).
    set (b4 := u8 (peek (tail (tail s)))) in *. clearbody b4.
    repeat case_decide; cbn [fst snd utf8_follow]; try lia; right; divmod.
  - cbn. lia.
Qed.

Lemma well_formed_utf16_app s t :
  well_formed_utf16 s → well_formed_utf16 t → well_formed_utf16 (s ++ t).
Proof. induction 1; intros; cbn [app]; [done|by apply wf_unit; auto|by apply wf_pair; auto]. Qed.

Lemma well_formed_utf8_app s t :
  well_formed_utf8 s → well_formed_utf8 t → well_formed_utf8 (s ++ t).
Proof.
  induction 1; intros; cbn [app]; [done|by apply wf8_one; auto|by apply wf8_two; auto
    |by apply wf8_three; auto|by apply wf8_four; auto].
Qed.

(** The code units of a scalar value are well formed. *)
Lemma utf16_put_scalar c : scalar c → well_formed_utf16 (utf16_put [] c).
Proof.
  intros [Hc Hns]. destruct (decide (c < 0x10000)).
  - rewrite utf16_put_1 by lia. apply wf_unit; [lia|done|apply wf_end].
  - rewrite utf16_put_2 by lia. apply wf_pair; [divmod|divmod|apply wf_end].
Qed.

Lemma utf16_put_zero : utf16_put [] 0 = [].
Proof. done. Qed.

Lemma utf8_to_utf16_loop_wf s v :
  well_formed_utf16 v → well_formed_utf16 (utf8_to_utf16_loop s v).
Proof.
  assert (∀ n s, (length s ≤ n)%nat →
            ∀ v, well_formed_utf16 v → well_formed_utf16 (utf8_to_utf16_loop s v)) as Hind;
    [|by eapply Hind].
  clear. induction n as [|n IH]; intros [|x s1] Hlen v Hv; simpl in Hlen; try lia;
    rewrite ?utf8_to_utf16_loop_equation_1; try done.
  rewrite utf8_to_utf16_loop_equation_2. case_decide; [done|].
  pose proof (utf8_take_length x s1). apply IH; [lia|].
  rewrite utf16_put_acc. apply well_formed_utf16_app; [done|].
  destruct (utf8_take_scalar x s1) as [->|Hsc]; [apply wf_end|by apply utf16_put_scalar].
Qed.

(** The bytes of a scalar value are well formed. *)
Lemma utf8_put_scalar c : scalar c → well_formed_utf8 (utf8_put [] c).
Proof.
  intros [Hc Hns]. destruct (decide (c < 0x80)); [|destruct (decide (c < 0x800));
    [|destruct (decide (c < 0x10000))]].
  - rewrite utf8_put_1 by lia. apply wf8_one; [lia|apply wf8_end].
  - rewrite utf8_put_2 by lia. apply wf8_two; [divmod|divmod|apply wf8_end].
  - rewrite utf8_put_3 by lia.
    apply wf8_three; [divmod|case_decide; divmod|case_decide; divmod|divmod|apply wf8_end].
  - rewrite utf8_put_4 by lia.
    apply wf8_four; [divmod|case_decide; divmod|case_decide; divmod|divmod|divmod|apply wf8_end].
Qed.

Lemma utf8_put_zero : utf8_put [] 0 = [].
Proof. done. Qed.

Lemma scalar_fffd : scalar 0xfffd.
Proof. unfold scalar. lia. Qed.

Lemma utf16_to_utf8_loop_wf s v :
  well_formed_utf8 v → well_formed_utf8 (utf16_to_utf8_loop s v).
Proof.
  assert (∀ n s, (length s ≤ n)%nat →
            ∀ v, well_formed_utf8 v → well_formed_utf8 (utf16_to_utf8_loop s v)) as Hind;
    [|by eapply Hind].
  clear. induction n as [|n IH]; intros [|x s1] Hlen v Hv; simpl in Hlen; try lia; try done.
  cbn [utf16_to_utf8_loop]. case_decide; [done|].
  assert (∀ c, c = 0 ∨ scalar c → well_formed_utf8 (utf8_put v c)) as Hput.
  { intros c Hc. rewrite utf8_put_acc. apply well_formed_utf8_app; [done|].
    destruct Hc as [->|Hc]; [apply wf8_end|by apply utf8_put_scalar]. }
  pose proof (u16_range x) as Hw1. set (w1 := u16 x) in *. clearbody w1.
  assert (well_formed_utf8 (utf16_to_utf8_loop s1 (utf8_put v 65533))) as Hbad.
  { apply IH; [lia|]. apply Hput. right. apply scalar_fffd. }
  case_decide as Hsur; [|case_decide as Hhigh; [|done]].
  - apply IH; [lia|]. apply Hput. rewrite land_f800 in Hsur.
    destruct (decide (w1 = 0)); [by left|right]. unfold scalar. divmod.
  - destruct s1 as [|y s2]; [done|]. case_decide as Hlow; [|done].
    simpl in Hlen. apply IH; [lia|]. apply Hput. right.
    pose proof (u16_range y) as Hw2. set (w2 := u16 y) in *. clearbody w2.
    rewrite !land_3ff, shiftl_10. rewrite lor_1024 by divmod.
    rewrite u32_small by divmod. unfold scalar. divmod.
Qed.

(** ** UTF-8 to UTF-16 and back *)

Ltac list_eq :=
  repeat match goal with |- _ :: _ = _ :: _ => f_equal end; divmod.

Lemma utf16_to_utf8_loop_put c rest v :
  scalar c →
  utf16_to_utf8_loop (utf16_put [] c ++ rest) v = utf16_to_utf8_loop rest (utf8_put v c).
Proof.
  intros [Hc Hns]. destruct (decide (c < 0x10000)).
  - rewrite utf16_put_1 by lia. cbn [app]. by rewrite utf16_to_utf8_loop_unit by lia.
  - rewrite utf16_put_2 by lia. cbn [app]. rewrite utf16_to_utf8_loop_pair by divmod.
    do 2 f_equal. divmod.
Qed.

Lemma utf8_two_scalar b1 b2 :
  0xc2 ≤ b1 ≤ 0xdf → 0x80 ≤ b2 ≤ 0xbf →
  ∃ c, scalar c ∧ utf8_put [] c = [b1; b2].
Proof.
  intros H1 H2. exists ((b1 - 0xc0) * 64 + (b2 - 0x80)). split; [unfold scalar; lia|].
  rewrite utf8_put_2 by lia. cbn [app]. list_eq.
Qed.

Lemma utf8_three_scalar b1 b2 b3 :
  0xe0 ≤ b1 ≤ 0xef →
  (if decide (b1 = 0xe0) then 0xa0 else 0x80) ≤ b2 →
  b2 ≤ (if decide (b1 = 0xed) then 0x9f else 0xbf) →
  0x80 ≤ b3 ≤ 0xbf →
  ∃ c, scalar c ∧ utf8_put [] c = [b1; b2; b3].
Proof.
  intros H1 H2 H2' H3. exists ((b1 - 0xe0) * 4096 + (b2 - 0x80) * 64 + (b3 - 0x80)).
  assert (0x80 ≤ b2 ≤ 0xbf) by (repeat case_decide; lia).
  split; [unfold scalar; repeat case_decide; lia|].
  rewrite utf8_put_3 by (repeat case_decide; lia).
  cbn [app]. list_eq.
Qed.

Lemma utf8_four_scalar b1 b2 b3 b4 :
  0xf0 ≤ b1 ≤ 0xf4 →
  (if decide (b1 = 0xf0) then 0x90 else 0x80) ≤ b2 →
  b2 ≤ (if decide (b1 = 0xf4) then 0x8f else 0xbf) →
  0x80 ≤ b3 ≤ 0xbf → 0x80 ≤ b4 ≤ 0xbf →
  ∃ c, scalar c ∧ utf8_put [] c = [b1; b2; b3; b4].
Proof.
  intros H1 H2 H2' H3 H4.
  exists ((b1 - 0xf0) * 262144 + (b2 - 0x80) * 4096 + (b3 - 0x80) * 64 + (b4 - 0x80)).
  assert (0x80 ≤ b2 ≤ 0xbf) by (repeat case_decide; lia).
  split; [unfold scalar; repeat case_decide; lia|].
  rewrite utf8_put_4 by (repeat case_decide; lia).
  cbn [app]. list_eq.
Qed.

Lemma utf8_round_trip_scalar c s :
  scalar c →
  utf16_to_utf8_loop (utf8_to_utf16_loop s []) [] = s →
  utf16_to_utf8_loop (utf8_to_utf16_loop (utf8_put [] c ++ s) []) [] = utf8_put [] c ++ s.
Proof.
  intros Hc IH. pose proof Hc as [Hr Hns].
  rewrite utf8_to_utf16_loop_scalar, utf8_to_utf16_loop_app by done.
  rewrite utf16_put_acc, app_nil_l.
  rewrite utf16_to_utf8_loop_put, utf16_to_utf8_loop_app by done.
  by rewrite IH.
Qed.

Lemma utf8_round_trip_loop s :
  well_formed_utf8 s → utf16_to_utf8_loop (utf8_to_utf16_loop s []) [] = s.
Proof.
  induction 1 as [|b s Hb Hwf IH|b1 b2 s H1 H2 Hwf IH|b1 b2 b3 s H1 H2 H2' H3 Hwf IH
    |b1 b2 b3 b4 s H1 H2 H2' H3 H4 Hwf IH].
  - by rewrite utf8_to_utf16_loop_equation_1.
  - assert (scalar b) as Hsc by (unfold scalar; lia).
    pose proof (utf8_round_trip_scalar b s Hsc IH) as Hrt.
    by rewrite utf8_put_1 in Hrt by lia.
  - destruct (utf8_two_scalar b1 b2 H1 H2) as (c & Hsc & Hc).
    pose proof (utf8_round_trip_scalar c s Hsc IH) as Hrt. by rewrite Hc in Hrt.
  - destruct (utf8_three_scalar b1 b2 b3 H1 H2 H2' H3) as (c & Hsc & Hc).
    pose proof (utf8_round_trip_scalar c s Hsc IH) as Hrt. by rewrite Hc in Hrt.
  - destruct (utf8_four_scalar b1 b2 b3 b4 H1 H2 H2' H3 H4) as (c & Hsc & Hc).
    pose proof (utf8_round_trip_scalar c s Hsc IH) as Hrt. by rewrite Hc in Hrt.
Qed.

(** ** Lengths *)

Lemma cstr_pushback_length v c : (length (cstr_pushback v c) ≤ S (length v))%nat.
Proof. unfold cstr_pushback. case_decide; rewrite ?length_app; simpl; lia. Qed.

Lemma wstr_pushback_length v c : (length (wstr_pushback v c) ≤ S (length v))%nat.
Proof. unfold wstr_pushback. case_decide; rewrite ?length_app; simpl; lia. Qed.

Lemma cstr_pushback_le v c n :
  (length v ≤ n)%nat → (length (cstr_pushback v c) ≤ S n)%nat.
Proof. pose proof (cstr_pushback_length v c). lia. Qed.

Lemma wstr_pushback_le v c n :
  (length v ≤ n)%nat → (length (wstr_pushback v c) ≤ S n)%nat.
Proof. pose proof (wstr_pushback_length v c). lia. Qed.

Lemma utf8_put_length v c :
  (length (utf8_put v c) ≤ length v + 4)%nat ∧
  (c < 0x10000 → (length (utf8_put v c) ≤ length v + 3)%nat).
Proof.
  unfold utf8_put. change (Z.shiftl 1 7) with 128. change (Z.shiftl 1 11) with 2048.
  change (Z.shiftl 1 16) with 65536.
  replace (length v + 4)%nat with (S (S (S (S (length v))))) by lia.
  replace (length v + 3)%nat with (S (S (S (length v)))) by lia.
  split; [|intros Hc]; repeat case_decide; cbn zeta; try lia;
    repeat apply cstr_pushback_le; lia.
Qed.

Lemma utf16_put_length v c :
  (length (utf16_put v c) ≤ length v + 2)%nat ∧
  (c < 0x10000 → (length (utf16_put v c) ≤ length v + 1)%nat).
Proof.
  unfold utf16_put.
  replace (length v + 2)%nat with (S (S (length v))) by lia.
  replace (length v + 1)%nat with (S (length v)) by lia.
  split; [|intros Hc]; repeat case_decide; cbn zeta; try lia;
    repeat apply wstr_pushback_le; lia.
Qed.

Lemma utf16_to_utf8_loop_length s v :
  (length (utf16_to_utf8_loop s v) ≤ length v + 3 * length s)%nat.
Proof.
  assert (∀ n s, (length s ≤ n)%nat →
            ∀ v, (length (utf16_to_utf8_loop s v) ≤ length v + 3 * length s)%nat) as Hind;
    [|by eapply Hind].
  clear. induction n as [|n IH]; intros [|x s1] Hlen v; simpl in Hlen; try lia;
    try (simpl; lia).
  cbn [utf16_to_utf8_loop length]. case_decide; [lia|].
  assert (∀ c, c < 0x10000 →
            (length (utf16_to_utf8_loop s1 (utf8_put v c)) ≤ length v + 3 * S (length s1))%nat)
    as Hs1.
  { intros c Hc. etrans; [apply IH; lia|]. destruct (utf8_put_length v c) as [_ Hl].
    specialize (Hl Hc). lia. }
  pose proof (u16_range x).
  case_decide; [apply Hs1; lia|]. case_decide; [|apply Hs1; lia].
  destruct s1 as [|y s2]; [apply Hs1; lia|]. case_decide; [|apply Hs1; lia].
  simpl in Hlen. etrans; [apply IH; lia|].
  match goal with |- context [utf8_put v ?c] => destruct (utf8_put_length v c) as [Hl _] end.
  simpl. lia.
Qed.

(** A turn of the [for] loop that does not end in U+FFFD takes a
    byte. *)
Lemma utf8_follow_long k i b c s :
  0x10000 ≤ (utf8_follow (S k) i b c s).1 →
  (length (utf8_follow (S k) i b c s).2 < length s)%nat.
Proof.
  cbn [utf8_follow]. cbn zeta.
  match goal with
  | |- context [decide (?P ∨ ?Q)] => destruct (decide (P ∨ Q)) as [Hout|Hin]
  end; cbn [fst snd]; [lia|].
  intros _. destruct s as [|y s].
  - exfalso. apply Hin. left. change (u8 (peek [])) with 0. repeat case_decide; lia.
  - cbn [tail length]. apply Nat.lt_succ_r, utf8_follow_length.
Qed.

(** Two code units are put only after followers were taken. *)
Lemma utf8_take_long x s :
  0x10000 ≤ (utf8_take x s).1 → (length (utf8_take x s).2 < length s)%nat.
Proof.
  unfold utf8_take. pose proof (u8_range x) as Hb. set (b := u8 x) in *. clearbody b.
  unfold utf8_lead. repeat case_decide; cbn [fst snd]; try (cbn; lia);
    apply utf8_follow_long.
Qed.

Lemma utf8_to_utf16_loop_length s v :
  (length (utf8_to_utf16_loop s v) ≤ length v + length s)%nat.
Proof.
  assert (∀ n s, (length s ≤ n)%nat →
            ∀ v, (length (utf8_to_utf16_loop s v) ≤ length v + length s)%nat) as Hind;
    [|by eapply Hind].
  clear. induction n as [|n IH]; intros [|x s1] Hlen v; simpl in Hlen; try lia;
    rewrite ?utf8_to_utf16_loop_equation_1; try (simpl; lia).
  rewrite utf8_to_utf16_loop_equation_2. cbn [length]. case_decide; [lia|].
  pose proof (utf8_take_length x s1) as Hshort. pose proof (utf8_take_long x s1) as Hlong.
  etrans; [apply IH; lia|].
  destruct (utf16_put_length v (utf8_take x s1).1) as [H2 H1].
  destruct (decide ((utf8_take x s1).1 < 0x10000)); [specialize (H1 ltac:(done)); lia|].
  specialize (Hlong ltac:(lia)). lia.
Qed.

(** ** ASCII *)

Lemma utf16_to_utf8_loop_ascii s :
  Forall (λ x, 0 < x < 0x80) s → utf16_to_utf8_loop s [] = s.
Proof.
  induction 1 as [|x s Hx Hs IH]; [done|].
  rewrite utf16_to_utf8_loop_unit, utf16_to_utf8_loop_app, utf8_put_1 by lia.
  by rewrite IH.
Qed.

Lemma utf8_to_utf16_loop_ascii s :
  Forall (λ x, 0 < x < 0x80) s → utf8_to_utf16_loop s [] = s.
Proof.
  induction 1 as [|x s Hx Hs IH]; [by rewrite utf8_to_utf16_loop_equation_1|].
  rewrite utf8_to_utf16_loop_equation_2. rewrite decide_False by lia.
  rewrite utf8_take_1 by lia. cbn [fst snd].
  rewrite utf8_to_utf16_loop_app, utf16_put_1 by lia. by rewrite IH.
Qed.

(** ** [chinese_to_unicode] *)

Lemma chinese_to_unicode_loop_app table s v :
  chinese_to_unicode_loop table s v = v ++ chinese_to_unicode_loop table s [].
Proof.
  assert (∀ n s, (length s ≤ n)%nat →
            ∀ v, chinese_to_unicode_loop table s v = v ++ chinese_to_unicode_loop table s [])
    as Hind; [|by eapply Hind].
  clear. induction n as [|n IH]; intros [|x s1] Hlen v; simpl in Hlen;
    try lia; try (by rewrite app_nil_r).
  cbn [chinese_to_unicode_loop]. case_decide; [by rewrite app_nil_r|].
  assert (∀ c, chinese_to_unicode_loop table s1 (wstr_pushback v c) =
               v ++ chinese_to_unicode_loop table s1 (wstr_pushback [] c)) as Hs1.
  { intros c. rewrite (IH s1), (IH s1 ltac:(lia) (wstr_pushback [] c)),
      (wstr_pushback_app v) by lia. by rewrite app_assoc. }
  cbn zeta. case_decide; [apply Hs1|].
  destruct s1 as [|y s2]; [apply Hs1|]. case_decide; [|apply Hs1].
  simpl in Hlen.
  rewrite (IH s2), (IH s2 ltac:(lia) (wstr_pushback [] _)), (wstr_pushback_app v) by lia.
  by rewrite app_assoc.
Qed.

Lemma chinese_to_unicode_loop_ascii table s :
  Forall (λ x, 0 < x < 0x80) s → chinese_to_unicode_loop table s [] = s.
Proof.
  induction 1 as [|x s Hx Hs IH]; [done|].
  cbn [chinese_to_unicode_loop]. rewrite decide_False by lia. cbn zeta.
  rewrite u8_small by lia. rewrite decide_True by lia.
  rewrite chinese_to_unicode_loop_app, wstr_pushback_unit by lia. by rewrite IH.
Qed.

Lemma lor_256 a y : 0 ≤ y < 256 → Z.lor (a * 256) y = a * 256 + y.
Proof. apply (lor_add a 8 y). lia. Qed.

Lemma shiftl_8 x : Z.shiftl x 8 = x * 256.
Proof. apply (Z.shiftl_mul_pow2 x 8). lia. Qed.

Lemma chinese_to_unicode_loop_table table table' s v :
  (∀ i, 0 ≤ i < 0x8000 → table i = table' i) →
  chinese_to_unicode_loop table s v = chinese_to_unicode_loop table' s v.
Proof.
  intros Htable.
  assert (∀ n s, (length s ≤ n)%nat →
            ∀ v, chinese_to_unicode_loop table s v = chinese_to_unicode_loop table' s v)
    as Hind; [|by eapply Hind].
  clear s v. induction n as [|n IH]; intros [|x s1] Hlen v; simpl in Hlen; try lia; try done.
  cbn [chinese_to_unicode_loop]. case_decide; [done|]. cbn zeta.
  pose proof (u8_range x).
  case_decide; [apply IH; lia|].
  destruct s1 as [|y s2]; [apply IH; simpl; lia|]. case_decide; [|apply IH; lia].
  pose proof (u8_range y). simpl in Hlen.
  rewrite shiftl_8, lor_256 by done. rewrite Htable by lia. apply IH. lia.
Qed.

Lemma chinese_to_unicode_loop_length table s v :
  (length (chinese_to_unicode_loop table s v) ≤ length v + length s)%nat.
Proof.
  assert (∀ n s, (length s ≤ n)%nat →
            ∀ v, (length (chinese_to_unicode_loop table s v) ≤ length v + length s)%nat)
    as Hind; [|by eapply Hind].
  clear. induction n as [|n IH]; intros [|x s1] Hlen v; simpl in Hlen; try lia;
    try (simpl; lia).
  cbn [chinese_to_unicode_loop length]. case_decide; [lia|]. cbn zeta.
  assert (∀ c, (length (chinese_to_unicode_loop table s1 (wstr_pushback v c))
                ≤ length v + S (length s1))%nat) as Hs1.
  { intros c. etrans; [apply IH; lia|]. pose proof (wstr_pushback_length v c). lia. }
  case_decide; [apply Hs1|].
  destruct s1 as [|y s2]; [apply Hs1|]. case_decide; [|apply Hs1].
  simpl in Hlen. etrans; [apply IH; lia|].
  match goal with |- context [wstr_pushback v ?c] => pose proof (wstr_pushback_length v c) end.
  simpl. lia.
Qed.

(** ** The terminator *)

Lemma utf16_to_utf8_loop_stop s t v :
  Forall (λ x, x ≠ 0) s →
  utf16_to_utf8_loop (s ++ 0 :: t) v = utf16_to_utf8_loop s v.
Proof.
  assert (∀ n s, (length s ≤ n)%nat → Forall (λ x, x ≠ 0) s →
            ∀ v, utf16_to_utf8_loop (s ++ 0 :: t) v = utf16_to_utf8_loop s v) as Hind;
    [|intros; by eapply Hind].
  clear s v. induction n as [|n IH]; intros [|x s1] Hlen Hs v; simpl in Hlen; try lia;
    try done.
  apply Forall_cons in Hs as [Hx Hs1].
  cbn [app utf16_to_utf8_loop]. rewrite !(decide_False (P := x = 0)) by done.
  case_decide; [apply IH; [lia|done]|]. case_decide; [|apply IH; [lia|done]].
  destruct s1 as [|y s2].
  - cbn [app]. change (u16 0) with 0. by rewrite decide_False by done.
  - apply Forall_cons in Hs1 as [Hy Hs2]. simpl in Hlen. cbn [app].
    case_decide; [apply IH; [lia|done]|].
    apply (IH (y :: s2)); [simpl; lia|by apply Forall_cons].
Qed.

Lemma utf8_follow_stop k i b c s t :
  utf8_follow k i b c (s ++ 0 :: t) =
  ((utf8_follow k i b c s).1, (utf8_follow k i b c s).2 ++ 0 :: t).
Proof.
  revert i b c s. induction k as [|k IH]; intros i b c s; [done|].
  cbn [utf8_follow]. cbn zeta. destruct s as [|y s]; cbn [app peek hd tail].
  - change (u8 0) with 0. rewrite !(decide_True (P := _ ∨ _)); [done|..];
      left; repeat case_decide; lia.
  - case_decide; [done|]. apply IH.
Qed.

Lemma utf8_follow_Forall (P : Z → Prop) k i b c s :
  Forall P s → Forall P (utf8_follow k i b c s).2.
Proof.
  revert i b c s. induction k as [|k IH]; intros i b c s Hs; [done|].
  cbn [utf8_follow]. cbn zeta. case_decide; [done|]. apply IH.
  destruct Hs; [done|done].
Qed.

Lemma utf8_to_utf16_loop_stop s t v :
  Forall (λ x, x ≠ 0) s →
  utf8_to_utf16_loop (s ++ 0 :: t) v = utf8_to_utf16_loop s v.
Proof.
  assert (∀ n s, (length s ≤ n)%nat → Forall (λ x, x ≠ 0) s →
            ∀ v, utf8_to_utf16_loop (s ++ 0 :: t) v = utf8_to_utf16_loop s v) as Hind;
    [|intros; by eapply Hind].
  clear s v. induction n as [|n IH]; intros [|x s1] Hlen Hs v; simpl in Hlen; try lia.
  - cbn [app]. rewrite utf8_to_utf16_loop_equation_2, utf8_to_utf16_loop_equation_1.
    by rewrite decide_True by done.
  - cbn [app]. rewrite utf8_to_utf16_loop_equation_2, utf8_to_utf16_loop_equation_1.
    by rewrite decide_True by done.
  - apply Forall_cons in Hs as [Hx Hs1]. cbn [app].
    rewrite !utf8_to_utf16_loop_equation_2. rewrite !(decide_False (P := x = 0)) by done.
    unfold utf8_take. rewrite utf8_follow_stop. cbn [fst snd].
    apply IH; [|by apply utf8_follow_Forall].
    pose proof (utf8_follow_length (utf8_lead (u8 x)).1 1 (u8 x) (utf8_lead (u8 x)).2 s1). lia.
Qed.

Lemma chinese_to_unicode_loop_stop table s t v :
  Forall (λ x, x ≠ 0) s →
  chinese_to_unicode_loop table (s ++ 0 :: t) v = chinese_to_unicode_loop table s v.
Proof.
  assert (∀ n s, (length s ≤ n)%nat → Forall (λ x, x ≠ 0) s →
            ∀ v, chinese_to_unicode_loop table (s ++ 0 :: t) v
                 = chinese_to_unicode_loop table s v) as Hind;
    [|intros; by eapply Hind].
  clear s v. induction n as [|n IH]; intros [|x s1] Hlen Hs v; simpl in Hlen; try lia;
    try done.
  apply Forall_cons in Hs as [Hx Hs1].
  cbn [app chinese_to_unicode_loop]. rewrite !(decide_False (P := x = 0)) by done. cbn zeta.
  case_decide; [apply IH; [lia|done]|].
  destruct s1 as [|y s2].
  - cbn [app]. by rewrite decide_False by (by intros ?).
  - apply Forall_cons in Hs1 as [Hy Hs2]. simpl in Hlen. cbn [app].
    rewrite !(decide_True (P := y ≠ 0)) by done. apply IH; [lia|done].
Qed.

(** ** What is put for input that is not well formed *)

Lemma utf8_put_fffd v : utf8_put v 0xfffd = v ++ [0xef; 0xbf; 0xbd].
Proof. by rewrite utf8_put_3 by lia. Qed.

Lemma utf16_to_utf8_loop_low w s v :
  0xdc00 ≤ w ≤ 0xdfff →
  utf16_to_utf8_loop (w :: s) v = utf16_to_utf8_loop s (v ++ [0xef; 0xbf; 0xbd]).
Proof.
  intros Hw. cbn [utf16_to_utf8_loop]. rewrite decide_False by lia.
  rewrite u16_small by lia. rewrite land_f800, land_fc00.
  rewrite decide_False by divmod. rewrite decide_False by divmod.
  by rewrite utf8_put_fffd.
Qed.

Lemma utf16_to_utf8_loop_high w s v :
  0xd800 ≤ w ≤ 0xdbff → ¬ (0xdc00 ≤ u16 (peek s) ≤ 0xdfff) →
  utf16_to_utf8_loop (w :: s) v = utf16_to_utf8_loop s (v ++ [0xef; 0xbf; 0xbd]).
Proof.
  intros Hw Hs. cbn [utf16_to_utf8_loop]. rewrite decide_False by lia.
  rewrite u16_small by lia. rewrite land_f800, land_fc00.
  rewrite decide_False by divmod. rewrite decide_True by divmod.
  destruct s as [|y s2]; [by rewrite utf8_put_fffd|].
  cbn [peek hd] in Hs. pose proof (u16_range y).
  rewrite land_fc00. rewrite decide_False by divmod. by rewrite utf8_put_fffd.
Qed.

Lemma utf8_to_utf16_loop_bad_lead b s v :
  0x80 ≤ b ≤ 0xc1 ∨ 0xf5 ≤ b ≤ 0xff →
  utf8_to_utf16_loop (b :: s) v = utf8_to_utf16_loop s (v ++ [0xfffd]).
Proof.
  intros Hb. rewrite utf8_to_utf16_loop_equation_2. rewrite decide_False by lia.
  unfold utf8_take. rewrite u8_small by lia.
  unfold utf8_lead. repeat case_decide; try lia; cbn [fst snd utf8_follow];
    by rewrite utf16_put_1 by lia.
Qed.

Lemma utf8_to_utf16_loop_bad_follower b s v :
  0xc2 ≤ b ≤ 0xf4 →
  ¬ ((if decide (b = 0xe0) then 0xa0 else if decide (b = 0xf0) then 0x90 else 0x80)
       ≤ u8 (peek s)
       ≤ (if decide (b = 0xed) then 0x9f else if decide (b = 0xf4) then 0x8f else 0xbf)) →
  utf8_to_utf16_loop (b :: s) v = utf8_to_utf16_loop s (v ++ [0xfffd]).
Proof.
  intros Hb Hs. rewrite utf8_to_utf16_loop_equation_2. rewrite decide_False by lia.
  unfold utf8_take. rewrite u8_small by lia.
  assert (∀ k c, utf8_follow (S k) 1 b c s = (0xfffd, s)) as Hturn.
  { intros k c. cbn [utf8_follow]. cbn zeta. rewrite !(decide_True (P := 1 = 1)) by done.
    by rewrite (decide_True (P := _ ∨ _)) by lia. }
  unfold utf8_lead. repeat case_decide; try lia; cbn [fst snd]; rewrite Hturn;
    cbn [fst snd]; by rewrite utf16_put_1 by lia.
Qed.

End WStrMore.

(** * Further properties of the converters *)

Module WStrExtras.
Import WStr WStrProofs WStrMore.

(** X21.  For every well-formed UTF-8 string (the byte ranges of the
    Unicode standard, no zero byte), converting to UTF-16 and back
    gives the string again. *)
Theorem utf8_utf16_round_trip (s : list Z) :
  well_formed_utf8 s →
  utf16_to_utf8 (utf8_to_utf16 s) = s.
Proof.
  intros Hwf. unfold utf8_to_utf16, utf16_to_utf8, wstr_mdtor, cstr_mdtor.
  by apply utf8_round_trip_loop.
Qed.

Lemma utf8_utf16_round_trip_witness :
  well_formed_utf8 [0x41; 0xc3; 0xa9; 0xe4; 0xb8; 0xad; 0xf0; 0x9f; 0x98; 0x80] ∧
  utf16_to_utf8 (utf8_to_utf16 [0x41; 0xc3; 0xa9; 0xe4; 0xb8; 0xad; 0xf0; 0x9f; 0x98; 0x80])
    = [0x41; 0xc3; 0xa9; 0xe4; 0xb8; 0xad; 0xf0; 0x9f; 0x98; 0x80].
Proof.
  assert (well_formed_utf8 [0x41; 0xc3; 0xa9; 0xe4; 0xb8; 0xad; 0xf0; 0x9f; 0x98; 0x80])
    as Hwf.
  { apply wf8_one; [lia|]. apply wf8_two; [lia|lia|].
    apply wf8_three; [lia|simpl; lia|simpl; lia|lia|].
    apply wf8_four; [lia|simpl; lia|simpl; lia|lia|lia|]. apply wf8_end. }
  split; [done|]. apply (utf8_utf16_round_trip _ Hwf).
Defined.

(** X22.  Whatever bytes it is given, [utf8_to_utf16] returns
    well-formed UTF-16: no surrogate outside a pair of a high one
    followed by a low one. *)
Theorem utf8_to_utf16_well_formed (s : list Z) :
  well_formed_utf16 (utf8_to_utf16 s).
Proof. unfold utf8_to_utf16, wstr_mdtor. apply utf8_to_utf16_loop_wf. apply wf_end. Qed.

(** X23.  Whatever code units it is given, [utf16_to_utf8] returns
    well-formed UTF-8: no overlong form, no surrogate, nothing above
    U+10FFFF. *)
Theorem utf16_to_utf8_well_formed (s : list Z) :
  well_formed_utf8 (utf16_to_utf8 s).
Proof. unfold utf16_to_utf8, cstr_mdtor. apply utf16_to_utf8_loop_wf. apply wf8_end. Qed.

(** X24.  What a converter returns survives a round trip: converting
    the UTF-16 that [utf8_to_utf16] returns to UTF-8 and back gives it
    again, and so for the UTF-8 that [utf16_to_utf8] returns. *)
Theorem converted_round_trips (s : list Z) :
  utf8_to_utf16 (utf16_to_utf8 (utf8_to_utf16 s)) = utf8_to_utf16 s ∧
  utf16_to_utf8 (utf8_to_utf16 (utf16_to_utf8 s)) = utf16_to_utf8 s.
Proof.
  unfold utf8_to_utf16, utf16_to_utf8, wstr_mdtor, cstr_mdtor. split.
  - rewrite utf8_to_utf16_loop_encoded; [done|].
    apply utf8_to_utf16_loop_wf, wf_end.
  - apply utf8_round_trip_loop, utf16_to_utf8_loop_wf, wf8_end.
Qed.

(** X25.  [utf16_to_utf8] returns at most three bytes for each code
    unit it is given; [utf8_to_utf16] and [chinese_to_unicode] return
    at most one code unit for each byte. *)
Theorem converted_length (s : list Z) (table : Z → Z) :
  (length (utf16_to_utf8 s) ≤ 3 * length s)%nat ∧
  (length (utf8_to_utf16 s) ≤ length s)%nat ∧
  (length (chinese_to_unicode s table) ≤ length s)%nat.
Proof.
  unfold utf8_to_utf16, utf16_to_utf8, chinese_to_unicode, wstr_mdtor, cstr_mdtor.
  split; [|split].
  - apply (utf16_to_utf8_loop_length s []).
  - apply (utf8_to_utf16_loop_length s []).
  - apply (chinese_to_unicode_loop_length table s []).
Qed.

(** X26.  On a string of ASCII characters (1 to 127) the three
    converters return the string as it is. *)
Theorem ascii_unchanged (s : list Z) (table : Z → Z) :
  Forall (λ x, 0 < x < 0x80) s →
  utf16_to_utf8 s = s ∧ utf8_to_utf16 s = s ∧ chinese_to_unicode s table = s.
Proof.
  intros Hs.
  unfold utf8_to_utf16, utf16_to_utf8, chinese_to_unicode, wstr_mdtor, cstr_mdtor.
  split; [by apply utf16_to_utf8_loop_ascii|].
  split; [by apply utf8_to_utf16_loop_ascii|by apply chinese_to_unicode_loop_ascii].
Qed.

Lemma ascii_unchanged_witness :
  Forall (λ x, 0 < x < 0x80) [0x50; 0x41; 0x4c] ∧
  utf16_to_utf8 [0x50; 0x41; 0x4c] = [0x50; 0x41; 0x4c] ∧
  utf8_to_utf16 [0x50; 0x41; 0x4c] = [0x50; 0x41; 0x4c] ∧
  chinese_to_unicode [0x50; 0x41; 0x4c] (λ _, 0x4e2d) = [0x50; 0x41; 0x4c].
Proof.
  assert (Forall (λ x, 0 < x < 0x80) [0x50; 0x41; 0x4c]) as Hs
    by (repeat constructor; lia).
  split; [done|]. apply (ascii_unchanged _ (λ _, 0x4e2d) Hs).
Defined.

(** X27.  The three converters stop at the first zero: what follows it
    in memory does not change what they return. *)
Theorem conversion_stops_at_terminator (s t : list Z) (table : Z → Z) :
  Forall (λ x, x ≠ 0) s →
  utf16_to_utf8 (s ++ 0 :: t) = utf16_to_utf8 s ∧
  utf8_to_utf16 (s ++ 0 :: t) = utf8_to_utf16 s ∧
  chinese_to_unicode (s ++ 0 :: t) table = chinese_to_unicode s table.
Proof.
  intros Hs.
  unfold utf8_to_utf16, utf16_to_utf8, chinese_to_unicode, wstr_mdtor, cstr_mdtor.
  split; [by apply utf16_to_utf8_loop_stop|].
  split; [by apply utf8_to_utf16_loop_stop|by apply chinese_to_unicode_loop_stop].
Qed.

Lemma conversion_stops_at_terminator_witness :
  Forall (λ x, x ≠ 0) [0x41; 0xe9] ∧
  utf16_to_utf8 ([0x41; 0xe9] ++ 0 :: [0x42]) = utf16_to_utf8 [0x41; 0xe9] ∧
  utf8_to_utf16 ([0x41; 0xe9] ++ 0 :: [0x42]) = utf8_to_utf16 [0x41; 0xe9] ∧
  chinese_to_unicode ([0x41; 0xe9] ++ 0 :: [0x42]) (λ _, 0x4e2d) =
    chinese_to_unicode [0x41; 0xe9] (λ _, 0x4e2d).
Proof.
  assert (Forall (λ x, x ≠ 0) [0x41; 0xe9]) as Hs by (repeat constructor; lia).
  split; [done|]. apply (conversion_stops_at_terminator _ [0x42] (λ _, 0x4e2d) Hs).
Defined.

(** X28.  [utf16_to_utf8] replaces a surrogate that is not part of a
    pair by U+FFFD, the three bytes EF BF BD, and goes on with the next
    code unit: a low surrogate that comes first, and a high surrogate
    that no low surrogate follows. *)
Theorem lone_surrogate_replaced (w : Z) (s : list Z) :
  0xdc00 ≤ w ≤ 0xdfff ∨
  (0xd800 ≤ w ≤ 0xdbff ∧ ¬ (0xdc00 ≤ u16 (peek s) ≤ 0xdfff)) →
  utf16_to_utf8 (w :: s) = [0xef; 0xbf; 0xbd] ++ utf16_to_utf8 s.
Proof.
  intros Hw. unfold utf16_to_utf8, cstr_mdtor.
  destruct Hw as [Hlow|[Hhigh Hnext]].
  - rewrite utf16_to_utf8_loop_low by done. apply utf16_to_utf8_loop_app.
  - rewrite utf16_to_utf8_loop_high by done. apply utf16_to_utf8_loop_app.
Qed.

Lemma lone_surrogate_replaced_witness :
  (0xdc00 ≤ 0xd83d ≤ 0xdfff ∨
   (0xd800 ≤ 0xd83d ≤ 0xdbff ∧ ¬ (0xdc00 ≤ u16 (peek [0x41]) ≤ 0xdfff))) ∧
  utf16_to_utf8 (0xd83d :: [0x41]) = [0xef; 0xbf; 0xbd] ++ utf16_to_utf8 [0x41].
Proof.
  assert (0xdc00 ≤ 0xd83d ≤ 0xdfff ∨
          (0xd800 ≤ 0xd83d ≤ 0xdbff ∧ ¬ (0xdc00 ≤ u16 (peek [0x41]) ≤ 0xdfff))) as Hw.
  { right. split; [lia|]. vm_compute. intros [H _]. by apply H. }
  split; [done|]. apply (lone_surrogate_replaced _ [0x41] Hw).
Defined.

(** X29.  [utf8_to_utf16] replaces a byte that cannot start a sequence
    (80 to C1, F5 to FF), and a lead byte whose first follower is out
    of its range, by U+FFFD, and goes on with the next byte. *)
Theorem invalid_utf8_replaced (b : Z) (s : list Z) :
  (0x80 ≤ b ≤ 0xc1 ∨ 0xf5 ≤ b ≤ 0xff) ∨
  (0xc2 ≤ b ≤ 0xf4 ∧
   ¬ ((if decide (b = 0xe0) then 0xa0 else if decide (b = 0xf0) then 0x90 else 0x80)
        ≤ u8 (peek s)
        ≤ (if decide (b = 0xed) then 0x9f else if decide (b = 0xf4) then 0x8f else 0xbf))) →
  utf8_to_utf16 (b :: s) = 0xfffd :: utf8_to_utf16 s.
Proof.
  intros Hb. unfold utf8_to_utf16, wstr_mdtor.
  destruct Hb as [Hlead|[Hlead Hnext]].
  - rewrite utf8_to_utf16_loop_bad_lead by done. apply (utf8_to_utf16_loop_app s [0xfffd]).
  - rewrite utf8_to_utf16_loop_bad_follower by done.
    apply (utf8_to_utf16_loop_app s [0xfffd]).
Qed.

Lemma invalid_utf8_replaced_witness :
  ((0x80 ≤ 0xc0 ≤ 0xc1 ∨ 0xf5 ≤ 0xc0 ≤ 0xff) ∨
   (0xc2 ≤ 0xc0 ≤ 0xf4 ∧
    ¬ ((if decide (0xc0 = 0xe0) then 0xa0 else if decide (0xc0 = 0xf0) then 0x90 else 0x80)
         ≤ u8 (peek [0xaf])
         ≤ (if decide (0xc0 = 0xed) then 0x9f
            else if decide (0xc0 = 0xf4) then 0x8f else 0xbf)))) ∧
  utf8_to_utf16 (0xc0 :: [0xaf]) = 0xfffd :: utf8_to_utf16 [0xaf].
Proof.
  assert ((0x80 ≤ 0xc0 ≤ 0xc1 ∨ 0xf5 ≤ 0xc0 ≤ 0xff) ∨
          (0xc2 ≤ 0xc0 ≤ 0xf4 ∧
           ¬ ((if decide (0xc0 = 0xe0) then 0xa0
               else if decide (0xc0 = 0xf0) then 0x90 else 0x80)
                ≤ u8 (peek [0xaf])
                ≤ (if decide (0xc0 = 0xed) then 0x9f
                   else if decide (0xc0 = 0xf4) then 0x8f else 0xbf)))) as Hb.
  { left. left. lia. }
  split; [done|]. apply (invalid_utf8_replaced _ [0xaf] Hb).
Defined.

(** X30.  [chinese_to_unicode] reads its table at the indices 0 to
    32767 only: two tables that agree there give the same string. *)
Theorem chinese_table_range (s : list Z) (table table' : Z → Z) :
  (∀ i, 0 ≤ i < 0x8000 → table i = table' i) →
  chinese_to_unicode s table = chinese_to_unicode s table'.
Proof.
  intros Htable. unfold chinese_to_unicode, wstr_mdtor.
  by apply chinese_to_unicode_loop_table.
Qed.

Lemma chinese_table_range_witness :
  (∀ i, 0 ≤ i < 0x8000 → (λ i, if decide (i < 0x8000) then 0x4e2d else 0) i =
                          (λ _ : Z, 0x4e2d) i) ∧
  chinese_to_unicode [0xd6; 0xd0] (λ i, if decide (i < 0x8000) then 0x4e2d else 0) =
  chinese_to_unicode [0xd6; 0xd0] (λ _, 0x4e2d).
Proof.
  assert (∀ i, 0 ≤ i < 0x8000 → (λ i, if decide (i < 0x8000) then 0x4e2d else 0) i =
                                 (λ _ : Z, 0x4e2d) i) as Htable.
  { intros i Hi. simpl. by rewrite decide_True by lia. }
  split; [done|]. apply (chinese_table_range [0xd6; 0xd0] _ _ Htable).
Defined.

End WStrExtras.
